(** * Concurrent session orchestrator: a shallow embedding

    The development follows the JavaScript sources class by class:

    - [ConcurrentMonitor]     src/utils/concurrent-monitor.js
    - [ErrorHandler]          src/utils/error-handler.js
    - [BrowserSessionManager] src/browser/session-manager.js
    - [TestExecutor]          src/core/test-executor.js
    - [WaitingPage]           src/pages/waiting-page.js
    - [FlowManager]           src/core/flow-manager.js
    - [LoadTest]              src/core/test-executor.js (executeLoad)
    - [ReportGenerator]       src/reports/report-generator.js
    - [KoreanReportGenerator] src/utils/korean-report-generator.js
    - [PerformanceMonitor]    src/utils/performance.js
    - [TestDataGenerator]     src/data/index.js
    - [Logger]                src/utils/logger.js
    - [Cli]                   cli.js
    - [TestManagerService]    src/web/services/test-manager.service.js

    [MonitorLog], [MonitoredRun], [EmptyBatches], [SummaryTimes],
    [RetryOutcome], [WaitingLooks], [FlowOutcome] and [TabMode] hold
    the notions the later properties of these classes are stated with.

    Conventions.  Millisecond quantities and counters that JavaScript
    holds in a number are [Z]; indices and lengths are [nat].  A JS
    [Map] keyed by strings is a [gmap string _]; an object literal used
    as a table is the [gmap] of its own properties, and a read of a key
    it does not have finds the member of [Object.prototype] of that
    name, if there is one.  JavaScript runs the
    body of a function without interruption up to its next [await], so
    every synchronous method is one state transformer, and an [async]
    method is cut into the atomic segments between its awaits.  Reads
    of [Date.now()] are explicit arguments. *)

From Stdlib Require Import ZArith QArith_base Ascii String List Lia.
From Equations Require Import Equations.
From stdpp Require Import base tactics option list gmap sets fin_sets strings pretty.

Local Open Scope Z_scope.
#[local] Set Warnings "-clear-no-such-hyp".

(** ** JavaScript string helpers used by the sources *)

Module JsString.

(** [String.prototype.toLowerCase], on the ASCII letters. *)
Definition lower_ascii (c : ascii) : ascii :=
  let n := nat_of_ascii c in
  if (Nat.leb 65 n && Nat.leb n 90)%bool then ascii_of_nat (n + 32)%nat else c.

Fixpoint toLowerCase (s : string) : string :=
  match s with
  | EmptyString => EmptyString
  | String c r => String (lower_ascii c) (toLowerCase r)
  end.

Fixpoint startsWith (p s : string) : bool :=
  match p, s with
  | EmptyString, _ => true
  | String a p', String b s' => if Ascii.eqb a b then startsWith p' s' else false
  | String _ _, EmptyString => false
  end.

(** [String.prototype.includes]. *)
Fixpoint includes (s needle : string) : bool :=
  if startsWith needle s then true
  else match s with
       | EmptyString => false
       | String _ r => includes r needle
       end.

(** A string used as a condition: the empty string is falsy. *)
Definition truthy (s : string) : bool :=
  match s with EmptyString => false | _ => true end.

(** The property names of [Object.prototype].  A read [table[key]] of
    an object literal finds the member of that name when the object has
    no property [key] of its own: a function, or for [__proto__] the
    prototype itself, all of them truthy. *)
Definition Object_prototype : list string :=
  ["constructor"; "hasOwnProperty"; "isPrototypeOf"; "propertyIsEnumerable";
   "toLocaleString"; "toString"; "valueOf"; "__proto__";
   "__defineGetter__"; "__defineSetter__"; "__lookupGetter__"; "__lookupSetter__"].

Definition inherited (key : string) : bool :=
  existsb (String.eqb key) Object_prototype.

(** The message of the [TypeError] that [x.f(..)] throws when [x.f] is
    not a function, for the expression text [callee]. *)
Definition not_a_function (callee : string) : string :=
  callee +:+ " is not a function".

End JsString.

(** ** ConcurrentMonitor (src/utils/concurrent-monitor.js) *)

Module ConcurrentMonitor.

Inductive status := registered | running | completed | failed.

(** The [error] that [recordError] is given: an [Error] object, kept
    by its message, or a string. *)
Inductive error_value :=
| ErrorObject (message : string)
| Message (text : string).

(** [error.message || error]: the message when it is not empty, and the
    value itself otherwise (a string has no [message]). *)
Definition message_or_error (error : error_value) : error_value :=
  match error with
  | ErrorObject message => if JsString.truthy message then Message message else error
  | Message text => Message text
  end.

Record error_record := {
  er_step : string;
  er_message : error_value;
  er_timestamp : Z
}.

(** One value of the [sessions] map. Fields that the object literal of
    [registerSession] does not set start out [undefined], here [None]. *)
Record session := {
  sessionId : string;
  s_status : status;
  currentStep : string;
  startTime : Z;
  errors : list error_record;
  waitingEncountered : bool;
  waitTime : Z;
  index : option nat;
  actualStartTime : option Z;
  lastStepTime : option Z;
  queuePosition : option Z;
  endTime : option Z;
  duration : option Z;
  result : option string
}.

(** A value of one of the tables [stepStats], [errorsByStep] and
    [errorsByType]: a number, or the text that [+ 1] makes of a member of
    [Object.prototype], which is the text of that member followed by
    the digit 1, [ones] times. *)
Inductive cell :=
| Count (n : Z)
| Text (member : string) (ones : nat).

Record stats := {
  total : Z;
  st_running : Z;
  st_completed : Z;
  st_failed : Z;
  waiting : Z;
  stepStats : gmap string cell;
  errorsByStep : gmap string cell;
  errorsByType : gmap string cell;
  waitingPageEncounters : Z;
  avgWaitTime : Q
}.

(** The lines appended to the log file by [logEvent]. *)
Inductive log_event :=
| SESSION_REGISTERED (id : string) (total : Z)
| SESSION_STARTED (id : string) (running : Z)
| STEP_UPDATE (id step : string)
| WAITING_PAGE (id : string) (waitTime : Z) (queuePosition : Z) (totalWaiting : Z)
| WAITING_PASSED (id : string) (remainingWaiting : Z)
| SESSION_COMPLETED (id : string) (duration : Z) (completed : Z)
| SESSION_FAILED (id : string) (duration : Z) (failed : Z)
| ERROR (id step message errorType : string).

Record monitor := {
  m_stats : stats;
  sessions : gmap string session;
  logFile : list log_event
}.

(** The constructor's [this.stats] and [this.sessions]. *)
Definition initial_stats : stats := {|
  total := 0; st_running := 0; st_completed := 0; st_failed := 0; waiting := 0;
  stepStats := <["step1-course" := Count 0]> (<["step2-basic" := Count 0]>
               (<["step3-detailed" := Count 0]> (<["step4-class" := Count 0]>
               (<["step5-payment" := Count 0]> ∅))));
  errorsByStep := ∅; errorsByType := ∅;
  waitingPageEncounters := 0; avgWaitTime := Qmake 0 1
|}.

Definition new_monitor : monitor :=
  {| m_stats := initial_stats; sessions := ∅; logFile := [] |}.

Definition logEvent (e : log_event) (m : monitor) : monitor :=
  {| m_stats := m_stats m; sessions := sessions m; logFile := logFile m ++ [e] |}.

Definition set_stats (f : stats → stats) (m : monitor) : monitor :=
  {| m_stats := f (m_stats m); sessions := sessions m; logFile := logFile m |}.

Definition set_session (id : string) (s : session) (m : monitor) : monitor :=
  {| m_stats := m_stats m; sessions := <[id := s]> (sessions m); logFile := logFile m |}.

(** [table[key] = (table[key] || 0) + 1] on an object literal.  A
    number is counted up and a text gets one more digit.  A key that
    the table does not have reads [undefined], and so gives 1, unless
    [Object.prototype] has it: then the read gives that member and
    [+ 1] its text followed by 1.  The assignment makes the value a
    property of the table, except for [__proto__], whose setter ignores
    a value that is not an object. *)
Definition bump (key : string) (table : gmap string cell) : gmap string cell :=
  match table !! key with
  | Some (Count n) => <[key := Count (n + 1)]> table
  | Some (Text member ones) => <[key := Text member (S ones)]> table
  | None =>
    if String.eqb key "__proto__" then table
    else if JsString.inherited key then <[key := Text key 1]> table
    else <[key := Count 1]> table
  end.

(** The [metadata] object of [registerSession], by the properties it
    has among those of a session record, each with a value of the type
    the record holds there; other properties are outside the model. *)
Record metadata := {
  md_sessionId : option string;
  md_status : option status;
  md_currentStep : option string;
  md_startTime : option Z;
  md_errors : option (list error_record);
  md_waitingEncountered : option bool;
  md_waitTime : option Z;
  md_index : option nat;
  md_actualStartTime : option Z;
  md_lastStepTime : option Z;
  md_queuePosition : option Z;
  md_endTime : option Z;
  md_duration : option Z;
  md_result : option string
}.

(** [{}], the default of the parameter, and [{ index: i }]. *)
Definition no_metadata : metadata :=
  {| md_sessionId := None; md_status := None; md_currentStep := None;
     md_startTime := None; md_errors := None; md_waitingEncountered := None;
     md_waitTime := None; md_index := None; md_actualStartTime := None;
     md_lastStepTime := None; md_queuePosition := None; md_endTime := None;
     md_duration := None; md_result := None |}.

Definition with_index (i : nat) : metadata :=
  {| md_sessionId := None; md_status := None; md_currentStep := None;
     md_startTime := None; md_errors := None; md_waitingEncountered := None;
     md_waitTime := None; md_index := Some i; md_actualStartTime := None;
     md_lastStepTime := None; md_queuePosition := None; md_endTime := None;
     md_duration := None; md_result := None |}.

(** The object literal of [registerSession]: the seven properties it
    lists, and after them [...metadata], which replaces those it has and
    adds the others. *)
Definition registration (id : string) (md : metadata) (now : Z) : session :=
  {| sessionId := default id (md_sessionId md);
     s_status := default registered (md_status md);
     currentStep := default "init" (md_currentStep md);
     startTime := default now (md_startTime md);
     errors := default [] (md_errors md);
     waitingEncountered := default false (md_waitingEncountered md);
     waitTime := default 0 (md_waitTime md);
     index := md_index md; actualStartTime := md_actualStartTime md;
     lastStepTime := md_lastStepTime md; queuePosition := md_queuePosition md;
     endTime := md_endTime md; duration := md_duration md; result := md_result md |}.

Definition registerSession (id : string) (md : metadata) (now : Z)
    (m : monitor) : monitor :=
  let m1 := set_session id (registration id md now) m in
  let m2 := set_stats (λ st,
    {| total := total st + 1; st_running := st_running st;
       st_completed := st_completed st; st_failed := st_failed st;
       waiting := waiting st; stepStats := stepStats st;
       errorsByStep := errorsByStep st; errorsByType := errorsByType st;
       waitingPageEncounters := waitingPageEncounters st;
       avgWaitTime := avgWaitTime st |}) m1 in
  logEvent (SESSION_REGISTERED id (total (m_stats m2))) m2.

Definition startSession (id : string) (now : Z) (m : monitor) : monitor :=
  match sessions m !! id with
  | Some s =>
    let m1 := set_session id
      {| sessionId := sessionId s; s_status := running; currentStep := currentStep s;
         startTime := startTime s; errors := errors s;
         waitingEncountered := waitingEncountered s; waitTime := waitTime s;
         index := index s; actualStartTime := Some now;
         lastStepTime := lastStepTime s; queuePosition := queuePosition s;
         endTime := endTime s; duration := duration s; result := result s |} m in
    let m2 := set_stats (λ st,
      {| total := total st; st_running := st_running st + 1;
         st_completed := st_completed st; st_failed := st_failed st;
         waiting := waiting st; stepStats := stepStats st;
         errorsByStep := errorsByStep st; errorsByType := errorsByType st;
         waitingPageEncounters := waitingPageEncounters st;
         avgWaitTime := avgWaitTime st |}) m1 in
    logEvent (SESSION_STARTED id (st_running (m_stats m2))) m2
  | None => m
  end.

Definition updateSessionStep (id step : string) (now : Z) (m : monitor) : monitor :=
  match sessions m !! id with
  | Some s =>
    let m1 := set_session id
      {| sessionId := sessionId s; s_status := s_status s; currentStep := step;
         startTime := startTime s; errors := errors s;
         waitingEncountered := waitingEncountered s; waitTime := waitTime s;
         index := index s; actualStartTime := actualStartTime s;
         lastStepTime := Some now; queuePosition := queuePosition s;
         endTime := endTime s; duration := duration s; result := result s |} m in
    let m2 := set_stats (λ st,
      {| total := total st; st_running := st_running st;
         st_completed := st_completed st; st_failed := st_failed st;
         waiting := waiting st; stepStats := bump step (stepStats st);
         errorsByStep := errorsByStep st; errorsByType := errorsByType st;
         waitingPageEncounters := waitingPageEncounters st;
         avgWaitTime := avgWaitTime st |}) m1 in
    logEvent (STEP_UPDATE id step) m2
  | None => m
  end.

(** [avg = (avg * (n - 1) + waitTime) / n], with [n] the new number of
    encounters; the quotient is kept exact (a rational). *)
Definition running_average (avg : Q) (n : Z) (w : Z) : Q :=
  Qdiv (Qplus (Qmult avg (inject_Z (n - 1))) (inject_Z w)) (inject_Z n).

Definition recordWaitingPage (id : string) (wt qp : Z) (m : monitor) : monitor :=
  match sessions m !! id with
  | Some s =>
    let m1 := set_session id
      {| sessionId := sessionId s; s_status := s_status s; currentStep := currentStep s;
         startTime := startTime s; errors := errors s;
         waitingEncountered := true; waitTime := wt;
         index := index s; actualStartTime := actualStartTime s;
         lastStepTime := lastStepTime s; queuePosition := Some qp;
         endTime := endTime s; duration := duration s; result := result s |} m in
    let m2 := set_stats (λ st,
      {| total := total st; st_running := st_running st;
         st_completed := st_completed st; st_failed := st_failed st;
         waiting := waiting st + 1; stepStats := stepStats st;
         errorsByStep := errorsByStep st; errorsByType := errorsByType st;
         waitingPageEncounters := waitingPageEncounters st + 1;
         avgWaitTime :=
           running_average (avgWaitTime st) (waitingPageEncounters st + 1) wt |}) m1 in
    logEvent (WAITING_PAGE id wt qp (waiting (m_stats m2))) m2
  | None => m
  end.

Definition recordWaitingPagePassed (id : string) (m : monitor) : monitor :=
  match sessions m !! id with
  | Some s =>
    if waitingEncountered s then
      let m1 := set_stats (λ st,
        {| total := total st; st_running := st_running st;
           st_completed := st_completed st; st_failed := st_failed st;
           waiting := Z.max 0 (waiting st - 1); stepStats := stepStats st;
           errorsByStep := errorsByStep st; errorsByType := errorsByType st;
           waitingPageEncounters := waitingPageEncounters st;
           avgWaitTime := avgWaitTime st |}) m in
      logEvent (WAITING_PASSED id (waiting (m_stats m1))) m1
    else m
  | None => m
  end.

(** [session.actualStartTime || session.startTime]: [undefined] and [0]
    are both falsy. *)
Definition effective_start (s : session) : Z :=
  match actualStartTime s with
  | Some t => if t =? 0 then startTime s else t
  | None => startTime s
  end.

Definition completeSession (id : string) (success : bool) (res : string) (now : Z)
    (m : monitor) : monitor :=
  match sessions m !! id with
  | Some s =>
    let d := now - effective_start s in
    let m1 := set_session id
      {| sessionId := sessionId s;
         s_status := if success then completed else failed;
         currentStep := currentStep s;
         startTime := startTime s; errors := errors s;
         waitingEncountered := waitingEncountered s; waitTime := waitTime s;
         index := index s; actualStartTime := actualStartTime s;
         lastStepTime := lastStepTime s; queuePosition := queuePosition s;
         endTime := Some now; duration := Some d; result := Some res |} m in
    let m2 := set_stats (λ st,
      {| total := total st; st_running := Z.max 0 (st_running st - 1);
         st_completed := st_completed st; st_failed := st_failed st;
         waiting := waiting st; stepStats := stepStats st;
         errorsByStep := errorsByStep st; errorsByType := errorsByType st;
         waitingPageEncounters := waitingPageEncounters st;
         avgWaitTime := avgWaitTime st |}) m1 in
    if success then
      let m3 := set_stats (λ st,
        {| total := total st; st_running := st_running st;
           st_completed := st_completed st + 1; st_failed := st_failed st;
           waiting := waiting st; stepStats := stepStats st;
           errorsByStep := errorsByStep st; errorsByType := errorsByType st;
           waitingPageEncounters := waitingPageEncounters st;
           avgWaitTime := avgWaitTime st |}) m2 in
      logEvent (SESSION_COMPLETED id d (st_completed (m_stats m3))) m3
    else
      let m3 := set_stats (λ st,
        {| total := total st; st_running := st_running st;
           st_completed := st_completed st; st_failed := st_failed st + 1;
           waiting := waiting st; stepStats := stepStats st;
           errorsByStep := errorsByStep st; errorsByType := errorsByType st;
           waitingPageEncounters := waitingPageEncounters st;
           avgWaitTime := avgWaitTime st |}) m2 in
      logEvent (SESSION_FAILED id d (st_failed (m_stats m3))) m3
  | None => m
  end.

Definition categorizeError (errorMessage : string) : string :=
  if negb (JsString.truthy errorMessage) then "Unknown" else
  let msg := JsString.toLowerCase errorMessage in
  if JsString.includes msg "timeout" then "Timeout"
  else if (JsString.includes msg "waiting" || JsString.includes msg "queue")%bool
    then "WaitingPage"
  else if (JsString.includes msg "network" || JsString.includes msg "connection")%bool
    then "Network"
  else if (JsString.includes msg "element" || JsString.includes msg "selector")%bool
    then "UIElement"
  else if JsString.includes msg "navigation" then "Navigation"
  else if JsString.includes msg "click" then "Click"
  else "Other".

(** The [TypeError] of [categorizeError] for a value that is truthy
    and has no [toLowerCase]. *)
Definition toLowerCase_TypeError : string :=
  JsString.not_a_function "errorMessage.toLowerCase".

(** [recordError]: the monitor after the call and, when the call
    throws, the message of what it throws.  The error is pushed and
    [errorsByStep] is counted up first.  [categorizeError] then gets
    [error.message || error]: for a string it returns the type, which is
    counted and logged; for an [Error] object, which is what it gets
    when the message is empty, it throws, and neither [errorsByType]
    nor the log is written. *)
Definition recordError (id step : string) (error : error_value) (now : Z) (m : monitor)
    : monitor * option string :=
  match sessions m !! id with
  | Some s =>
    let m1 := set_session id
      {| sessionId := sessionId s; s_status := s_status s; currentStep := currentStep s;
         startTime := startTime s;
         errors := errors s ++
           [{| er_step := step; er_message := message_or_error error;
               er_timestamp := now |}];
         waitingEncountered := waitingEncountered s; waitTime := waitTime s;
         index := index s; actualStartTime := actualStartTime s;
         lastStepTime := lastStepTime s; queuePosition := queuePosition s;
         endTime := endTime s; duration := duration s; result := result s |} m in
    let m2 := set_stats (λ st,
      {| total := total st; st_running := st_running st;
         st_completed := st_completed st; st_failed := st_failed st;
         waiting := waiting st; stepStats := stepStats st;
         errorsByStep := bump step (errorsByStep st);
         errorsByType := errorsByType st;
         waitingPageEncounters := waitingPageEncounters st;
         avgWaitTime := avgWaitTime st |}) m1 in
    match message_or_error error with
    | Message text =>
      let errorType := categorizeError text in
      let m3 := set_stats (λ st,
        {| total := total st; st_running := st_running st;
           st_completed := st_completed st; st_failed := st_failed st;
           waiting := waiting st; stepStats := stepStats st;
           errorsByStep := errorsByStep st;
           errorsByType := bump errorType (errorsByType st);
           waitingPageEncounters := waitingPageEncounters st;
           avgWaitTime := avgWaitTime st |}) m2 in
      (logEvent (ERROR id step text errorType) m3, None)
    | ErrorObject _ => (m2, Some toLowerCase_TypeError)
    end
  | None => (m, None)
  end.

(** A call of one of the event methods, with the clock reading it makes. *)
Inductive event :=
| RegisterSession (id : string) (metadata : metadata) (now : Z)
| StartSession (id : string) (now : Z)
| UpdateSessionStep (id step : string) (now : Z)
| RecordWaitingPage (id : string) (waitTime queuePosition : Z)
| RecordWaitingPagePassed (id : string)
| CompleteSession (id : string) (success : bool) (res : string) (now : Z)
| RecordError (id step : string) (error : error_value) (now : Z).

Definition apply_event (m : monitor) (e : event) : monitor :=
  match e with
  | RegisterSession id md now => registerSession id md now m
  | StartSession id now => startSession id now m
  | UpdateSessionStep id step now => updateSessionStep id step now m
  | RecordWaitingPage id wt qp => recordWaitingPage id wt qp m
  | RecordWaitingPagePassed id => recordWaitingPagePassed id m
  | CompleteSession id ok res now => completeSession id ok res now m
  | RecordError id step error now => (recordError id step error now m).1
  end.

(** The monitor after a sequence of calls, whether they returned or
    threw; a snapshot ([getStats], [saveStats]) taken between two calls
    reads one of these states. *)
Definition run (evs : list event) (m : monitor) : monitor :=
  fold_left apply_event evs m.

(** The ids passed to [completeSession], in call order. *)
Definition completions (evs : list event) : list string :=
  omap (λ e, match e with CompleteSession id _ _ _ => Some id | _ => None end) evs.

(** The ids passed to [registerSession], in call order. *)
Definition registrations (evs : list event) : list string :=
  omap (λ e, match e with RegisterSession id _ _ => Some id | _ => None end) evs.

(** The snapshot invariant on the aggregate counters. *)
Definition counters_ok (m : monitor) : Prop :=
  st_completed (m_stats m) + st_failed (m_stats m) ≤ total (m_stats m) ∧
  0 ≤ st_running (m_stats m).

(** The ids whose [completeSession] call took effect are tracked in
    [done]; this relates them to the counters. *)
Definition mon_inv (m : monitor) (done : gset string) : Prop :=
  st_completed (m_stats m) + st_failed (m_stats m) = Z.of_nat (size done) ∧
  done ⊆ dom (sessions m) ∧
  Z.of_nat (size (dom (sessions m))) ≤ total (m_stats m) ∧
  0 ≤ st_running (m_stats m).

Definition newly_done (m : monitor) (e : event) : gset string :=
  match e with
  | CompleteSession id _ _ _ => if sessions m !! id is Some _ then {[id]} else ∅
  | _ => ∅
  end.

End ConcurrentMonitor.

(** ** ErrorHandler (src/utils/error-handler.js) *)

Module ErrorHandler.

Inductive outcome := Returned (value : string) | Thrown (message : string).

Record error_entry := { e_step : string; e_message : string }.

Record handler := {
  retryAttempts : gmap string nat;
  performanceMonitor : option (list error_entry);
  waited : list Z;
  retried : nat
}.

Definition currentAttempts (h : handler) (operation : string) : nat :=
  default 0%nat (retryAttempts h !! operation).

Definition backoffDelay (attempts : nat) : Z :=
  Z.min (1000 * 2 ^ Z.of_nat attempts) 10000.

Definition exhausted_message (operation : string) (maxRetries : nat) (message : string) : string :=
  "Network error in " +:+ operation +:+ " after " +:+ pretty maxRetries +:+ " retries: " +:+ message.

Definition recordError (e : error_entry) (h : handler) : handler :=
  {| retryAttempts := retryAttempts h;
     performanceMonitor := (λ l, l ++ [e]) <$> performanceMonitor h;
     waited := waited h; retried := retried h |}.

Definition before_retry (operation : string) (h : handler) : handler :=
  {| retryAttempts := <[operation := S (currentAttempts h operation)]> (retryAttempts h);
     performanceMonitor := performanceMonitor h;
     waited := waited h ++ [backoffDelay (currentAttempts h operation)];
     retried := S (retried h) |}.

Definition clear_attempts (operation : string) (h : handler) : handler :=
  {| retryAttempts := delete operation (retryAttempts h);
     performanceMonitor := performanceMonitor h;
     waited := waited h; retried := retried h |}.

Definition resetRetryAttempts (operation : option string) (h : handler) : handler :=
  match operation with
  | Some op =>
    if JsString.truthy op then clear_attempts op h
    else {| retryAttempts := ∅; performanceMonitor := performanceMonitor h;
            waited := waited h; retried := retried h |}
  | None => {| retryAttempts := ∅; performanceMonitor := performanceMonitor h;
               waited := waited h; retried := retried h |}
  end.

Equations? handleNetworkError (retryFunction : nat → outcome) (maxRetries : nat)
    (operation : string) (error : string) (h : handler) : outcome * handler
    by wf (maxRetries - currentAttempts h operation)%nat lt :=
  handleNetworkError retryFunction maxRetries operation error h
    with le_lt_dec maxRetries (currentAttempts h operation) := {
    | left _ =>
      (Thrown (exhausted_message operation maxRetries error),
       recordError {| e_step := operation;
                      e_message := "Network error after " +:+ pretty maxRetries
                                   +:+ " retries: " +:+ error |} h)
    | right _ with retryFunction (retried h) := {
      | Returned v => (Returned v, clear_attempts operation (before_retry operation h))
      | Thrown retryError =>
        handleNetworkError retryFunction maxRetries operation retryError
          (before_retry operation h) } }.
Proof. unfold currentAttempts at 1; simpl. rewrite lookup_insert_eq; simpl. lia. Qed.

(** [retryFunction] rejects on each of its calls. *)
Definition always_fails (f : nat → outcome) : Prop := ∀ k, ∃ e, f k = Thrown e.

(** The constructor: an empty [retryAttempts] map. *)
Definition new_handler : handler :=
  {| retryAttempts := ∅; performanceMonitor := Some []; waited := []; retried := 0 |}.

End ErrorHandler.

(** ** BrowserSessionManager (src/browser/session-manager.js) *)

Module BrowserSessionManager.

(** The value of [Math.floor(a / b)] on two naturals: division by zero
    gives [Infinity], and [0 / 0] gives [NaN]. *)
Inductive jsnum := Finite (n : nat) | Infinity | NaN.

Definition floor_div (a b : nat) : jsnum :=
  match b with
  | O => match a with O => NaN | S _ => Infinity end
  | S _ => Finite (a / b)
  end.

Definition template (x : jsnum) : string :=
  match x with
  | Finite n => pretty n
  | Infinity => "Infinity"
  | NaN => "NaN"
  end.

(** [`browser-${index}`] *)
Definition browserKey (x : jsnum) : string := "browser-" +:+ template x.

Record manager := {
  browsers : gmap string nat;
  sharedContexts : gmap string nat;
  contexts : gmap string nat;
  pages : gmap string nat;
  sessionToBrowser : gmap string string;
  useSharedContext : bool;
  tabsPerBrowser : nat;
  browserStarting : gmap string nat;
  contextCreating : gmap string nat;
  sessionCounter : nat
}.

Definition new_manager : manager := {|
  browsers := ∅; sharedContexts := ∅; contexts := ∅; pages := ∅;
  sessionToBrowser := ∅; useSharedContext := false; tabsPerBrowser := 10;
  browserStarting := ∅; contextCreating := ∅; sessionCounter := 0
|}.

Definition setTabsPerBrowser (count : nat) (m : manager) : manager :=
  {| browsers := browsers m; sharedContexts := sharedContexts m; contexts := contexts m;
     pages := pages m; sessionToBrowser := sessionToBrowser m;
     useSharedContext := useSharedContext m; tabsPerBrowser := count;
     browserStarting := browserStarting m; contextCreating := contextCreating m;
     sessionCounter := sessionCounter m |}.

Definition enableSharedContextMode (m : manager) : manager :=
  {| browsers := browsers m; sharedContexts := sharedContexts m; contexts := contexts m;
     pages := pages m; sessionToBrowser := sessionToBrowser m;
     useSharedContext := true; tabsPerBrowser := tabsPerBrowser m;
     browserStarting := browserStarting m; contextCreating := contextCreating m;
     sessionCounter := sessionCounter m |}.

(** *** Assignment of sessions to browsers *)

(** [_distributeSessions]: the [forEach] body, then the loop over the
    ids with their indices. *)
Definition distribute_one (tabs : nat) (distribution : gmap string (list string))
    (entry : nat * string) : gmap string (list string) :=
  let browserId := browserKey (floor_div entry.1 tabs) in
  <[browserId := default [] (distribution !! browserId) ++ [entry.2]]> distribution.

Definition _distributeSessions (sessionIds : list string) (m : manager)
    : gmap string (list string) :=
  fold_left (distribute_one (tabsPerBrowser m)) (imap (λ i id, (i, id)) sessionIds) ∅.

(** The first lines of [createSession], up to the call of
    [startBrowser]: a missing (or empty) [browserId] is replaced by the
    key computed from [sessionCounter], which is then incremented. *)
Definition assign_browser (browserId : option string) (m : manager) : string * manager :=
  match browserId with
  | Some k =>
    if JsString.truthy k then (k, m)
    else (browserKey (floor_div (sessionCounter m) (tabsPerBrowser m)),
          {| browsers := browsers m; sharedContexts := sharedContexts m;
             contexts := contexts m; pages := pages m;
             sessionToBrowser := sessionToBrowser m;
             useSharedContext := useSharedContext m; tabsPerBrowser := tabsPerBrowser m;
             browserStarting := browserStarting m; contextCreating := contextCreating m;
             sessionCounter := S (sessionCounter m) |})
  | None =>
    (browserKey (floor_div (sessionCounter m) (tabsPerBrowser m)),
     {| browsers := browsers m; sharedContexts := sharedContexts m;
        contexts := contexts m; pages := pages m;
        sessionToBrowser := sessionToBrowser m;
        useSharedContext := useSharedContext m; tabsPerBrowser := tabsPerBrowser m;
        browserStarting := browserStarting m; contextCreating := contextCreating m;
        sessionCounter := S (sessionCounter m) |})
  end.

(** The keys given to a run of sessions that call [createSession(id)]
    one after the other, as [TestSession._setupBrowser] does. *)
Fixpoint assign_all (n : nat) (m : manager) : list string * manager :=
  match n with
  | O => ([], m)
  | S n' =>
    let (k, m1) := assign_browser None m in
    let (ks, m2) := assign_all n' m1 in
    (k :: ks, m2)
  end.

(** [Math.ceil(count / tabsPerBrowser)], for a positive divisor. *)
Definition ceil_div (n c : nat) : nat := ((n + c - 1) / c)%nat.

(** *** Promises of the automation engine *)

Inductive settlement := Pending | Fulfilled (handle : nat) | Rejected (error : string).

(** Which engine call made the promise. *)
Inductive origin :=
| Launch (browserId : string)
| NewSharedContext (browserId : string)
| NewPage (context : nat)
| NewContext (browserId : string).

#[export] Instance origin_eq_dec : EqDecision origin.
Proof. solve_decision. Defined.

Record pool := {
  mgr : manager;
  promises : list (origin * settlement)
}.

Definition new_pool : pool := {| mgr := new_manager; promises := [] |}.

(** The operand of an [await]: a value (an [async] function that
    returned one), or a promise of the engine. *)
Inductive awaited := Value (v : nat) | Promise (p : nat).

Definition poll (a : awaited) (s : pool) : option (nat + string) :=
  match a with
  | Value v => Some (inl v)
  | Promise p =>
    match promises s !! p with
    | Some (_, Fulfilled v) => Some (inl v)
    | Some (_, Rejected e) => Some (inr e)
    | _ => None
    end
  end.

(** A new engine call: its promise is the next index of the table. *)
Definition engine_call (o : origin) (s : pool) : nat * pool :=
  (length (promises s),
   {| mgr := mgr s; promises := promises s ++ [(o, Pending)] |}).

Definition with_mgr (f : manager → manager) (s : pool) : pool :=
  {| mgr := f (mgr s); promises := promises s |}.

Definition set_browserStarting (f : gmap string nat → gmap string nat) (m : manager) :=
  {| browsers := browsers m; sharedContexts := sharedContexts m; contexts := contexts m;
     pages := pages m; sessionToBrowser := sessionToBrowser m;
     useSharedContext := useSharedContext m; tabsPerBrowser := tabsPerBrowser m;
     browserStarting := f (browserStarting m); contextCreating := contextCreating m;
     sessionCounter := sessionCounter m |}.

Definition set_browsers (f : gmap string nat → gmap string nat) (m : manager) :=
  {| browsers := f (browsers m); sharedContexts := sharedContexts m; contexts := contexts m;
     pages := pages m; sessionToBrowser := sessionToBrowser m;
     useSharedContext := useSharedContext m; tabsPerBrowser := tabsPerBrowser m;
     browserStarting := browserStarting m; contextCreating := contextCreating m;
     sessionCounter := sessionCounter m |}.

Definition set_contextCreating (f : gmap string nat → gmap string nat) (m : manager) :=
  {| browsers := browsers m; sharedContexts := sharedContexts m; contexts := contexts m;
     pages := pages m; sessionToBrowser := sessionToBrowser m;
     useSharedContext := useSharedContext m; tabsPerBrowser := tabsPerBrowser m;
     browserStarting := browserStarting m; contextCreating := f (contextCreating m);
     sessionCounter := sessionCounter m |}.

Definition set_sharedContexts (f : gmap string nat → gmap string nat) (m : manager) :=
  {| browsers := browsers m; sharedContexts := f (sharedContexts m); contexts := contexts m;
     pages := pages m; sessionToBrowser := sessionToBrowser m;
     useSharedContext := useSharedContext m; tabsPerBrowser := tabsPerBrowser m;
     browserStarting := browserStarting m; contextCreating := contextCreating m;
     sessionCounter := sessionCounter m |}.

(** The writes of [createSession] to the per-session maps. *)
Definition set_session_maps (fc fp : gmap string nat → gmap string nat)
    (fb : gmap string string → gmap string string) (m : manager) :=
  {| browsers := browsers m; sharedContexts := sharedContexts m; contexts := fc (contexts m);
     pages := fp (pages m); sessionToBrowser := fb (sessionToBrowser m);
     useSharedContext := useSharedContext m; tabsPerBrowser := tabsPerBrowser m;
     browserStarting := browserStarting m; contextCreating := contextCreating m;
     sessionCounter := sessionCounter m |}.

(** [startBrowser]: it has no [await], so it runs in one piece.  The
    promise it stores is [chromium.launch(..).then(..).catch(..)]; the
    two callbacks run when the launch settles, see [settle]. *)
Definition startBrowser (browserId : string) (s : pool) : awaited * pool :=
  match browsers (mgr s) !! browserId with
  | Some browser => (Value browser, s)
  | None =>
    match browserStarting (mgr s) !! browserId with
    | Some startingPromise => (Promise startingPromise, s)
    | None =>
      let (startingPromise, s1) := engine_call (Launch browserId) s in
      (Promise startingPromise,
       with_mgr (set_browserStarting (λ g, <[browserId := startingPromise]> g)) s1)
    end
  end.

(** The engine settles promise [p] with [r]; the [then] and [catch]
    callbacks that [startBrowser] and [getOrCreateSharedContext] chained
    to it run at once. *)
Definition settle (p : nat) (r : nat + string) (s : pool) : option pool :=
  match promises s !! p with
  | Some (o, Pending) =>
    let s1 := {| mgr := mgr s;
                 promises := <[p := (o, match r with
                                        | inl v => Fulfilled v
                                        | inr e => Rejected e
                                        end)]> (promises s) |} in
    Some
      match o, r with
      | Launch k, inl browser =>
        with_mgr (λ m, set_browserStarting (delete k) (set_browsers (λ b, <[k := browser]> b) m)) s1
      | Launch k, inr _ =>
        with_mgr (set_browserStarting (delete k)) s1
      | NewSharedContext k, inl context =>
        with_mgr (λ m, set_contextCreating (delete k)
                         (set_sharedContexts (λ c, <[k := context]> c) m)) s1
      | NewSharedContext k, inr _ =>
        with_mgr (set_contextCreating (delete k)) s1
      | _, _ => s1
      end
  | _ => None
  end.

(** *** [getOrCreateSharedContext], cut at its awaits *)

Inductive shared_context_call :=
| AtLine115 (creating : nat)      (* await this.contextCreating.get(browserId) *)
| AtLine120 (browser : awaited)   (* await this.startBrowser(browserId) *)
| AtLine142 (creatingPromise : nat) (* return creatingPromise *)
| Returned (context : nat)
| Threw (error : string).

(** From the entry to the first [await] (or [return]). *)
Definition getOrCreateSharedContext (browserId : string) (s : pool)
    : shared_context_call * pool :=
  match sharedContexts (mgr s) !! browserId with
  | Some context => (Returned context, s)
  | None =>
    match contextCreating (mgr s) !! browserId with
    | Some creating => (AtLine115 creating, s)
    | None =>
      let (browser, s1) := startBrowser browserId s in
      (AtLine120 browser, s1)
    end
  end.

Definition after_await (r : nat + string) : shared_context_call :=
  match r with inl context => Returned context | inr e => Threw e end.

(** From one [await] to the next, once the awaited promise has settled. *)
Definition getOrCreateSharedContext_resume (browserId : string)
    (c : shared_context_call) (s : pool) : option (shared_context_call * pool) :=
  match c with
  | AtLine115 creating => r ← poll (Promise creating) s; Some (after_await r, s)
  | AtLine120 browser =>
    r ← poll browser s;
    match r with
    | inl _ =>
      let (creatingPromise, s1) := engine_call (NewSharedContext browserId) s in
      Some (AtLine142 creatingPromise,
            with_mgr (set_contextCreating (λ g, <[browserId := creatingPromise]> g)) s1)
    | inr e => Some (Threw e, s)
    end
  | AtLine142 creatingPromise => r ← poll (Promise creatingPromise) s; Some (after_await r, s)
  | Returned _ | Threw _ => None
  end.

Definition outcome (c : shared_context_call) : option (nat + string) :=
  match c with
  | Returned context => Some (inl context)
  | Threw e => Some (inr e)
  | _ => None
  end.

(** *** [createSession], cut at its awaits *)

Inductive create_session_call :=
| AtLine157 (browser : awaited)              (* await this.startBrowser(browserId) *)
| AtLine166 (inner : shared_context_call)    (* await this.getOrCreateSharedContext(..) *)
| AtLine167 (context : nat) (page : nat)     (* await context.newPage() *)
| AtLine179 (context : nat).                 (* await browser.newContext(..) *)

Inductive task :=
| InStartBrowser (browserId : string) (a : awaited)
| InGetOrCreateSharedContext (browserId : string) (c : shared_context_call)
| InCreateSession (sessionId browserId : string) (c : create_session_call)
| Done (r : nat + string).

Definition createSession (sessionId : string) (browserId : option string) (s : pool)
    : task * pool :=
  let (k, m1) := assign_browser browserId (mgr s) in
  let (browser, s1) := startBrowser k {| mgr := m1; promises := promises s |} in
  (InCreateSession sessionId k (AtLine157 browser), s1).

(** The isolated mode also awaits [context.tracing.start] when the
    configuration asks for screenshots or videos; that call does not
    touch the manager and is left out. *)
Definition createSession_resume (sessionId browserId : string) (c : create_session_call)
    (s : pool) : option (task * pool) :=
  match c with
  | AtLine157 browser =>
    r ← poll browser s;
    match r with
    | inl _ =>
      let s1 := with_mgr (set_session_maps id id (λ b, <[sessionId := browserId]> b)) s in
      if useSharedContext (mgr s1) then
        let (inner, s2) := getOrCreateSharedContext browserId s1 in
        Some (InCreateSession sessionId browserId (AtLine166 inner), s2)
      else
        let (context, s2) := engine_call (NewContext browserId) s1 in
        Some (InCreateSession sessionId browserId (AtLine179 context), s2)
    | inr e => Some (Done (inr e), s)
    end
  | AtLine166 inner =>
    match outcome inner with
    | Some (inl context) =>
      let (page, s1) := engine_call (NewPage context) s in
      Some (InCreateSession sessionId browserId (AtLine167 context page), s1)
    | Some (inr e) => Some (Done (inr e), s)
    | None =>
      '(inner', s1) ← getOrCreateSharedContext_resume browserId inner s;
      Some (InCreateSession sessionId browserId (AtLine166 inner'), s1)
    end
  | AtLine167 context page =>
    r ← poll (Promise page) s;
    match r with
    | inl pg =>
      Some (Done (inl context),
            with_mgr (set_session_maps (λ c, <[sessionId := context]> c)
                                       (λ p, <[sessionId := pg]> p) id) s)
    | inr e => Some (Done (inr e), s)
    end
  | AtLine179 context =>
    r ← poll (Promise context) s;
    match r with
    | inl ctx =>
      Some (Done (inl ctx),
            with_mgr (set_session_maps (λ c, <[sessionId := ctx]> c) id id) s)
    | inr e => Some (Done (inr e), s)
    end
  end.

Definition resume (t : task) (s : pool) : option (task * pool) :=
  match t with
  | InStartBrowser _ a => r ← poll a s; Some (Done r, s)
  | InGetOrCreateSharedContext k c =>
    match outcome c with
    | Some r => Some (Done r, s)
    | None =>
      '(c', s1) ← getOrCreateSharedContext_resume k c s;
      Some (InGetOrCreateSharedContext k c', s1)
    end
  | InCreateSession sid k c => createSession_resume sid k c s
  | Done _ => None
  end.

(** *** The event loop *)

Record world := {
  w_pool : pool;
  tasks : gmap nat task
}.

Definition new_world : world := {| w_pool := new_pool; tasks := ∅ |}.

Inductive event :=
| CallStartBrowser (t : nat) (browserId : string)
| CallGetOrCreateSharedContext (t : nat) (browserId : string)
| CallCreateSession (t : nat) (sessionId : string) (browserId : option string)
| Resume (t : nat)
| Settle (p : nat) (r : nat + string).

Definition spawn (t : nat) (r : task * pool) (w : world) : option world :=
  match tasks w !! t with
  | Some _ => None
  | None => Some {| w_pool := r.2; tasks := <[t := r.1]> (tasks w) |}
  end.

Definition step (w : world) (e : event) : option world :=
  match e with
  | CallStartBrowser t k =>
    let (a, s1) := startBrowser k (w_pool w) in
    spawn t (InStartBrowser k a, s1) w
  | CallGetOrCreateSharedContext t k =>
    let (c, s1) := getOrCreateSharedContext k (w_pool w) in
    spawn t (InGetOrCreateSharedContext k c, s1) w
  | CallCreateSession t sid k => spawn t (createSession sid k (w_pool w)) w
  | Resume t =>
    tk ← tasks w !! t;
    '(tk', s1) ← resume tk (w_pool w);
    Some {| w_pool := s1; tasks := <[t := tk']> (tasks w) |}
  | Settle p r =>
    s1 ← settle p r (w_pool w);
    Some {| w_pool := s1; tasks := tasks w |}
  end.

Fixpoint run (evs : list event) (w : world) : option world :=
  match evs with
  | [] => Some w
  | e :: evs' => w1 ← step w e; run evs' w1
  end.

(** The engine calls of one kind made so far, oldest first. *)
Definition calls (o : origin) (s : pool) : list nat :=
  omap (λ '(p, (o', _)), if decide (o' = o) then Some p else None)
       (imap (λ p x, (p, x)) (promises s)).

Definition pending (p : nat) (o : origin) (s : pool) : Prop :=
  promises s !! p = Some (o, Pending).

(** The guard of [startBrowser] names the one launch in flight. *)
Definition launch_guard (s : pool) : Prop :=
  ∀ k p, browserStarting (mgr s) !! k = Some p ↔ pending p (Launch k) s.

(** Every launch that succeeded has left its browser in [browsers]. *)
Definition launch_live (s : pool) : Prop :=
  ∀ k p v, promises s !! p = Some (Launch k, Fulfilled v) → is_Some (browsers (mgr s) !! k).

Definition single_flight (o : string → origin) (s : pool) : Prop :=
  ∀ k p p', pending p (o k) s → pending p' (o k) s → p = p'.

(** What [startBrowser] maintains: the guard names the launch in
    flight, a key with a launch in flight has no browser yet, a browser
    exists for every launch that succeeded, and a key has at most one
    launch that did not fail. *)
Definition launch_inv (s : pool) : Prop :=
  launch_guard s ∧
  (∀ k p, pending p (Launch k) s → browsers (mgr s) !! k = None) ∧
  launch_live s ∧
  (∀ k p p' st st',
     promises s !! p = Some (Launch k, st) →
     promises s !! p' = Some (Launch k, st') →
     (∀ e, st ≠ Rejected e) → (∀ e, st' ≠ Rejected e) → p = p').

(** A change of the pool that neither reads nor writes the browser
    maps and makes no launch. *)
Definition neutral (s s' : pool) : Prop :=
  browsers (mgr s') = browsers (mgr s) ∧
  browserStarting (mgr s') = browserStarting (mgr s) ∧
  ∃ extra, promises s' = promises s ++ extra ∧ ∀ x, x ∈ extra → ∀ k, x.1 ≠ Launch k.

(** The pool changes made by the segments of the [async] methods:
    neutral ones and calls of [startBrowser]. *)
Inductive segment : pool → pool → Prop :=
| segment_refl s : segment s s
| segment_neutral s s1 s2 : neutral s s1 → segment s1 s2 → segment s s2
| segment_startBrowser s k s2 : segment (startBrowser k s).2 s2 → segment s s2.

Definition reachable (w : world) : Prop := ∃ evs, run evs new_world = Some w.

End BrowserSessionManager.

(** ** TestExecutor (src/core/test-executor.js) *)

Module TestExecutor.

(** An element of [this.results]: the object a session resolves with,
    or the object built for a rejected session.  [totalTime] is 0 when
    the object has no such field (the summary keeps [totalTime > 0]). *)
Record result := {
  success : bool;
  error : option string;
  testIndex : option nat;
  sessionId : option string;
  totalTime : Z
}.

(** One entry of [Promise.allSettled]: [reason] holds
    [result.reason?.message]. *)
Inductive settled :=
| Fulfilled (value : result)
| Rejected (reason : option string).

(** The body of [batchResults.forEach]. *)
Definition collect (testIndex : nat) (s : settled) : result :=
  match s with
  | Fulfilled value => value
  | Rejected reason =>
    {| success := false;
       error := Some match reason with
                     | Some message =>
                       if JsString.truthy message then message else "Unknown error"
                     | None => "Unknown error"
                     end;
       testIndex := Some testIndex;
       sessionId := None;
       totalTime := 0 |}
  end.

(** [_createSummary]; the rate and the average, minimum and maximum of
    the times are floating-point values and are not part of the model. *)
Record summary := {
  total : nat;
  successful : nat;
  failed : nat
}.

Definition _createSummary (results : list result) : summary :=
  let total := length results in
  let successful := length (filter (λ r, success r = true) results) in
  {| total := total; successful := successful; failed := total - successful |}.

(** Where [executeMulti] stands: not yet at its loop (it has not been
    called, or it is at the [await import(..)] of tab mode, the only
    pause before the loop); at the test of the [while] after a pause;
    at [await Promise.allSettled(currentBatch)]; at the one-second
    pause; or past the loop. *)
Inductive phase := Called | LoopHead | InWave (batchEnd : nat) | Cooldown | Finished.

(** [count], [batchSize], [completed] are the locals of [executeMulti];
    [isRunning] and [results] are fields.  [started], [waves] and
    [outcomes] record the history: the sessions handed to
    [_runSessionWithMonitoring], grouped by batch, and how each session
    promise settled. *)
Record executor := {
  count : nat;
  batchSize : nat;
  isRunning : bool;
  results : list result;
  completed : nat;
  at_phase : phase;
  started : list nat;
  waves : list (list nat);
  outcomes : gmap nat settled
}.

(** [executeMulti] on a new executor, before it reaches its loop:
    [isRunning] is still what the constructor made it. *)
Definition executeMulti (count concurrency : nat) : executor :=
  {| count := count; batchSize := Nat.min concurrency count;
     isRunning := false; results := []; completed := 0; at_phase := Called;
     started := []; waves := []; outcomes := ∅ |}.

Inductive event :=
| LoopTest                                  (* the call goes on to
                                               while (completed < count && this.isRunning) *)
| SessionSettles (i : nat) (s : settled)    (* the promise of test i settles *)
| AllSettled                                (* Promise.allSettled resolves *)
| CooldownElapsed                           (* the setTimeout of 1000 ms fires *)
| Stop.                                     (* stop() is called *)

Definition batch (e : executor) (batchEnd : nat) : list nat :=
  seq (completed e) (batchEnd - completed e).

Definition all_settled (e : executor) (batchEnd : nat) : bool :=
  forallb (λ i, bool_decide (is_Some (outcomes e !! i))) (batch e batchEnd).

(** [stop()] *)
Definition stop (e : executor) : executor :=
  {| count := count e; batchSize := batchSize e; isRunning := false;
     results := results e; completed := completed e; at_phase := at_phase e;
     started := started e; waves := waves e; outcomes := outcomes e |}.

(** [this.isRunning = true; this.results = []], which the call runs
    on its way to the loop, with no pause in between. *)
Definition enter (e : executor) : executor :=
  {| count := count e; batchSize := batchSize e; isRunning := true;
     results := []; completed := completed e; at_phase := at_phase e;
     started := started e; waves := waves e; outcomes := outcomes e |}.

(** The test of the [while]: the body up to
    [await Promise.allSettled(currentBatch)], or the exit. *)
Definition loop_test (e : executor) : executor :=
  if ((completed e <? count e)%nat && isRunning e)%bool then
    let batchEnd := Nat.min (completed e + batchSize e) (count e) in
    {| count := count e; batchSize := batchSize e; isRunning := isRunning e;
       results := results e; completed := completed e;
       at_phase := InWave batchEnd;
       started := started e ++ batch e batchEnd;
       waves := waves e ++ [batch e batchEnd];
       outcomes := outcomes e |}
  else
    {| count := count e; batchSize := batchSize e; isRunning := isRunning e;
       results := results e; completed := completed e;
       at_phase := Finished;
       started := started e; waves := waves e; outcomes := outcomes e |}.

(** One step.  The loop test is reached for the first time from
    [Called], through [enter], and then after each pause.  [stop()] may
    be called at any time. *)
Definition step (e : executor) (ev : event) : option executor :=
  match ev, at_phase e with
  | LoopTest, Called => Some (loop_test (enter e))
  | LoopTest, LoopHead => Some (loop_test e)
  | SessionSettles i s, InWave batchEnd =>
    if bool_decide (i ∈ batch e batchEnd ∧ outcomes e !! i = None) then
      Some {| count := count e; batchSize := batchSize e; isRunning := isRunning e;
              results := results e; completed := completed e;
              at_phase := InWave batchEnd;
              started := started e; waves := waves e;
              outcomes := <[i := s]> (outcomes e) |}
    else None
  | AllSettled, InWave batchEnd =>
    if all_settled e batchEnd then
      Some {| count := count e; batchSize := batchSize e; isRunning := isRunning e;
              results := results e ++
                omap (λ i, collect i <$> outcomes e !! i) (batch e batchEnd);
              completed := batchEnd;
              at_phase := Cooldown;
              started := started e; waves := waves e; outcomes := outcomes e |}
    else None
  | CooldownElapsed, Cooldown =>
    Some {| count := count e; batchSize := batchSize e; isRunning := isRunning e;
            results := results e; completed := completed e;
            at_phase := LoopHead;
            started := started e; waves := waves e; outcomes := outcomes e |}
  | Stop, _ => Some (stop e)
  | _, _ => None
  end.

Fixpoint run (evs : list event) (e : executor) : option executor :=
  match evs with
  | [] => Some e
  | ev :: evs' => e1 ← step e ev; run evs' e1
  end.

(** The value [executeMulti] returns once the loop is left. *)
Record report := {
  rep_success : bool;
  rep_results : list result;
  rep_summary : summary
}.

Definition returned (e : executor) : option report :=
  match at_phase e with
  | Finished =>
    Some {| rep_success := forallb success (results e);
            rep_results := results e;
            rep_summary := _createSummary (results e) |}
  | _ => None
  end.

(** The events of one wave in which the sessions settle in index order
    with the given outcomes, and of a whole run made of such waves. *)
Definition wave_events (outcome : nat → settled) (from to : nat) : list event :=
  LoopTest :: ((λ i, SessionSettles i (outcome i)) <$> seq from (to - from))
  ++ [AllSettled; CooldownElapsed].

Fixpoint schedule (fuel : nat) (outcome : nat → settled) (count batchSize completed : nat)
    : list event :=
  match fuel with
  | O => [LoopTest]
  | S fuel' =>
    if (completed <? count)%nat then
      let batchEnd := Nat.min (completed + batchSize) count in
      wave_events outcome completed batchEnd
      ++ schedule fuel' outcome count batchSize batchEnd
    else [LoopTest]
  end.

(** The sizes of successive waves of at most [p] sessions out of
    [remaining]. *)
Fixpoint wave_sizes (fuel p remaining : nat) : list nat :=
  match fuel with
  | O => []
  | S fuel' =>
    if (remaining =? 0)%nat then []
    else Nat.min p remaining :: wave_sizes fuel' p (remaining - Nat.min p remaining)
  end.

(** The sessions started so far: all of them up to the end of the
    batch in flight. *)
Definition frontier (e : executor) : nat :=
  match at_phase e with
  | InWave batchEnd => batchEnd
  | _ => completed e
  end.

(** Each wave starts where the previous one ended, before [count], and
    has [min concurrency remaining] sessions. *)
Fixpoint wave_shape (n p from : nat) (ws : list (list nat)) : Prop :=
  match ws with
  | [] => True
  | w :: ws' =>
    (from < n)%nat ∧ w = seq from (Nat.min p (n - from)) ∧
    wave_shape n p (from + length w) ws'
  end.

Definition exec_inv (n p : nat) (e : executor) : Prop :=
  count e = n ∧ batchSize e = Nat.min p n ∧
  (completed e ≤ n)%nat ∧
  length (results e) = completed e ∧
  started e = seq 0 (frontier e) ∧
  concat (waves e) = started e ∧
  wave_shape n p 0 (waves e) ∧
  match at_phase e with
  | InWave batchEnd =>
    (completed e ≤ batchEnd)%nat ∧ batchEnd = Nat.min (completed e + batchSize e) n
  | Finished => (n ≤ completed e)%nat ∨ isRunning e = false
  | Called => completed e = 0%nat
  | _ => True
  end ∧
  (∀ i, is_Some (outcomes e !! i) → (i < frontier e)%nat) ∧
  (∀ i, (i < completed e)%nat →
        ∃ s, outcomes e !! i = Some s ∧ results e !! i = Some (collect i s)).

(** *** Outcomes and runs used as examples *)

Definition passed (i : nat) : settled :=
  Fulfilled {| success := true; error := None; testIndex := None;
               sessionId := Some ("test-" +:+ pretty (S i)); totalTime := 1000 |}.

(** Session 1 rejects, session 4 resolves unsuccessfully, the others
    pass. *)
Definition mixed (i : nat) : settled :=
  match i with
  | 1%nat => Rejected (Some "Browser setup failed: launch timeout")
  | 4%nat => Fulfilled {| success := false; error := None; testIndex := None;
                      sessionId := Some "test-5"; totalTime := 2500 |}
  | _ => passed i
  end.

(** Scenario D: [stop()] is called while the second wave of three is
    in flight, after one of its sessions has settled. *)
Definition stopped_mid_wave : list event :=
  (wave_events passed 0 3 ++
   [LoopTest; SessionSettles 3 (passed 3); Stop;
    SessionSettles 5 (passed 5); SessionSettles 4 (passed 4);
    AllSettled; CooldownElapsed; LoopTest])%nat.

End TestExecutor.

(** ** WaitingPage (src/pages/waiting-page.js) *)

Module WaitingPage.

(** The object returned by [getWaitingInfo]. *)
Record waitingInfo := {
  waitingCount : Z;
  estimatedTime : Z
}.

#[export] Instance waitingInfo_eq_dec : EqDecision waitingInfo.
Proof. solve_decision. Defined.

(** What one look at the page gives: [isWaitingPage()] answers false,
    or it answers true and [getWaitingInfo()] reads [info]; [took] is
    the time the look needed, in ms. *)
Inductive sighting :=
| Clear (took : N)
| Queue (took : N) (info : waitingInfo).

(** What [page.waitForTimeout] does in one turn of the loop: it
    sleeps, or it throws; then the [catch] branch sleeps 5000 ms, which
    may throw in turn ([rethrown]). *)
Inductive nap :=
| Slept
| Interrupted (rethrown : option string).

(** The browser page as the handler meets it: the answer to the k-th
    look, the fate of the k-th sleep of the loop, and the fate of the
    pause of 2000 ms that [handleWaitingIfPresent] makes once the queue
    has been passed: it returns ([None]) or throws with a message. *)
Record browser_page := {
  look : nat → sighting;
  sleep : nat → nap;
  pause : option string
}.

Inductive effect :=
| Checked (waiting : bool)      (* isWaitingPage() was called *)
| Status (info : waitingInfo)   (* logger.info with people ahead and estimate *)
| Waited (ms : Z).              (* page.waitForTimeout(ms) returned *)

(** [true], [false], or a rejected promise. *)
Inductive verdict := Passed | TimedOut | Crashed (message : string).

Record completion := {
  answer : verdict;
  finishedAt : Z;            (* Date.now() - startTime at the return *)
  effects : list effect
}.

Definition defaultMaxWaitTime : Z := 300000.

(** [estimatedTime > 0 ? Math.min(estimatedTime * 1000, 30000) : 5000] *)
Definition waitInterval (info : waitingInfo) : Z :=
  if 0 <? estimatedTime info then Z.min (estimatedTime info * 1000) 30000 else 5000.

(** The status line is written when
    [JSON.stringify(waitingInfo) !== JSON.stringify(lastWaitingInfo)]. *)
Definition status (lastWaitingInfo : option waitingInfo) (info : waitingInfo) : list effect :=
  if decide (Some info = lastWaitingInfo) then [] else [Status info].

Definition prepend (es : list effect) (c : completion) : completion :=
  {| answer := answer c; finishedAt := finishedAt c; effects := es ++ effects c |}.

(** The [while] loop of [waitForCompletion], entered for the k-th time
    with [elapsed = Date.now() - startTime]. *)
Equations? waitLoop (pg : browser_page) (maxWaitTime : Z) (k : nat) (elapsed : Z)
    (lastWaitingInfo : option waitingInfo) : completion
    by wf (Z.to_nat (maxWaitTime - elapsed)) lt :=
  waitLoop pg maxWaitTime k elapsed lastWaitingInfo
    with Z_lt_dec elapsed maxWaitTime := {
    | right _ => {| answer := TimedOut; finishedAt := elapsed; effects := [] |}
    | left _ with look pg k := {
      | Clear took =>
        {| answer := Passed; finishedAt := elapsed + Z.of_N took;
           effects := [Checked false] |}
      | Queue took info with sleep pg k := {
        | Slept =>
          prepend (Checked true :: status lastWaitingInfo info ++ [Waited (waitInterval info)])
            (waitLoop pg maxWaitTime (S k)
               (elapsed + Z.of_N took + waitInterval info) (Some info))
        | Interrupted None =>
          prepend (Checked true :: status lastWaitingInfo info ++ [Waited 5000])
            (waitLoop pg maxWaitTime (S k) (elapsed + Z.of_N took + 5000) (Some info))
        | Interrupted (Some message) =>
          {| answer := Crashed message; finishedAt := elapsed + Z.of_N took;
             effects := Checked true :: status lastWaitingInfo info |} } } }.
Proof.
  - unfold waitInterval. destruct (0 <? estimatedTime info) eqn:E; lia.
  - lia.
Qed.

Definition waitForCompletion (pg : browser_page) (maxWaitTime : Z) : completion :=
  waitLoop pg maxWaitTime 0 0 None.

(** The page after the first look. *)
Definition later (pg : browser_page) : browser_page :=
  {| look := λ k, look pg (S k); sleep := sleep pg; pause := pause pg |}.

(** [handleWaitingIfPresent]: one look; on a waiting page the queue
    position and the estimate are logged, a screenshot is tried, and
    [waitForCompletion] runs.  When it answers true a pause of 2000 ms
    follows, outside any [try]: if the pause throws, the call is
    rejected with what it threw. *)
Definition handleWaitingIfPresent (pg : browser_page) (maxWaitTime : Z) : completion :=
  match look pg 0 with
  | Clear took =>
    {| answer := Passed; finishedAt := Z.of_N took; effects := [Checked false] |}
  | Queue took info =>
    let c := waitForCompletion (later pg) maxWaitTime in
    match answer c, pause pg with
    | Passed, None =>
      {| answer := Passed; finishedAt := Z.of_N took + finishedAt c + 2000;
         effects := Checked true :: Status info :: effects c ++ [Waited 2000] |}
    | Passed, Some message =>
      {| answer := Crashed message; finishedAt := Z.of_N took + finishedAt c;
         effects := Checked true :: Status info :: effects c |}
    | _, _ =>
      {| answer := answer c; finishedAt := Z.of_N took + finishedAt c;
         effects := Checked true :: Status info :: effects c |}
    end
  end.

Definition checks (c : completion) : list bool :=
  omap (λ e, match e with Checked b => Some b | _ => None end) (effects c).

(** The number of looks that found the waiting page. *)
Definition waitingPolls (c : completion) : nat :=
  length (omap (λ e, match e with Checked true => Some () | _ => None end) (effects c)).

Definition sleeps (c : completion) : list Z :=
  omap (λ e, match e with Waited ms => Some ms | _ => None end) (effects c).

Definition statuses (c : completion) : list waitingInfo :=
  omap (λ e, match e with Status info => Some info | _ => None end) (effects c).

(** The detector answers "waiting" at every look, and each look takes
    at most [d] ms. *)
Definition always_waiting (pg : browser_page) (d : Z) : Prop :=
  ∀ k, ∃ took info, look pg k = Queue took info ∧ Z.of_N took ≤ d.

(** In no turn of the loop do the sleep and the 5000 ms of the [catch]
    both throw. *)
Definition pauses_recover (pg : browser_page) : Prop :=
  ∀ k message, sleep pg k ≠ Interrupted (Some message).

(** The time the k-th look takes, and the time of the first [n] looks. *)
Definition look_time (pg : browser_page) (k : nat) : Z :=
  match look pg k with Clear took | Queue took _ => Z.of_N took end.

Definition looks_time (pg : browser_page) (from n : nat) : Z :=
  foldr Z.add 0 (look_time pg <$> seq from n).

(** What the loop has done when the detector kept answering "waiting"
    and its pauses recovered: [m] looks found the waiting page and [m]
    sleeps were made; the answer is [false]; it comes not before
    [maxWaitTime] has elapsed; and the last look, if there was one,
    began before that, so that the answer comes less than one look of
    at most [d] ms and one sleep after [maxWaitTime]. *)
Definition timed_out_after (pg : browser_page) (maxWaitTime d : Z) (k : nat) (elapsed : Z)
    (c : completion) (m : nat) : Prop :=
  answer c = TimedOut ∧
  checks c = replicate m true ∧ length (sleeps c) = m ∧
  (∀ ms, ms ∈ sleeps c → 1000 ≤ ms ≤ 30000) ∧
  maxWaitTime ≤ finishedAt c ∧ elapsed ≤ finishedAt c ∧
  (elapsed < maxWaitTime → (0 < m)%nat ∧ finishedAt c < maxWaitTime + d + 30000).

(** The readings of consecutive waiting looks from the k-th on, and
    those among them that differ from the reading before. *)
Fixpoint changes (lastWaitingInfo : option waitingInfo) (infos : list waitingInfo)
    : list waitingInfo :=
  match infos with
  | [] => []
  | info :: rest =>
    (if decide (Some info = lastWaitingInfo) then [] else [info]) ++ changes (Some info) rest
  end.

End WaitingPage.

(** ** FlowManager (src/core/flow-manager.js) *)

Module FlowManager.

(** The body of a step's [try] block is a sequence of page operations,
    interleaved with calls of [_handleWaitingPageIfPresent]. *)
Inductive instruction :=
| Work (label : string)
| HandleWaitingPage.

Record step := {
  monitorStep : string;      (* the name given to the monitor *)
  failurePrefix : string;    (* new Error(`<prefix>: ${error.message}`) *)
  script : list instruction
}.

(** The scripts of the five steps.  What a [try] block does after its
    last instruction here does not throw: the timers it ends have
    ordinary names, and the objects whose properties are logged after
    the last check of steps 1 and 4 are there, [selectedCourse] being
    an element whose [index] [applyToFirstAvailableCourse] has read
    (pages/course-list-page.js) and [classInfo] the object literal
    that [selectClassAndPayment] returns on every path
    (unnamed/part_005). *)
Definition _step1_SelectCourse : step :=
  {| monitorStep := "step1-course"; failurePrefix := "Course selection failed: ";
     script := [Work "navigate-to-course-list"; HandleWaitingPage;
                Work "acadCd"; Work "apply-to-course"; HandleWaitingPage] |}.

Definition _step2_FillBasicInfo : step :=
  {| monitorStep := "step2-basic"; failurePrefix := "Basic info failed: ";
     script := [Work "basic-info-page-load"; HandleWaitingPage;
                Work "fill-basic-info"; Work "click-next-button-step2"] |}.

Definition _step3_FillDetailedInfo : step :=
  {| monitorStep := "step3-detailed"; failurePrefix := "Detailed info failed: ";
     script := [Work "detailed-info-page-load"; HandleWaitingPage;
                Work "fill-detailed-info"; Work "agree-privacy-policy";
                Work "click-next-button-step3"] |}.

Definition _step4_SelectClassAndPayment : step :=
  {| monitorStep := "step4-class"; failurePrefix := "Class/payment selection failed: ";
     script := [Work "class-selection-page-load"; HandleWaitingPage;
                Work "select-class-and-payment"; HandleWaitingPage] |}.

Definition _step5_ProcessPayment : step :=
  {| monitorStep := "step5-payment"; failurePrefix := "Payment processing failed: ";
     script := [Work "classSelectionPage"; Work "click-payment-button";
                HandleWaitingPage; Work "payment-popup"] |}.

Definition steps : list step :=
  [_step1_SelectCourse; _step2_FillBasicInfo; _step3_FillDetailedInfo;
   _step4_SelectClassAndPayment; _step5_ProcessPayment].

(** The site as one session meets it: whether a page operation throws
    (and with which message), and the page found by the n-th call of
    [_handleWaitingPageIfPresent]. *)
Record site := {
  works : string → option string;
  waitingPages : nat → WaitingPage.browser_page
}.

Record flow_error := {
  fe_step : string;
  fe_message : string
}.

(** The fields of a [FlowManager] that the flow reads and writes;
    [handled] counts the calls of [_handleWaitingPageIfPresent] and
    [journal] collects what the waiting pages logged and slept. *)
Record flow := {
  monitor : option ConcurrentMonitor.monitor;
  sessionId : string;
  success : bool;
  errors : list flow_error;
  handled : nat;
  journal : list WaitingPage.effect
}.

Definition new_flow (sessionId : string) (monitor : option ConcurrentMonitor.monitor) : flow :=
  {| monitor := monitor; sessionId := sessionId; success := false; errors := [];
     handled := 0; journal := [] |}.

Definition with_monitor (g : ConcurrentMonitor.monitor → ConcurrentMonitor.monitor)
    (f : flow) : flow :=
  {| monitor := g <$> monitor f; sessionId := sessionId f; success := success f;
     errors := errors f; handled := handled f; journal := journal f |}.

(** [_handleWaitingPageIfPresent]: a new [WaitingPage], its
    [handleWaitingIfPresent()] with the default ceiling, and an error
    when the answer is false.  A rejection of the call is rethrown by
    the [await]. *)
Definition _handleWaitingPageIfPresent (s : site) (f : flow) : (string + unit) * flow :=
  let c := WaitingPage.handleWaitingIfPresent (waitingPages s (handled f))
             WaitingPage.defaultMaxWaitTime in
  let f1 := {| monitor := monitor f; sessionId := sessionId f; success := success f;
               errors := errors f; handled := S (handled f);
               journal := journal f ++ WaitingPage.effects c |} in
  match WaitingPage.answer c with
  | WaitingPage.Passed => (inr (), f1)
  | WaitingPage.TimedOut => (inl "Failed to pass through waiting page", f1)
  | WaitingPage.Crashed message => (inl message, f1)
  end.

(** The [try] block of a step: the first exception ends it. *)
Fixpoint run_script (s : site) (instrs : list instruction) (f : flow)
    : (string + unit) * flow :=
  match instrs with
  | [] => (inr (), f)
  | Work label :: rest =>
    match works s label with
    | Some message => (inl message, f)
    | None => run_script s rest f
    end
  | HandleWaitingPage :: rest =>
    let (r, f1) := _handleWaitingPageIfPresent s f in
    match r with
    | inl message => (inl message, f1)
    | inr _ => run_script s rest f1
    end
  end.

(** [if (this.monitor) this.monitor.recordError(this.sessionId, step, error)]
    in the [catch] block of a step, for the [Error] caught: the message
    of what the call throws, if it throws, and the flow after it. *)
Definition report_error (st : step) (message : string) (now : Z) (f : flow)
    : option string * flow :=
  match monitor f with
  | Some m =>
    let (m1, thrown) :=
      ConcurrentMonitor.recordError (sessionId f) (monitorStep st)
        (ConcurrentMonitor.ErrorObject message) now m in
    (thrown,
     {| monitor := Some m1; sessionId := sessionId f; success := success f;
        errors := errors f; handled := handled f; journal := journal f |})
  | None => (None, f)
  end.

(** One step: the monitor is told the step, the [try] block runs, and
    the [catch] block reports the error to the monitor and throws the
    prefixed error; when the report itself throws, that is what leaves
    the [catch] block. *)
Definition run_step (s : site) (now : Z) (st : step) (f : flow) : (string + unit) * flow :=
  let f0 := with_monitor
              (ConcurrentMonitor.updateSessionStep (sessionId f) (monitorStep st) now) f in
  let (r, f1) := run_script s (script st) f0 in
  match r with
  | inr _ => (inr (), f1)
  | inl message =>
    let (thrown, f2) := report_error st message now f1 in
    (inl (default (failurePrefix st +:+ message) thrown), f2)
  end.

Fixpoint run_steps (s : site) (now : Z) (sts : list step) (f : flow) : (string + unit) * flow :=
  match sts with
  | [] => (inr (), f)
  | st :: rest =>
    let (r, f1) := run_step s now st f in
    match r with
    | inl message => (inl message, f1)
    | inr _ => run_steps s now rest f1
    end
  end.

(** [executeFullFlow]: the five steps inside [try]; the [catch] turns
    any error into an unsuccessful result, which is returned. *)
Definition executeFullFlow (s : site) (now : Z) (f : flow) : flow :=
  let (r, f1) := run_steps s now steps f in
  match r with
  | inr _ =>
    {| monitor := monitor f1; sessionId := sessionId f1; success := true;
       errors := errors f1; handled := handled f1; journal := journal f1 |}
  | inl message =>
    {| monitor := monitor f1; sessionId := sessionId f1; success := false;
       errors := errors f1 ++ [{| fe_step := "flow-execution"; fe_message := message |}];
       handled := handled f1; journal := journal f1 |}
  end.

(** What the monitor knows about waiting pages: the counters that only
    [recordWaitingPage] and [recordWaitingPagePassed] write, and the
    WAITING_PAGE lines of its log. *)
Definition waiting_view (m : ConcurrentMonitor.monitor)
    : Z * Z * Q * list (string * Z * Z) :=
  (ConcurrentMonitor.waiting (ConcurrentMonitor.m_stats m),
   ConcurrentMonitor.waitingPageEncounters (ConcurrentMonitor.m_stats m),
   ConcurrentMonitor.avgWaitTime (ConcurrentMonitor.m_stats m),
   omap (λ e, match e with
              | ConcurrentMonitor.WAITING_PAGE id waitTime queuePosition _ =>
                Some (id, waitTime, queuePosition)
              | _ => None
              end) (ConcurrentMonitor.logFile m)).

Definition same_waiting_view (a b : option ConcurrentMonitor.monitor) : Prop :=
  waiting_view <$> a = waiting_view <$> b.

(** The number of looks of the flow that found a waiting page. *)
Definition waiting_looks (f : flow) : nat :=
  length (omap (λ e, match e with WaitingPage.Checked true => Some () | _ => None end)
               (journal f)).

(** A site where every page operation succeeds. *)
Definition calm (pages : nat → WaitingPage.browser_page) : site :=
  {| works := λ _, None; waitingPages := pages |}.

(** A page that shows the queue for the first [n] looks, with the same
    reading each time, and a page that shows it for ever. *)
Definition queue_then_clear (n : nat) : WaitingPage.browser_page :=
  {| WaitingPage.look := λ k,
       if (k <? n)%nat
       then WaitingPage.Queue 200
              {| WaitingPage.waitingCount := 12; WaitingPage.estimatedTime := 8 |}
       else WaitingPage.Clear 200;
     WaitingPage.sleep := λ _, WaitingPage.Slept;
     WaitingPage.pause := None |}.

Definition endless_queue : WaitingPage.browser_page :=
  {| WaitingPage.look := λ _,
       WaitingPage.Queue 200
         {| WaitingPage.waitingCount := 12; WaitingPage.estimatedTime := 60 |};
     WaitingPage.sleep := λ _, WaitingPage.Slept;
     WaitingPage.pause := None |}.

(** A page that shows the queue for ever while the browser is gone:
    every [page.waitForTimeout] throws. *)
Definition closed_queue : WaitingPage.browser_page :=
  {| WaitingPage.look := λ _,
       WaitingPage.Queue 200
         {| WaitingPage.waitingCount := 12; WaitingPage.estimatedTime := 60 |};
     WaitingPage.sleep := λ _,
       WaitingPage.Interrupted
         (Some "page.waitForTimeout: Target page, context or browser has been closed");
     WaitingPage.pause :=
       Some "page.waitForTimeout: Target page, context or browser has been closed" |}.

(** A page that leaves the queue after one look and is closed before
    the pause of 2000 ms that follows. *)
Definition closing_page : WaitingPage.browser_page :=
  {| WaitingPage.look := WaitingPage.look (queue_then_clear 2);
     WaitingPage.sleep := λ _, WaitingPage.Slept;
     WaitingPage.pause :=
       Some "page.waitForTimeout: Target page, context or browser has been closed" |}.

End FlowManager.

(** ** Readings of the monitor's log file *)

Module MonitorLog.
Import ConcurrentMonitor.

(** The number of lines of the log that satisfy [p]. *)
Definition lines (p : log_event → bool) (log : list log_event) : nat :=
  length (List.filter p log).

Definition is_registered (e : log_event) : bool :=
  match e with SESSION_REGISTERED _ _ => true | _ => false end.

Definition is_completed (e : log_event) : bool :=
  match e with SESSION_COMPLETED _ _ _ => true | _ => false end.

Definition is_failed (e : log_event) : bool :=
  match e with SESSION_FAILED _ _ _ => true | _ => false end.

Definition is_waiting_page (e : log_event) : bool :=
  match e with WAITING_PAGE _ _ _ _ => true | _ => false end.

Definition is_step_update (step : string) (e : log_event) : bool :=
  match e with STEP_UPDATE _ s => bool_decide (s = step) | _ => false end.

Definition is_error_at (step : string) (e : log_event) : bool :=
  match e with ERROR _ s _ _ => bool_decide (s = step) | _ => false end.

Definition is_error_of (errorType : string) (e : log_event) : bool :=
  match e with ERROR _ _ _ ty => bool_decide (ty = errorType) | _ => false end.

(** The number that a table holds for a key, 0 when it holds none. *)
Definition tally (table : gmap string ConcurrentMonitor.cell) (key : string) : Z :=
  match table !! key with
  | Some (Count n) => n
  | _ => 0
  end.

(** What a table holds for a key that it has counted [n] times, when
    it held [init] for it at first. *)
Definition counted (init : option cell) (key : string) (n : nat) : option cell :=
  match init with
  | Some (Count z) => Some (Count (z + Z.of_nat n))
  | Some (Text member ones) => Some (Text member (ones + n))
  | None =>
    if (n =? 0)%nat then None
    else if String.eqb key "__proto__" then None
    else if JsString.inherited key then Some (Text key n)
    else Some (Count (Z.of_nat n))
  end.

(** A call of [recordError] for [step] with an [Error] whose message is
    empty: if the session is known the call counts the step and throws
    before it writes the log. *)
Definition is_silent_error (step : string) (e : event) : bool :=
  match e with
  | RecordError _ s (ErrorObject EmptyString) _ => bool_decide (s = step)
  | _ => false
  end.

Definition silent_errors (step : string) (evs : list event) : nat :=
  length (List.filter (is_silent_error step) evs).

(** The aggregate counters can be recomputed from the log, but for the
    [extra] errors of each step that were counted and not logged. *)
Definition stats_match_log (m : monitor) (extra : string → nat) : Prop :=
  total (m_stats m) = Z.of_nat (lines is_registered (logFile m)) ∧
  st_completed (m_stats m) = Z.of_nat (lines is_completed (logFile m)) ∧
  st_failed (m_stats m) = Z.of_nat (lines is_failed (logFile m)) ∧
  waitingPageEncounters (m_stats m) = Z.of_nat (lines is_waiting_page (logFile m)) ∧
  (∀ step, stepStats (m_stats m) !! step =
           counted (stepStats initial_stats !! step) step
             (lines (is_step_update step) (logFile m))) ∧
  (∀ step, errorsByStep (m_stats m) !! step =
           counted None step (lines (is_error_at step) (logFile m) + extra step)) ∧
  (∀ ty, errorsByType (m_stats m) !! ty =
         counted None ty (lines (is_error_of ty) (logFile m))).

End MonitorLog.

(** ** [executeMulti] together with its monitor (src/core/test-executor.js) *)

Module MonitoredRun.
Import TestExecutor.

(** [`test-${i + 1}`] *)
Definition sessionName (i : nat) : string := "test-" +:+ pretty (S i).

(** What a session in flight tells the monitor: the steps of
    [FlowManager] call [updateSessionStep] and [recordError], and the
    [catch] of [TestSession.run] calls [recordError]. *)
Inductive report_call :=
| StepUpdate (step : string)
| ErrorReport (step : string) (error : ConcurrentMonitor.error_value).

(** The monitor after the call, whether it returned or threw. *)
Definition report (id : string) (r : report_call) (now : Z)
    (m : ConcurrentMonitor.monitor) : ConcurrentMonitor.monitor :=
  match r with
  | StepUpdate step => ConcurrentMonitor.updateSessionStep id step now m
  | ErrorReport step error => (ConcurrentMonitor.recordError id step error now m).1
  end.

(** How [session.run(this.monitor)] ends inside
    [_runSessionWithMonitoring]: with the session's result, or with an
    [Error] that carries [message]. *)
Inductive ending :=
| Resolves (value : result)
| Rejects (message : string).

(** [this] of the executor during [executeMulti]: the loop state and
    [this.monitor]. *)
Record monitored := {
  exec : executor;
  monitor : ConcurrentMonitor.monitor
}.

(** [executeMulti] up to the loop: [new ConcurrentMonitor(..)]. *)
Definition start (count concurrency : nat) : monitored :=
  {| exec := executeMulti count concurrency; monitor := ConcurrentMonitor.new_monitor |}.

(** The body of the [for] loop for test [i], the [j]-th of its batch:
    [registerSession(sessionId, { index: i + 1 })], then
    [_runSessionWithMonitoring(session)], which runs up to its first
    [await] and so calls [startSession] at once.  [clock k] is the k-th
    reading of [Date.now()] in the segment. *)
Definition launch (clock : nat → Z) (m : ConcurrentMonitor.monitor) (ji : nat * nat)
    : ConcurrentMonitor.monitor :=
  ConcurrentMonitor.startSession (sessionName ji.2) (clock (2 * ji.1 + 1)%nat)
    (ConcurrentMonitor.registerSession (sessionName ji.2)
       (ConcurrentMonitor.with_index (S ji.2)) (clock (2 * ji.1)%nat) m).

Definition launch_batch (clock : nat → Z) (b : list nat) (m : ConcurrentMonitor.monitor)
    : ConcurrentMonitor.monitor :=
  fold_left (launch clock) (imap (λ j i, (j, i)) b) m.

(** The rest of [_runSessionWithMonitoring], with the entry of
    [Promise.allSettled] it makes for the session: after [session.run]
    resolved, [completeSession(id, result.success, result)] and the
    result; in the [catch], [completeSession(id, false)] and
    [recordError(id, 'session-execution', error)] before the error is
    thrown again, unless [recordError] throws: then the promise is
    rejected with what it threw.  The result object is stored as it
    is; the model keeps the text JavaScript prints for it. *)
Definition finish (id : string) (how : ending) (clock : nat → Z)
    (m : ConcurrentMonitor.monitor) : ConcurrentMonitor.monitor * settled :=
  match how with
  | Resolves value =>
    (ConcurrentMonitor.completeSession id (success value) "[object Object]" (clock 0%nat) m,
     Fulfilled value)
  | Rejects message =>
    let (m1, thrown) :=
      ConcurrentMonitor.recordError id "session-execution"
        (ConcurrentMonitor.ErrorObject message) (clock 1%nat)
        (ConcurrentMonitor.completeSession id false "{}" (clock 0%nat) m) in
    (m1, Rejected (Some (default message thrown)))
  end.

(** The entry of [Promise.allSettled] for a session that ended and
    that the monitor knows. *)
Definition settlement (how : ending) : settled :=
  match how with
  | Resolves value => Fulfilled value
  | Rejects message =>
    Rejected (Some (if JsString.truthy message then message
                    else ConcurrentMonitor.toLowerCase_TypeError))
  end.

Inductive event :=
| LoopTest (clock : nat → Z)
| Reports (i : nat) (r : report_call) (now : Z)
| SessionEnds (i : nat) (how : ending) (clock : nat → Z)
| AllSettled
| CooldownElapsed
| Stop.

(** One step of the executor with what it does to the monitor.  A
    session reports only while it is in flight. *)
Definition step (st : monitored) (ev : event) : option monitored :=
  match ev with
  | LoopTest clock =>
    e' ← TestExecutor.step (exec st) TestExecutor.LoopTest;
    Some {| exec := e';
            monitor := match at_phase e' with
                       | InWave batchEnd =>
                         launch_batch clock (batch (exec st) batchEnd) (monitor st)
                       | _ => monitor st
                       end |}
  | Reports i r now =>
    if bool_decide (i ∈ started (exec st) ∧ outcomes (exec st) !! i = None) then
      Some {| exec := exec st; monitor := report (sessionName i) r now (monitor st) |}
    else None
  | SessionEnds i how clock =>
    let (m1, entry) := finish (sessionName i) how clock (monitor st) in
    e' ← TestExecutor.step (exec st) (SessionSettles i entry);
    Some {| exec := e'; monitor := m1 |}
  | AllSettled =>
    e' ← TestExecutor.step (exec st) TestExecutor.AllSettled;
    Some {| exec := e'; monitor := monitor st |}
  | CooldownElapsed =>
    e' ← TestExecutor.step (exec st) TestExecutor.CooldownElapsed;
    Some {| exec := e'; monitor := monitor st |}
  | Stop =>
    e' ← TestExecutor.step (exec st) TestExecutor.Stop;
    Some {| exec := e'; monitor := monitor st |}
  end.

Fixpoint run (evs : list event) (st : monitored) : option monitored :=
  match evs with
  | [] => Some st
  | ev :: evs' => st1 ← step st ev; run evs' st1
  end.

(** The four session counters of the monitor: [total], [running],
    [completed], [failed]. *)
Definition counters (m : ConcurrentMonitor.monitor) : Z * Z * Z * Z :=
  let s := ConcurrentMonitor.m_stats m in
  (ConcurrentMonitor.total s, ConcurrentMonitor.st_running s,
   ConcurrentMonitor.st_completed s, ConcurrentMonitor.st_failed s).





End MonitoredRun.

(** ** [executeMulti] with a batch size of 0 *)

Module EmptyBatches.
Import TestExecutor.
Local Open Scope nat_scope.

(** The states of [executeMulti] with a batch size of 0: before the
    loop, and in it with the flag set. *)
Definition idling (n : nat) (e : executor) : Prop :=
  count e = n ∧ batchSize e = 0 ∧ completed e = 0 ∧
  started e = [] ∧ results e = [] ∧ outcomes e = ∅ ∧ concat (waves e) = [] ∧
  (at_phase e = Called ∨
   isRunning e = true ∧
   (at_phase e = LoopHead ∨ at_phase e = InWave 0 ∨ at_phase e = Cooldown)).

(** One turn of the loop with an empty batch. *)
Definition empty_turn : list event := [LoopTest; AllSettled; CooldownElapsed].

End EmptyBatches.

(** ** The time fields of [_createSummary] (src/core/test-executor.js) *)

Module SummaryTimes.
Import TestExecutor.

(** [this.results.filter(r => r.totalTime > 0).map(r => r.totalTime)] *)
Definition times (results : list result) : list Z :=
  totalTime <$> List.filter (λ r, 0 <? totalTime r) results.

(** [times.length > 0 ? Math.min(...times) : 0] *)
Definition minTime (results : list result) : Z :=
  match times results with
  | [] => 0
  | t :: ts => fold_left Z.min ts t
  end.

(** [times.length > 0 ? Math.max(...times) : 0] *)
Definition maxTime (results : list result) : Z :=
  match times results with
  | [] => 0
  | t :: ts => fold_left Z.max ts t
  end.

End SummaryTimes.

(** ** ReportGenerator (src/reports/report-generator.js) *)

Module ReportGenerator.
Import TestExecutor.

(** A JavaScript number that may be [Infinity]. *)
Inductive extended := Fin (z : Z) | Inf.

(** [Math.min(min, x)] with [min] possibly [Infinity]. *)
Definition min_ext (m : extended) (x : extended) : extended :=
  match m, x with
  | Inf, _ => x
  | _, Inf => m
  | Fin a, Fin b => Fin (Z.min a b)
  end.

(** [r.totalTime || 0] and [r.totalTime || Infinity]: 0 is falsy. *)
Definition time_or_zero (r : result) : Z := totalTime r.

Definition time_or_infinity (r : result) : extended :=
  if totalTime r =? 0 then Inf else Fin (totalTime r).

Record statistics := {
  st_total : nat;
  st_successful : nat;
  st_failed : nat;
  st_maxTime : Z;
  st_minTime : Z;
  totalDuration : Z
}.

(** [calculateStatistics], without the rounded averages and the
    success rate, which are floating-point values. *)
Definition calculateStatistics (testResults : list result) : statistics :=
  let total := length testResults in
  let successful := length (List.filter success testResults) in
  let totalTime := fold_left (λ sum r, sum + time_or_zero r) testResults 0 in
  let maxTime := fold_left (λ max r, Z.max max (time_or_zero r)) testResults 0 in
  let minTime := fold_left (λ min r, min_ext min (time_or_infinity r)) testResults Inf in
  {| st_total := total; st_successful := successful; st_failed := total - successful;
     st_maxTime := maxTime;
     st_minTime := match minTime with Inf => 0 | Fin z => z end;
     totalDuration := totalTime |}.

End ReportGenerator.

(** ** What a call of [handleNetworkError] does *)

Module RetryOutcome.
Import ErrorHandler.
Local Open Scope nat_scope.

(** What one call of [handleNetworkError] has done when it settles,
    with [k] the number of retries it made. *)
Definition settles_after (f : nat → outcome) (maxRetries : nat) (operation error : string)
    (h : handler) (k : nat) (r : outcome) (h' : handler) : Prop :=
  k ≤ maxRetries - currentAttempts h operation ∧
  retried h' = retried h + k ∧
  waited h' = waited h ++ (backoffDelay <$> seq (currentAttempts h operation) k) ∧
  (∀ j, S j < k → ∃ e, f (retried h + j) = Thrown e) ∧
  (∀ other, other ≠ operation → retryAttempts h' !! other = retryAttempts h !! other) ∧
  match r with
  | Returned v =>
    0 < k ∧ f (retried h + (k - 1)) = Returned v ∧ retryAttempts h' !! operation = None
  | Thrown message =>
    k = maxRetries - currentAttempts h operation ∧
    currentAttempts h' operation = Nat.max (currentAttempts h operation) maxRetries ∧
    ∃ e, message = exhausted_message operation maxRetries e ∧
         (k = 0 → e = error) ∧ (0 < k → f (retried h + (k - 1)) = Thrown e)
  end.

End RetryOutcome.

(** ** What [waitForCompletion] sees of the page *)

Module WaitingLooks.
Import WaitingPage.
Local Open Scope Z_scope.

(** The looks a run of the loop may make before the ceiling: one per
    started second of the time left. *)
Definition looks_allowed (maxWaitTime elapsed : Z) : nat :=
  Z.to_nat ((maxWaitTime - elapsed + 999) / 1000).

(** What a run of the loop that starts at its [k]-th turn has seen
    when it answers, with [m] the number of looks that found the
    waiting page. *)
Definition seen (pg : browser_page) (maxWaitTime : Z) (k : nat) (c : completion)
    (m : nat) : Prop :=
  (∀ j, (j < m)%nat → ∃ took info, look pg (k + j)%nat = Queue took info) ∧
  match answer c with
  | Passed =>
    checks c = replicate m true ++ [false] ∧ length (sleeps c) = m ∧
    ∃ took, look pg (k + m)%nat = Clear took ∧ finishedAt c - Z.of_N took < maxWaitTime
  | TimedOut =>
    checks c = replicate m true ∧ length (sleeps c) = m ∧ maxWaitTime ≤ finishedAt c
  | Crashed message =>
    checks c = replicate m true ∧ S (length (sleeps c)) = m ∧
    sleep pg (k + (m - 1))%nat = Interrupted (Some message)
  end.

End WaitingLooks.

(** ** What decides the outcome of a flow *)

Module FlowOutcome.
Import FlowManager.







Local Open Scope nat_scope.



End FlowOutcome.

(** ** The session manager as [executeMulti] configures it *)

Module TabMode.
Local Open Scope nat_scope.

(** The configuration [executeMulti] gives the session manager in tab
    mode when called from the command line, where
    [tabsPerBrowser = Math.max(1, concurrency)]. *)
Definition tab_mode (concurrency : nat) : BrowserSessionManager.manager :=
  BrowserSessionManager.setTabsPerBrowser (Nat.max 1 concurrency)
    (BrowserSessionManager.enableSharedContextMode BrowserSessionManager.new_manager).

End TabMode.

(** ** Decimal numerals, as template literals print numbers *)

Module Numerals.

Definition is_digit (c : ascii) : bool :=
  (Nat.leb 48 (nat_of_ascii c) && Nat.leb (nat_of_ascii c) 57)%bool.

Fixpoint digits (s : string) : bool :=
  match s with
  | EmptyString => true
  | String c r => (is_digit c && digits r)%bool
  end.

End Numerals.

(** ** [executeLoad] and its workers (src/core/test-executor.js) *)

Module LoadTest.

(** [`worker-${workerId}-test-${testCount}`] *)
Definition workerSessionId (workerId testCount : nat) : string :=
  "worker-" +:+ pretty workerId +:+ "-test-" +:+ pretty testCount.

(** Where a worker stands: at [await this._runSession(session)], with
    [session.run()] pending or, in the [finally] of [_runSession], with
    [session.cleanup()] pending; at the two-second pause; or past its
    loop. *)
Inductive activity := Running | Cleaning | Pausing | Returned.

(** [testCount] is the local of [_runLoadWorker]. *)
Record worker := { testCount : nat; doing : activity }.

(** A session that was created: by which worker, with which
    [testCount], and what [Date.now()] read in the test of the [while]
    before. *)
Record launch := { by_worker : nat; number : nat; at_time : Z }.

Definition launch_id (s : launch) : string :=
  workerSessionId (by_worker s) (number s).

(** [endTime] is the local of [executeLoad]; [isRunning], [results]
    and [sessions] (the keys of the [Map]) are fields; [workers] are
    the calls of [_runLoadWorker], by [workerId].  [launched],
    [resolved] and [rejected] record the history: the sessions created
    and how many calls of [_runSession] resolved and rejected.
    [answer] is the value [executeLoad] has returned. *)
Record load := {
  endTime : Z;
  isRunning : bool;
  results : list TestExecutor.result;
  sessions : gset string;
  workers : list worker;
  launched : list launch;
  resolved : nat;
  rejected : nat;
  answer : option TestExecutor.report
}.

Definition set_worker (w : nat) (wk : worker) (l : load) : load :=
  {| endTime := endTime l; isRunning := isRunning l; results := results l;
     sessions := sessions l; workers := <[w := wk]> (workers l);
     launched := launched l; resolved := resolved l; rejected := rejected l;
     answer := answer l |}.

(** [while (Date.now() < endTime && this.isRunning)] for the worker
    [w] whose counter is [k], with the body up to
    [await this._runSession(session)], where [session.run()] has
    begun; or the return of the worker. *)
Definition loop_turn (w k : nat) (now : Z) (l : load) : worker * load :=
  if ((now <? endTime l) && isRunning l)%bool then
    ({| testCount := k; doing := Running |},
     {| endTime := endTime l; isRunning := isRunning l; results := results l;
        sessions := {[workerSessionId w k]} ∪ sessions l;
        workers := workers l;
        launched := launched l ++ [{| by_worker := w; number := k; at_time := now |}];
        resolved := resolved l; rejected := rejected l;
        answer := answer l |})
  else ({| testCount := k; doing := Returned |}, l).

(** [workers.push(this._runLoadWorker(i, endTime))]: the call runs up
    to its first [await]. *)
Definition _runLoadWorker (workerId : nat) (now : Z) (l : load) : load :=
  let '(wk, l') := loop_turn workerId 0 now l in
  {| endTime := endTime l'; isRunning := isRunning l'; results := results l';
     sessions := sessions l'; workers := workers l' ++ [wk];
     launched := launched l'; resolved := resolved l'; rejected := rejected l';
     answer := answer l' |}.

(** [executeLoad] up to [await Promise.all(workers)], on a new
    executor.  [clock 0] is the reading of [Date.now()] for [endTime]
    and [clock (i + 1)] the one of the first loop test of worker [i]. *)
Definition executeLoad (duration concurrency : Z) (clock : nat → Z) : load :=
  fold_left (λ l i, _runLoadWorker i (clock (S i)) l) (seq 0 (Z.to_nat concurrency))
    {| endTime := clock 0%nat + duration * 60 * 1000; isRunning := true; results := [];
       sessions := ∅; workers := []; launched := []; resolved := 0; rejected := 0;
       answer := None |}.

Inductive event :=
| RunSettles (w : nat)          (* session.run() settles: the finally of _runSession *)
| SessionResolves (w : nat) (value : TestExecutor.result)
                                (* _runSession resolves: results.push, the pause begins *)
| SessionRejects (w : nat) (now : Z)
                                (* _runSession rejects: the catch, then the loop test *)
| PauseElapsed (w : nat) (now : Z)
                                (* the setTimeout of 2000 ms fires, then the loop test *)
| Stop                          (* stop() is called *)
| WorkersDone.                  (* Promise.all(workers) resolves *)

Definition all_returned (l : load) : bool :=
  forallb (λ wk, match doing wk with Returned => true | _ => false end) (workers l).

(** The value [executeLoad] returns. *)
Definition load_report (l : load) : TestExecutor.report :=
  {| TestExecutor.rep_success :=
       Nat.ltb 0 (length (List.filter TestExecutor.success (results l)));
     TestExecutor.rep_results := results l;
     TestExecutor.rep_summary := TestExecutor._createSummary (results l) |}.

Definition step (l : load) (ev : event) : option load :=
  match ev with
  | RunSettles w =>
    match workers l !! w with
    | Some {| testCount := k; doing := Running |} =>
      Some {| endTime := endTime l; isRunning := isRunning l; results := results l;
              sessions := sessions l ∖ {[workerSessionId w k]};
              workers := <[w := {| testCount := k; doing := Cleaning |}]> (workers l);
              launched := launched l; resolved := resolved l; rejected := rejected l;
              answer := answer l |}
    | _ => None
    end
  | SessionResolves w value =>
    match workers l !! w with
    | Some {| testCount := k; doing := Cleaning |} =>
      Some {| endTime := endTime l; isRunning := isRunning l;
              results := results l ++ [value];
              sessions := sessions l;
              workers := <[w := {| testCount := S k; doing := Pausing |}]> (workers l);
              launched := launched l; resolved := S (resolved l); rejected := rejected l;
              answer := answer l |}
    | _ => None
    end
  | SessionRejects w now =>
    match workers l !! w with
    | Some {| testCount := k; doing := Cleaning |} =>
      let '(wk, l') := loop_turn w (S k) now l in
      Some {| endTime := endTime l'; isRunning := isRunning l'; results := results l';
              sessions := sessions l'; workers := <[w := wk]> (workers l');
              launched := launched l'; resolved := resolved l'; rejected := S (rejected l');
              answer := answer l' |}
    | _ => None
    end
  | PauseElapsed w now =>
    match workers l !! w with
    | Some {| testCount := k; doing := Pausing |} =>
      let '(wk, l') := loop_turn w k now l in Some (set_worker w wk l')
    | _ => None
    end
  | Stop =>
    Some {| endTime := endTime l; isRunning := false; results := results l;
            sessions := sessions l; workers := workers l;
            launched := launched l; resolved := resolved l; rejected := rejected l;
            answer := answer l |}
  | WorkersDone =>
    match answer l with
    | None =>
      if all_returned l then
        Some {| endTime := endTime l; isRunning := false; results := results l;
                sessions := ∅; workers := workers l;
                launched := launched l; resolved := resolved l; rejected := rejected l;
                answer := Some (load_report l) |}
      else None
    | Some _ => None
    end
  end.

Fixpoint run (evs : list event) (l : load) : option load :=
  match evs with
  | [] => Some l
  | ev :: evs' => l1 ← step l ev; run evs' l1
  end.

(** The sessions a worker has created, by their numbers. *)
Definition numbers_of (w : nat) (l : load) : list nat :=
  number <$> List.filter (λ s, Nat.eqb (by_worker s) w) (launched l).

(** The sessions a worker has created, counted from its state. *)
Definition created (wk : worker) : nat :=
  match doing wk with
  | Running | Cleaning => S (testCount wk)
  | Pausing | Returned => testCount wk
  end.

(** What holds of [executeLoad] with [n] workers at every moment. *)
Definition load_inv (n : nat) (l : load) : Prop :=
  length (workers l) = n ∧
  (∀ w wk, workers l !! w = Some wk → numbers_of w l = seq 0 (created wk)) ∧
  (∀ s, s ∈ launched l → (by_worker s < n)%nat) ∧
  (∀ id, id ∈ sessions l ↔
         ∃ w wk, workers l !! w = Some wk ∧ doing wk = Running ∧
                 id = workerSessionId w (testCount wk)) ∧
  NoDup (launch_id <$> launched l) ∧
  (∀ s, s ∈ launched l → at_time s < endTime l) ∧
  length (results l) = resolved l ∧
  length (launched l) = sum_list_with created (workers l) ∧
  (resolved l + rejected l)%nat = sum_list_with testCount (workers l) ∧
  (∀ r, answer l = Some r →
        r = load_report l ∧ isRunning l = false ∧ all_returned l = true).

(** The values of the calls of [_runSession] that resolved, in the
    order in which they did, and the number of calls that rejected. *)
Definition resolutions (evs : list event) : list TestExecutor.result :=
  omap (λ ev, match ev with SessionResolves _ value => Some value | _ => None end) evs.

Definition rejections (evs : list event) : nat :=
  length (List.filter (λ ev, match ev with SessionRejects _ _ => true | _ => false end) evs).

(** A run of one minute with two workers: the first session of
    worker 1 rejects, [stop()] is called while its second session is
    in flight, and that session is left to finish. *)
Definition ticks (k : nat) : Z := Z.of_nat k.

Definition ok (id : string) (ms : Z) : TestExecutor.result :=
  {| TestExecutor.success := true; TestExecutor.error := None;
     TestExecutor.testIndex := None; TestExecutor.sessionId := Some id;
     TestExecutor.totalTime := ms |}.

Definition stopped_load : list event :=
  [RunSettles 0; SessionResolves 0 (ok "worker-0-test-0" 900);
   RunSettles 1; SessionRejects 1 1000;
   Stop;
   PauseElapsed 0 2900;
   RunSettles 1; SessionResolves 1 (ok "worker-1-test-1" 800);
   PauseElapsed 1 3900;
   WorkersDone].

End LoadTest.

(** ** TestDataGenerator (src/data/index.js) *)

Module TestDataGenerator.

(** [s.padStart(targetLength, c)] for a one-character filler. *)
Fixpoint fill (n : nat) (c : ascii) (s : string) : string :=
  match n with
  | O => s
  | S n' => String c (fill n' c s)
  end.

Definition padStart (targetLength : nat) (c : ascii) (s : string) : string :=
  fill (targetLength - String.length s) c s.

Record generator := {
  processId : string;
  globalCounter : nat;
  usedNames : gset string
}.

(** The constructor, in a process whose id is [pid]. *)
Definition new_generator (pid : nat) : generator :=
  {| processId := padStart 2 "0" (pretty (pid mod 100)%nat);
     globalCounter := 0;
     usedNames := ∅ |}.

(** [(Date.now() % 1000000).toString().padStart(6, '0')] *)
Definition timestamp (now : Z) : string :=
  padStart 6 "0" (pretty (Z.rem now 1000000)).

(** [(n % 100).toString().padStart(2, '0')] *)
Definition counter (n : nat) : string :=
  padStart 2 "0" (pretty (n mod 100)%nat).

(** [`test${this.processId}${timestamp}${counter}`] *)
Definition testName (g : generator) (now : Z) (n : nat) : string :=
  "test" +:+ processId g +:+ timestamp now +:+ counter n.

(** [generateUniqueTestName]; [customNumber] is [None] for [null] and
    otherwise holds [String(customNumber)]; [now] is the reading of
    [Date.now()]. *)
Definition generateUniqueTestName (customNumber : option string) (now : Z)
    (g : generator) : string * generator :=
  match customNumber with
  | Some number =>
    let name := "test" +:+ padStart 6 "0" number in
    (name, {| processId := processId g; globalCounter := globalCounter g;
              usedNames := {[name]} ∪ usedNames g |})
  | None =>
    let name := testName g now (globalCounter g) in
    if decide (name ∈ usedNames g) then
      let retryName := testName g now (S (globalCounter g)) in
      (retryName, {| processId := processId g; globalCounter := S (S (globalCounter g));
                     usedNames := {[retryName]} ∪ usedNames g |})
    else
      (name, {| processId := processId g; globalCounter := S (globalCounter g);
                usedNames := {[name]} ∪ usedNames g |})
  end.

(** [reset] *)
Definition reset (g : generator) : generator :=
  {| processId := processId g; globalCounter := 0; usedNames := ∅ |}.

(** The names of successive calls of [generateUniqueTestName()], made
    when [Date.now()] reads the given values. *)
Fixpoint generate (nows : list Z) (g : generator) : list string * generator :=
  match nows with
  | [] => ([], g)
  | now :: rest =>
    let '(name, g1) := generateUniqueTestName None now g in
    let '(names, g2) := generate rest g1 in
    (name :: names, g2)
  end.

(** The names the generator can give at one reading of the clock. *)
Definition names_at (g : generator) (now : Z) : list string :=
  (λ n, testName g now n) <$> seq 0 100.

(** What is known of a generator that has not retried: its counter,
    and that each name in use was made with a smaller counter. *)
Definition in_step (g : generator) (c : nat) : Prop :=
  globalCounter g = c ∧
  ∀ name, name ∈ usedNames g →
          ∃ now n, (0 ≤ now)%Z ∧ (n < c)%nat ∧ name = testName g now n.

(** [counter] tells the numbers below 100 apart. *)
Definition counters_differ : bool :=
  forallb (λ a, forallb (λ b, implb (String.eqb (counter a) (counter b)) (Nat.eqb a b))
                  (seq 0 100)) (seq 0 100).

End TestDataGenerator.

(** ** The command line (cli.js) *)

Module Cli.

(** [options] while the arguments are read, and once [tabsPerBrowser]
    has been added. *)
Record flags := {
  f_mode : string;
  f_count : Z;
  f_concurrency : Z;
  f_duration : Z;
  f_useTabMode : bool
}.

Record options := {
  mode : string;
  count : Z;
  concurrency : Z;
  duration : Z;
  useTabMode : bool;
  tabsPerBrowser : Z
}.

Definition defaults : flags :=
  {| f_mode := "single"; f_count := 3; f_concurrency := 2; f_duration := 5;
     f_useTabMode := true |}.

Definition modes : list string := ["single"; "multi"; "load"].

(** One of the given flags is among the arguments. *)
Definition named (names args : list string) : Prop := ∃ arg, arg ∈ names ∧ arg ∈ args.

(** What the loop over the arguments changes: a field only when one of
    its flags is among the arguments. *)
Definition kept (args : list string) (o o' : flags) : Prop :=
  f_mode o' = f_mode o ∧
  (f_count o' ≠ f_count o → named ["-c"; "--count"] args) ∧
  (f_concurrency o' ≠ f_concurrency o →
   named ["-p"; "--parallel"; "--concurrency"] args) ∧
  (f_duration o' ≠ f_duration o → named ["-d"; "--duration"] args) ∧
  (f_useTabMode o' ≠ f_useTabMode o → "--no-tab-mode" ∈ args).

Section Arguments.

(** [parseInt]: its argument is [None] for [undefined], its result
    [None] for [NaN].  What follows holds whatever it returns. *)
Variable parseInt : option string → option Z.

(** [parseInt(x) || fallback]: [NaN] and 0 are falsy. *)
Definition number_or (fallback : Z) (x : option string) : Z :=
  match parseInt x with
  | Some z => if z =? 0 then fallback else z
  | None => fallback
  end.

Definition is_one_of (names : list string) (arg : string) : bool :=
  existsb (String.eqb arg) names.

(** The [for] loop over the arguments: [args[++i]] takes the next
    argument as the value of a flag, or [undefined] at the end. *)
Fixpoint read_flags (args : list string) (o : flags) : flags :=
  match args with
  | [] => o
  | arg :: rest =>
    if is_one_of ["-c"; "--count"] arg then
      match rest with
      | value :: rest' =>
        read_flags rest'
          {| f_mode := f_mode o; f_count := number_or 3 (Some value);
             f_concurrency := f_concurrency o; f_duration := f_duration o;
             f_useTabMode := f_useTabMode o |}
      | [] =>
        {| f_mode := f_mode o; f_count := number_or 3 None;
           f_concurrency := f_concurrency o; f_duration := f_duration o;
           f_useTabMode := f_useTabMode o |}
      end
    else if is_one_of ["-p"; "--parallel"; "--concurrency"] arg then
      match rest with
      | value :: rest' =>
        read_flags rest'
          {| f_mode := f_mode o; f_count := f_count o;
             f_concurrency := number_or 2 (Some value); f_duration := f_duration o;
             f_useTabMode := f_useTabMode o |}
      | [] =>
        {| f_mode := f_mode o; f_count := f_count o;
           f_concurrency := number_or 2 None; f_duration := f_duration o;
           f_useTabMode := f_useTabMode o |}
      end
    else if is_one_of ["-d"; "--duration"] arg then
      match rest with
      | value :: rest' =>
        read_flags rest'
          {| f_mode := f_mode o; f_count := f_count o;
             f_concurrency := f_concurrency o; f_duration := number_or 5 (Some value);
             f_useTabMode := f_useTabMode o |}
      | [] =>
        {| f_mode := f_mode o; f_count := f_count o;
           f_concurrency := f_concurrency o; f_duration := number_or 5 None;
           f_useTabMode := f_useTabMode o |}
      end
    else if String.eqb arg "--no-tab-mode" then
      read_flags rest
        {| f_mode := f_mode o; f_count := f_count o;
           f_concurrency := f_concurrency o; f_duration := f_duration o;
           f_useTabMode := false |}
    else read_flags rest o
  end.

(** The mode, when the first argument names one; the argument is then
    removed. *)
Definition read_mode (args : list string) : flags * list string :=
  match args with
  | first :: rest =>
    if negb (JsString.startsWith "-" first) then
      let mode := JsString.toLowerCase first in
      if is_one_of modes mode then
        ({| f_mode := mode; f_count := f_count defaults;
            f_concurrency := f_concurrency defaults; f_duration := f_duration defaults;
            f_useTabMode := f_useTabMode defaults |}, rest)
      else (defaults, args)
    else (defaults, args)
  | [] => (defaults, args)
  end.

(** [parseArgs] on [process.argv.slice(2)]; [None] when the usage is
    printed and the process exits. *)
Definition parseArgs (args : list string) : option options :=
  if (is_one_of args "--help" || is_one_of args "-h")%bool then None
  else
    let '(o, args') := read_mode args in
    let o := read_flags args' o in
    Some {| mode := f_mode o; count := f_count o; concurrency := f_concurrency o;
            duration := f_duration o; useTabMode := f_useTabMode o;
            tabsPerBrowser := if f_useTabMode o then Z.max 1 (f_concurrency o) else 1 |}.

End Arguments.

(** [parseInt] on the decimal numerals without sign, enough for the
    examples. *)
Fixpoint decimal (acc : Z) (s : string) : option Z :=
  match s with
  | EmptyString => Some acc
  | String c r =>
    if Numerals.is_digit c
    then decimal (10 * acc + Z.of_nat (nat_of_ascii c - 48)) r
    else Some acc
  end.

Definition parseDecimal (x : option string) : option Z :=
  match x with
  | Some (String c r) => if Numerals.is_digit c then decimal 0 (String c r) else None
  | _ => None
  end.

(** The exit code [main] chooses for the value of [executeMulti] or
    [executeLoad]:
    [result.success || (result.summary && result.summary.successful > 0)]. *)
Definition exitCode (r : TestExecutor.report) : Z :=
  if (TestExecutor.rep_success r ||
      Nat.ltb 0 (TestExecutor.successful (TestExecutor.rep_summary r)))%bool
  then 0 else 1.

End Cli.

(** ** Logger (src/utils/logger.js) *)

Module Logger.

(** What [levels[level]] holds: a number for the four names of the
    table, a function or an object for a name that [Object.prototype]
    defines, and [undefined] for any other name. *)
Inductive entry := Number (n : Z) | Inherited | Undefined.

(** The four logging methods, with the bound each one tests
    [this.logLevel] against. *)
Inductive method := debug | info | warn | error.

Definition bound (m : method) : Z :=
  match m with debug => 0 | info => 1 | warn => 2 | error => 3 end.

Section Levels.

(** The names [Object.prototype] defines, such as toString. *)
Variable inherited : string → bool.

Definition levels (level : string) : entry :=
  if String.eqb level "debug" then Number 0
  else if String.eqb level "info" then Number 1
  else if String.eqb level "warn" then Number 2
  else if String.eqb level "error" then Number 3
  else if inherited level then Inherited
  else Undefined.

(** [levels[level] || 1]: 0 and [undefined] are falsy. *)
Definition getLogLevel (level : string) : entry :=
  match levels level with
  | Number n => if n =? 0 then Number 1 else Number n
  | Inherited => Inherited
  | Undefined => Number 1
  end.

(** [this.logLevel <= k]; a function or an object compares as [NaN]. *)
Definition at_most (logLevel : entry) (k : Z) : bool :=
  match logLevel with
  | Number n => n <=? k
  | _ => false
  end.

(** Whether a logger made with [config.logLevel = level] prints what
    the method is given. *)
Definition prints (level : string) (m : method) : bool :=
  at_most (getLogLevel level) (bound m).

End Levels.

End Logger.

(** ** TestManagerService (src/web/services/test-manager.service.js) *)

Module TestManagerService.

(** The fields of [options] that [runTest] reads; a number is kept as
    the text a template literal prints for it, [None] is [undefined]. *)
Record options := {
  o_mode : string;
  o_count : option string;
  o_parallel : option string;
  o_duration : option string
}.

Record test := { mode : string; count : string; parallel : string; duration : string }.

(** [currentProcess] is the handle of the child [exec] returned last;
    [isRunning], [currentTest] and [logs] are the fields of
    [this.status].  [children] are the commands given to [exec], a
    child's handle being its place in the list, and [alive] the
    children that have not closed. *)
Record service := {
  currentProcess : option nat;
  isRunning : bool;
  currentTest : option test;
  logs : list string;
  children : list string;
  alive : gset nat
}.

Definition new_service : service :=
  {| currentProcess := None; isRunning := false; currentTest := None; logs := [];
     children := []; alive := ∅ |}.

(** [_addLog]; the time of a line is left out. *)
Definition push_log (message : string) (logs : list string) : list string :=
  let logs := logs ++ [message] in
  if Nat.ltb 100 (length logs) then tail logs else logs.

Definition _addLog (message : string) (s : service) : service :=
  {| currentProcess := currentProcess s; isRunning := isRunning s;
     currentTest := currentTest s; logs := push_log message (logs s);
     children := children s; alive := alive s |}.

(** [_buildCommand]: the command, or the message of the error thrown. *)
Definition _buildCommand (t : test) : string + string :=
  if (String.eqb (mode t) "single" || String.eqb (mode t) "debug")%bool then
    inr "node cli.js single"
  else if String.eqb (mode t) "multi" then
    inr ("node cli.js multi -c " +:+ count t +:+ " -p " +:+ parallel t)
  else if String.eqb (mode t) "load" then
    inr ("node cli.js load -d " +:+ duration t +:+ " -p " +:+ parallel t)
  else inl ("Invalid test mode: " +:+ mode t).

(** A call either goes through or throws (for [runTest]: rejects). *)
Inductive outcome := Done | Throws (message : string).

(** [runTest] up to the promise it returns. *)
Definition runTest (o : options) (s : service) : outcome * service :=
  if isRunning s then (Throws "Test is already running", s)
  else
    let t := {| mode := o_mode o; count := default "4" (o_count o);
                parallel := default "2" (o_parallel o);
                duration := default "5" (o_duration o) |} in
    let s1 := {| currentProcess := currentProcess s; isRunning := true;
                 currentTest := Some t; logs := [];
                 children := children s; alive := alive s |} in
    match _buildCommand t with
    | inl message => (Throws message, s1)
    | inr command =>
      let s2 := _addLog ("Starting test: " +:+ command) s1 in
      (Done,
       {| currentProcess := Some (length (children s2)); isRunning := isRunning s2;
          currentTest := currentTest s2; logs := logs s2;
          children := children s2 ++ [command];
          alive := {[length (children s2)]} ∪ alive s2 |})
    end.

(** [stopTest]; [kill] sends the signal and returns. *)
Definition stopTest (s : service) : outcome * service :=
  match currentProcess s with
  | None => (Throws "No test is running", s)
  | Some _ =>
    (Done,
     _addLog "Test stopped by user"
       {| currentProcess := currentProcess s; isRunning := false;
          currentTest := currentTest s; logs := logs s;
          children := children s; alive := alive s |})
  end.

(** The listeners [runTest] puts on a child. *)
Definition on_stdout (data : string) (s : service) : service := _addLog data s.

Definition on_stderr (data : string) (s : service) : service :=
  _addLog ("ERROR: " +:+ data) s.

Definition on_close (p : nat) (code : string) (s : service) : service :=
  _addLog ("Test completed (exit code: " +:+ code +:+ ")")
    {| currentProcess := currentProcess s; isRunning := false;
       currentTest := currentTest s; logs := logs s;
       children := children s; alive := alive s ∖ {[p]} |}.

Definition on_error (message : string) (s : service) : service :=
  _addLog ("ERROR: " +:+ message)
    {| currentProcess := currentProcess s; isRunning := false;
       currentTest := currentTest s; logs := logs s;
       children := children s; alive := alive s |}.

Inductive event :=
| RunTest (o : options)
| StopTest
| Stdout (p : nat) (data : string)
| Stderr (p : nat) (data : string)
| Close (p : nat) (code : string)
| ChildError (p : nat) (message : string).

(** One request or one event of a child that is alive, with the
    outcome of the request. *)
Definition step (s : service) (ev : event) : option (outcome * service) :=
  match ev with
  | RunTest o => Some (runTest o s)
  | StopTest => Some (stopTest s)
  | Stdout p data => if decide (p ∈ alive s) then Some (Done, on_stdout data s) else None
  | Stderr p data => if decide (p ∈ alive s) then Some (Done, on_stderr data s) else None
  | Close p code => if decide (p ∈ alive s) then Some (Done, on_close p code s) else None
  | ChildError p message =>
    if decide (p ∈ alive s) then Some (Done, on_error message s) else None
  end.

Fixpoint run (evs : list event) (s : service) : option (list outcome * service) :=
  match evs with
  | [] => Some ([], s)
  | ev :: evs' =>
    '(r, s1) ← step s ev;
    '(rs, s2) ← run evs' s1;
    Some (r :: rs, s2)
  end.

Definition is_request (ev : event) : bool :=
  match ev with RunTest _ | StopTest => true | _ => false end.

Definition valid_mode (o : options) : bool :=
  existsb (String.eqb (o_mode o)) ["single"; "debug"; "multi"; "load"].

(** The service holds no more handles than it has started children. *)
Definition tidy (s : service) : Prop :=
  (∀ p, currentProcess s = Some p → (p < length (children s))%nat) ∧
  (∀ p, p ∈ alive s → (p < length (children s))%nat) ∧
  (length (logs s) ≤ 100)%nat.

Definition multi : options :=
  {| o_mode := "multi"; o_count := Some "40"; o_parallel := Some "20";
     o_duration := None |}.

End TestManagerService.

(** ** KoreanReportGenerator (src/utils/korean-report-generator.js) *)

Module KoreanReportGenerator.

Record timeline_event := { time : Z; delta : Z }.

(** A number used as a condition: [null], [undefined] and 0 are
    falsy. *)
Definition given (x : option Z) : option Z :=
  match x with
  | Some z => if z =? 0 then None else Some z
  | None => None
  end.

(** The interval of a session that has both its times. *)
Definition interval (s : ConcurrentMonitor.session) : option (Z * Z) :=
  match given (ConcurrentMonitor.actualStartTime s), given (ConcurrentMonitor.endTime s) with
  | Some a, Some b => Some (a, b)
  | _, _ => None
  end.

(** The body of [sessions.forEach]. *)
Definition events_of (s : ConcurrentMonitor.session) : list timeline_event :=
  match interval s with
  | Some (a, b) => [{| time := a; delta := 1 |}; {| time := b; delta := -1 |}]
  | None => []
  end.

Definition timeline (sessions : list ConcurrentMonitor.session) : list timeline_event :=
  concat (events_of <$> sessions).

(** [timeline.sort((a, b) => a.time - b.time)]: the sort of an array
    is stable, so its result is that of the insertion sort that keeps
    events of the same time in their order. *)
Fixpoint insert_by_time (e : timeline_event) (sorted : list timeline_event)
    : list timeline_event :=
  match sorted with
  | [] => [e]
  | x :: rest => if time e <=? time x then e :: sorted else x :: insert_by_time e rest
  end.

Definition sort_by_time (l : list timeline_event) : list timeline_event :=
  foldr insert_by_time [] l.

(** The body of [timeline.forEach] on the pair of [current] and [max]. *)
Definition advance (cm : Z * Z) (e : timeline_event) : Z * Z :=
  let current := cm.1 + delta e in
  (current, if cm.2 <? current then current else cm.2).

Definition getMaxConcurrent (sessions : list ConcurrentMonitor.session) : Z :=
  (fold_left advance (sort_by_time (timeline sessions)) (0, 0)).2.

(** [s.endTime - s.actualStartTime] for the sessions that have both
    times. *)
Definition durations (sessions : list ConcurrentMonitor.session) : list Z :=
  omap (λ s, (λ ab : Z * Z, ab.2 - ab.1) <$> interval s) sessions.

(** [Math.round]: the nearest integer, a half going up. *)
Definition round (q : Q) : Z :=
  (2 * Qnum q + Z.pos (Qden q)) / (2 * Z.pos (Qden q)).

(** [getAvgConcurrent]; the quotients are exact here. *)
Definition getAvgConcurrent (sessions : list ConcurrentMonitor.session) : Q :=
  let runningSessions := durations sessions in
  match runningSessions with
  | [] => Qmake 0 1
  | _ :: _ =>
    let n := inject_Z (Z.of_nat (length runningSessions)) in
    let totalDuration := inject_Z (fold_left Z.add runningSessions 0) in
    let avgDuration := Qdiv totalDuration n in
    if Qnum avgDuration =? 0 then Qmake 0 1
    else
      Qdiv (inject_Z (round (Qmult (Qdiv (Qdiv totalDuration avgDuration) n)
                               (inject_Z 10))))
           (inject_Z 10)
  end.

(** The sessions whose interval satisfies [p]. *)
Definition count_where (p : Z → Z → bool) (sessions : list ConcurrentMonitor.session) : nat :=
  length (List.filter (λ s, match interval s with
                            | Some (a, b) => p a b
                            | None => false
                            end) sessions).

(** The sum of [f] over some events. *)
Definition weigh (f : timeline_event → Z) (l : list timeline_event) : Z :=
  foldr (λ e acc, f e + acc) 0 l.

(** Events in the order of their times. *)
Fixpoint in_order (l : list timeline_event) : Prop :=
  match l with
  | [] => True
  | x :: rest => (∀ y, y ∈ rest → time x ≤ time y) ∧ in_order rest
  end.

(** A session that ran from [a] to [b]. *)
Definition ran (a b : Z) : ConcurrentMonitor.session :=
  {| ConcurrentMonitor.sessionId := "test"; ConcurrentMonitor.s_status := ConcurrentMonitor.completed;
     ConcurrentMonitor.currentStep := "step5-payment"; ConcurrentMonitor.startTime := a;
     ConcurrentMonitor.errors := []; ConcurrentMonitor.waitingEncountered := false;
     ConcurrentMonitor.waitTime := 0; ConcurrentMonitor.index := None;
     ConcurrentMonitor.actualStartTime := Some a; ConcurrentMonitor.lastStepTime := None;
     ConcurrentMonitor.queuePosition := None; ConcurrentMonitor.endTime := Some b;
     ConcurrentMonitor.duration := Some (b - a); ConcurrentMonitor.result := None |}.

End KoreanReportGenerator.

(** ** PerformanceMonitor (src/utils/performance.js) *)

Module PerformanceMonitor.

(** [this.timers] and the fields of [this.metrics] that the
    operations below use; an error is kept as its step and message. *)
Record monitor := {
  timers : gmap string Z;
  stepTimes : gmap string (list Z);
  stepCounts : gmap string Z;
  totalRequests : Z;
  failedRequests : Z;
  errors : list (string * string)
}.

Definition new_monitor : monitor :=
  {| timers := ∅; stepTimes := ∅; stepCounts := ∅; totalRequests := 0;
     failedRequests := 0; errors := [] |}.

(** [startTimer]; [now] is the reading of [Date.now()]. *)
Definition startTimer (operation : string) (now : Z) (m : monitor) : monitor :=
  {| timers := <[operation := now]> (timers m); stepTimes := stepTimes m;
     stepCounts := stepCounts m; totalRequests := totalRequests m;
     failedRequests := failedRequests m; errors := errors m |}.

(** The message of the [TypeError] of
    [this.metrics.stepTimes[operation].push(duration)] when what is
    read is not an array. *)
Definition push_TypeError : string :=
  JsString.not_a_function "this.metrics.stepTimes[operation].push".

(** [endTimer]: the duration it returns, or the message of what it
    throws, and the new state.  A timer that is missing, or that was
    started at time 0, is not found.  [stepTimes] and [stepCounts] are
    object literals, of which the maps hold the own properties: for an
    operation without samples that is named like a member of
    [Object.prototype] the test [!this.metrics.stepTimes[operation]]
    reads that member, nothing is created, and the call of [push]
    throws, after the timer was deleted.  The array and the count of
    an operation are created together, so the count is read only where
    it exists. *)
Definition endTimer (operation : string) (now : Z) (m : monitor)
    : (string + Z) * monitor :=
  match timers m !! operation with
  | Some startTime =>
    if startTime =? 0 then (inr 0, m)
    else
      let duration := now - startTime in
      let record (times : list Z) (count : Z) :=
        (inr duration,
         {| timers := delete operation (timers m);
            stepTimes := <[operation := times ++ [duration]]> (stepTimes m);
            stepCounts := <[operation := count + 1]> (stepCounts m);
            totalRequests := totalRequests m; failedRequests := failedRequests m;
            errors := errors m |}) in
      match stepTimes m !! operation with
      | Some times => record times (default 0 (stepCounts m !! operation))
      | None =>
        if JsString.inherited operation then
          (inl push_TypeError,
           {| timers := delete operation (timers m); stepTimes := stepTimes m;
              stepCounts := stepCounts m; totalRequests := totalRequests m;
              failedRequests := failedRequests m; errors := errors m |})
        else record [] 0
      end
  | None => (inr 0, m)
  end.

(** [recordError] *)
Definition recordError (step message : string) (m : monitor) : monitor :=
  {| timers := timers m; stepTimes := stepTimes m; stepCounts := stepCounts m;
     totalRequests := totalRequests m; failedRequests := failedRequests m + 1;
     errors := errors m ++ [(step, message)] |}.

(** [incrementRequests] and [incrementFailedRequests] *)
Definition incrementRequests (m : monitor) : monitor :=
  {| timers := timers m; stepTimes := stepTimes m; stepCounts := stepCounts m;
     totalRequests := totalRequests m + 1; failedRequests := failedRequests m;
     errors := errors m |}.

Definition incrementFailedRequests (m : monitor) : monitor :=
  {| timers := timers m; stepTimes := stepTimes m; stepCounts := stepCounts m;
     totalRequests := totalRequests m; failedRequests := failedRequests m + 1;
     errors := errors m |}.

(** [reset] *)
Definition reset (m : monitor) : monitor := new_monitor.

(** [errorRate] of [getMetrics]; the quotient is exact here. *)
Definition errorRate (m : monitor) : Q :=
  if 0 <? totalRequests m
  then Qmult (Qmake (failedRequests m) (Z.to_pos (totalRequests m))) (Qmake 100 1)
  else Qmake 0 1.

Inductive call :=
| StartTimer (operation : string) (now : Z)
| EndTimer (operation : string) (now : Z)
| RecordError (step message : string)
| IncrementRequests
| IncrementFailedRequests
| Reset.

Definition apply_call (m : monitor) (c : call) : monitor :=
  match c with
  | StartTimer operation now => startTimer operation now m
  | EndTimer operation now => (endTimer operation now m).2
  | RecordError step message => recordError step message m
  | IncrementRequests => incrementRequests m
  | IncrementFailedRequests => incrementFailedRequests m
  | Reset => reset m
  end.

Definition run (calls : list call) (m : monitor) : monitor :=
  fold_left apply_call calls m.

(** The readings of the clock in some calls are positive and do not
    go back. *)
Fixpoint clock_advances (last : Z) (calls : list call) : Prop :=
  match calls with
  | [] => True
  | StartTimer _ now :: rest | EndTimer _ now :: rest =>
    last ≤ now ∧ clock_advances now rest
  | _ :: rest => clock_advances last rest
  end.

(** What the monitor keeps, when no clock reading so far is after
    [last]. *)
Definition sound (last : Z) (m : monitor) : Prop :=
  (∀ operation,
     stepCounts m !! operation = (λ ts, Z.of_nat (length ts)) <$> stepTimes m !! operation) ∧
  (∀ operation ts, stepTimes m !! operation = Some ts → ts ≠ [] ∧ ∀ d, d ∈ ts → 0 ≤ d) ∧
  (∀ operation t, timers m !! operation = Some t → 0 < t ≤ last) ∧
  Z.of_nat (length (errors m)) ≤ failedRequests m ∧
  0 ≤ totalRequests m ∧
  (∀ operation, JsString.inherited operation = true → stepTimes m !! operation = None).

End PerformanceMonitor.

(* ================================================================== *)
(** * Properties *)
(* ================================================================== *)

Section MonitorFacts.
Import ConcurrentMonitor.

Example categorizeError_timeout :
  categorizeError "Navigation Timeout exceeded" = "Timeout".
Proof. reflexivity. Qed.

Lemma monitor_run_app (xs ys : list event) (m : monitor) :
  run (xs ++ ys) m = run ys (run xs m).
Proof. unfold run. apply fold_left_app. Qed.

Lemma monitor_run_snoc (xs : list event) (e : event) (m : monitor) :
  run (xs ++ [e]) m = apply_event (run xs m) e.
Proof. rewrite monitor_run_app. reflexivity. Qed.

(** Every method other than [registerSession] leaves the key set of
    [sessions] as it is. *)
Lemma dom_insert_present (id : string) (s s' : session) (ss : gmap string session) :
  ss !! id = Some s → dom (<[id := s']> ss) = dom ss.
Proof.
  intros Hs. rewrite dom_insert_L.
  assert (id ∈ dom ss) by (apply elem_of_dom; eauto). set_solver.
Qed.

Lemma apply_event_dom (m : monitor) (e : event) :
  match e with
  | RegisterSession id _ _ => dom (sessions (apply_event m e)) = {[id]} ∪ dom (sessions m)
  | _ => dom (sessions (apply_event m e)) = dom (sessions m)
  end.
Proof.
  destruct e; simpl.
  - unfold registerSession; simpl. apply dom_insert_L.
  - unfold startSession. destruct (sessions m !! id) eqn:E; simpl; eauto using dom_insert_present.
  - unfold updateSessionStep. destruct (sessions m !! id) eqn:E; simpl; eauto using dom_insert_present.
  - unfold recordWaitingPage. destruct (sessions m !! id) eqn:E; simpl; eauto using dom_insert_present.
  - unfold recordWaitingPagePassed. destruct (sessions m !! id) eqn:E; simpl; [|done].
    destruct (waitingEncountered s); done.
  - unfold completeSession. destruct (sessions m !! id) eqn:E; simpl; [|done].
    destruct success; simpl; eauto using dom_insert_present.
  - unfold recordError. destruct (sessions m !! id) eqn:E; [|done].
    destruct (message_or_error error); simpl; eauto using dom_insert_present.
Qed.

Lemma apply_event_total (m : monitor) (e : event) :
  total (m_stats (apply_event m e)) =
  match e with
  | RegisterSession _ _ _ => total (m_stats m) + 1
  | _ => total (m_stats m)
  end.
Proof.
  destruct e; simpl; try reflexivity.
  - unfold startSession. destruct (sessions m !! id); reflexivity.
  - unfold updateSessionStep. destruct (sessions m !! id); reflexivity.
  - unfold recordWaitingPage. destruct (sessions m !! id); reflexivity.
  - unfold recordWaitingPagePassed. destruct (sessions m !! id) as [s|]; [|reflexivity].
    destruct (waitingEncountered s); reflexivity.
  - unfold completeSession. destruct (sessions m !! id); [|reflexivity].
    destruct success; reflexivity.
  - unfold recordError. destruct (sessions m !! id); [|reflexivity].
    destruct (message_or_error error); reflexivity.
Qed.

Lemma apply_event_running (m : monitor) (e : event) :
  0 ≤ st_running (m_stats m) → 0 ≤ st_running (m_stats (apply_event m e)).
Proof.
  intros Hr. destruct e; simpl; try assumption.
  - unfold startSession. destruct (sessions m !! id); simpl; lia.
  - unfold updateSessionStep. destruct (sessions m !! id); simpl; lia.
  - unfold recordWaitingPage. destruct (sessions m !! id); simpl; lia.
  - unfold recordWaitingPagePassed. destruct (sessions m !! id) as [s|]; [|lia].
    destruct (waitingEncountered s); simpl; lia.
  - unfold completeSession. destruct (sessions m !! id); [|lia].
    destruct success; simpl; lia.
  - unfold recordError. destruct (sessions m !! id); [|simpl; lia].
    destruct (message_or_error error); simpl; lia.
Qed.

(** What one call adds to [completed + failed]. *)
Lemma apply_event_finished (m : monitor) (e : event) :
  st_completed (m_stats (apply_event m e)) + st_failed (m_stats (apply_event m e)) =
  st_completed (m_stats m) + st_failed (m_stats m) +
  match e with
  | CompleteSession id _ _ _ => if sessions m !! id is Some _ then 1 else 0
  | _ => 0
  end.
Proof.
  destruct e; simpl; try lia.
  - unfold startSession. destruct (sessions m !! id); simpl; lia.
  - unfold updateSessionStep. destruct (sessions m !! id); simpl; lia.
  - unfold recordWaitingPage. destruct (sessions m !! id); simpl; lia.
  - unfold recordWaitingPagePassed. destruct (sessions m !! id) as [s|]; [|lia].
    destruct (waitingEncountered s); simpl; lia.
  - unfold completeSession. destruct (sessions m !! id); [|lia].
    destruct success; simpl; lia.
  - unfold recordError. destruct (sessions m !! id); [|simpl; lia].
    destruct (message_or_error error); simpl; lia.
Qed.

Lemma mon_inv_step (m : monitor) (done : gset string) (e : event) :
  mon_inv m done →
  (∀ id ok res now, e = CompleteSession id ok res now → id ∉ done) →
  mon_inv (apply_event m e) (done ∪ newly_done m e).
Proof.
  intros (Hfin & Hsub & Hsize & Hrun) Hfresh.
  pose proof (apply_event_dom m e) as Hdom.
  pose proof (apply_event_total m e) as Htot.
  pose proof (apply_event_finished m e) as Hf.
  pose proof (apply_event_running m e Hrun) as Hr.
  unfold mon_inv. rewrite Hf, Htot.
  destruct e; simpl in *; rewrite ?Hdom;
    try (rewrite union_empty_r_L; repeat split; first [lia | set_solver]).
  - rewrite union_empty_r_L. repeat split; [lia | set_solver | | lia].
    pose proof (size_union_alt {[id]} (dom (sessions m))) as Hu.
    assert (size (dom (sessions m) ∖ {[id]}) ≤ size (dom (sessions m)))%nat
      by (apply subseteq_size; set_solver).
    rewrite size_singleton in Hu. lia.
  - destruct (sessions m !! id) eqn:E.
    + assert (id ∈ dom (sessions m)) by (apply elem_of_dom; eauto).
      assert (id ∉ done) by eauto.
      repeat split; [| set_solver | lia | lia].
      rewrite size_union by set_solver. rewrite size_singleton. lia.
    + rewrite union_empty_r_L. repeat split; first [lia | set_solver].
Qed.

Lemma mon_inv_run (evs : list event) :
  ∀ (m : monitor) (done : gset string),
    mon_inv m done → NoDup (completions evs) →
    (∀ id, id ∈ completions evs → id ∉ done) →
    ∃ done', mon_inv (run evs m) done'.
Proof.
  induction evs as [|e evs IH]; intros m done Hinv Hnd Hfresh; [eauto|].
  change (run (e :: evs) m) with (run evs (apply_event m e)).
  assert (Hhead : ∀ id ok res now, e = CompleteSession id ok res now → id ∉ done).
  { intros id ok res now ->. apply Hfresh. simpl. set_solver. }
  pose proof (mon_inv_step m done e Hinv Hhead) as Hstep.
  eapply IH; [exact Hstep | |].
  - destruct e; simpl in Hnd; try assumption. by apply NoDup_cons in Hnd as [_ ?].
  - intros id' Hin. destruct e; simpl in *;
      try (rewrite union_empty_r_L; apply Hfresh; assumption).
    apply NoDup_cons in Hnd as [Hnotin _].
    assert (id' ≠ id) by (intros ->; contradiction).
    assert (id' ∉ done) by (apply Hfresh; set_solver).
    destruct (sessions m !! id); set_solver.
Qed.

Lemma mon_inv_new : mon_inv new_monitor ∅.
Proof. unfold mon_inv; simpl. rewrite dom_empty_L, size_empty. split_and!; first [lia | set_solver]. Qed.

Lemma mon_inv_counters (m : monitor) (done : gset string) :
  mon_inv m done → counters_ok m.
Proof.
  intros (Hfin & Hsub & Hsize & Hrun). split; [|assumption].
  apply subseteq_size in Hsub. lia.
Qed.

Lemma total_counts_registrations (evs : list event) :
  total (m_stats (run evs new_monitor)) = Z.of_nat (length (registrations evs)).
Proof.
  induction evs as [|e evs IH] using rev_ind; [reflexivity|].
  rewrite monitor_run_snoc, apply_event_total, IH.
  unfold registrations. rewrite omap_app, length_app.
  destruct e; simpl; lia.
Qed.

Lemma completions_prefix (pre evs : list event) :
  pre `prefix_of` evs → NoDup (completions evs) → NoDup (completions pre).
Proof.
  intros [rest ->]. unfold completions. rewrite omap_app.
  intros H. by apply NoDup_app in H as [? _].
Qed.

(** C8, counterexample: the second [completeSession] for the same id
    is counted again, so one registered session yields
    [completed + failed = 2 > 1 = total]. *)
Lemma C8_double_completion_counterexample :
  ¬ (∀ evs : list event, counters_ok (run evs new_monitor)).
Proof.
  intros H.
  specialize (H [RegisterSession "test-1" (with_index 1) 0;
                 StartSession "test-1" 1;
                 CompleteSession "test-1" true "{}" 5;
                 CompleteSession "test-1" false "{}" 6]).
  destruct H as [H _]. vm_compute in H. apply H. reflexivity.
Qed.

(** C8 (amended): for every sequence of Monitor calls in which no
    sessionId is passed to [completeSession] more than once, every
    snapshot, that is the state after every prefix of the sequence,
    has [completed + failed ≤ total] and [running ≥ 0], and [total] is
    the number of [registerSession] calls made so far. *)
Theorem C8_counters_invariant (evs pre : list event) :
  NoDup (completions evs) →
  pre `prefix_of` evs →
  counters_ok (run pre new_monitor) ∧
  total (m_stats (run pre new_monitor)) = Z.of_nat (length (registrations pre)).
Proof.
  intros Hnd Hpre. split; [|apply total_counts_registrations].
  destruct (mon_inv_run pre new_monitor ∅ mon_inv_new) as [done' Hinv].
  - eapply completions_prefix; eauto.
  - set_solver.
  - eapply mon_inv_counters; eauto.
Qed.

Lemma C8_counters_invariant_witness :
  let evs := [RegisterSession "test-1" (with_index 1) 0; StartSession "test-1" 1;
              RegisterSession "test-2" (with_index 2) 1; StartSession "test-2" 2;
              CompleteSession "test-2" false "{}" 7;
              CompleteSession "test-1" true "{}" 9] in
  counters_ok (run evs new_monitor) ∧
  total (m_stats (run evs new_monitor)) = Z.of_nat (length (registrations evs)).
Proof.
  intros evs. apply (C8_counters_invariant evs evs).
  - unfold evs; simpl. repeat (apply NoDup_cons; split; [set_solver|]). apply NoDup_nil_2.
  - reflexivity.
Defined.

(** C10: on a sessionId that is not a key of [sessions], each of
    [startSession], [updateSessionStep], [recordWaitingPage],
    [recordWaitingPagePassed], [completeSession] and [recordError]
    returns the monitor unchanged: counters, session records and log
    are the same, and there is no error path; [recordError] does not
    throw there, whatever error it is given. *)
Theorem C10_unregistered_is_noop (m : monitor) (id : string) :
  sessions m !! id = None →
  ∀ (step res : string) (error : error_value) (wt qp now : Z) (ok : bool),
    startSession id now m = m ∧
    updateSessionStep id step now m = m ∧
    recordWaitingPage id wt qp m = m ∧
    recordWaitingPagePassed id m = m ∧
    completeSession id ok res now m = m ∧
    recordError id step error now m = (m, None).
Proof.
  intros Hnone step res error wt qp now ok.
  unfold startSession, updateSessionStep, recordWaitingPage,
    recordWaitingPagePassed, completeSession, recordError.
  rewrite Hnone. repeat split.
Qed.

Lemma C10_unregistered_is_noop_witness :
  let m := registerSession "test-1" (with_index 1) 0 new_monitor in
  startSession "test-2" 3 m = m ∧
  updateSessionStep "test-2" "step1-course" 3 m = m ∧
  recordWaitingPage "test-2" 10 4 m = m ∧
  recordWaitingPagePassed "test-2" m = m ∧
  completeSession "test-2" true "{}" 3 m = m ∧
  recordError "test-2" "step1-course" (ErrorObject "timeout") 3 m = (m, None).
Proof.
  intros m.
  apply (C10_unregistered_is_noop m "test-2"). reflexivity.
Defined.

End MonitorFacts.

Section ErrorHandlerFacts.
Import ErrorHandler.

Lemma before_retry_attempts (operation : string) (h : handler) :
  currentAttempts (before_retry operation h) operation = S (currentAttempts h operation).
Proof. unfold currentAttempts at 1. simpl. by rewrite lookup_insert_eq. Qed.

(** The recursive equation of [handleNetworkError], as the source reads. *)
Lemma handleNetworkError_eq (f : nat → outcome) (maxRetries : nat)
    (operation error : string) (h : handler) :
  handleNetworkError f maxRetries operation error h =
  if decide (maxRetries ≤ currentAttempts h operation)%nat then
    (Thrown (exhausted_message operation maxRetries error),
     recordError {| e_step := operation;
                    e_message := "Network error after " +:+ pretty maxRetries
                                 +:+ " retries: " +:+ error |} h)
  else match f (retried h) with
       | Returned v => (Returned v, clear_attempts operation (before_retry operation h))
       | Thrown retryError =>
         handleNetworkError f maxRetries operation retryError (before_retry operation h)
       end.
Proof.
  rewrite handleNetworkError_equation_1.
  destruct (le_lt_dec maxRetries (currentAttempts h operation)); simpl.
  - rewrite decide_True by lia. reflexivity.
  - rewrite decide_False by lia. destruct (f (retried h)); reflexivity.
Qed.

(** A function that fails on every call is retried until the counter
    reaches [maxRetries]. *)
Lemma handleNetworkError_exhausts (f : nat → outcome) (maxRetries : nat) (operation : string) :
  always_fails f →
  ∀ (n : nat) (error : string) (h : handler),
    (currentAttempts h operation + n = maxRetries)%nat →
    ∃ e h',
      handleNetworkError f maxRetries operation error h =
        (Thrown (exhausted_message operation maxRetries e), h') ∧
      (match n with O => e = error | S m => f (retried h + m)%nat = Thrown e end) ∧
      retried h' = (retried h + n)%nat ∧
      waited h' = waited h ++ map backoffDelay (seq (currentAttempts h operation) n) ∧
      currentAttempts h' operation = maxRetries.
Proof.
  intros Hf n. induction n as [|n IH]; intros error h Hn.
  - rewrite handleNetworkError_eq, decide_True by lia.
    eexists _, _. split; [reflexivity|]. simpl.
    rewrite app_nil_r. split_and!; [done | lia | done | unfold currentAttempts in *; simpl; lia].
  - rewrite handleNetworkError_eq, decide_False by lia.
    destruct (Hf (retried h)) as [e1 He1]. rewrite He1.
    destruct (IH e1 (before_retry operation h)) as (e & h' & Hrun & Hlast & Hret & Hw & Hc).
    { rewrite before_retry_attempts. lia. }
    exists e, h'. rewrite Hrun. split; [reflexivity|].
    rewrite Hret, Hw, Hc, before_retry_attempts. simpl.
    split_and!; [| lia | by rewrite <- app_assoc | done].
    destruct n as [|m]; simpl in Hlast.
    + subst e. rewrite Nat.add_0_r. exact He1.
    + rewrite <- Hlast. f_equal. lia.
Qed.

(** A successful retry deletes the key. *)
Lemma handleNetworkError_success_clears (f : nat → outcome) (maxRetries : nat)
    (operation : string) :
  ∀ (n : nat) (error : string) (h : handler) (v : string) (h' : handler),
    (maxRetries - currentAttempts h operation = n)%nat →
    handleNetworkError f maxRetries operation error h = (Returned v, h') →
    retryAttempts h' !! operation = None.
Proof.
  induction n as [n IH] using lt_wf_ind. intros error h v h' Hn.
  rewrite handleNetworkError_eq. case_decide as Hle; [discriminate|].
  destruct (f (retried h)) as [v1|e1].
  - intros [= <- <-]. simpl. apply lookup_delete_eq.
  - eapply (IH (maxRetries - S (currentAttempts h operation))%nat); [lia|].
    rewrite before_retry_attempts. reflexivity.
Qed.

(** C3: with [maxRetries = 3] and no attempts stored for the operation
    key, a [retryFunction] that fails on every call is invoked exactly
    three times, after waits of 1000, 2000 and 4000 ms, which are
    [min (1000 * 2^attempts) 10000] for attempts 0, 1, 2; then the error
    "Network error in <operation> after 3 retries: <last message>" is
    thrown.  Whenever a call returns normally, the key is deleted from
    [retryAttempts] (the counter reads 0 again), and a later failing
    run for the same key waits 1000, 2000, 4000 ms again.
    [resetRetryAttempts] brings the counter to 0 as well. *)
Theorem C3_retry_backoff (f : nat → outcome) (operation error : string) (h : handler) :
  (currentAttempts h operation = 0%nat → always_fails f →
   ∃ e h',
     handleNetworkError f 3 operation error h =
       (Thrown ("Network error in " +:+ operation +:+ " after 3 retries: " +:+ e), h') ∧
     f (retried h + 2)%nat = Thrown e ∧
     retried h' = (retried h + 3)%nat ∧
     waited h' = waited h ++ [1000; 2000; 4000] ∧
     [1000; 2000; 4000] = map (λ attempts, Z.min (1000 * 2 ^ Z.of_nat attempts) 10000)
                              [0; 1; 2]%nat) ∧
  (∀ (maxRetries : nat) (v : string) (h1 : handler),
     handleNetworkError f maxRetries operation error h = (Returned v, h1) →
     retryAttempts h1 !! operation = None ∧
     currentAttempts h1 operation = 0%nat ∧
     ∀ (g : nat → outcome) (error' : string), always_fails g →
       ∃ e h2,
         handleNetworkError g 3 operation error' h1 =
           (Thrown ("Network error in " +:+ operation +:+ " after 3 retries: " +:+ e), h2) ∧
         waited h2 = waited h1 ++ [1000; 2000; 4000]) ∧
  (currentAttempts (resetRetryAttempts (Some operation) h) operation = 0%nat ∧
   ∀ other, currentAttempts (resetRetryAttempts None h) other = 0%nat).
Proof.
  split_and!.
  - intros Hcur Hf.
    destruct (handleNetworkError_exhausts f 3 operation Hf 3 error h)
      as (e & h' & Hrun & Hlast & Hret & Hw & _); [lia|].
    exists e, h'. rewrite Hcur in Hw. split_and!; done.
  - intros maxRetries v h1 Hrun.
    assert (Hnone : retryAttempts h1 !! operation = None)
      by (eapply handleNetworkError_success_clears; eauto).
    assert (Hzero : currentAttempts h1 operation = 0%nat)
      by (unfold currentAttempts; by rewrite Hnone).
    split_and!; [done..|]. intros g error' Hg.
    destruct (handleNetworkError_exhausts g 3 operation Hg 3 error' h1)
      as (e & h2 & Hrun2 & _ & _ & Hw & _); [lia|].
    exists e, h2. rewrite Hzero in Hw. split; done.
  - unfold resetRetryAttempts, currentAttempts.
    destruct (JsString.truthy operation); simpl; by rewrite ?lookup_delete_eq, ?lookup_empty.
  - intros other. unfold resetRetryAttempts, currentAttempts; simpl. by rewrite lookup_empty.
Qed.

Lemma C3_retry_backoff_witness :
  (∃ e h',
     handleNetworkError (λ _, Thrown "ECONNRESET") 3 "navigate" "ECONNRESET" new_handler =
       (Thrown ("Network error in " +:+ "navigate" +:+ " after 3 retries: " +:+ e), h') ∧
     Thrown "ECONNRESET" = Thrown e ∧
     retried h' = 3%nat ∧
     waited h' = [1000; 2000; 4000] ∧
     [1000; 2000; 4000] = map (λ attempts, Z.min (1000 * 2 ^ Z.of_nat attempts) 10000)
                              [0; 1; 2]%nat) ∧
  (let f := λ k : nat, if (k <? 2)%nat then Thrown "ECONNRESET" else Returned "page" in
   let h1 := (handleNetworkError f 3 "navigate" "ECONNRESET" new_handler).2 in
   retryAttempts h1 !! "navigate" = None ∧
   currentAttempts h1 "navigate" = 0%nat ∧
   ∀ (g : nat → outcome) (error' : string), always_fails g →
     ∃ e h2,
       handleNetworkError g 3 "navigate" error' h1 =
         (Thrown ("Network error in " +:+ "navigate" +:+ " after 3 retries: " +:+ e), h2) ∧
       waited h2 = waited h1 ++ [1000; 2000; 4000]).
Proof.
  split.
  - apply (C3_retry_backoff (λ _, Thrown "ECONNRESET") "navigate" "ECONNRESET" new_handler).
    + reflexivity.
    + intros k. eexists. reflexivity.
  - intros f h1.
    apply (proj1 (proj2 (C3_retry_backoff f "navigate" "ECONNRESET" new_handler))
             3%nat "page" h1).
    vm_compute. reflexivity.
Defined.

End ErrorHandlerFacts.

Section AssignmentFacts.
Import BrowserSessionManager.
Local Open Scope nat_scope.

Lemma floor_div_pos (a c : nat) : 0 < c → floor_div a c = Finite (a / c).
Proof. destruct c; [lia | reflexivity]. Qed.

Lemma browserKey_finite (n : nat) : browserKey (Finite n) = "browser-" +:+ pretty n.
Proof. reflexivity. Qed.

Lemma browserKey_finite_inj (i j : nat) :
  browserKey (Finite i) = browserKey (Finite j) → i = j.
Proof.
  unfold browserKey; simpl. intros H.
  apply (inj (String.app "browser-")) in H. by apply (inj pretty) in H.
Qed.

Lemma assign_all_keys (n : nat) :
  ∀ m, (assign_all n m).1 =
       (λ i, browserKey (floor_div i (tabsPerBrowser m))) <$> seq (sessionCounter m) n.
Proof.
  induction n as [|n IH]; intros m; [reflexivity|].
  simpl. destruct (assign_all n _) as [ks m2] eqn:E. simpl.
  f_equal. change ks with (ks, m2).1. rewrite <- E, IH. reflexivity.
Qed.

Lemma assign_all_counter (n : nat) :
  ∀ m, sessionCounter (assign_all n m).2 = sessionCounter m + n.
Proof.
  induction n as [|n IH]; intros m; simpl; [lia|].
  destruct (assign_all n _) as [ks m2] eqn:E. simpl.
  change m2 with (ks, m2).2. rewrite <- E, IH. simpl. lia.
Qed.

(** The quotients [i / c] for [i < n] are the numbers below
    [ceil_div n c]. *)
Lemma quotients_below (n c j : nat) :
  0 < c → (∃ i, i < n ∧ j = i / c) ↔ j < ceil_div n c.
Proof.
  intros Hc. unfold ceil_div. split.
  - intros (i & Hi & ->).
    apply Nat.Div0.div_lt_upper_bound.
    pose proof (Nat.Div0.mul_div_le i c).
    pose proof (Nat.mul_succ_div_gt (n + c - 1) c ltac:(lia)).
    pose proof (Nat.Div0.mul_div_le (n + c - 1) c).
    assert (i / c * c <= i) by lia.
    apply Nat.nle_gt. intros Hge.
    assert (c * ((n + c - 1) / c) ≤ c * (i / c)) by (apply Nat.mul_le_mono_l; lia).
    nia.
  - intros Hj. exists (j * c). split.
    + pose proof (Nat.Div0.mul_div_le (n + c - 1) c). nia.
    + by rewrite Nat.div_mul by lia.
Qed.

Lemma keys_of_run (n c : nat) :
  0 < c →
  list_to_set ((λ i, browserKey (floor_div i c)) <$> seq 0 n) =@{gset string}
  list_to_set ((λ j, browserKey (Finite j)) <$> seq 0 (ceil_div n c)).
Proof.
  intros Hc. apply set_eq. intros k.
  rewrite !elem_of_list_to_set, !list_elem_of_fmap. split.
  - intros (i & -> & Hi). apply elem_of_seq in Hi.
    exists (i / c). split; [by rewrite floor_div_pos|].
    apply elem_of_seq. split; [lia|]. simpl.
    apply quotients_below; [done|]. exists i. split; [lia | done].
  - intros (j & -> & Hj). apply elem_of_seq in Hj. simpl in Hj.
    destruct (proj2 (quotients_below n c j Hc) ltac:(lia)) as (i & Hi & ->).
    exists i. split; [by rewrite floor_div_pos|]. apply elem_of_seq. lia.
Qed.

Lemma size_keys_of_run (n c : nat) :
  0 < c →
  size (list_to_set ((λ i, browserKey (floor_div i c)) <$> seq 0 n) : gset string)
  = ceil_div n c.
Proof.
  intros Hc. rewrite keys_of_run by done.
  rewrite size_list_to_set.
  - by rewrite length_fmap, length_seq.
  - apply NoDup_fmap_2_strong; [|apply NoDup_seq].
    intros i j _ _. apply browserKey_finite_inj.
Qed.

(** [_distributeSessions] puts the id at index [i] into the group of
    [browserKey (floor_div i tabs)] and creates no other group. *)
Lemma distribute_fold (tabs : nat) (ids : list string) :
  let d := fold_left (distribute_one tabs) (imap (λ i id, (i, id)) ids) ∅ in
  (∀ k, k ∈ dom d ↔ ∃ i, i < length ids ∧ k = browserKey (floor_div i tabs)) ∧
  (∀ i sid, ids !! i = Some sid →
     ∃ group, d !! browserKey (floor_div i tabs) = Some group ∧ sid ∈ group).
Proof.
  induction ids as [|sid0 ids IH] using rev_ind; simpl.
  - split.
    + intros k. rewrite dom_empty_L. split; [set_solver|]. intros (i & Hi & _). simpl in Hi. lia.
    + intros i sid Hi. discriminate.
  - destruct IH as [IHdom IHgrp].
    rewrite imap_app, fold_left_app. simpl. rewrite Nat.add_0_r.
    set (d := fold_left (distribute_one tabs) (imap (λ i id, (i, id)) ids) ∅) in *.
    unfold distribute_one; simpl. split.
    + intros k. rewrite dom_insert_L, elem_of_union, elem_of_singleton, IHdom, length_app. simpl.
      split.
      * intros [-> | (i & Hi & ->)]; [exists (length ids) | exists i]; split; (lia || done).
      * intros (i & Hi & ->). destruct (decide (i = length ids)) as [->|]; [by left|].
        right. exists i. split; [lia | done].
    + intros i sid Hi. apply lookup_app_Some in Hi as [Hi | [Hge Hi]].
      * destruct (IHgrp i sid Hi) as (group & Hg & Hin).
        destruct (decide (browserKey (floor_div (length ids) tabs) = browserKey (floor_div i tabs)))
          as [Heq|Hne].
        -- rewrite Heq, lookup_insert_eq, Hg. simpl. eexists. split; [done|]. set_solver.
        -- rewrite lookup_insert_ne by done. eauto.
      * apply list_lookup_singleton_Some in Hi as [Hi ->].
        assert (i = length ids) as -> by lia.
        rewrite lookup_insert_eq. eexists. split; [done|]. set_solver.
Qed.

(** C2: with [tabsPerBrowser = C > 0], the i-th session created
    (counting from 0) is assigned to the key browser-⌊i/C⌋, the N
    sessions of a run use exactly ⌈N/C⌉ distinct keys, and
    [_distributeSessions] forms the same ⌈N/C⌉ groups. *)
Theorem C2_browser_assignment (N C : nat) :
  0 < C →
  let m := setTabsPerBrowser C new_manager in
  let keys := (assign_all N m).1 in
  length keys = N ∧
  (∀ i, i < N → keys !! i = Some ("browser-" +:+ pretty (i / C))) ∧
  size (list_to_set keys : gset string) = ceil_div N C ∧
  (∀ ids : list string, length ids = N →
     size (dom (_distributeSessions ids m)) = ceil_div N C ∧
     ∀ i sid, ids !! i = Some sid →
       ∃ group, _distributeSessions ids m !! ("browser-" +:+ pretty (i / C)) = Some group ∧
                sid ∈ group).
Proof.
  intros HC m keys. subst keys. rewrite assign_all_keys. simpl.
  split_and!.
  - by rewrite length_fmap, length_seq.
  - intros i Hi. rewrite list_lookup_fmap.
    rewrite (proj2 (lookup_seq 0 N i i)) by (split; lia). simpl.
    by rewrite floor_div_pos.
  - by apply size_keys_of_run.
  - intros ids Hlen. unfold _distributeSessions. simpl.
    destruct (distribute_fold C ids) as [Hdom Hgrp]. split.
    + rewrite <- (size_keys_of_run N C HC). f_equal. apply set_eq. intros k.
      rewrite Hdom, elem_of_list_to_set, list_elem_of_fmap, Hlen. split.
      * intros (i & Hi & ->). exists i. split; [done|]. apply elem_of_seq. lia.
      * intros (i & -> & Hi). apply elem_of_seq in Hi. exists i. split; [lia|done].
    + intros i sid Hi. destruct (Hgrp i sid Hi) as (group & Hg & Hin).
      rewrite floor_div_pos in Hg by done. eauto.
Qed.

End AssignmentFacts.

Section PoolFacts.
Import BrowserSessionManager.
Local Open Scope nat_scope.

Lemma neutral_refl (s : pool) : neutral s s.
Proof. split_and!; [done..|]. exists []. split; [by rewrite app_nil_r | set_solver]. Qed.

Lemma neutral_with_mgr (f : manager → manager) (s : pool) :
  browsers (f (mgr s)) = browsers (mgr s) →
  browserStarting (f (mgr s)) = browserStarting (mgr s) →
  neutral s (with_mgr f s).
Proof.
  intros Hb Hg. split_and!; [done..|]. exists []. split; [by rewrite app_nil_r | set_solver].
Qed.

Lemma neutral_engine_call (o : origin) (s : pool) :
  (∀ k, o ≠ Launch k) → neutral s (engine_call o s).2.
Proof.
  intros Ho. split_and!; [done..|]. exists [(o, Pending)]. split; [done|].
  intros x ->%list_elem_of_singleton. exact Ho.
Qed.

Lemma neutral_trans (s1 s2 s3 : pool) : neutral s1 s2 → neutral s2 s3 → neutral s1 s3.
Proof.
  intros (Hb1 & Hg1 & e1 & He1 & Hn1) (Hb2 & Hg2 & e2 & He2 & Hn2).
  split_and!; [congruence..|]. exists (e1 ++ e2). split.
  - by rewrite He2, He1, app_assoc.
  - intros x [?|?]%elem_of_app; eauto.
Qed.

Lemma neutral_lookup (s s' : pool) (p : nat) (k : string) (st : settlement) :
  neutral s s' →
  promises s' !! p = Some (Launch k, st) ↔ promises s !! p = Some (Launch k, st).
Proof.
  intros (_ & _ & extra & -> & Hextra). split.
  - intros [H | [_ H]]%lookup_app_Some; [done|].
    apply list_elem_of_lookup_2 in H. by apply Hextra with (k := k) in H.
  - intros H. by apply lookup_app_l_Some.
Qed.

Lemma neutral_launch_inv (s s' : pool) : neutral s s' → launch_inv s → launch_inv s'.
Proof.
  intros Hn (Hguard & Hnone & Hlive & Huniq).
  pose proof (neutral_lookup s s') as Hl.
  destruct Hn as (Hb & Hg & Hextra).
  assert (Hn : neutral s s') by (split_and!; done).
  unfold launch_inv, launch_guard, launch_live, pending in *. rewrite Hb, Hg.
  split_and!.
  - intros k p. rewrite Hl by done. apply Hguard.
  - intros k p. rewrite Hl by done. apply Hnone.
  - intros k p v. rewrite Hl by done. apply Hlive.
  - intros k p p' st st'. rewrite !Hl by done. apply Huniq.
Qed.

(** [startBrowser] launches only when the key has neither a browser
    nor a launch in flight; otherwise it changes nothing. *)
Lemma startBrowser_cases (k : string) (s : pool) :
  (∃ b, browsers (mgr s) !! k = Some b ∧ startBrowser k s = (Value b, s)) ∨
  (∃ p, browsers (mgr s) !! k = None ∧ browserStarting (mgr s) !! k = Some p ∧
        startBrowser k s = (Promise p, s)) ∨
  (browsers (mgr s) !! k = None ∧ browserStarting (mgr s) !! k = None ∧
   startBrowser k s =
     (Promise (length (promises s)),
      with_mgr (set_browserStarting (λ g, <[k := length (promises s)]> g))
               (engine_call (Launch k) s).2)).
Proof.
  unfold startBrowser.
  destruct (browsers (mgr s) !! k) as [b|]; [left; eauto|].
  destruct (browserStarting (mgr s) !! k) as [p|]; [right; left; eauto|].
  right; right. done.
Qed.

Lemma startBrowser_launch_inv (k : string) (s : pool) :
  launch_inv s → launch_inv (startBrowser k s).2.
Proof.
  intros Hinv.
  destruct (startBrowser_cases k s) as [(b & _ & ->) | [(p & _ & _ & ->) | (Hb & Hg & ->)]];
    [done..|].
  destruct Hinv as (Hguard & Hnone & Hlive & Huniq).
  unfold launch_inv, launch_guard, launch_live, pending in *; simpl.
  assert (Hfresh : ∀ st, promises s !! length (promises s) ≠ Some st).
  { intros st H. apply lookup_lt_Some in H. lia. }
  assert (Hold : ∀ p k' st, promises s !! p = Some (Launch k', st) →
                            k' = k → ∃ e, st = Rejected e).
  { intros p k' st Hp ->. destruct st as [|v|e]; [| |eauto].
    - apply Hguard in Hp. congruence.
    - apply Hlive in Hp as [? ?]. congruence. }
  split_and!.
  - intros k' p. destruct (decide (k' = k)) as [->|Hne].
    + rewrite lookup_insert_eq. split.
      * intros [= <-]. by rewrite lookup_app_r, Nat.sub_diag.
      * intros [H | [Hge H]]%lookup_app_Some.
        -- destruct (Hold _ _ _ H eq_refl) as [? ?]. done.
        -- apply list_lookup_singleton_Some in H as [? _]. f_equal. lia.
    + rewrite lookup_insert_ne by done. rewrite Hguard. split.
      * intros H. by apply lookup_app_l_Some.
      * intros [H | [_ H]]%lookup_app_Some; [done|].
        apply list_lookup_singleton_Some in H as [_ [= ->]]. done.
  - intros k' p [H | [_ H]]%lookup_app_Some; [by eapply Hnone|].
    apply list_lookup_singleton_Some in H as [_ [= ->]]. done.
  - intros k' p v [H | [_ H]]%lookup_app_Some; [by eapply Hlive|].
    by apply list_lookup_singleton_Some in H as [_ ?].
  - intros k' p p' st st' [H | [Hge H]]%lookup_app_Some [H' | [Hge' H']]%lookup_app_Some
      Hst Hst'.
    + eauto.
    + apply list_lookup_singleton_Some in H' as [_ [= -> <-]].
      destruct (Hold _ _ _ H eq_refl) as [e ->]. by destruct (Hst e).
    + apply list_lookup_singleton_Some in H as [_ [= -> <-]].
      destruct (Hold _ _ _ H' eq_refl) as [e ->]. by destruct (Hst' e).
    + apply list_lookup_singleton_Some in H as [? _].
      apply list_lookup_singleton_Some in H' as [? _]. lia.
Qed.

Lemma segment_launch_inv (s s' : pool) : segment s s' → launch_inv s → launch_inv s'.
Proof.
  induction 1; eauto using neutral_launch_inv, startBrowser_launch_inv.
Qed.

Lemma segment_trans (s1 s2 s3 : pool) : segment s1 s2 → segment s2 s3 → segment s1 s3.
Proof. induction 1; eauto using segment. Qed.

Lemma segment_of_neutral (s s' : pool) : neutral s s' → segment s s'.
Proof. eauto using segment. Qed.

Lemma segment_of_startBrowser (k : string) (s : pool) : segment s (startBrowser k s).2.
Proof. eauto using segment. Qed.

Lemma getOrCreateSharedContext_segment (k : string) (s : pool) :
  segment s (getOrCreateSharedContext k s).2.
Proof.
  unfold getOrCreateSharedContext.
  destruct (sharedContexts (mgr s) !! k); [apply segment_refl|].
  destruct (contextCreating (mgr s) !! k); [apply segment_refl|].
  destruct (startBrowser k s) as [a s1] eqn:E.
  change s1 with (a, s1).2. rewrite <- E. apply segment_of_startBrowser.
Qed.

Lemma getOrCreateSharedContext_resume_neutral (k : string) (c c' : shared_context_call)
    (s s' : pool) :
  getOrCreateSharedContext_resume k c s = Some (c', s') → neutral s s'.
Proof.
  destruct c as [q|a|q| |]; simpl; [| | |done..].
  - destruct (promises s !! q) as [[? [|?|?]]|]; simpl; intros; simplify_eq;
      apply neutral_refl.
  - destruct (poll a s) as [[b|e]|]; simpl; intros; simplify_eq; [|apply neutral_refl].
    eapply neutral_trans; [by apply (neutral_engine_call (NewSharedContext k))|].
    by apply neutral_with_mgr.
  - destruct (promises s !! q) as [[? [|?|?]]|]; simpl; intros; simplify_eq;
      apply neutral_refl.
Qed.

Lemma createSession_segment (sid : string) (b : option string) (s : pool) :
  segment s (createSession sid b s).2.
Proof.
  unfold createSession.
  destruct (assign_browser b (mgr s)) as [k m1] eqn:Ea.
  destruct (startBrowser k _) as [a s1] eqn:E. simpl.
  eapply segment_neutral; [|change s1 with (a, s1).2; rewrite <- E; apply segment_of_startBrowser].
  unfold assign_browser in Ea.
  split_and!; simpl.
  - destruct b as [k0|]; [destruct (JsString.truthy k0)|]; by simplify_eq.
  - destruct b as [k0|]; [destruct (JsString.truthy k0)|]; by simplify_eq.
  - exists []. split; [by rewrite app_nil_r | set_solver].
Qed.

Lemma createSession_resume_segment (sid k : string) (c : create_session_call)
    (t : task) (s s' : pool) :
  createSession_resume sid k c s = Some (t, s') → segment s s'.
Proof.
  destruct c as [a|inner|ctx pg|q]; simpl.
  - destruct (poll a s) as [[b|e]|]; simpl; [| |done].
    + destruct (useSharedContext (mgr s)).
      * destruct (getOrCreateSharedContext k _) as [inner s2] eqn:E. intros; simplify_eq.
        eapply segment_neutral; [by apply (neutral_with_mgr
          (set_session_maps id id (λ b0, <[sid := k]> b0)))|].
        change s' with (inner, s').2. rewrite <- E. apply getOrCreateSharedContext_segment.
      * intros; simplify_eq. apply segment_of_neutral.
        eapply neutral_trans; [by apply (neutral_with_mgr
          (set_session_maps id id (λ b0, <[sid := k]> b0)))|].
        by apply (neutral_engine_call (NewContext k)).
    + intros; simplify_eq. apply segment_refl.
  - destruct (outcome inner) as [[ctx|e]|] eqn:Eo.
    + intros; simplify_eq. apply segment_of_neutral.
      by apply (neutral_engine_call (NewPage ctx)).
    + intros; simplify_eq. apply segment_refl.
    + destruct (getOrCreateSharedContext_resume k inner s) as [[inner' s1]|] eqn:E;
        simpl; [|done].
      intros; simplify_eq. apply segment_of_neutral.
      eauto using getOrCreateSharedContext_resume_neutral.
  - destruct (promises s !! pg) as [[? [|?|?]]|]; simpl; intros; simplify_eq.
    + apply segment_of_neutral. by apply neutral_with_mgr.
    + apply segment_refl.
  - destruct (promises s !! q) as [[? [|?|?]]|]; simpl; intros; simplify_eq.
    + apply segment_of_neutral. by apply neutral_with_mgr.
    + apply segment_refl.
Qed.

Lemma resume_segment (t t' : task) (s s' : pool) :
  resume t s = Some (t', s') → segment s s'.
Proof.
  destruct t as [k a|k c|sid k c|r]; simpl.
  - destruct (poll a s); simpl; intros; simplify_eq. apply segment_refl.
  - destruct (outcome c).
    + intros; simplify_eq. apply segment_refl.
    + destruct (getOrCreateSharedContext_resume k c s) as [[c' s1]|] eqn:E; simpl; [|done].
      intros; simplify_eq. apply segment_of_neutral.
      eauto using getOrCreateSharedContext_resume_neutral.
  - eauto using createSession_resume_segment.
  - done.
Qed.

Lemma settle_launch_inv (p : nat) (r : nat + string) (s s' : pool) :
  settle p r s = Some s' → launch_inv s → launch_inv s'.
Proof.
  unfold settle. destruct (promises s !! p) as [[o st]|] eqn:Hp; [|done].
  destruct st; try done. intros [= <-] (Hguard & Hnone & Hlive & Huniq).
  assert (Hlt : p < length (promises s)) by (by eapply lookup_lt_Some).
  set (st' := match r with inl v => Fulfilled v | inr e => Rejected e end).
  assert (Hlook : ∀ q, (<[p := (o, st')]> (promises s)) !! q =
                       if decide (q = p) then Some (o, st') else promises s !! q).
  { intros q. case_decide as Hq; [subst; by apply list_lookup_insert_eq|].
    by apply list_lookup_insert_ne. }
  assert (Hcase : (∃ k, o = Launch k) ∨ ¬ ∃ k, o = Launch k)
    by (destruct o; eauto; right; intros [? ?]; done).
  destruct Hcase as [[k ->]|Hother].
  - assert (Hgk : browserStarting (mgr s) !! k = Some p) by (by apply Hguard).
    assert (Hothers : ∀ q st0, q ≠ p → promises s !! q = Some (Launch k, st0) →
                               ∃ e, st0 = Rejected e).
    { intros q st0 Hq Hq0. destruct st0 as [|v|e]; [| |eauto].
      - apply Hguard in Hq0. congruence.
      - apply Hlive in Hq0 as [b Hb]. erewrite Hnone in Hb; done. }
    unfold launch_inv, launch_guard, launch_live, pending in *.
    destruct r as [v|e]; simpl; subst st'.
    + split_and!.
      * intros k' q. rewrite Hlook. case_decide as Hq.
        -- subst q. split; [|done]. destruct (decide (k' = k)) as [->|].
           ++ by rewrite lookup_delete_eq.
           ++ rewrite lookup_delete_ne by done. rewrite Hguard, Hp. congruence.
        -- destruct (decide (k' = k)) as [->|].
           ++ rewrite lookup_delete_eq. split; [done|].
              intros Hq'. destruct (Hothers _ _ Hq Hq') as [? ?]. done.
           ++ rewrite lookup_delete_ne by done. apply Hguard.
      * intros k' q. rewrite Hlook. case_decide; [done|]. intros Hq'.
        destruct (decide (k' = k)) as [->|].
        -- destruct (Hothers _ _ ltac:(done) Hq') as [? ?]. done.
        -- rewrite lookup_insert_ne by done. by eapply Hnone.
      * intros k' q v'. rewrite Hlook. case_decide.
        -- intros [= -> ->]. rewrite lookup_insert_eq. eauto.
        -- intros Hq'. destruct (decide (k' = k)) as [->|].
           ++ rewrite lookup_insert_eq. eauto.
           ++ rewrite lookup_insert_ne by done. by eapply Hlive.
      * intros k' q q' st1 st2. rewrite !Hlook. repeat case_decide; subst.
        -- done.
        -- intros [= -> <-] H2 _ Hst2. destruct (Hothers _ _ ltac:(done) H2) as [e ->].
           by destruct (Hst2 e).
        -- intros H1 [= -> <-] Hst1 _. destruct (Hothers _ _ ltac:(done) H1) as [e ->].
           by destruct (Hst1 e).
        -- apply Huniq.
    + split_and!.
      * intros k' q. rewrite Hlook. case_decide as Hq.
        -- subst q. split; [|done]. destruct (decide (k' = k)) as [->|].
           ++ by rewrite lookup_delete_eq.
           ++ rewrite lookup_delete_ne by done. rewrite Hguard, Hp. congruence.
        -- destruct (decide (k' = k)) as [->|].
           ++ rewrite lookup_delete_eq. split; [done|].
              intros Hq'. destruct (Hothers _ _ Hq Hq') as [? ?]. done.
           ++ rewrite lookup_delete_ne by done. apply Hguard.
      * intros k' q. rewrite Hlook. case_decide; [done|]. by eapply Hnone.
      * intros k' q v'. rewrite Hlook. case_decide; [done|]. by eapply Hlive.
      * intros k' q q' st1 st2. rewrite !Hlook. repeat case_decide; subst.
        -- done.
        -- intros [= -> <-] _ Hst1. by destruct (Hst1 e).
        -- intros _ [= -> <-] _ Hst2. by destruct (Hst2 e).
        -- apply Huniq.
  - assert (Hsame : ∀ q k st0,
              (<[p := (o, st')]> (promises s)) !! q = Some (Launch k, st0) ↔
              promises s !! q = Some (Launch k, st0)).
    { intros q k st0. rewrite Hlook. case_decide; [|done]. subst q. rewrite Hp.
      split; intros [= -> ?]; destruct Hother; eauto. }
    assert (Hmgr : ∀ s1 : pool,
              (let s2 := match o, r with
                  | Launch k, inl browser =>
                    with_mgr (λ m, set_browserStarting (delete k)
                                     (set_browsers (λ b, <[k := browser]> b) m)) s1
                  | Launch k, inr _ => with_mgr (set_browserStarting (delete k)) s1
                  | NewSharedContext k, inl context =>
                    with_mgr (λ m, set_contextCreating (delete k)
                                     (set_sharedContexts (λ c, <[k := context]> c) m)) s1
                  | NewSharedContext k, inr _ => with_mgr (set_contextCreating (delete k)) s1
                  | _, _ => s1
                  end in
               browsers (mgr s2) = browsers (mgr s1) ∧
               browserStarting (mgr s2) = browserStarting (mgr s1) ∧
               promises s2 = promises s1)).
    { intros s1. destruct o, r; simpl; try done; destruct Hother; eauto. }
    match goal with |- launch_inv ?s2 => 
      destruct (Hmgr {| mgr := mgr s; promises := <[p := (o, st')]> (promises s) |})
        as (Hb & Hg & Hpr) end.
    simpl in Hb, Hg, Hpr.
    unfold launch_inv, launch_guard, launch_live, pending. rewrite Hb, Hg, Hpr.
    split_and!.
    + intros k q. rewrite Hsame. apply Hguard.
    + intros k q. rewrite Hsame. apply Hnone.
    + intros k q v. rewrite Hsame. apply Hlive.
    + intros k q q' st1 st2. rewrite !Hsame. apply Huniq.
Qed.

Lemma launch_inv_new : launch_inv new_pool.
Proof.
  unfold launch_inv, launch_guard, launch_live, pending; simpl.
  split_and!; try done; intros k p; by rewrite lookup_empty.
Qed.

Lemma step_launch_inv (w w' : world) (e : event) :
  step w e = Some w' → launch_inv (w_pool w) → launch_inv (w_pool w').
Proof.
  destruct e; simpl.
  - destruct (startBrowser browserId (w_pool w)) as [a s1] eqn:E.
    unfold spawn. destruct (tasks w !! t); [done|]. intros [= <-] Hinv. simpl.
    change s1 with (a, s1).2. rewrite <- E. by apply startBrowser_launch_inv.
  - destruct (getOrCreateSharedContext browserId (w_pool w)) as [c s1] eqn:E.
    unfold spawn. destruct (tasks w !! t); [done|]. intros [= <-] Hinv. simpl.
    eapply segment_launch_inv; [|done].
    change s1 with (c, s1).2. rewrite <- E. apply getOrCreateSharedContext_segment.
  - unfold spawn. destruct (tasks w !! t); [done|]. intros [= <-] Hinv. simpl.
    eapply segment_launch_inv; [|done]. apply createSession_segment.
  - destruct (tasks w !! t) as [tk|]; simpl; [|done].
    destruct (resume tk (w_pool w)) as [[tk' s1]|] eqn:E; simpl; [|done].
    intros [= <-] Hinv. simpl.
    eapply segment_launch_inv; [|done]. eauto using resume_segment.
  - destruct (settle p r (w_pool w)) as [s1|] eqn:E; simpl; [|done].
    intros [= <-] Hinv. simpl. eauto using settle_launch_inv.
Qed.

Lemma run_launch_inv (evs : list event) :
  ∀ w w', run evs w = Some w' → launch_inv (w_pool w) → launch_inv (w_pool w').
Proof.
  induction evs as [|e evs IH]; simpl; intros w w' H Hinv; [by simplify_eq|].
  destruct (step w e) as [w1|] eqn:E; [|done]. simpl in H.
  eauto using step_launch_inv.
Qed.

(** [startBrowser] is single-flight: in every state the event loop
    can reach, two launches of the same key that have not failed are the
    same launch; in particular at most one is in flight. *)
Lemma startBrowser_single_flight (w : world) :
  reachable w →
  single_flight Launch (w_pool w) ∧
  ∀ k p p' st st',
    promises (w_pool w) !! p = Some (Launch k, st) →
    promises (w_pool w) !! p' = Some (Launch k, st') →
    (∀ e, st ≠ Rejected e) → (∀ e, st' ≠ Rejected e) → p = p'.
Proof.
  intros [evs Hrun].
  destruct (run_launch_inv evs _ _ Hrun launch_inv_new) as (_ & _ & _ & Huniq).
  split; [|exact Huniq].
  intros k p p' Hp Hp'. eapply Huniq; eauto; done.
Qed.

(** A caller that finds a launch in flight is handed that launch's
    promise, and no engine call is made. *)
Lemma startBrowser_joins (k : string) (p : nat) (s : pool) :
  launch_inv s → pending p (Launch k) s →
  startBrowser k s = (Promise p, s).
Proof.
  intros (Hguard & Hnone & _) Hp. unfold startBrowser.
  rewrite (Hnone _ _ Hp). apply Hguard in Hp. by rewrite Hp.
Qed.

(** When the launch fails, every waiter on its promise sees the error,
    the guard is gone, and the next call launches again. *)
Lemma startBrowser_failure (k e : string) (p : nat) (s : pool) :
  launch_inv s → pending p (Launch k) s →
  ∃ s', settle p (inr e) s = Some s' ∧
        poll (Promise p) s' = Some (inr e) ∧
        browserStarting (mgr s') !! k = None ∧
        ∃ p', p' ≠ p ∧ (startBrowser k s').1 = Promise p' ∧
              pending p' (Launch k) (startBrowser k s').2.
Proof.
  intros (Hguard & Hnone & _) Hp. unfold settle. rewrite Hp. eexists. split; [done|].
  assert (Hlt : p < length (promises s)) by (by eapply lookup_lt_Some).
  simpl. rewrite list_lookup_insert_eq by done. split; [done|].
  rewrite lookup_delete_eq. split; [done|].
  unfold startBrowser; simpl. rewrite (Hnone _ _ Hp), lookup_delete_eq. simpl.
  exists (length (<[p := (Launch k, Rejected e)]> (promises s))). split_and!.
  - rewrite length_insert. lia.
  - done.
  - unfold pending; simpl. by rewrite lookup_app_r, Nat.sub_diag.
Qed.

End PoolFacts.

Section PoolScenarios.
Import BrowserSessionManager.
Local Open Scope nat_scope.

Lemma C2_browser_assignment_witness :
  let m := setTabsPerBrowser 5 new_manager in
  let keys := (assign_all 6 m).1 in
  (length keys = 6 ∧
   (∀ i, i < 6 → keys !! i = Some ("browser-" +:+ pretty (i / 5))) ∧
   size (list_to_set keys : gset string) = ceil_div 6 5 ∧
   (∀ ids : list string, length ids = 6 →
      size (dom (_distributeSessions ids m)) = ceil_div 6 5 ∧
      ∀ i sid, ids !! i = Some sid →
        ∃ group, _distributeSessions ids m !! ("browser-" +:+ pretty (i / 5)) = Some group ∧
                 sid ∈ group)) ∧
  keys = ["browser-0"; "browser-0"; "browser-0"; "browser-0"; "browser-0"; "browser-1"] ∧
  ceil_div 6 5 = 2.
Proof.
  intros m keys. split; [apply (C2_browser_assignment 6 5); lia|].
  split; vm_compute; reflexivity.
Defined.

(** Scenario B: six sessions, five tabs per browser, shared-context
    mode.  The keys are five times browser-0 and once browser-1, and the
    six [createSession] calls make two launches. *)
Example scenario_B_two_instances :
  let m := setTabsPerBrowser 5 (enableSharedContextMode new_manager) in
  (assign_all 6 m).1 =
    ["browser-0"; "browser-0"; "browser-0"; "browser-0"; "browser-0"; "browser-1"] ∧
  ceil_div 6 5 = 2 ∧
  ∃ w, run [CallCreateSession 0 "test-1" None; CallCreateSession 1 "test-2" None;
            CallCreateSession 2 "test-3" None; CallCreateSession 3 "test-4" None;
            CallCreateSession 4 "test-5" None; CallCreateSession 5 "test-6" None]
           {| w_pool := {| mgr := m; promises := [] |}; tasks := ∅ |} = Some w ∧
       promises (w_pool w) = [(Launch "browser-0", Pending); (Launch "browser-1", Pending)].
Proof.
  intros m. split_and!; [vm_compute; reflexivity..|].
  eexists. split; vm_compute; reflexivity.
Qed.

(** C1 (the code departs from the claim): two callers ask for the
    shared context of browser-0 before the browser has started.  Both
    pass the two guards of [getOrCreateSharedContext] and suspend at
    [await this.startBrowser(browserId)]; [contextCreating] is written
    only after that await.  One launch is made, but once it settles each
    caller makes its own [browser.newContext] call: two creations for
    the same key are in flight and the callers await different
    promises. *)
Theorem C1_getOrCreateSharedContext_creates_twice :
  ∃ w,
    run [CallGetOrCreateSharedContext 0 "browser-0";
         CallGetOrCreateSharedContext 1 "browser-0";
         Settle 0 (inl 100);
         Resume 0;
         Resume 1] new_world = Some w ∧
    promises (w_pool w) =
      [(Launch "browser-0", Fulfilled 100);
       (NewSharedContext "browser-0", Pending);
       (NewSharedContext "browser-0", Pending)] ∧
    tasks w !! 0 = Some (InGetOrCreateSharedContext "browser-0" (AtLine142 1)) ∧
    tasks w !! 1 = Some (InGetOrCreateSharedContext "browser-0" (AtLine142 2)) ∧
    contextCreating (mgr (w_pool w)) !! "browser-0" = Some 2 ∧
    ¬ single_flight NewSharedContext (w_pool w).
Proof.
  eexists. split; [vm_compute; reflexivity|]. split_and!; [reflexivity..|].
  intros H. specialize (H "browser-0" 1 2 eq_refl eq_refl). lia.
Qed.

(** The same happens inside a wave: five sessions of browser-0 resume
    from [await this.startBrowser] one after the other, each enters
    [getOrCreateSharedContext] and suspends before any of them has set
    the guard, so five contexts are requested. *)
Example wave_creates_five_contexts :
  let m := setTabsPerBrowser 5 (enableSharedContextMode new_manager) in
  ∃ w, run ([CallCreateSession 0 "test-1" None; CallCreateSession 1 "test-2" None;
             CallCreateSession 2 "test-3" None; CallCreateSession 3 "test-4" None;
             CallCreateSession 4 "test-5" None; Settle 0 (inl 100)]
            ++ (Resume <$> seq 0 5) ++ (Resume <$> seq 0 5))
           {| w_pool := {| mgr := m; promises := [] |}; tasks := ∅ |} = Some w ∧
       calls (Launch "browser-0") (w_pool w) = [0] ∧
       calls (NewSharedContext "browser-0") (w_pool w) = [1; 2; 3; 4; 5].
Proof. intros m. eexists. split_and!; vm_compute; reflexivity. Qed.

End PoolScenarios.

Section ExecutorFacts.
Import TestExecutor.
Local Open Scope nat_scope.

Lemma omap_seq_lookup {A} (f : nat → option A) (len : nat) :
  ∀ c, (∀ i, c ≤ i < c + len → is_Some (f i)) →
       length (omap f (seq c len)) = len ∧
       ∀ k, k < len → omap f (seq c len) !! k = f (c + k).
Proof.
  induction len as [|len IH]; intros c Hall.
  - split; [done|]. intros k Hk. lia.
  - destruct (Hall c ltac:(lia)) as [x Hx].
    destruct (IH (S c)) as [Hlen Hlook]; [intros i Hi; apply Hall; lia|].
    change (omap f (seq c (S len))) with
      (match f c with Some y => y :: omap f (seq (S c) len) | None => omap f (seq (S c) len) end).
    rewrite Hx. split; [simpl; by rewrite Hlen|].
    intros [|k] Hk; simpl; [by rewrite Nat.add_0_r|].
    rewrite Hlook by lia. f_equal. lia.
Qed.

Lemma all_settled_spec (e : executor) (b : nat) :
  all_settled e b = true ↔ ∀ i, completed e ≤ i < b → is_Some (outcomes e !! i).
Proof.
  unfold all_settled, batch. rewrite forallb_forall. split.
  - intros H i Hi. specialize (H i). rewrite bool_decide_eq_true in H. apply H.
    apply list_elem_of_In, elem_of_seq. lia.
  - intros H i Hi%list_elem_of_In%elem_of_seq. rewrite bool_decide_eq_true. apply H. lia.
Qed.

Lemma wave_shape_snoc (n p : nat) (ws : list (list nat)) (w : list nat) :
  ∀ from, wave_shape n p from ws →
    from + length (concat ws) < n →
    w = seq (from + length (concat ws)) (Nat.min p (n - (from + length (concat ws)))) →
    wave_shape n p from (ws ++ [w]).
Proof.
  induction ws as [|w0 ws IH]; intros from Hshape Hlt Hw; simpl in *.
  - rewrite Nat.add_0_r in *. done.
  - destruct Hshape as (H1 & H2 & H3). split_and!; [done..|].
    rewrite length_app in *. apply IH; [done|lia|].
    rewrite Hw. f_equal; [lia|]. f_equal. lia.
Qed.

Lemma exec_inv_init (n p : nat) : exec_inv n p (executeMulti n p).
Proof.
  unfold exec_inv, frontier; simpl. split_and!; try done; try lia.
  all: intros i [? H]; by rewrite lookup_empty in H.
Qed.

(** The call sets the flag and empties [results] on its way to the
    loop. *)
Lemma enter_inv (n p : nat) (e : executor) :
  exec_inv n p e → at_phase e = Called → exec_inv n p (enter e).
Proof.
  intros (Hn & Hbs & Hle & Hlen & Hst & Hcat & Hshape & Hph & Hdom & Hres) Hphase.
  unfold exec_inv, frontier in *; simpl. rewrite Hphase in *.
  split_and!; try done. intros i Hi. lia.
Qed.

Lemma loop_test_inv (n p : nat) (e : executor) :
  exec_inv n p e → at_phase e = LoopHead ∨ at_phase e = Called →
  exec_inv n p (loop_test e).
Proof.
  intros (Hn & Hbs & Hle & Hlen & Hst & Hcat & Hshape & Hph & Hdom & Hres) Hphase.
  assert (Hfr : frontier e = completed e)
    by (unfold frontier; destruct Hphase as [-> | ->]; done).
  rewrite Hfr in Hst, Hdom. clear Hph Hfr Hphase.
  unfold loop_test.
  destruct (completed e <? count e) eqn:Hlt; simpl.
  - apply Nat.ltb_lt in Hlt. destruct (isRunning e) eqn:Hrun.
    + unfold exec_inv, frontier, batch; simpl.
      assert (Hsz : Nat.min (completed e + batchSize e) (count e) - completed e
                    = Nat.min p (n - completed e)) by lia.
      split_and!; try done; try lia.
      * rewrite Hst, <- seq_app. f_equal. lia.
      * rewrite concat_app, Hcat. simpl. by rewrite app_nil_r.
      * apply wave_shape_snoc; [done|..]; rewrite Hcat, Hst, length_seq; simpl; [lia|].
        by rewrite Hsz.
      * intros i Hi. apply Hdom in Hi. lia.
    + unfold exec_inv, frontier; simpl. split_and!; try done. by right.
  - apply Nat.ltb_ge in Hlt.
    unfold exec_inv, frontier; simpl. split_and!; try done. left. lia.
Qed.

Lemma exec_inv_step (n p : nat) (e e' : executor) (ev : event) :
  exec_inv n p e → step e ev = Some e' → exec_inv n p e'.
Proof.
  intros Hinv.
  pose proof Hinv as (Hn & Hbs & Hle & Hlen & Hst & Hcat & Hshape & Hph & Hdom & Hres).
  unfold step. destruct ev.
  5: { (* stop(), in each phase *)
    destruct (at_phase e) eqn:Hphase; intros [= <-];
      unfold exec_inv, frontier in *; simpl; rewrite Hphase in *;
      split_and!; try done; try (by destruct Hph); by right. }
  all: destruct (at_phase e) eqn:Hphase; try done.
  - (* the first loop test *)
    intros [= <-]. apply loop_test_inv; [by apply enter_inv|by right].
  - (* the loop test after a pause *)
    intros [= <-]. apply loop_test_inv; [done|by left].
  - (* a session settles *)
    case_bool_decide as Hi; [|done]. intros [= <-]. destruct Hi as [Hi Hnone].
    apply elem_of_seq in Hi.
    unfold exec_inv, frontier in *; simpl. rewrite Hphase in *.
    split_and!; try done; try (by destruct Hph).
    + intros j [x Hj]. destruct (decide (j = i)) as [->|Hne]; [lia|].
      rewrite lookup_insert_ne in Hj by done. eauto.
    + intros j Hj. rewrite lookup_insert_ne by lia. eauto.
  - (* the join *)
    destruct (all_settled e batchEnd) eqn:Hall; [|done]. intros [= <-].
    pose proof (proj1 (all_settled_spec e batchEnd) Hall) as Hall'. clear Hall.
    rename Hall' into Hall.
    unfold frontier in Hst, Hdom. rewrite Hphase in Hst, Hdom.
    destruct Hph as [Hcb Hb].
    destruct (omap_seq_lookup (λ i, collect i <$> outcomes e !! i)
                (batchEnd - completed e) (completed e)) as [Hl Hk].
    { intros i Hi. apply fmap_is_Some, Hall. lia. }
    unfold exec_inv, frontier, batch; simpl.
    split_and!; try done; try lia.
    + rewrite length_app, Hl. lia.
    + intros i Hi. destruct (decide (i < completed e)) as [Hold|Hnew].
      * destruct (Hres i Hold) as (s & Hs & Hr). exists s. split; [done|].
        by apply lookup_app_l_Some.
      * destruct (Hall i ltac:(lia)) as [s Hs]. exists s. split; [done|].
        rewrite lookup_app_r by lia. rewrite Hlen, Hk by lia.
        replace (completed e + (i - completed e)) with i by lia. by rewrite Hs.
  - (* the pause is over *)
    intros [= <-]. unfold exec_inv, frontier in *; simpl. rewrite Hphase in *.
    split_and!; done.
Qed.

Lemma exec_inv_run (n p : nat) (evs : list event) :
  ∀ e e', exec_inv n p e → run evs e = Some e' → exec_inv n p e'.
Proof.
  induction evs as [|ev evs IH]; simpl; intros e e' Hinv H; [by simplify_eq|].
  destruct (step e ev) as [e1|] eqn:E; [|done]. simpl in H.
  eauto using exec_inv_step.
Qed.

Lemma executor_run_app (evs1 evs2 : list event) (e : executor) :
  run (evs1 ++ evs2) e = run evs1 e ≫= run evs2.
Proof.
  revert e. induction evs1 as [|ev evs1 IH]; intros e; simpl; [done|].
  destruct (step e ev); simpl; [apply IH | done].
Qed.

Lemma loop_test_isRunning (e : executor) : isRunning (loop_test e) = isRunning e.
Proof. unfold loop_test. by destruct (_ && _). Qed.

Lemma loop_test_phase (e : executor) : at_phase (loop_test e) ≠ Called.
Proof. unfold loop_test. by destruct (_ && _). Qed.

(** Only [stop()] clears the flag, and only the call sets it, on its
    way to the loop. *)
Lemma step_isRunning (e e' : executor) (ev : event) :
  step e ev = Some e' →
  isRunning e' = match ev, at_phase e with
                 | Stop, _ => false
                 | LoopTest, Called => true
                 | _, _ => isRunning e
                 end.
Proof.
  unfold step. destruct ev, (at_phase e); try done; simpl.
  all: try (intros [= <-]; by rewrite ?loop_test_isRunning).
  - case_bool_decide; [|done]. by intros [= <-].
  - destruct (all_settled _ _); [|done]. by intros [= <-].
Qed.

(** The loop is entered by a loop test and never left for [Called]. *)
Lemma step_phase (e e' : executor) (ev : event) :
  step e ev = Some e' →
  at_phase e' = Called ↔ at_phase e = Called ∧ ev ≠ LoopTest.
Proof.
  unfold step. destruct ev, (at_phase e) eqn:Hphase; try done; simpl.
  all: try (intros [= <-]; pose proof (loop_test_phase e);
            pose proof (loop_test_phase (enter e)); simpl; rewrite ?Hphase; naive_solver).
  - case_bool_decide; [|done]. intros [= <-]. simpl. naive_solver.
  - destruct (all_settled _ _); [|done]. intros [= <-]. simpl. naive_solver.
Qed.

(** Without [stop()] the flag is set from the first loop test on. *)
Lemma run_without_stop (evs : list event) :
  ∀ e e', Stop ∉ evs → run evs e = Some e' →
          at_phase e = Called ∨ isRunning e = true →
          at_phase e' = Called ∨ isRunning e' = true.
Proof.
  induction evs as [|ev evs IH]; simpl; intros e e' Hns H Hrun; [by simplify_eq|].
  destruct (step e ev) as [e1|] eqn:E; [|done]. simpl in H.
  apply not_elem_of_cons in Hns as [Hne Hns].
  apply (IH _ _ Hns H).
  pose proof (step_isRunning _ _ _ E) as Hr. pose proof (step_phase _ _ _ E) as Hp.
  destruct Hrun as [Hc|Ht].
  - destruct ev; try (left; by apply Hp).
    right. by rewrite Hr, Hc.
  - right. rewrite Hr. destruct ev, (at_phase e); done.
Qed.

(** Once the flag is cleared in the loop no session is started any
    more. *)
Lemma step_stopped (e e' : executor) (ev : event) :
  isRunning e = false → at_phase e ≠ Called → step e ev = Some e' →
  isRunning e' = false ∧ at_phase e' ≠ Called ∧
  started e' = started e ∧ waves e' = waves e.
Proof.
  intros Hrun Hph Hstep.
  pose proof (step_isRunning _ _ _ Hstep) as Hr.
  pose proof (step_phase _ _ _ Hstep) as Hp.
  split_and!.
  - rewrite Hr. destruct ev, (at_phase e); done.
  - intros Hc. apply Hp in Hc as [Hc _]. done.
  - revert Hstep. unfold step, loop_test.
    destruct ev, (at_phase e); try done; simpl; rewrite ?Hrun, ?andb_false_r;
      repeat case_match; try done; by intros [= <-].
  - revert Hstep. unfold step, loop_test.
    destruct ev, (at_phase e); try done; simpl; rewrite ?Hrun, ?andb_false_r;
      repeat case_match; try done; by intros [= <-].
Qed.

Lemma run_stopped (evs : list event) :
  ∀ e e', isRunning e = false → at_phase e ≠ Called → run evs e = Some e' →
          isRunning e' = false ∧ started e' = started e ∧ waves e' = waves e.
Proof.
  induction evs as [|ev evs IH]; simpl; intros e e' Hrun Hph H; [by simplify_eq|].
  destruct (step e ev) as [e1|] eqn:E; [|done]. simpl in H.
  destruct (step_stopped _ _ _ Hrun Hph E) as (H1 & H2 & H3 & H4).
  destruct (IH _ _ H1 H2 H) as (? & ? & ?). split_and!; congruence.
Qed.

(** The waves of a finished run are determined by [count] and
    [concurrency] alone. *)
Lemma wave_shape_sizes (n p : nat) (ws : list (list nat)) :
  0 < p →
  ∀ from fuel, wave_shape n p from ws → concat ws = seq from (n - from) →
               n - from ≤ fuel →
               length <$> ws = wave_sizes fuel p (n - from).
Proof.
  intros Hp. induction ws as [|w ws IH]; intros from fuel Hshape Hcat Hfuel; simpl in *.
  - destruct (n - from) eqn:E; [|done]. by destruct fuel.
  - destruct Hshape as (Hlt & -> & Hshape). rewrite length_seq in *.
    destruct fuel as [|fuel]; [lia|]. simpl.
    destruct (n - from =? 0) eqn:E; [apply Nat.eqb_eq in E; lia|].
    f_equal. replace (n - from - Nat.min p (n - from))
      with (n - (from + Nat.min p (n - from))) by lia.
    apply IH; [done| |lia].
    assert (Hsplit : seq from (n - from) =
                     seq from (Nat.min p (n - from)) ++
                     seq (from + Nat.min p (n - from)) (n - (from + Nat.min p (n - from))))
      by (rewrite <- seq_app; f_equal; lia).
    rewrite Hsplit in Hcat. by apply app_inv_head in Hcat.
Qed.

Lemma finished_run_waves (n p : nat) (evs : list event) (e : executor) :
  0 < p → Stop ∉ evs →
  run evs (executeMulti n p) = Some e → at_phase e = Finished →
  length <$> waves e = wave_sizes n p n ∧ started e = seq 0 n ∧
  length (results e) = n.
Proof.
  intros Hp Hns Hrun Hfin.
  pose proof (exec_inv_run n p evs _ _ (exec_inv_init n p) Hrun)
    as (Hn & Hbs & Hle & Hlen & Hst & Hcat & Hshape & Hph & Hdom & Hres).
  pose proof (run_without_stop evs _ _ Hns Hrun ltac:(by left)) as Hr.
  unfold frontier in Hst. rewrite Hfin in Hph, Hst, Hr.
  assert (completed e = n) as Hc
    by (destruct Hph, Hr; first [done | lia | congruence]).
  rewrite Hc in *. split_and!; [|done..].
  pose proof (wave_shape_sizes n p (waves e) Hp 0 n Hshape) as Hw.
  rewrite Nat.sub_0_r in Hw. apply Hw; [|lia]. by rewrite Hcat, Hst.
Qed.

End ExecutorFacts.

Section ExecutorProgress.
Import TestExecutor.
Local Open Scope nat_scope.

(** The sessions of the wave in flight settle one after the other. *)
Lemma run_settles (outcome : nat → settled) (b len : nat) :
  ∀ from e,
    at_phase e = InWave b → completed e ≤ from → from + len ≤ b →
    (∀ i, from ≤ i → outcomes e !! i = None) →
    ∃ e', run ((λ i, SessionSettles i (outcome i)) <$> seq from len) e = Some e' ∧
          at_phase e' = InWave b ∧ completed e' = completed e ∧ count e' = count e ∧
          batchSize e' = batchSize e ∧ isRunning e' = isRunning e ∧
          (∀ i, from ≤ i < from + len → outcomes e' !! i = Some (outcome i)) ∧
          (∀ i, from + len ≤ i → outcomes e' !! i = None) ∧
          (∀ i, i < from → outcomes e' !! i = outcomes e !! i).
Proof.
  induction len as [|len IH]; intros from e Hph Hc Hb Hnone.
  - exists e. simpl. split_and!; try done. intros i Hi. lia. intros i Hi. apply Hnone. lia.
  - change (seq from (S len)) with (from :: seq (S from) len).
    rewrite fmap_cons. cbn [run]. unfold step at 1. rewrite Hph.
    rewrite bool_decide_eq_true_2.
    2: { split; [|apply Hnone; lia]. apply elem_of_seq. lia. }
    simpl.
    match goal with |- ∃ e', run _ ?e1 = _ ∧ _ => 
      destruct (IH (S from) e1) as (e' & Hrun & H1 & H2 & H3 & H4 & H5 & H6 & H7 & H8) end;
      simpl; try done; try lia.
    { intros i Hi. rewrite lookup_insert_ne by lia. apply Hnone. lia. }
    simpl in *. exists e'. split_and!; try done.
    + intros i Hi. destruct (decide (i = from)) as [->|].
      * rewrite H8 by lia. by rewrite lookup_insert_eq.
      * apply H6. lia.
    + intros i Hi. apply H7. lia.
    + intros i Hi. rewrite H8 by lia. by rewrite lookup_insert_ne by lia.
Qed.

(** A loop test that is not held back by [stop()]: the first one,
    or a later one with the flag set. *)
Lemma loop_test_starts (e : executor) :
  at_phase e = Called ∨ (at_phase e = LoopHead ∧ isRunning e = true) →
  completed e < count e →
  ∃ e1, step e LoopTest = Some e1 ∧
        at_phase e1 = InWave (Nat.min (completed e + batchSize e) (count e)) ∧
        isRunning e1 = true ∧ completed e1 = completed e ∧ count e1 = count e ∧
        batchSize e1 = batchSize e ∧ outcomes e1 = outcomes e.
Proof.
  intros Hready Hlt. apply Nat.ltb_lt in Hlt. unfold step, loop_test.
  destruct Hready as [-> | [-> Hrun]]; cbn [enter completed count isRunning].
  - rewrite Hlt. cbn [andb]. eexists. split; [done|]. by split_and!.
  - rewrite Hlt, Hrun. cbn [andb]. eexists. split; [done|]. by split_and!.
Qed.

Lemma loop_test_leaves (e : executor) :
  at_phase e = Called ∨ at_phase e = LoopHead →
  count e ≤ completed e →
  ∃ e1, step e LoopTest = Some e1 ∧ at_phase e1 = Finished ∧
        completed e1 = completed e ∧ outcomes e1 = outcomes e.
Proof.
  intros Hready Hge. apply Nat.ltb_ge in Hge. unfold step, loop_test.
  destruct Hready as [-> | ->]; cbn [enter completed count isRunning];
    rewrite Hge; cbn [andb]; eexists; (split; [done|]); by split_and!.
Qed.

(** What a loop test that starts a wave does. *)
Lemma loop_test_wave (e e' : executor) (b : nat) :
  step e LoopTest = Some e' → at_phase e' = InWave b →
  (at_phase e = Called ∨ at_phase e = LoopHead) ∧ completed e < count e ∧
  b = Nat.min (completed e + batchSize e) (count e) ∧
  started e' = started e ++ batch e b ∧ waves e' = waves e ++ [batch e b] ∧
  outcomes e' = outcomes e.
Proof.
  unfold step, loop_test. destruct (at_phase e) eqn:Hphase; try done;
    cbn [enter completed count isRunning batchSize started waves outcomes];
    destruct (completed e <? count e) eqn:Hlt; cbn [andb];
    try destruct (isRunning e); intros [= <-]; cbn; try done;
    intros [= <-]; apply Nat.ltb_lt in Hlt; split_and!; auto.
Qed.


(** One wave, from the loop test to the end of the pause. *)
Lemma run_wave (outcome : nat → settled) (e : executor) :
  at_phase e = Called ∨ (at_phase e = LoopHead ∧ isRunning e = true) →
  completed e < count e →
  (∀ i, completed e ≤ i → outcomes e !! i = None) →
  ∃ e', run (wave_events outcome (completed e)
               (Nat.min (completed e + batchSize e) (count e))) e = Some e' ∧
        at_phase e' = LoopHead ∧ isRunning e' = true ∧
        completed e' = Nat.min (completed e + batchSize e) (count e) ∧
        count e' = count e ∧ batchSize e' = batchSize e ∧
        (∀ i, completed e' ≤ i → outcomes e' !! i = None) ∧
        (∀ i, completed e ≤ i < completed e' → outcomes e' !! i = Some (outcome i)) ∧
        (∀ i, i < completed e → outcomes e' !! i = outcomes e !! i).
Proof.
  intros Hready Hlt Hnone.
  set (b := Nat.min (completed e + batchSize e) (count e)).
  destruct (loop_test_starts e Hready Hlt) as (e1 & Hstep & Hp1 & Hr1 & Hc1 & Hn1 & Hb1 & Ho1).
  fold b in Hp1.
  unfold wave_events. cbn [run]. rewrite Hstep. cbn [mbind option_bind].
  rewrite executor_run_app.
  destruct (run_settles outcome b (b - completed e) (completed e) e1)
    as (e2 & Hrun2 & H1 & H2 & H3 & H4 & H5 & H6 & H7 & H8);
    [done|lia|lia|by rewrite Ho1|].
  rewrite Hrun2. cbn [mbind option_bind run].
  assert (Hjoin : ∃ e3, step e2 AllSettled = Some e3 ∧ at_phase e3 = Cooldown ∧
            isRunning e3 = isRunning e2 ∧ completed e3 = b ∧ count e3 = count e2 ∧
            batchSize e3 = batchSize e2 ∧ outcomes e3 = outcomes e2).
  { unfold step. rewrite H1, (proj2 (all_settled_spec e2 b)).
    - eexists. split; [done|]. by split_and!.
    - intros i Hi. rewrite H6 by lia. eauto. }
  destruct Hjoin as (e3 & Hstep3 & Hp3 & Hr3 & Hc3 & Hn3 & Hb3 & Ho3).
  rewrite Hstep3. cbn [mbind option_bind]. unfold step. rewrite Hp3.
  eexists. split; [reflexivity|]. cbn [at_phase isRunning completed count batchSize outcomes].
  rewrite Ho3. split_and!; try done; try congruence.
  - intros i Hi. apply H7. lia.
  - intros i Hi. apply H6. lia.
  - intros i Hi. rewrite H8 by lia. by rewrite Ho1.
Qed.

(** With a positive concurrency the loop runs to its end, whatever the
    sessions' outcomes are. *)
Lemma schedule_finishes (outcome : nat → settled) (fuel : nat) :
  ∀ e, at_phase e = Called ∨ (at_phase e = LoopHead ∧ isRunning e = true) →
       0 < batchSize e →
       count e - completed e ≤ fuel →
       (∀ i, completed e ≤ i → outcomes e !! i = None) →
       (∀ i, i < completed e → outcomes e !! i = Some (outcome i)) →
       ∃ e', run (schedule fuel outcome (count e) (batchSize e) (completed e)) e = Some e' ∧
             at_phase e' = Finished ∧
             (∀ i, i < completed e' → outcomes e' !! i = Some (outcome i)).
Proof.
  assert (Hany : ∀ e, at_phase e = Called ∨ (at_phase e = LoopHead ∧ isRunning e = true) →
                      at_phase e = Called ∨ at_phase e = LoopHead) by naive_solver.
  induction fuel as [|fuel IH]; intros e Hready Hbs Hfuel Hnone Hsome.
  - destruct (loop_test_leaves e (Hany e Hready) ltac:(lia)) as (e1 & Hstep & Hf & Hc & Ho).
    cbn [schedule run]. rewrite Hstep. cbn [mbind option_bind].
    exists e1. split_and!; [done..|]. intros i Hi. rewrite Ho. apply Hsome. lia.
  - cbn [schedule]. destruct (completed e <? count e) eqn:Hlt.
    + apply Nat.ltb_lt in Hlt.
      destruct (run_wave outcome e Hready Hlt Hnone)
        as (e1 & Hrun1 & H1 & H2 & H3 & H4 & H5 & H6 & H7 & H8).
      rewrite executor_run_app, Hrun1. cbn [mbind option_bind].
      rewrite <- H3, <- H4, <- H5. apply IH; try done; try lia.
      * by right.
      * intros i Hi. destruct (decide (i < completed e)).
        -- rewrite H8 by done. by apply Hsome.
        -- apply H7. lia.
    + apply Nat.ltb_ge in Hlt.
      destruct (loop_test_leaves e (Hany e Hready) Hlt) as (e1 & Hstep & Hf & Hc & Ho).
      cbn [run]. rewrite Hstep. cbn [mbind option_bind].
      exists e1. split_and!; [done..|]. intros i Hi. rewrite Ho. apply Hsome. lia.
Qed.

Lemma schedule_no_stop (outcome : nat → settled) (fuel : nat) :
  ∀ n bs c, Stop ∉ schedule fuel outcome n bs c.
Proof.
  induction fuel as [|fuel IH]; intros n bs c; simpl.
  - set_solver.
  - destruct (c <? n); [|set_solver].
    unfold wave_events. rewrite !not_elem_of_cons, !not_elem_of_app, !not_elem_of_cons.
    split_and!; try done; try apply IH; set_solver.
Qed.

End ExecutorProgress.

Section ExecutorClaims.
Import TestExecutor.
Local Open Scope nat_scope.

(** A run in which every session settles, in index order, with the
    outcomes given by [outcome]. *)
Lemma complete_run (outcome : nat → settled) (N P : nat) :
  0 < P →
  ∃ e, run (schedule N outcome N (Nat.min P N) 0) (executeMulti N P) = Some e ∧
       (Stop ∉ schedule N outcome N (Nat.min P N) 0) ∧
       at_phase e = Finished ∧
       length <$> waves e = wave_sizes N P N ∧
       results e = (λ i, collect i (outcome i)) <$> seq 0 N.
Proof.
  intros HP. destruct (decide (N = 0)) as [->|HN].
  - eexists. split_and!; [reflexivity | set_solver | reflexivity..].
  - destruct (schedule_finishes outcome N (executeMulti N P)) as (e & Hrun & Hfin & Hout);
      try done; try (cbn; lia); [by left|].
    pose proof (schedule_no_stop outcome N N (Nat.min P N) 0) as Hns.
    change (run (schedule N outcome N (Nat.min P N) 0) (executeMulti N P) = Some e) in Hrun.
    exists e. split_and!; try done.
    + eapply finished_run_waves; eauto.
    + destruct (finished_run_waves N P _ e HP Hns Hrun Hfin) as (_ & _ & Hlen).
      pose proof (exec_inv_run N P _ _ _ (exec_inv_init N P) Hrun)
        as (_ & _ & _ & Hlen' & _ & _ & _ & _ & _ & Hres).
      apply list_eq. intros i. rewrite list_lookup_fmap.
      destruct (decide (i < N)) as [Hi|Hi].
      * destruct (Hres i ltac:(lia)) as (s & Hs & Hr). rewrite Hr.
        rewrite Hout in Hs by lia. injection Hs as <-.
        rewrite (proj2 (lookup_seq 0 N i i)) by (split; lia). done.
      * rewrite lookup_ge_None_2 by lia.
        rewrite lookup_ge_None_2; [done|]. rewrite length_seq. lia.
Qed.

(** [Promise.allSettled] resolves only when every session of the
    wave in flight, and so every session started so far, has settled. *)
Lemma join_waits_for_all (N P : nat) (evs : list event) (e e' : executor) (b : nat) :
  run evs (executeMulti N P) = Some e →
  at_phase e = InWave b → step e AllSettled = Some e' →
  started e = seq 0 b ∧ ∀ i, i ∈ started e → is_Some (outcomes e !! i).
Proof.
  intros Hrun Hphase.
  pose proof (exec_inv_run N P _ _ _ (exec_inv_init N P) Hrun)
    as (Hn & Hbs & Hle & Hlen & Hst & Hcat & Hshape & Hph & Hdom & Hres).
  unfold step. rewrite Hphase.
  destruct (all_settled e b) eqn:Hall; [|done]. intros _.
  pose proof (proj1 (all_settled_spec e b) Hall) as Hall'.
  unfold frontier in Hst. rewrite Hphase in Hst. split; [done|].
  intros i Hi. rewrite Hst in Hi. apply elem_of_seq in Hi.
  destruct (decide (i < completed e)) as [Hold|Hnew].
  - destruct (Hres i Hold) as (s & Hs & _). eauto.
  - apply Hall'. lia.
Qed.

(** C4: in every state [executeMulti] can reach, the waves started so
    far are consecutive blocks of [min concurrency remaining] sessions;
    a new wave is started by one loop test, all its sessions at once and
    none of them settled, and only when every session started before
    has settled; [Promise.allSettled] resolves only when every session
    of the wave has settled.  A run that is not stopped and reaches the
    end of the loop has made the waves [wave_sizes], its summary has
    [total = count], and for a positive concurrency such a run exists
    whatever the outcomes; for count 10 and concurrency 3 the sizes are
    3, 3, 3, 1. *)
Theorem C4_waves_join_all (N P : nat) (evs : list event) (e : executor) :
  run evs (executeMulti N P) = Some e →
  wave_shape N P 0 (waves e) ∧
  (∀ e' b, step e LoopTest = Some e' → at_phase e' = InWave b →
     (∀ i, i ∈ started e → is_Some (outcomes e !! i)) ∧
     started e' = started e ++ seq (completed e) (Nat.min P (N - completed e)) ∧
     waves e' = waves e ++ [seq (completed e) (Nat.min P (N - completed e))] ∧
     (∀ i, i ∈ seq (completed e) (Nat.min P (N - completed e)) → outcomes e' !! i = None)) ∧
  (∀ e' b, at_phase e = InWave b → step e AllSettled = Some e' →
     started e = seq 0 b ∧
     (∀ i, i ∈ started e → is_Some (outcomes e !! i))) ∧
  (Stop ∉ evs → at_phase e = Finished → 0 < P →
     length <$> waves e = wave_sizes N P N ∧
     ∃ r, returned e = Some r ∧ total (rep_summary r) = N) ∧
  wave_sizes 10 3 10 = [3; 3; 3; 1] ∧
  (0 < P → ∀ outcome, ∃ e0,
     run (schedule N outcome N (Nat.min P N) 0) (executeMulti N P) = Some e0 ∧
     (Stop ∉ schedule N outcome N (Nat.min P N) 0) ∧ at_phase e0 = Finished).
Proof.
  intros Hrun.
  pose proof (exec_inv_run N P _ _ _ (exec_inv_init N P) Hrun)
    as (Hn & Hbs & Hle & Hlen & Hst & Hcat & Hshape & Hph & Hdom & Hres).
  split_and!.
  - done.
  - intros e' b Hstep Hb.
    destruct (loop_test_wave e e' b Hstep Hb) as (Hphase & Hlt & -> & Hst' & Hw' & Ho').
    assert (Hfr : frontier e = completed e)
      by (unfold frontier; destruct Hphase as [-> | ->]; done).
    rewrite Hfr in Hst, Hdom.
    assert (Hsz : Nat.min (completed e + batchSize e) (count e) - completed e
                  = Nat.min P (N - completed e)) by lia.
    unfold batch in Hst', Hw'. rewrite Hsz in Hst', Hw'. split_and!; try done.
    + intros i Hi. rewrite Hst in Hi. apply elem_of_seq in Hi.
      destruct (Hres i ltac:(lia)) as (s & Hs & _). eauto.
    + intros i Hi%elem_of_seq. rewrite Ho'. destruct (outcomes e !! i) eqn:Ho; [|done].
      specialize (Hdom i ltac:(eauto)). lia.
  - intros e' b Hphase Hstep. by apply (join_waits_for_all N P evs e e' b).
  - intros Hns Hfin HP.
    destruct (finished_run_waves N P evs e HP Hns Hrun Hfin) as (Hw & _ & Hl).
    split; [done|]. unfold returned. rewrite Hfin. eexists. split; [done|]. done.
  - reflexivity.
  - intros HP outcome. destruct (complete_run outcome N P HP) as (e0 & ? & ? & ? & _).
    eauto.
Qed.

Lemma C4_waves_join_all_witness :
  ∃ e, run (schedule 10 passed 10 3 0) (executeMulti 10 3) = Some e ∧
       waves e = [[0; 1; 2]; [3; 4; 5]; [6; 7; 8]; [9]] ∧
       length <$> waves e = [3; 3; 3; 1] ∧
       ∃ r, returned e = Some r ∧ total (rep_summary r) = 10.
Proof.
  destruct (run (schedule 10 passed 10 3 0) (executeMulti 10 3)) as [e|] eqn:Hrun;
    [|vm_compute in Hrun; discriminate Hrun].
  exists e. split; [reflexivity|].
  destruct (C4_waves_join_all 10 3 _ e Hrun) as (_ & _ & _ & Hdone & Hsizes & _).
  assert (Hns : Stop ∉ schedule 10 passed 10 3 0).
  { vm_compute. intros H.
    repeat (apply elem_of_cons in H as [H|H]; [discriminate H|]). inversion H. }
  assert (Hfin : at_phase e = Finished)
    by (vm_compute in Hrun; injection Hrun as <-; reflexivity).
  destruct (Hdone Hns Hfin ltac:(lia)) as [Hw Hr].
  split_and!; [|by rewrite Hw|exact Hr].
  vm_compute in Hrun. by injection Hrun as <-.
Defined.

(** C6: the record kept for a session is [collect] of that session's
    own outcome: the value it resolved with, or for a rejection a
    failed record with the rejection's message ("Unknown error" when it
    has none) and the test index.  A session that settles changes no
    other outcome, no result and not the phase; once all sessions of
    the wave have settled the join and the pause go through whatever
    the outcomes were; and a run in which the sessions settle with
    arbitrary outcomes ends with one record per session. *)
Theorem C6_failure_isolation (N P : nat) (evs : list event) (e : executor) :
  run evs (executeMulti N P) = Some e →
  (∀ i, i < completed e →
     ∃ s, outcomes e !! i = Some s ∧ results e !! i = Some (collect i s)) ∧
  (∀ i reason value,
     collect i (Fulfilled value) = value ∧
     success (collect i (Rejected reason)) = false ∧
     testIndex (collect i (Rejected reason)) = Some i ∧
     error (collect i (Rejected reason)) =
       Some match reason with
            | Some (String c message) => String c message
            | _ => "Unknown error"
            end) ∧
  (∀ i s e', step e (SessionSettles i s) = Some e' →
     outcomes e !! i = None ∧ outcomes e' !! i = Some s ∧
     (∀ j, j ≠ i → outcomes e' !! j = outcomes e !! j) ∧
     results e' = results e ∧ at_phase e' = at_phase e ∧
     started e' = started e ∧ isRunning e' = isRunning e) ∧
  (∀ b, at_phase e = InWave b →
     (∀ i, completed e ≤ i < b → is_Some (outcomes e !! i)) →
     ∃ e1 e2, step e AllSettled = Some e1 ∧ step e1 CooldownElapsed = Some e2 ∧
              at_phase e2 = LoopHead ∧ completed e2 = b ∧ length (results e2) = b ∧
              isRunning e2 = isRunning e) ∧
  (0 < P → ∀ outcome, ∃ e0,
     run (schedule N outcome N (Nat.min P N) 0) (executeMulti N P) = Some e0 ∧
     at_phase e0 = Finished ∧
     results e0 = (λ i, collect i (outcome i)) <$> seq 0 N).
Proof.
  intros Hrun.
  pose proof (exec_inv_run N P _ _ _ (exec_inv_init N P) Hrun) as Hinv.
  pose proof Hinv as (Hn & Hbs & Hle & Hlen & Hst & Hcat & Hshape & Hph & Hdom & Hres).
  split_and!.
  - exact Hres.
  - intros i reason value. split_and!; try done.
    all: destruct reason as [[|c message]|]; done.
  - intros i s e'. unfold step. destruct (at_phase e) eqn:Hphase; try done.
    case_bool_decide as Hi; [|done]. intros [= <-]. simpl.
    destruct Hi as [_ Hnone]. split_and!; try done.
    + by rewrite lookup_insert_eq.
    + intros j Hj. by rewrite lookup_insert_ne.
  - intros b Hphase Hall.
    assert (Hstep : ∃ e1, step e AllSettled = Some e1).
    { unfold step. rewrite Hphase, (proj2 (all_settled_spec e b) Hall). eauto. }
    destruct Hstep as [e1 Hstep]. exists e1.
    pose proof (exec_inv_step N P _ _ _ Hinv Hstep) as (_ & _ & _ & Hlen1 & _).
    assert (Hfields : at_phase e1 = Cooldown ∧ completed e1 = b ∧
                      isRunning e1 = isRunning e).
    { unfold step in Hstep.
      rewrite Hphase, (proj2 (all_settled_spec e b) Hall) in Hstep.
      by injection Hstep as <-. }
    destruct Hfields as (Hp1 & Hc1 & Hr1).
    unfold step at 2. rewrite Hp1. eexists. split_and!; try done; simpl; congruence.
  - intros HP outcome. destruct (complete_run outcome N P HP) as (e0 & ? & ? & ? & ? & ?).
    eauto.
Qed.

Lemma C6_failure_isolation_witness :
  ∃ e, run (schedule 6 mixed 6 3 0) (executeMulti 6 3) = Some e ∧
       results e = [collect 0 (passed 0);
                    {| success := false;
                       error := Some "Browser setup failed: launch timeout";
                       testIndex := Some 1; sessionId := None; totalTime := 0 |};
                    collect 2 (passed 2); collect 3 (passed 3);
                    collect 4 (mixed 4); collect 5 (passed 5)] ∧
       waves e = [[0; 1; 2]; [3; 4; 5]] ∧
       ∀ i, i < completed e →
         ∃ s, outcomes e !! i = Some s ∧ results e !! i = Some (collect i s).
Proof.
  destruct (run (schedule 6 mixed 6 3 0) (executeMulti 6 3)) as [e|] eqn:Hrun;
    [|vm_compute in Hrun; discriminate Hrun].
  exists e. split; [reflexivity|].
  destruct (C6_failure_isolation 6 3 _ e Hrun) as (Hown & _).
  split_and!; [| |exact Hown];
    vm_compute in Hrun; injection Hrun as <-; vm_compute; reflexivity.
Defined.

(** C7, counterexample: [stop()] is called on an executor whose run of
    10 tests, 3 at a time, has not reached its loop.  The call of
    [executeMulti] sets the flag again on its way to the loop, and the
    first wave starts although the flag had been cleared. *)
Lemma C7_stop_before_the_loop :
  ¬ (∀ (evs : list event) (e : executor),
       run (Stop :: evs) (executeMulti 10 3) = Some e → waves e = []).
Proof.
  intros H. specialize (H [LoopTest]). vm_compute in H.
  specialize (H _ eq_refl). discriminate H.
Qed.

(** C7 (amended): [stop()] clears [isRunning] and changes nothing
    else; the flag is read by the loop test only, the other steps are
    taken or refused as without it, so the sessions in flight settle
    and the join still waits for all of them.  From a call made once
    the run is in its loop, no session is started, and the next loop
    test leaves the loop.  A call made before that is undone when the
    run sets the flag on its way to the loop: the first loop test is
    what it would have been.  When the loop is left, [Summary.total] is
    the number of sessions started, which is at most [count]. *)
Theorem C7_cooperative_stop (N P : nat) (evs : list event) (e : executor) :
  run evs (executeMulti N P) = Some e →
  step e Stop = Some (stop e) ∧
  isRunning (stop e) = false ∧
  (at_phase (stop e), outcomes (stop e), results (stop e), started (stop e),
   waves (stop e), completed (stop e))
  = (at_phase e, outcomes e, results e, started e, waves e, completed e) ∧
  (∀ ev, ev ≠ LoopTest → step (stop e) ev = stop <$> step e ev) ∧
  (∀ b e', at_phase e = InWave b → step (stop e) AllSettled = Some e' →
     ∀ i, i ∈ started e → is_Some (outcomes e !! i)) ∧
  (at_phase e ≠ Called →
   ∀ evs' e', run evs' (stop e) = Some e' →
     isRunning e' = false ∧ started e' = started e ∧ waves e' = waves e) ∧
  (at_phase e = LoopHead →
     ∃ e', step (stop e) LoopTest = Some e' ∧ at_phase e' = Finished ∧
           results e' = results e) ∧
  (at_phase e = Called → step (stop e) LoopTest = step e LoopTest) ∧
  (∀ r, returned e = Some r →
     total (rep_summary r) = length (started e) ∧ length (started e) ≤ N).
Proof.
  intros Hrun.
  pose proof (exec_inv_run N P _ _ _ (exec_inv_init N P) Hrun) as Hinv.
  pose proof Hinv as (Hn & Hbs & Hle & Hlen & Hst & Hcat & Hshape & Hph & Hdom & Hres).
  split_and!; try done.
  - intros ev Hev. unfold step, stop; simpl.
    destruct ev, (at_phase e); try done; simpl.
    + unfold all_settled, batch; simpl. by case_bool_decide.
    + unfold all_settled, batch; simpl.
      by destruct (forallb _ _).
  - intros b e' Hphase Hstep.
    assert (Hstep' : is_Some (step e AllSettled)).
    { unfold step in *. simpl in Hstep. rewrite Hphase in *.
      unfold all_settled, batch in *; simpl in *. destruct (forallb _ _); eauto. }
    destruct Hstep' as [e1 Hstep1].
    by destruct (join_waits_for_all N P evs e e1 b Hrun Hphase Hstep1).
  - intros Hphase evs' e' Hrun'. by apply (run_stopped evs' (stop e) e').
  - intros Hphase. unfold step, stop, loop_test; simpl. rewrite Hphase, andb_false_r.
    eexists. split_and!; done.
  - intros Hphase. unfold step, stop; simpl. by rewrite Hphase.
  - intros r. unfold returned. destruct (at_phase e) eqn:Hphase; try done.
    intros [= <-]. simpl. unfold frontier in Hst. rewrite Hphase in Hst.
    rewrite Hst, length_seq. split; [done|lia].
Qed.

Lemma C7_cooperative_stop_witness :
  ∃ e r, run stopped_mid_wave (executeMulti 10 3) = Some e ∧
         returned e = Some r ∧
         started e = [0; 1; 2; 3; 4; 5] ∧
         total (rep_summary r) = length (started e) ∧
         total (rep_summary r) = 6 ∧
         length (started e) ≤ 10.
Proof.
  assert (Hrun : ∃ e, run stopped_mid_wave (executeMulti 10 3) = Some e ∧
                      is_Some (returned e) ∧ started e = [0; 1; 2; 3; 4; 5]).
  { eexists. split; [vm_compute; reflexivity|].
    split; [eexists|]; vm_compute; reflexivity. }
  destruct Hrun as (e & Hrun & [r Hr] & Hst). exists e, r.
  destruct (C7_cooperative_stop 10 3 _ e Hrun) as (_ & _ & _ & _ & _ & _ & _ & _ & Htotal).
  destruct (Htotal r Hr) as [Ht Hle].
  split_and!; [exact Hrun | exact Hr | exact Hst | exact Ht | | exact Hle].
  rewrite Ht, Hst. reflexivity.
Defined.

End ExecutorClaims.

Section WaitingPageFacts.
Import WaitingPage.
Local Open Scope Z_scope.

Lemma waitInterval_bounds (info : waitingInfo) : 1000 ≤ waitInterval info ≤ 30000.
Proof. unfold waitInterval. destruct (0 <? estimatedTime info) eqn:E; lia. Qed.

(** The loop of [waitForCompletion], as the source reads. *)
Lemma waitLoop_eq (pg : browser_page) (maxWaitTime : Z) (k : nat) (elapsed : Z)
    (lastWaitingInfo : option waitingInfo) :
  waitLoop pg maxWaitTime k elapsed lastWaitingInfo =
  if decide (elapsed < maxWaitTime) then
    match look pg k with
    | Clear took =>
      {| answer := Passed; finishedAt := elapsed + Z.of_N took; effects := [Checked false] |}
    | Queue took info =>
      match sleep pg k with
      | Slept =>
        prepend (Checked true :: status lastWaitingInfo info ++ [Waited (waitInterval info)])
          (waitLoop pg maxWaitTime (S k) (elapsed + Z.of_N took + waitInterval info)
             (Some info))
      | Interrupted None =>
        prepend (Checked true :: status lastWaitingInfo info ++ [Waited 5000])
          (waitLoop pg maxWaitTime (S k) (elapsed + Z.of_N took + 5000) (Some info))
      | Interrupted (Some message) =>
        {| answer := Crashed message; finishedAt := elapsed + Z.of_N took;
           effects := Checked true :: status lastWaitingInfo info |}
      end
    end
  else {| answer := TimedOut; finishedAt := elapsed; effects := [] |}.
Proof.
  rewrite waitLoop_equation_1.
  destruct (Z_lt_dec elapsed maxWaitTime); simpl.
  - rewrite decide_True by done. destruct (look pg k); simpl; [done|].
    destruct (sleep pg k) as [|[m|]]; done.
  - by rewrite decide_False.
Qed.

(** If the loop makes a look and the look finds no waiting page, the
    answer is true at once and nothing is slept. *)
Lemma waitForCompletion_first_check (pg : browser_page) (maxWaitTime : Z) :
  head (checks (waitForCompletion pg maxWaitTime)) = Some false →
  0 < maxWaitTime ∧ (∃ took, look pg 0%nat = Clear took ∧
    waitForCompletion pg maxWaitTime =
      {| answer := Passed; finishedAt := Z.of_N took; effects := [Checked false] |}).
Proof.
  unfold waitForCompletion. rewrite waitLoop_eq. case_decide as Hlt; [|done].
  destruct (look pg 0%nat) as [took|took info]; [eauto|].
  destruct (sleep pg 0%nat) as [|[m|]]; done.
Qed.

Lemma waitForCompletion_clear (pg : browser_page) (maxWaitTime : Z) (took : N) :
  0 < maxWaitTime → look pg 0%nat = Clear took →
  waitForCompletion pg maxWaitTime =
    {| answer := Passed; finishedAt := Z.of_N took; effects := [Checked false] |}.
Proof.
  intros Hpos Hlook. unfold waitForCompletion.
  rewrite waitLoop_eq, decide_True, Hlook by done. done.
Qed.

Lemma checks_prepend (es : list effect) (c : completion) :
  checks (prepend es c) =
  omap (λ e, match e with Checked b => Some b | _ => None end) es ++ checks c.
Proof. unfold checks, prepend; cbn [effects]. apply omap_app. Qed.

Lemma sleeps_prepend (es : list effect) (c : completion) :
  sleeps (prepend es c) =
  omap (λ e, match e with Waited ms => Some ms | _ => None end) es ++ sleeps c.
Proof. unfold sleeps, prepend; cbn [effects]. apply omap_app. Qed.

Lemma checks_of_turn (lastWaitingInfo : option waitingInfo) (info : waitingInfo) (ms : Z) :
  omap (λ e, match e with Checked b => Some b | _ => None end)
       (Checked true :: status lastWaitingInfo info ++ [Waited ms]) = [true].
Proof. unfold status. by case_decide. Qed.

Lemma sleeps_of_turn (lastWaitingInfo : option waitingInfo) (info : waitingInfo) (ms : Z) :
  omap (λ e, match e with Waited t => Some t | _ => None end)
       (Checked true :: status lastWaitingInfo info ++ [Waited ms]) = [ms].
Proof. unfold status. by case_decide. Qed.

Lemma looks_time_cons (pg : browser_page) (from n : nat) :
  looks_time pg from (S n) = look_time pg from + looks_time pg (S from) n.
Proof. reflexivity. Qed.

(** The time at which the loop answers is the time it began with, the
    time of the looks it made and the time of the sleeps it made. *)
Lemma waitLoop_ledger (pg : browser_page) (maxWaitTime : Z) :
  ∀ (n : nat) (k : nat) (elapsed : Z) (lastWaitingInfo : option waitingInfo),
    Z.to_nat (maxWaitTime - elapsed) = n →
    let c := waitLoop pg maxWaitTime k elapsed lastWaitingInfo in
    finishedAt c = elapsed + looks_time pg k (length (checks c)) + foldr Z.add 0 (sleeps c).
Proof.
  induction n as [n IH] using lt_wf_ind.
  intros k elapsed lastWaitingInfo Hn. cbn zeta.
  rewrite waitLoop_eq. case_decide as Hlt; [|cbn; lia].
  unfold look_time.
  destruct (look pg k) as [took|took info] eqn:Hlook.
  { cbn. unfold look_time. rewrite Hlook. lia. }
  pose proof (waitInterval_bounds info) as Hi.
  pose proof (N2Z.is_nonneg took) as Hnn.
  assert (Hturn : ∀ ms, 1000 ≤ ms →
    let c' := waitLoop pg maxWaitTime (S k) (elapsed + Z.of_N took + ms) (Some info) in
    let c := prepend (Checked true :: status lastWaitingInfo info ++ [Waited ms]) c' in
    finishedAt c = elapsed + looks_time pg k (length (checks c)) + foldr Z.add 0 (sleeps c)).
  { intros ms Hms c' c. subst c.
    rewrite checks_prepend, sleeps_prepend, checks_of_turn, sleeps_of_turn.
    cbn [app length foldr prepend finishedAt]. rewrite looks_time_cons.
    unfold look_time at 1. rewrite Hlook. subst c'.
    rewrite (IH (Z.to_nat (maxWaitTime - (elapsed + Z.of_N took + ms))) ltac:(lia)
               (S k) (elapsed + Z.of_N took + ms) (Some info) eq_refl).
    lia. }
  destruct (sleep pg k) as [|[message|]].
  - apply Hturn. lia.
  - unfold checks, sleeps, status; cbn [effects finishedAt].
    case_decide; cbn; unfold look_time; rewrite Hlook; lia.
  - apply Hturn. lia.
Qed.

(** While the detector keeps answering "waiting", the loop ends with
    [false], not before [maxWaitTime] has elapsed and less than one
    look and one sleep after it. *)
Lemma waitLoop_times_out (pg : browser_page) (maxWaitTime d : Z) :
  always_waiting pg d → pauses_recover pg →
  ∀ (n : nat) (k : nat) (elapsed : Z) (lastWaitingInfo : option waitingInfo),
    Z.to_nat (maxWaitTime - elapsed) = n →
    ∃ m, timed_out_after pg maxWaitTime d k elapsed
           (waitLoop pg maxWaitTime k elapsed lastWaitingInfo) m.
Proof.
  intros Hw Hp n. induction n as [n IH] using lt_wf_ind.
  intros k elapsed lastWaitingInfo Hn.
  rewrite waitLoop_eq. case_decide as Hlt.
  2: { exists 0%nat. unfold timed_out_after, checks, sleeps; cbn.
       split_and!; try done; try lia. intros ms Hms. by apply elem_of_nil in Hms. }
  destruct (Hw k) as (took & info & -> & Htook).
  pose proof (waitInterval_bounds info) as Hi.
  pose proof (N2Z.is_nonneg took) as Hnn.
  assert (Hturn : ∀ ms, 1000 ≤ ms ≤ 30000 →
    ∃ m, timed_out_after pg maxWaitTime d k elapsed
           (prepend (Checked true :: status lastWaitingInfo info ++ [Waited ms])
              (waitLoop pg maxWaitTime (S k) (elapsed + Z.of_N took + ms) (Some info))) m).
  { intros ms Hms.
    destruct (IH (Z.to_nat (maxWaitTime - (elapsed + Z.of_N took + ms))) ltac:(lia)
                (S k) (elapsed + Z.of_N took + ms) (Some info) eq_refl)
      as (m & Ha & Hc & Hs & Hb & Hge & Hel & Hlast).
    exists (S m). unfold timed_out_after.
    rewrite checks_prepend, sleeps_prepend, checks_of_turn, sleeps_of_turn.
    cbn [prepend answer finishedAt app length replicate].
    split_and!; try done; try lia.
    - by rewrite Hc.
    - intros t [->|Ht]%elem_of_cons; [lia|by apply Hb].
    - intros _. split; [lia|].
      destruct (decide (elapsed + Z.of_N took + ms < maxWaitTime)) as [Hmore|Hdone].
      + by apply Hlast.
      + revert Hge Hel. rewrite waitLoop_eq, decide_False by done. cbn. lia. }
  destruct (sleep pg k) as [|[message|]] eqn:Hsleep.
  - apply Hturn. lia.
  - by destruct (Hp k message).
  - apply Hturn. lia.
Qed.

Lemma statuses_prepend (es : list effect) (c : completion) :
  statuses (prepend es c) =
  omap (λ e, match e with Status info => Some info | _ => None end) es ++ statuses c.
Proof. unfold statuses, prepend; cbn [effects]. apply omap_app. Qed.

Lemma waitingPolls_prepend (es : list effect) (c : completion) :
  waitingPolls (prepend es c) =
  (length (omap (λ e, match e with Checked true => Some () | _ => None end) es)
   + waitingPolls c)%nat.
Proof. unfold waitingPolls, prepend; cbn [effects]. by rewrite omap_app, length_app. Qed.

Lemma statuses_of_turn (lastWaitingInfo : option waitingInfo) (info : waitingInfo) (ms : Z) :
  omap (λ e, match e with Status i => Some i | _ => None end)
       (Checked true :: status lastWaitingInfo info ++ [Waited ms]) =
  if decide (Some info = lastWaitingInfo) then [] else [info].
Proof. unfold status. by case_decide. Qed.

Lemma waitingPolls_of_turn (lastWaitingInfo : option waitingInfo) (info : waitingInfo)
    (ms : Z) :
  omap (λ e, match e with Checked true => Some () | _ => None end)
       (Checked true :: status lastWaitingInfo info ++ [Waited ms]) = [()].
Proof. unfold status. by case_decide. Qed.

(** The status lines of the loop are the readings that differ from
    the one before. *)
Lemma waitLoop_statuses (pg : browser_page) (maxWaitTime : Z) :
  ∀ (n : nat) (k : nat) (elapsed : Z) (lastWaitingInfo : option waitingInfo),
    Z.to_nat (maxWaitTime - elapsed) = n →
    let c := waitLoop pg maxWaitTime k elapsed lastWaitingInfo in
    ∃ infos,
      statuses c = changes lastWaitingInfo infos ∧
      length infos = waitingPolls c ∧
      ∀ j info, infos !! j = Some info → ∃ took, look pg (k + j)%nat = Queue took info.
Proof.
  induction n as [n IH] using lt_wf_ind.
  intros k elapsed lastWaitingInfo Hn. simpl.
  rewrite waitLoop_eq. case_decide as Hlt; [|by exists []].
  destruct (look pg k) as [took|took info] eqn:Hlook; [by exists []|].
  pose proof (waitInterval_bounds info) as Hi.
  pose proof (N2Z.is_nonneg took) as Hnn.
  assert (Hhead : ∀ c' ms infos,
    statuses c' = changes (Some info) infos →
    length infos = waitingPolls c' →
    (∀ j i, infos !! j = Some i → ∃ t, look pg (S k + j)%nat = Queue t i) →
    ∃ infos',
      statuses (prepend (Checked true :: status lastWaitingInfo info ++ [Waited ms]) c')
        = changes lastWaitingInfo infos' ∧
      length infos' =
        waitingPolls (prepend (Checked true :: status lastWaitingInfo info ++ [Waited ms]) c') ∧
      ∀ j i, infos' !! j = Some i → ∃ t, look pg (k + j)%nat = Queue t i).
  { intros c' ms infos Hs Hl Hq. exists (info :: infos). split_and!.
    - rewrite statuses_prepend, statuses_of_turn, Hs. done.
    - rewrite waitingPolls_prepend, waitingPolls_of_turn. simpl. by rewrite Hl.
    - intros [|j] i; simpl.
      + intros [= <-]. rewrite Nat.add_0_r. eauto.
      + intros Hj. destruct (Hq j i Hj) as [t Ht]. exists t. rewrite <- Ht. f_equal. lia. }
  destruct (sleep pg k) as [|[m|]].
  - destruct (IH (Z.to_nat (maxWaitTime - (elapsed + Z.of_N took + waitInterval info)))
                ltac:(lia) (S k) (elapsed + Z.of_N took + waitInterval info) (Some info)
                eq_refl) as (infos & Hs & Hl & Hq).
    eauto.
  - exists [info]. unfold statuses, waitingPolls, status; simpl. split_and!.
    + by case_decide.
    + by case_decide.
    + intros [|j] i; simpl; [|done]. intros [= <-]. rewrite Nat.add_0_r. eauto.
  - destruct (IH (Z.to_nat (maxWaitTime - (elapsed + Z.of_N took + 5000)))
                ltac:(lia) (S k) (elapsed + Z.of_N took + 5000) (Some info)
                eq_refl) as (infos & Hs & Hl & Hq).
    eauto.
Qed.

End WaitingPageFacts.

Section FlowFacts.
Import WaitingPage FlowManager.
Local Open Scope Z_scope.

Lemma updateSessionStep_waiting_view (id step : string) (now : Z)
    (m : ConcurrentMonitor.monitor) :
  waiting_view (ConcurrentMonitor.updateSessionStep id step now m) = waiting_view m.
Proof.
  unfold ConcurrentMonitor.updateSessionStep.
  destruct (ConcurrentMonitor.sessions m !! id); [|done].
  unfold waiting_view; simpl. by rewrite omap_app, app_nil_r.
Qed.

Lemma recordError_waiting_view (id step : string) (error : ConcurrentMonitor.error_value)
    (now : Z) (m : ConcurrentMonitor.monitor) :
  waiting_view (ConcurrentMonitor.recordError id step error now m).1 = waiting_view m.
Proof.
  unfold ConcurrentMonitor.recordError.
  destruct (ConcurrentMonitor.sessions m !! id); [|done].
  destruct (ConcurrentMonitor.message_or_error error); [done|].
  unfold waiting_view; simpl. by rewrite omap_app, app_nil_r.
Qed.

(** An [Error] with a message is recorded without an exception. *)
Lemma recordError_returns (id step message : string) (now : Z)
    (m : ConcurrentMonitor.monitor) :
  JsString.truthy message = true →
  (ConcurrentMonitor.recordError id step (ConcurrentMonitor.ErrorObject message) now m).2
  = None.
Proof.
  intros Ht. unfold ConcurrentMonitor.recordError.
  destruct (ConcurrentMonitor.sessions m !! id); [|done].
  unfold ConcurrentMonitor.message_or_error. by rewrite Ht.
Qed.

Lemma report_error_returns (st : step) (message : string) (now : Z) (f : flow) :
  JsString.truthy message = true → (report_error st message now f).1 = None.
Proof.
  intros Ht. unfold report_error. destruct (monitor f) as [m|]; [|done].
  pose proof (recordError_returns (sessionId f) (monitorStep st) message now m Ht) as Hr.
  by destruct (ConcurrentMonitor.recordError _ _ _ _ _) as [m1 thrown].
Qed.

Lemma report_error_waiting_view (st : step) (message : string) (now : Z) (f : flow) :
  same_waiting_view (monitor (report_error st message now f).2) (monitor f) ∧
  sessionId (report_error st message now f).2 = sessionId f.
Proof.
  unfold report_error, same_waiting_view.
  destruct (monitor f) as [m|] eqn:Hm; [|cbn; by rewrite Hm].
  pose proof (recordError_waiting_view (sessionId f) (monitorStep st)
                (ConcurrentMonitor.ErrorObject message) now m) as Hv.
  destruct (ConcurrentMonitor.recordError _ _ _ _ _) as [m1 thrown].
  cbn in *. by rewrite Hv.
Qed.

(** The waiting-page handler has no access to the monitor. *)
Lemma handleWaitingPage_monitor (s : site) (f : flow) :
  monitor (_handleWaitingPageIfPresent s f).2 = monitor f ∧
  sessionId (_handleWaitingPageIfPresent s f).2 = sessionId f.
Proof.
  unfold _handleWaitingPageIfPresent.
  by destruct (answer (handleWaitingIfPresent _ _)).
Qed.

Lemma run_script_monitor (s : site) (instrs : list instruction) :
  ∀ f, monitor (run_script s instrs f).2 = monitor f ∧
       sessionId (run_script s instrs f).2 = sessionId f.
Proof.
  induction instrs as [|[label|] rest IH]; intros f; simpl; [done| |].
  - destruct (works s label); [done | apply IH].
  - destruct (_handleWaitingPageIfPresent s f) as [r f1] eqn:E.
    pose proof (handleWaitingPage_monitor s f) as [Hm Hs]. rewrite E in Hm, Hs. simpl in *.
    destruct r; simpl; [done|]. destruct (IH f1) as [? ?]. split; congruence.
Qed.

Lemma run_step_waiting_view (s : site) (now : Z) (st : step) (f : flow) :
  same_waiting_view (monitor (run_step s now st f).2) (monitor f) ∧
  sessionId (run_step s now st f).2 = sessionId f.
Proof.
  unfold run_step, same_waiting_view.
  destruct (run_script s (script st) _) as [r f1] eqn:E.
  pose proof (run_script_monitor s (script st)
    (with_monitor (ConcurrentMonitor.updateSessionStep (sessionId f) (monitorStep st) now) f))
    as [Hm Hs].
  rewrite E in Hm, Hs. simpl in Hm, Hs.
  assert (Hupd : waiting_view <$> monitor f1 = waiting_view <$> monitor f).
  { rewrite Hm. destruct (monitor f); [|done]. cbn.
    by rewrite updateSessionStep_waiting_view. }
  destruct r as [message|]; [|done].
  pose proof (report_error_waiting_view st message now f1) as [Hv Hid].
  destruct (report_error st message now f1) as [thrown f2]. cbn in *.
  unfold same_waiting_view in Hv. split; congruence.
Qed.

Lemma run_steps_waiting_view (s : site) (now : Z) (sts : list step) :
  ∀ f, same_waiting_view (monitor (run_steps s now sts f).2) (monitor f).
Proof.
  induction sts as [|st rest IH]; intros f; simpl; [done|].
  destruct (run_step s now st f) as [r f1] eqn:E.
  pose proof (run_step_waiting_view s now st f) as [Hv _]. rewrite E in Hv. simpl in Hv.
  destruct r; simpl; [done|]. unfold same_waiting_view in *. by rewrite IH.
Qed.

Lemma executeFullFlow_waiting_view (s : site) (now : Z) (f : flow) :
  same_waiting_view (monitor (executeFullFlow s now f)) (monitor f).
Proof.
  unfold executeFullFlow. destruct (run_steps s now steps f) as [r f1] eqn:E.
  pose proof (run_steps_waiting_view s now steps f) as Hv. rewrite E in Hv.
  by destruct r.
Qed.

(** An exception of a step is caught by [executeFullFlow]. *)
Lemma executeFullFlow_catches (s : site) (now : Z) (f : flow) (message : string) :
  (run_steps s now steps f).1 = inl message →
  success (executeFullFlow s now f) = false ∧
  last (errors (executeFullFlow s now f)) =
    Some {| fe_step := "flow-execution"; fe_message := message |}.
Proof.
  unfold executeFullFlow. destruct (run_steps s now steps f) as [r f1].
  simpl. intros ->. simpl. by rewrite last_snoc.
Qed.

Lemma handleWaitingPage_timeout (s : site) (f : flow) :
  answer (handleWaitingIfPresent (waitingPages s (handled f)) defaultMaxWaitTime) = TimedOut →
  (_handleWaitingPageIfPresent s f).1 = inl "Failed to pass through waiting page".
Proof. intros Ht. unfold _handleWaitingPageIfPresent. by rewrite Ht. Qed.

(** The first waiting check of the flow does not pass. *)
Lemma first_check_fails (pages : nat → browser_page) (now : Z) (f : flow) :
  answer (handleWaitingIfPresent (pages (handled f)) defaultMaxWaitTime) = TimedOut →
  (run_steps (calm pages) now steps f).1 =
    inl "Course selection failed: Failed to pass through waiting page".
Proof.
  intros Ht.
  set (f0 := with_monitor
    (ConcurrentMonitor.updateSessionStep (sessionId f) "step1-course" now) f).
  assert (Hh : (_handleWaitingPageIfPresent (calm pages) f0).1 =
               inl "Failed to pass through waiting page")
    by (apply handleWaitingPage_timeout; exact Ht).
  assert (Hstep : (run_step (calm pages) now _step1_SelectCourse f).1 =
                  inl "Course selection failed: Failed to pass through waiting page").
  { unfold run_step. cbn [script _step1_SelectCourse monitorStep failurePrefix].
    fold f0. cbn [run_script works calm].
    destruct (_handleWaitingPageIfPresent (calm pages) f0) as [r f1].
    simpl in Hh. subst r.
    pose proof (report_error_returns _step1_SelectCourse
                  "Failed to pass through waiting page" now f1 eq_refl) as Hret.
    destruct (report_error _ _ now f1) as [thrown f2]. cbn in Hret. subst thrown.
    reflexivity. }
  unfold steps. cbn [run_steps].
  destruct (run_step (calm pages) now _step1_SelectCourse f) as [r f1].
  simpl in Hstep. subst r. reflexivity.
Qed.

Lemma waitForCompletion_times_out (pg : browser_page) (maxWaitTime d : Z) :
  always_waiting pg d → pauses_recover pg →
  ∃ m, timed_out_after pg maxWaitTime d 0 0 (waitForCompletion pg maxWaitTime) m.
Proof.
  intros Hw Hp. unfold waitForCompletion.
  exact (waitLoop_times_out pg maxWaitTime d Hw Hp _ 0%nat 0 None eq_refl).
Qed.

(** C5, counterexample: the page shows the queue at every look, and
    the browser is gone, so that the sleep of the first turn throws and
    the 5000 ms of the [catch] throw as well.  [waitForCompletion] is
    then rejected with that error; it does not answer false. *)
Lemma C5_closed_page_counterexample :
  ¬ (always_waiting closed_queue 200 →
     answer (waitForCompletion closed_queue 300000) = TimedOut).
Proof.
  intros H.
  assert (Hw : always_waiting closed_queue 200).
  { intros k. eexists _, _. split; [reflexivity|done]. }
  specialize (H Hw). vm_compute in H. discriminate H.
Qed.

(** C5 (amended): when the first look of [waitForCompletion] finds no
    waiting page the answer is true, with that look as the only effect
    and no sleep; for a positive ceiling this is the case whenever the
    page is clear.  The time at which the call answers is the time of
    the looks it made and of the sleeps it made, whatever the page
    does.  When every look finds the waiting page, and in no turn both
    the sleep and the 5000 ms of the [catch] throw, the answer is false:
    every look made has found the waiting page and was followed by one
    sleep of 1000 to 30000 ms, at least one look was made if the ceiling
    is positive, and the answer comes not before [maxWaitTime] has
    elapsed and less than one poll (a look of at most [d] ms and a sleep
    of at most 30000 ms) after it; the default ceiling is 300000 ms.
    In the flow, a waiting check that answers false becomes the error
    "Failed to pass through waiting page", which [executeFullFlow]
    catches, as it catches every error of a step: it returns an
    unsuccessful result carrying the message. *)
Theorem C5_queue_wait (pg : browser_page) (maxWaitTime : Z) :
  (head (checks (waitForCompletion pg maxWaitTime)) = Some false →
     answer (waitForCompletion pg maxWaitTime) = Passed ∧
     sleeps (waitForCompletion pg maxWaitTime) = [] ∧
     effects (waitForCompletion pg maxWaitTime) = [Checked false]) ∧
  (∀ took, 0 < maxWaitTime → look pg 0%nat = Clear took →
     waitForCompletion pg maxWaitTime =
       {| answer := Passed; finishedAt := Z.of_N took; effects := [Checked false] |}) ∧
  finishedAt (waitForCompletion pg maxWaitTime) =
    looks_time pg 0 (length (checks (waitForCompletion pg maxWaitTime))) +
    foldr Z.add 0 (sleeps (waitForCompletion pg maxWaitTime)) ∧
  (∀ d, always_waiting pg d → pauses_recover pg →
     answer (waitForCompletion pg maxWaitTime) = TimedOut ∧
     Z.max 0 maxWaitTime ≤ finishedAt (waitForCompletion pg maxWaitTime)
       < Z.max 0 maxWaitTime + d + 30000 ∧
     ∃ m : nat,
       checks (waitForCompletion pg maxWaitTime) = replicate m true ∧
       length (sleeps (waitForCompletion pg maxWaitTime)) = m ∧
       (∀ ms, ms ∈ sleeps (waitForCompletion pg maxWaitTime) → 1000 ≤ ms ≤ 30000) ∧
       (0 < maxWaitTime → (0 < m)%nat)) ∧
  (defaultMaxWaitTime = 300000 ∧ defaultMaxWaitTime = 5 * 60 * 1000) ∧
  (∀ (s : site) (f : flow),
     answer (handleWaitingIfPresent (waitingPages s (handled f)) defaultMaxWaitTime)
       = TimedOut →
     (_handleWaitingPageIfPresent s f).1 = inl "Failed to pass through waiting page") ∧
  (∀ (s : site) (now : Z) (f : flow) (message : string),
     (run_steps s now steps f).1 = inl message →
     success (executeFullFlow s now f) = false ∧
     last (errors (executeFullFlow s now f)) =
       Some {| fe_step := "flow-execution"; fe_message := message |}) ∧
  (∀ (pages : nat → browser_page) (now : Z) (f : flow),
     answer (handleWaitingIfPresent (pages (handled f)) defaultMaxWaitTime) = TimedOut →
     success (executeFullFlow (calm pages) now f) = false ∧
     last (errors (executeFullFlow (calm pages) now f)) =
       Some {| fe_step := "flow-execution";
               fe_message := "Course selection failed: Failed to pass through waiting page" |}).
Proof.
  split_and!.
  - intros Hhead.
    destruct (waitForCompletion_first_check pg maxWaitTime Hhead) as (_ & took & _ & ->).
    done.
  - intros took. apply waitForCompletion_clear.
  - pose proof (waitLoop_ledger pg maxWaitTime _ 0%nat 0 None eq_refl) as Hl.
    cbn zeta in Hl. fold (waitForCompletion pg maxWaitTime) in Hl. lia.
  - intros d Hw Hp.
    destruct (waitForCompletion_times_out pg maxWaitTime d Hw Hp)
      as (m & Ha & Hc & Hs & Hb & Hge & Hel & Hlast).
    destruct (Hw 0%nat) as (took & info & _ & Htook).
    pose proof (N2Z.is_nonneg took) as Hnn.
    split; [done|]. split.
    + destruct (decide (0 < maxWaitTime)) as [Hpos|Hneg]; [specialize (Hlast Hpos); lia|].
      revert Hge Hel. unfold waitForCompletion.
      rewrite waitLoop_eq, decide_False by done. cbn. lia.
    + exists m. split_and!; [done..|]. intros Hpos. by apply Hlast.
  - done.
  - done.
  - apply handleWaitingPage_timeout.
  - apply executeFullFlow_catches.
  - intros pages now f Ht. apply executeFullFlow_catches. by apply first_check_fails.
Qed.

Lemma endless_queue_always_waiting : always_waiting endless_queue 200.
Proof. intros k. eexists _, _. split; [reflexivity|done]. Qed.

Lemma endless_queue_recovers : pauses_recover endless_queue.
Proof. intros k message. done. Qed.

Lemma C5_queue_wait_witness :
  (answer (waitForCompletion (queue_then_clear 0) 300000) = Passed ∧
   sleeps (waitForCompletion (queue_then_clear 0) 300000) = [] ∧
   effects (waitForCompletion (queue_then_clear 0) 300000) = [Checked false]) ∧
  (answer (waitForCompletion endless_queue 300000) = TimedOut ∧
   300000 ≤ finishedAt (waitForCompletion endless_queue 300000) < 300000 + 200 + 30000 ∧
   ∃ m : nat,
     checks (waitForCompletion endless_queue 300000) = replicate m true ∧
     length (sleeps (waitForCompletion endless_queue 300000)) = m ∧
     (∀ ms, ms ∈ sleeps (waitForCompletion endless_queue 300000) → 1000 ≤ ms ≤ 30000) ∧
     (0 < 300000 → (0 < m)%nat)) ∧
  (success (executeFullFlow (calm (λ _, endless_queue)) 0 (new_flow "test-1" None)) = false ∧
   last (errors (executeFullFlow (calm (λ _, endless_queue)) 0 (new_flow "test-1" None))) =
     Some {| fe_step := "flow-execution";
             fe_message := "Course selection failed: Failed to pass through waiting page" |}).
Proof.
  pose proof (C5_queue_wait (queue_then_clear 0) 300000) as (Hfirst & _).
  pose proof (C5_queue_wait endless_queue 300000)
    as (_ & _ & _ & Hqueue & _ & _ & _ & Hflow).
  split; [apply Hfirst; vm_compute; reflexivity|].
  split; [exact (Hqueue 200 endless_queue_always_waiting endless_queue_recovers)|].
  apply Hflow. vm_compute. reflexivity.
Defined.

(** C9 (the code departs from the claim): a registered, started
    session meets a queue that lasts three looks of its first waiting
    check.  The flow succeeds; three looks have found the waiting page
    and read the queue position and the estimated wait; and the
    monitor's waiting counters, its average wait and its WAITING_PAGE
    lines are what they were before the flow, with no encounter
    counted: no observation has reached it.  [recordWaitingPage] is
    there to take them, but [_handleWaitingPageIfPresent] builds the
    [WaitingPage] from the page and the session id alone. *)
Theorem C9_monitor_receives_nothing :
  let m := ConcurrentMonitor.startSession "test-1" 1
             (ConcurrentMonitor.registerSession "test-1" (ConcurrentMonitor.with_index 1) 0
                ConcurrentMonitor.new_monitor) in
  let pages := λ n : nat, match n with O => queue_then_clear 3 | _ => queue_then_clear 0 end in
  let f := executeFullFlow (calm pages) 2 (new_flow "test-1" (Some m)) in
  success f = true ∧ waiting_looks f = 3%nat ∧
  ∃ m', monitor f = Some m' ∧
        waiting_view m' = waiting_view m ∧
        ConcurrentMonitor.waitingPageEncounters (ConcurrentMonitor.m_stats m') = 0 ∧
        ConcurrentMonitor.waiting (ConcurrentMonitor.m_stats m') = 0 ∧
        ConcurrentMonitor.sessions m' !! "test-1" ≫=
          (λ s, Some (ConcurrentMonitor.waitingEncountered s)) = Some false.
Proof.
  intros m pages f.
  split; [vm_compute; reflexivity|]. split; [vm_compute; reflexivity|].
  eexists. split; [vm_compute; reflexivity|].
  split_and!; vm_compute; reflexivity.
Qed.

(** X29: the status lines of [waitForCompletion].  Every look that
    finds the waiting page reads the queue position and the estimated
    wait, and a status line with the reading goes to the handler's own
    log exactly when the reading differs from the one before, so always
    at the first such look: when the ceiling is positive and the first
    look finds the waiting page, the first status line carries its
    reading.  Whatever the waiting pages do, a whole flow
    leaves the monitor's waiting counters, its average wait and its
    WAITING_PAGE log lines as they were. *)
Theorem status_lines_on_change (pg : browser_page) (maxWaitTime : Z) :
  (∃ infos,
     statuses (waitForCompletion pg maxWaitTime) = changes None infos ∧
     length infos = waitingPolls (waitForCompletion pg maxWaitTime) ∧
     (∀ j info, infos !! j = Some info → ∃ took, look pg j = Queue took info) ∧
     head (statuses (waitForCompletion pg maxWaitTime)) = head infos) ∧
  (∀ took info, 0 < maxWaitTime → look pg 0%nat = Queue took info →
     (0 < waitingPolls (waitForCompletion pg maxWaitTime))%nat ∧
     head (statuses (waitForCompletion pg maxWaitTime)) = Some info) ∧
  (∀ (s : site) (now : Z) (f : flow),
     same_waiting_view (monitor (executeFullFlow s now f)) (monitor f)) ∧
  (∀ (s : site) (f : flow),
     monitor (_handleWaitingPageIfPresent s f).2 = monitor f).
Proof.
  split_and!.
  - destruct (waitLoop_statuses pg maxWaitTime _ 0%nat 0 None eq_refl)
      as (infos & Hs & Hl & Hq).
    exists infos. split_and!; try done. fold (waitForCompletion pg maxWaitTime) in Hs.
    rewrite Hs. by destruct infos.
  - intros took info Hpos Hlook. unfold waitForCompletion.
    rewrite waitLoop_eq, decide_True, Hlook by done.
    unfold status. rewrite decide_False by done.
    destruct (sleep pg 0%nat) as [|[message|]];
      unfold waitingPolls, statuses; cbn; split; (lia || reflexivity).
  - apply executeFullFlow_waiting_view.
  - intros s f. apply handleWaitingPage_monitor.
Qed.

End FlowFacts.

Section MonitorLogFacts.
Import ConcurrentMonitor MonitorLog.

Lemma lines_snoc (p : log_event → bool) (log : list log_event) (e : log_event) :
  lines p (log ++ [e]) = (lines p log + (if p e then 1 else 0))%nat.
Proof.
  unfold lines. rewrite List.filter_app, length_app. simpl. by destruct (p e).
Qed.

(** One more count of [key] in a table. *)
Lemma bump_counted (table : gmap string cell) (init : option cell) (key key' : string)
    (n : nat) :
  table !! key' = counted init key' n →
  bump key table !! key' =
  counted init key' (n + (if bool_decide (key = key') then 1 else 0)).
Proof.
  intros Hn. case_bool_decide as E.
  - subst key'. unfold bump. rewrite Hn. unfold counted.
    destruct init as [[z|member ones]|].
    + rewrite lookup_insert_eq. do 2 f_equal. lia.
    + rewrite lookup_insert_eq. do 2 f_equal. lia.
    + replace (n + 1 =? 0)%nat with false by (symmetry; apply Nat.eqb_neq; lia).
      destruct (n =? 0)%nat eqn:Hz.
      * apply Nat.eqb_eq in Hz as ->.
        destruct (String.eqb key "__proto__"); [done|].
        destruct (JsString.inherited key); by rewrite lookup_insert_eq.
      * destruct (String.eqb key "__proto__") eqn:Hp.
        { cbn. rewrite Hn. unfold counted. by rewrite Hz, Hp. }
        destruct (JsString.inherited key); rewrite lookup_insert_eq; do 2 f_equal; lia.
  - rewrite Nat.add_0_r, <- Hn. unfold bump.
    destruct (table !! key) as [[z|member ones]|];
      rewrite ?lookup_insert_ne by done; try done.
    destruct (String.eqb key "__proto__"); [done|].
    destruct (JsString.inherited key); by rewrite lookup_insert_ne.
Qed.

Lemma silent_errors_snoc (step : string) (evs : list event) (e : event) :
  silent_errors step (evs ++ [e]) =
  (silent_errors step evs + (if is_silent_error step e then 1 else 0))%nat.
Proof.
  unfold silent_errors. rewrite List.filter_app, length_app. simpl.
  by destruct (is_silent_error step e).
Qed.

Lemma stats_match_log_new : stats_match_log new_monitor (λ _, 0%nat).
Proof.
  unfold stats_match_log, lines; cbn -[initial_stats]. split_and!; try reflexivity.
  intros step. unfold counted.
  destruct (stepStats initial_stats !! step) as [[z|t o]|]; [| |done]; do 2 f_equal; lia.
Qed.

(** The goals of one call: each counter against the log with one more
    line. *)
Local Ltac log_line :=
  unfold stats_match_log; cbn -[lines initial_stats counted bump]; split_and!; intros;
  rewrite ?lines_snoc; cbn -[lines initial_stats counted bump]; rewrite ?Nat.add_0_r;
  first [done | lia | by apply bump_counted | idtac].

(** A call leaves the counters in step with the log, and adds to the
    errors counted and not logged only if it is given an [Error] with an
    empty message. *)
Lemma stats_match_log_step (m : monitor) (extra : string → nat) (e : event) :
  stats_match_log m extra →
  ∃ extra',
    stats_match_log (apply_event m e) extra' ∧
    ∀ step, (extra' step ≤ extra step + (if is_silent_error step e then 1 else 0))%nat.
Proof.
  intros Hm. pose proof Hm as (Ht & Hc & Hf & Hw & Hs & Hes & Het).
  assert (Hsame : ∀ m',
            stats_match_log m' extra →
            ∃ extra', stats_match_log m' extra' ∧
              ∀ step, (extra' step ≤ extra step +
                                     (if is_silent_error step e then 1 else 0))%nat).
  { intros m' H. exists extra. split; [done|]. intros step. lia. }
  destruct e as [id md now|id now|id step now|id wt qp|id|id success res now|id step error now];
    cbn [apply_event].
  - apply Hsame. unfold registerSession. log_line.
  - unfold startSession. destruct (sessions m !! id); [|by apply Hsame].
    apply Hsame. log_line.
  - unfold updateSessionStep. destruct (sessions m !! id); [|by apply Hsame].
    apply Hsame. log_line.
  - unfold recordWaitingPage. destruct (sessions m !! id); [|by apply Hsame].
    apply Hsame. log_line.
  - unfold recordWaitingPagePassed. destruct (sessions m !! id) as [s|]; [|by apply Hsame].
    destruct (waitingEncountered s); [|by apply Hsame].
    apply Hsame. log_line.
  - unfold completeSession. destruct (sessions m !! id); [|by apply Hsame].
    apply Hsame. destruct success; log_line.
  - unfold recordError. destruct (sessions m !! id); [|by apply Hsame].
    assert (Hlogged : ∀ s' : string,
      counted None s' (lines (is_error_at s') (logFile m) +
                       (if bool_decide (step = s') then 1 else 0) + extra s') =
      counted None s' (lines (is_error_at s') (logFile m) + extra s' +
                       (if bool_decide (step = s') then 1 else 0))).
    { intros s'. f_equal. lia. }
    destruct error as [[|c message]|text]; cbn [message_or_error JsString.truthy fst].
    + (* an [Error] with an empty message *)
      exists (λ s, (extra s + (if bool_decide (step = s) then 1 else 0))%nat). split.
      * log_line. rewrite Nat.add_assoc. by apply bump_counted.
      * intros s'. cbn. repeat case_bool_decide; try lia; congruence.
    + apply Hsame. log_line. rewrite Hlogged. by apply bump_counted.
    + apply Hsame. log_line. rewrite Hlogged. by apply bump_counted.
Qed.

Lemma stats_match_log_run (evs : list event) :
  ∃ extra, stats_match_log (run evs new_monitor) extra ∧
           ∀ step, (extra step ≤ silent_errors step evs)%nat.
Proof.
  induction evs as [|e evs IH] using rev_ind.
  - exists (λ _, 0%nat). split; [apply stats_match_log_new|]. intros step. cbn. lia.
  - destruct IH as (extra & Hm & Hle). rewrite monitor_run_snoc.
    destruct (stats_match_log_step _ extra e Hm) as (extra' & Hm' & Hle').
    exists extra'. split; [done|]. intros step. rewrite silent_errors_snoc.
    specialize (Hle step). specialize (Hle' step). lia.
Qed.

(** X1: whatever calls are made, in whatever order, the aggregate
    counters can be read off the log file.  [total], [completed],
    [failed] and [waitingPageEncounters] are the numbers of
    SESSION_REGISTERED, SESSION_COMPLETED, SESSION_FAILED and
    WAITING_PAGE lines.  An entry of [stepStats] or [errorsByType] is
    what counting its key once for each STEP_UPDATE or ERROR line that
    carries it makes of the entry the table began with: a number for an
    ordinary key, a text for a key that [Object.prototype] defines, and
    nothing for [__proto__].  [errorsByStep] counts the ERROR lines of
    its step and, beyond them, no more than the calls of [recordError]
    for that step with an [Error] whose message is empty, which are
    counted and never logged. *)
Theorem monitor_stats_match_log (evs : list event) :
  let m := run evs new_monitor in
  total (m_stats m) = Z.of_nat (lines is_registered (logFile m)) ∧
  st_completed (m_stats m) = Z.of_nat (lines is_completed (logFile m)) ∧
  st_failed (m_stats m) = Z.of_nat (lines is_failed (logFile m)) ∧
  waitingPageEncounters (m_stats m) = Z.of_nat (lines is_waiting_page (logFile m)) ∧
  (∀ step, stepStats (m_stats m) !! step =
           counted (stepStats initial_stats !! step) step
             (lines (is_step_update step) (logFile m))) ∧
  (∀ ty, errorsByType (m_stats m) !! ty =
         counted None ty (lines (is_error_of ty) (logFile m))) ∧
  (∀ step, ∃ extra : nat,
     (extra ≤ silent_errors step evs)%nat ∧
     errorsByStep (m_stats m) !! step =
       counted None step (lines (is_error_at step) (logFile m) + extra)) ∧
  (∀ key, JsString.inherited key = false →
     tally (stepStats (m_stats m)) key = Z.of_nat (lines (is_step_update key) (logFile m)) ∧
     tally (errorsByType (m_stats m)) key = Z.of_nat (lines (is_error_of key) (logFile m)) ∧
     (silent_errors key evs = 0%nat →
      tally (errorsByStep (m_stats m)) key =
        Z.of_nat (lines (is_error_at key) (logFile m)))).
Proof.
  intros m. subst m.
  destruct (stats_match_log_run evs) as (extra & (Ht & Hc & Hf & Hw & Hs & Hes & Het) & Hle).
  split_and!; try done.
  - intros step. exists (extra step). split; [apply Hle|apply Hes].
  - intros key Hkey.
    assert (Hproto : String.eqb key "__proto__" = false).
    { destruct (String.eqb_spec key "__proto__") as [->|]; [done|done]. }
    assert (Hplain : ∀ n, match counted None key n with
                          | Some (Count z) => z
                          | _ => 0
                          end = Z.of_nat n).
    { intros n. unfold counted. rewrite Hproto, Hkey.
      destruct (n =? 0)%nat eqn:Hz; [apply Nat.eqb_eq in Hz; by subst|done]. }
    split_and!.
    + unfold tally. rewrite Hs. specialize (Hplain (lines (is_step_update key)
                                                       (logFile (run evs new_monitor)))).
      destruct (stepStats initial_stats !! key) as [[z|t o]|] eqn:Hinit; [| |done].
      * assert (z = 0) as ->; [|cbn; lia].
        revert Hinit. cbn.
        repeat match goal with
               | |- context [<[?k := _]> _ !! key] =>
                 destruct (decide (k = key)) as [<-|];
                   [rewrite lookup_insert_eq; congruence
                   |rewrite lookup_insert_ne by done]
               end.
        by rewrite lookup_empty.
      * exfalso. revert Hinit. cbn.
        repeat match goal with
               | |- context [<[?k := _]> _ !! key] =>
                 destruct (decide (k = key)) as [<-|];
                   [rewrite lookup_insert_eq; congruence
                   |rewrite lookup_insert_ne by done]
               end.
        by rewrite lookup_empty.
    + unfold tally. rewrite Het. apply Hplain.
    + intros Hsilent. unfold tally. rewrite Hes.
      specialize (Hle key). rewrite Hsilent in Hle.
      replace (extra key) with 0%nat by lia. rewrite Nat.add_0_r. apply Hplain.
Qed.

End MonitorLogFacts.

Section MonitorCounterFacts.
Import ConcurrentMonitor.



Lemma run_dom_sessions (evs : list event) :
  dom (sessions (run evs new_monitor)) = list_to_set (registrations evs).
Proof.
  induction evs as [|e evs IH] using rev_ind; [set_solver|].
  rewrite monitor_run_snoc. pose proof (apply_event_dom (run evs new_monitor) e) as H.
  unfold registrations in *. rewrite omap_app, list_to_set_app_L.
  destruct e; simpl in *; rewrite H, IH; set_solver.
Qed.

Lemma size_list_to_set_le (l : list string) :
  (size (list_to_set (C := gset string) l) ≤ length l)%nat.
Proof.
  induction l as [|x l IH]; simpl; [done|].
  pose proof (size_union_alt (C := gset string) {[x]} (list_to_set l)) as Hu.
  rewrite size_singleton in Hu.
  assert (size (list_to_set (C := gset string) l ∖ {[x]}) ≤ size (list_to_set (C := gset string) l))%nat
    by (apply subseteq_size; set_solver).
  lia.
Qed.

Lemma size_list_to_set_NoDup (l : list string) :
  size (list_to_set (C := gset string) l) = length l → NoDup l.
Proof.
  induction l as [|x l IH]; simpl; [constructor|]. intros Hs.
  pose proof (size_list_to_set_le l) as Hle.
  destruct (decide (x ∈ l)) as [Hin|Hnin].
  - replace ({[x]} ∪ list_to_set l : gset string) with (list_to_set l : gset string) in Hs
      by set_solver. lia.
  - constructor; [done|]. apply IH.
    rewrite size_union in Hs by set_solver. rewrite size_singleton in Hs. lia.
Qed.

(** X3: [sessions] holds one record for each distinct id that was
    registered, while [total] counts the [registerSession] calls: the
    map never has more entries than [total], and the two agree exactly
    when no id was registered twice, whatever metadata the
    registrations carry and whatever other calls are made. *)
Theorem monitor_sessions_and_total (evs : list event) :
  let m := run evs new_monitor in
  dom (sessions m) = list_to_set (registrations evs) ∧
  Z.of_nat (size (sessions m)) ≤ total (m_stats m) ∧
  (Z.of_nat (size (sessions m)) = total (m_stats m) ↔ NoDup (registrations evs)).
Proof.
  intros m. subst m.
  pose proof (run_dom_sessions evs) as Hdom.
  pose proof (total_counts_registrations evs) as Htot.
  assert (Hsize : size (sessions (run evs new_monitor)) =
                  size (list_to_set (C := gset string) (registrations evs))).
  { rewrite <- Hdom. symmetry. apply size_dom. }
  pose proof (size_list_to_set_le (registrations evs)) as Hle.
  split_and!.
  - exact Hdom.
  - lia.
  - split.
    + intros H. apply size_list_to_set_NoDup. lia.
    + intros Hnd. rewrite Hsize, size_list_to_set by done. lia.
Qed.

End MonitorCounterFacts.

Section MonitoredRunFacts.
Import TestExecutor MonitoredRun.
Local Open Scope nat_scope.

Lemma quad_eq (a a' b b' c c' d d' : Z) :
  a = a' → b = b' → c = c' → d = d' → (a, b, c, d) = (a', b', c', d').
Proof. by intros -> -> -> ->. Qed.





Lemma complete_counters (id : string) (ok : bool) (res : string) (now : Z)
    (m : ConcurrentMonitor.monitor) :
  is_Some (ConcurrentMonitor.sessions m !! id) →
  counters (ConcurrentMonitor.completeSession id ok res now m) =
    ((counters m).1.1.1, Z.max 0 ((counters m).1.1.2 - 1),
     (counters m).1.2 + (if ok then 1 else 0), (counters m).2 + (if ok then 0 else 1))%Z ∧
  dom (ConcurrentMonitor.sessions (ConcurrentMonitor.completeSession id ok res now m)) =
    dom (ConcurrentMonitor.sessions m).
Proof.
  intros [s Hs].
  pose proof (apply_event_dom m (ConcurrentMonitor.CompleteSession id ok res now)) as Hd.
  simpl in Hd. split; [|exact Hd].
  unfold ConcurrentMonitor.completeSession. rewrite Hs.
  destruct ok; unfold counters; simpl; apply quad_eq; lia.
Qed.

(** The entry a session leaves in [Promise.allSettled] when the
    monitor knows it: for an [Error] without a message it carries the
    [TypeError] of [recordError]. *)
Lemma finish_entry (id : string) (how : ending) (clock : nat → Z)
    (m : ConcurrentMonitor.monitor) :
  is_Some (ConcurrentMonitor.sessions m !! id) →
  (finish id how clock m).2 = settlement how.
Proof.
  intros Hs. destruct how as [value|message]; [done|]. unfold finish, settlement.
  pose proof (complete_counters id false "{}" (clock 0) m Hs) as [_ Hd].
  assert (Hs' : is_Some (ConcurrentMonitor.sessions
            (ConcurrentMonitor.completeSession id false "{}" (clock 0) m) !! id)).
  { apply elem_of_dom. rewrite Hd. by apply elem_of_dom. }
  destruct Hs' as [s Hs']. unfold ConcurrentMonitor.recordError. rewrite Hs'.
  unfold ConcurrentMonitor.message_or_error.
  by destruct (JsString.truthy message).
Qed.









End MonitoredRunFacts.

Section MonitoredRunClaims.
Import TestExecutor MonitoredRun.
Local Open Scope nat_scope.



End MonitoredRunClaims.

Section ZeroConcurrency.
Import TestExecutor EmptyBatches.
Local Open Scope nat_scope.

(** With a batch size of 0 a loop test that is not held back starts
    a wave of no sessions. *)
Lemma idling_loop_test (n : nat) (e : executor) :
  0 < n → idling n e → at_phase e = Called ∨ at_phase e = LoopHead →
  ∃ e', step e LoopTest = Some e' ∧ idling n e' ∧ at_phase e' = InWave 0 ∧
        waves e' = waves e ++ [[]].
Proof.
  intros Hn (Hc & Hb & Hd & Hs & Hres & Ho & Hw & Hph) Hready.
  assert (Hgo : at_phase e = Called ∨ at_phase e = LoopHead ∧ isRunning e = true).
  { destruct Hready as [?|Hl]; [by left|right]. split; [done|].
    destruct Hph as [Hph|[Hr _]]; [congruence|done]. }
  destruct (loop_test_starts e Hgo ltac:(lia)) as (e' & Hstep & Hp' & Hr' & Hc' & Hn' & Hb' & Ho').
  rewrite Hd, Hb in Hp'. cbn in Hp'.
  destruct (loop_test_wave e e' 0 Hstep Hp') as (_ & _ & _ & Hst' & Hw' & _).
  unfold batch in Hst', Hw'. rewrite Hd in Hst', Hw'. cbn in Hst', Hw'.
  rewrite app_nil_r in Hst'.
  assert (Hres' : results e' = []).
  { revert Hstep. unfold step, loop_test.
    destruct Hgo as [-> | [-> _]]; cbn [enter completed count isRunning results];
      destruct (_ && _); intros [= <-]; done. }
  exists e'. split; [done|]. split; [|done].
  unfold idling. rewrite Hw', concat_app, Hw. cbn.
  split_and!; try congruence. right. split; [done|]. right. by left.
Qed.

Lemma idling_step (n : nat) (e e' : executor) (ev : event) :
  0 < n → ev ≠ Stop → idling n e → step e ev = Some e' → idling n e'.
Proof.
  intros Hn Hns Hi. pose proof Hi as (Hc & Hb & Hd & Hs & Hres & Ho & Hw & Hph).
  destruct ev; try done.
  - intros Hstep.
    assert (Hready : at_phase e = Called ∨ at_phase e = LoopHead).
    { revert Hstep. unfold step. destruct (at_phase e); try done; auto. }
    destruct (idling_loop_test n e Hn Hi Hready) as (e1 & Hstep1 & Hi1 & _). congruence.
  - unfold step. destruct Hph as [Hph|[Hr [Hph|[Hph|Hph]]]]; rewrite Hph; done.
  - unfold step. destruct Hph as [Hph|[Hr [Hph|[Hph|Hph]]]]; rewrite Hph; try done.
    destruct (all_settled e 0); [|done]. intros [= <-]. unfold idling, batch. simpl.
    rewrite ?Hc, ?Hb, ?Hd, ?Hs, ?Hres, ?Ho. simpl. split_and!; auto.
  - unfold step. destruct Hph as [Hph|[Hr [Hph|[Hph|Hph]]]]; rewrite Hph; try done.
    intros [= <-]. unfold idling. simpl. split_and!; auto.
Qed.

Lemma idling_run (n : nat) (evs : list event) :
  0 < n → ∀ e e', Stop ∉ evs → idling n e → run evs e = Some e' → idling n e'.
Proof.
  intros Hn. induction evs as [|ev evs IH]; simpl; intros e e' Hns Hi H; [by simplify_eq|].
  destruct (step e ev) as [e1|] eqn:E; [|done]. simpl in H.
  apply not_elem_of_cons in Hns as [Hne Hns].
  apply (IH e1 e' Hns); [|exact H].
  apply (idling_step n e e1 ev); auto.
Qed.

Lemma empty_turn_run (n : nat) (e : executor) :
  0 < n → idling n e → at_phase e = Called ∨ at_phase e = LoopHead →
  ∃ e', run empty_turn e = Some e' ∧ idling n e' ∧
        at_phase e' = LoopHead ∧ length (waves e') = S (length (waves e)).
Proof.
  intros Hn Hi Hready.
  destruct (idling_loop_test n e Hn Hi Hready) as (e1 & Hstep1 & Hi1 & Hp1 & Hw1).
  assert (Hstep2 : ∃ e2, step e1 AllSettled = Some e2 ∧ at_phase e2 = Cooldown ∧
                         waves e2 = waves e1).
  { unfold step. rewrite Hp1. replace (all_settled e1 0) with true.
    - eexists. split; [done|]. done.
    - symmetry. apply all_settled_spec. intros i Hi'.
      destruct Hi1 as (_ & _ & Hd1 & _). lia. }
  destruct Hstep2 as (e2 & Hstep2 & Hp2 & Hw2).
  assert (Hi2 : idling n e2).
  { apply (idling_step n e1 e2 AllSettled); auto. }
  assert (Hstep3 : ∃ e3, step e2 CooldownElapsed = Some e3 ∧ at_phase e3 = LoopHead ∧
                         waves e3 = waves e2).
  { unfold step. rewrite Hp2. eexists. split; [done|]. done. }
  destruct Hstep3 as (e3 & Hstep3 & Hp3 & Hw3).
  exists e3. unfold empty_turn. cbn [run]. rewrite Hstep1. cbn [mbind option_bind].
  rewrite Hstep2. cbn [mbind option_bind]. rewrite Hstep3. cbn [mbind option_bind].
  split; [done|]. split_and!; [|done|].
  - apply (idling_step n e2 e3 CooldownElapsed); auto.
  - rewrite Hw3, Hw2, Hw1, length_app. cbn. lia.
Qed.

Lemma empty_turns (n : nat) (k : nat) :
  0 < n → ∀ e, idling n e → at_phase e = Called ∨ at_phase e = LoopHead →
  ∃ e', run (concat (replicate k empty_turn)) e = Some e' ∧ idling n e' ∧
        (at_phase e' = if k is O then at_phase e else LoopHead) ∧
        length (waves e') = length (waves e) + k.
Proof.
  intros Hn. induction k as [|k IH]; intros e Hi Hph.
  - exists e. simpl. split_and!; auto.
  - destruct (empty_turn_run n e Hn Hi Hph) as (e1 & Hrun1 & Hi1 & Hph1 & Hlen1).
    destruct (IH e1 Hi1 ltac:(by right)) as (e' & Hrun & Hi' & Hph' & Hlen).
    exists e'. split_and!; auto; [| |lia].
    + change (concat (replicate (S k) empty_turn))
        with (empty_turn ++ concat (replicate k empty_turn)).
      rewrite executor_run_app, Hrun1. exact Hrun.
    + rewrite Hph'. by destruct k.
Qed.

(** X5: with a concurrency of 0 and at least one test to run,
    [executeMulti] never leaves its loop unless [stop()] is called: no
    session is started, no result is recorded and nothing is returned,
    while the loop keeps turning, each turn a wave of no sessions
    followed by the one-second pause, after which the run is at the
    test of its loop again. *)
Theorem executeMulti_zero_concurrency (n : nat) :
  0 < n →
  (∀ evs e, Stop ∉ evs → run evs (executeMulti n 0) = Some e →
            started e = [] ∧ results e = [] ∧ at_phase e ≠ Finished ∧ returned e = None) ∧
  (∀ k, ∃ e, run (concat (replicate k empty_turn)) (executeMulti n 0) = Some e ∧
             at_phase e = (if k is O then Called else LoopHead) ∧ length (waves e) = k).
Proof.
  intros Hn.
  assert (H0 : idling n (executeMulti n 0)).
  { unfold idling. simpl. split_and!; auto. }
  split.
  - intros evs e Hns Hrun.
    destruct (idling_run n evs Hn _ _ Hns H0 Hrun) as (_ & _ & _ & Hs & Hres & _ & _ & Hph).
    unfold returned.
    destruct Hph as [Hph|[_ [Hph|[Hph|Hph]]]]; rewrite Hph; split_and!; done.
  - intros k. destruct (empty_turns n k Hn _ H0 ltac:(by left)) as (e & Hrun & _ & Hph & Hlen).
    exists e. split_and!; auto.
Qed.

Lemma executeMulti_zero_concurrency_witness :
  (∀ evs e, Stop ∉ evs → run evs (executeMulti 3 0) = Some e →
            started e = [] ∧ results e = [] ∧ at_phase e ≠ Finished ∧ returned e = None) ∧
  (∀ k, ∃ e, run (concat (replicate k empty_turn)) (executeMulti 3 0) = Some e ∧
             at_phase e = (if k is O then Called else LoopHead) ∧ length (waves e) = k).
Proof. apply (executeMulti_zero_concurrency 3). lia. Defined.

End ZeroConcurrency.

Section SummaryFacts.
Import TestExecutor SummaryTimes ReportGenerator.
Local Open Scope Z_scope.

Lemma fold_min_spec (ts : list Z) :
  ∀ t, fold_left Z.min ts t ∈ t :: ts ∧ ∀ x, x ∈ t :: ts → fold_left Z.min ts t ≤ x.
Proof.
  induction ts as [|u ts IH]; intros t; simpl.
  - split; [set_solver|]. intros x Hx. apply list_elem_of_singleton in Hx. lia.
  - destruct (IH (Z.min t u)) as [Hin Hle]. split.
    + apply elem_of_cons in Hin as [->|Hin]; [|set_solver].
      destruct (Z.min_spec t u) as [[_ ->]|[_ ->]]; set_solver.
    + intros x Hx. pose proof (Hle (Z.min t u) ltac:(set_solver)).
      apply elem_of_cons in Hx as [->|Hx]; [lia|].
      apply elem_of_cons in Hx as [->|Hx]; [lia|]. apply Hle. set_solver.
Qed.

Lemma fold_max_spec (ts : list Z) :
  ∀ t, fold_left Z.max ts t ∈ t :: ts ∧ ∀ x, x ∈ t :: ts → x ≤ fold_left Z.max ts t.
Proof.
  induction ts as [|u ts IH]; intros t; simpl.
  - split; [set_solver|]. intros x Hx. apply list_elem_of_singleton in Hx. lia.
  - destruct (IH (Z.max t u)) as [Hin Hle]. split.
    + apply elem_of_cons in Hin as [->|Hin]; [|set_solver].
      destruct (Z.max_spec t u) as [[_ ->]|[_ ->]]; set_solver.
    + intros x Hx. pose proof (Hle (Z.max t u) ltac:(set_solver)).
      apply elem_of_cons in Hx as [->|Hx]; [lia|].
      apply elem_of_cons in Hx as [->|Hx]; [lia|]. apply Hle. set_solver.
Qed.

Lemma elem_of_times (results : list result) (t : Z) :
  t ∈ times results ↔ 0 < t ∧ ∃ r, r ∈ results ∧ totalTime r = t.
Proof.
  unfold times. rewrite list_elem_of_fmap. split.
  - intros (r & -> & Hr). apply list_elem_of_In, List.filter_In in Hr as [Hr Hpos].
    apply Z.ltb_lt in Hpos. split; [done|]. exists r. split; [|done].
    by apply list_elem_of_In.
  - intros (Hpos & r & Hr & <-). exists r. split; [done|].
    apply list_elem_of_In, List.filter_In. split; [by apply list_elem_of_In|].
    by apply Z.ltb_lt.
Qed.

(** X6: the [minTime] and [maxTime] of the summary are taken over the
    results with a positive [totalTime] only.  When there is such a
    result, both are the time of one of them and bound all the others,
    so a rejected session, whose record has no time, does not pull
    [minTime] down to 0; when there is none, both are 0. *)
Theorem summary_times (results : list result) :
  (times results = [] → minTime results = 0 ∧ maxTime results = 0) ∧
  (times results ≠ [] →
   minTime results ∈ times results ∧ maxTime results ∈ times results ∧
   0 < minTime results) ∧
  (∀ r, r ∈ results → 0 < totalTime r →
        minTime results ≤ totalTime r ≤ maxTime results) ∧
  0 ≤ minTime results ≤ maxTime results.
Proof.
  unfold minTime, maxTime.
  pose proof (elem_of_times results) as Hel.
  destruct (times results) as [|t ts] eqn:E.
  - split_and!; try done.
    intros r Hr Hpos. assert (totalTime r ∈ []) by (apply Hel; eauto).
    by apply elem_of_nil in H.
  - destruct (fold_min_spec ts t) as [Hmin Hminle].
    destruct (fold_max_spec ts t) as [Hmax Hmaxle].
    assert (Hpos : 0 < fold_left Z.min ts t) by (apply Hel in Hmin as [? _]; done).
    split; [done|]. split; [by intros _|]. split.
    + intros r Hr Hp. assert (Hin : totalTime r ∈ t :: ts) by (apply Hel; eauto).
      split; [by apply Hminle | by apply Hmaxle].
    + split; [lia|]. apply Hmaxle, Hmin.
Qed.

End SummaryFacts.

Section StatisticsFacts.
Import TestExecutor SummaryTimes ReportGenerator.
Local Open Scope Z_scope.

Lemma times_cons (r : result) (results : list result) :
  times (r :: results) =
  if 0 <? totalTime r then totalTime r :: times results else times results.
Proof. unfold times. simpl. by destruct (0 <? totalTime r). Qed.

Lemma fold_max_times (results : list result) :
  (∀ r, r ∈ results → 0 ≤ totalTime r) →
  ∀ a, 0 ≤ a →
       fold_left (λ max r, Z.max max (time_or_zero r)) results a =
       fold_left Z.max (times results) a.
Proof.
  induction results as [|r results IH]; intros Hnn a Ha; [done|].
  rewrite times_cons. simpl. unfold time_or_zero at 2.
  pose proof (Hnn r ltac:(set_solver)) as Hr.
  destruct (0 <? totalTime r) eqn:E; simpl.
  - apply IH; [set_solver | lia].
  - apply Z.ltb_ge in E. replace (Z.max a (totalTime r)) with a by lia.
    apply IH; [set_solver | lia].
Qed.

Lemma fold_min_times (results : list result) :
  (∀ r, r ∈ results → 0 ≤ totalTime r) →
  ∀ m, fold_left (λ min r, min_ext min (time_or_infinity r)) results m =
       fold_left (λ min t, min_ext min (Fin t)) (times results) m.
Proof.
  induction results as [|r results IH]; intros Hnn m; [done|].
  rewrite times_cons. simpl. unfold time_or_infinity at 2.
  pose proof (Hnn r ltac:(set_solver)) as Hr.
  destruct (0 <? totalTime r) eqn:E; simpl.
  - apply Z.ltb_lt in E. destruct (totalTime r =? 0) eqn:E0; [apply Z.eqb_eq in E0; lia|].
    apply IH. set_solver.
  - apply Z.ltb_ge in E. assert ((totalTime r =? 0) = true) as -> by (apply Z.eqb_eq; lia).
    replace (min_ext m Inf) with m by (by destruct m).
    apply IH. set_solver.
Qed.

Lemma fold_min_ext_fin (ts : list Z) :
  ∀ t, fold_left (λ min t, min_ext min (Fin t)) ts (Fin t) = Fin (fold_left Z.min ts t).
Proof. induction ts as [|u ts IH]; intros t; simpl; [done|]. apply IH. Qed.

Lemma length_filter_success (results : list result) :
  length (List.filter success results) = length (filter (λ r, success r = true) results).
Proof.
  induction results as [|r results IH]; [done|].
  rewrite filter_cons. simpl. destruct (success r); case_decide; simpl; congruence.
Qed.

(** X7: the statistics of the report and the summary that
    [executeMulti] returns are computed by different code, and they
    agree: on the same results, with no negative time among them,
    [total], [successful], [failed], [minTime] and [maxTime] are the
    same in both.  [totalDuration] is the sum of all the times. *)
Theorem statistics_agree_with_summary (results : list result) :
  (∀ r, r ∈ results → 0 ≤ totalTime r) →
  let st := calculateStatistics results in
  let su := _createSummary results in
  st_total st = total su ∧ st_successful st = successful su ∧ st_failed st = failed su ∧
  st_minTime st = minTime results ∧ st_maxTime st = maxTime results ∧
  totalDuration st = foldr Z.add 0 (totalTime <$> results).
Proof.
  intros Hnn st su. subst st su. unfold calculateStatistics, _createSummary. simpl.
  rewrite length_filter_success. split_and!; try reflexivity.
  - rewrite fold_min_times by done. unfold minTime.
    destruct (times results) as [|t ts]; [done|]. simpl.
    by rewrite fold_min_ext_fin.
  - rewrite fold_max_times by done. unfold maxTime.
    pose proof (elem_of_times results) as Hel.
    destruct (times results) as [|t ts]; [done|]. simpl.
    assert (0 < t) by (apply Hel; set_solver).
    f_equal. lia.
  - assert (H : ∀ a, fold_left (λ sum r, sum + time_or_zero r) results a =
                     a + foldr Z.add 0 (totalTime <$> results)).
    { clear Hnn. induction results as [|r results IH]; intros a.
      - simpl. lia.
      - rewrite fmap_cons. cbn [fold_left foldr]. rewrite IH. unfold time_or_zero. lia. }
    rewrite H. exact (Z.add_0_l _).
Qed.

Lemma statistics_agree_with_summary_witness :
  let results :=
    [ {| success := true; error := None; testIndex := None;
         sessionId := Some "test-1"; totalTime := 4200 |};
      {| success := false; error := Some "Unknown error"; testIndex := Some 1%nat;
         sessionId := None; totalTime := 0 |};
      {| success := false; error := None; testIndex := None;
         sessionId := Some "test-3"; totalTime := 9100 |} ] in
  let st := calculateStatistics results in
  let su := _createSummary results in
  st_total st = total su ∧ st_successful st = successful su ∧ st_failed st = failed su ∧
  st_minTime st = minTime results ∧ st_maxTime st = maxTime results ∧
  totalDuration st = foldr Z.add 0 (totalTime <$> results).
Proof.
  intros results. apply (statistics_agree_with_summary results).
  intros r Hr. unfold results in Hr.
  repeat (apply elem_of_cons in Hr as [->|Hr]; [simpl; lia|]).
  by apply elem_of_nil in Hr.
Defined.

End StatisticsFacts.

Section ErrorHandlerMore.
Import ErrorHandler RetryOutcome.
Local Open Scope nat_scope.

Lemma backoffDelay_bounds (attempts : nat) : (1000 ≤ backoffDelay attempts ≤ 10000)%Z.
Proof.
  unfold backoffDelay.
  assert (1 ≤ 2 ^ Z.of_nat attempts)%Z by (apply Z.pow_le_mono_r with (b := 0%Z); lia).
  lia.
Qed.

Lemma before_retry_other (operation other : string) (h : handler) :
  other ≠ operation →
  retryAttempts (before_retry operation h) !! other = retryAttempts h !! other.
Proof. intros Hne. simpl. by rewrite lookup_insert_ne. Qed.

Lemma handleNetworkError_settles (f : nat → outcome) (maxRetries : nat) (operation : string) :
  ∀ (n : nat) (error : string) (h : handler),
    maxRetries - currentAttempts h operation = n →
    ∃ k, settles_after f maxRetries operation error h k
           (handleNetworkError f maxRetries operation error h).1
           (handleNetworkError f maxRetries operation error h).2.
Proof.
  induction n as [n IH] using lt_wf_ind. intros error h Hn.
  rewrite handleNetworkError_eq. case_decide as Hle.
  - exists 0. unfold settles_after. cbn [fst snd seq fmap list_fmap recordError retried waited retryAttempts].
    rewrite (right_id_L [] (++)).
    change (currentAttempts (recordError _ h) operation) with (currentAttempts h operation).
    split_and!; try done; try lia. eexists. split_and!; [reflexivity|done|lia].
  - destruct (f (retried h)) as [v|e] eqn:Hf.
    + exists 1. unfold settles_after. simpl. rewrite Nat.add_0_r.
      split_and!; try done; try lia.
      * intros other Hne. rewrite lookup_delete_ne by done. by rewrite lookup_insert_ne.
      * apply lookup_delete_eq.
    + pose proof (before_retry_attempts operation h) as Hc.
      destruct (IH (maxRetries - S (currentAttempts h operation)) ltac:(lia) e
                  (before_retry operation h)) as [k Hk]; [by rewrite Hc|].
      exists (S k).
      destruct (handleNetworkError f maxRetries operation e (before_retry operation h))
        as [r h'] eqn:E.
      unfold settles_after in *. simpl in Hk |- *.
      rewrite Hc in Hk. destruct Hk as (Hkle & Hret & Hwait & Hfail & Hother & Hr).
      split_and!.
      * lia.
      * lia.
      * rewrite Hwait, <- app_assoc. done.
      * intros j Hj. destruct j as [|j]; [rewrite Nat.add_0_r; eauto|].
        destruct (Hfail j ltac:(lia)) as [e' He']. exists e'.
        rewrite <- He'. f_equal. lia.
      * intros other Hne. rewrite Hother by done. by rewrite lookup_insert_ne.
      * destruct r as [v|message].
        -- destruct Hr as (Hpos & Hv & Hnone). split_and!; [lia| |done].
           rewrite <- Hv. f_equal. lia.
        -- destruct Hr as (Hkeq & Hcur & e' & Hmsg & Hzero & Hlast).
           split_and!; [lia|lia|]. exists e'. split; [done|]. split; [lia|].
           intros _. destruct k as [|k].
           ++ rewrite (Hzero eq_refl), Nat.add_0_r. done.
           ++ rewrite <- (Hlast ltac:(lia)). f_equal. lia.
Qed.

(** X8: a call of [handleNetworkError] makes at most
    [maxRetries] minus the stored attempts retries, whatever the retry
    function does.  Before the i-th retry it waits
    [min(1000 * 2^i, 10000)] ms, counting from the stored attempts, so
    every wait is between 1 and 10 seconds.  It returns the value of
    the first retry that succeeds and deletes the counter of the
    operation; it throws only after all the retries it may make have
    failed, with the message of the last failure, and leaves the
    counter at [maxRetries].  The counters of other operations are not
    touched. *)
Theorem handleNetworkError_bounded (f : nat → outcome) (maxRetries : nat)
    (operation error : string) (h : handler) :
  ∃ k, settles_after f maxRetries operation error h k
         (handleNetworkError f maxRetries operation error h).1
         (handleNetworkError f maxRetries operation error h).2 ∧
       (∀ w, w ∈ backoffDelay <$> seq (currentAttempts h operation) k →
             (1000 ≤ w ≤ 10000)%Z).
Proof.
  destruct (handleNetworkError_settles f maxRetries operation _ error h eq_refl) as [k Hk].
  exists k. split; [exact Hk|].
  intros w (i & -> & _)%list_elem_of_fmap. apply backoffDelay_bounds.
Qed.

(** X9: the counter of an operation outlives the call.  Once a call
    has used up its retries, a later call for the same operation throws
    at once, without waiting and without calling the retry function,
    even one that would succeed, until [resetRetryAttempts] or a
    success clears the counter. *)
Theorem handleNetworkError_stays_exhausted (f : nat → outcome) (maxRetries : nat)
    (operation error : string) (h : handler) :
  currentAttempts h operation = 0 → always_fails f →
  let h1 := (handleNetworkError f maxRetries operation error h).2 in
  currentAttempts h1 operation = maxRetries ∧
  (∀ (g : nat → outcome) (error' : string),
     let '(r, h2) := handleNetworkError g maxRetries operation error' h1 in
     r = Thrown (exhausted_message operation maxRetries error') ∧
     retried h2 = retried h1 ∧ waited h2 = waited h1 ∧
     retryAttempts h2 = retryAttempts h1) ∧
  currentAttempts (resetRetryAttempts (Some operation) h1) operation = 0 ∧
  currentAttempts (resetRetryAttempts None h1) operation = 0.
Proof.
  intros H0 Hf h1.
  destruct (handleNetworkError_exhausts f maxRetries operation Hf maxRetries error h)
    as (e & h' & Heq & _ & _ & _ & Hcur); [lia|].
  subst h1. rewrite Heq. simpl. split_and!.
  - exact Hcur.
  - intros g error'. rewrite handleNetworkError_eq.
    rewrite decide_True by lia. done.
  - unfold resetRetryAttempts, currentAttempts.
    destruct (JsString.truthy operation); simpl; [by rewrite lookup_delete_eq|done].
  - done.
Qed.

Lemma handleNetworkError_stays_exhausted_witness :
  let f := λ _ : nat, Thrown "ECONNRESET" in
  let h1 := (handleNetworkError f 3 "navigate" "ECONNRESET" new_handler).2 in
  currentAttempts h1 "navigate" = 3 ∧
  (∀ (g : nat → outcome) (error' : string),
     let '(r, h2) := handleNetworkError g 3 "navigate" error' h1 in
     r = Thrown (exhausted_message "navigate" 3 error') ∧
     retried h2 = retried h1 ∧ waited h2 = waited h1 ∧
     retryAttempts h2 = retryAttempts h1) ∧
  currentAttempts (resetRetryAttempts (Some "navigate") h1) "navigate" = 0 ∧
  currentAttempts (resetRetryAttempts None h1) "navigate" = 0.
Proof.
  intros f.
  apply (handleNetworkError_stays_exhausted f 3 "navigate" "ECONNRESET" new_handler).
  - reflexivity.
  - intros k. eexists. reflexivity.
Defined.

End ErrorHandlerMore.

Section WaitingPageMore.
Import WaitingPage WaitingLooks.
Local Open Scope Z_scope.

Lemma looks_allowed_step (maxWaitTime elapsed elapsed' : Z) :
  elapsed < maxWaitTime → elapsed + 1000 ≤ elapsed' →
  (S (looks_allowed maxWaitTime elapsed') ≤ looks_allowed maxWaitTime elapsed)%nat.
Proof.
  intros Hlt Hstep. unfold looks_allowed.
  assert ((maxWaitTime - elapsed' + 999) / 1000 + 1 ≤ (maxWaitTime - elapsed + 999) / 1000).
  { Z.div_mod_to_equations. lia. }
  assert (1 ≤ (maxWaitTime - elapsed + 999) / 1000) by (Z.div_mod_to_equations; lia).
  lia.
Qed.

Lemma waitLoop_seen (pg : browser_page) (maxWaitTime : Z) :
  ∀ (n : nat) (k : nat) (elapsed : Z) (lastWaitingInfo : option waitingInfo),
    Z.to_nat (maxWaitTime - elapsed) = n →
    let c := waitLoop pg maxWaitTime k elapsed lastWaitingInfo in
    (∃ m, seen pg maxWaitTime k c m) ∧
    (length (checks c) ≤ looks_allowed maxWaitTime elapsed)%nat ∧
    (length (sleeps c) ≤ length (checks c))%nat ∧
    (∀ ms, ms ∈ sleeps c → 1000 ≤ ms ≤ 30000) ∧
    elapsed ≤ finishedAt c.
Proof.
  induction n as [n IH] using lt_wf_ind.
  intros k elapsed lastWaitingInfo Hn. simpl.
  rewrite waitLoop_eq. case_decide as Hlt.
  2: { split_and!.
       - exists 0%nat. unfold seen; simpl. split_and!; [intros; lia|done|done|lia].
       - simpl. lia.
       - done.
       - intros ms Hms. by apply elem_of_nil in Hms.
       - simpl. lia. }
  destruct (look pg k) as [took|took info] eqn:Hlook.
  { pose proof (N2Z.is_nonneg took) as Hnn. split_and!.
    - exists 0%nat. unfold seen; simpl. split_and!; [intros; lia|done|done|].
      exists took. rewrite Nat.add_0_r. split; [done|lia].
    - pose proof (looks_allowed_step maxWaitTime elapsed (elapsed + 1000) Hlt ltac:(lia)).
      unfold checks; simpl. lia.
    - unfold checks, sleeps; simpl. lia.
    - intros ms Hms. by apply elem_of_nil in Hms.
    - simpl. lia. }
  pose proof (waitInterval_bounds info) as Hi.
  pose proof (N2Z.is_nonneg took) as Hnn.
  assert (Hturn : ∀ ms, 1000 ≤ ms ≤ 30000 →
    let c' := waitLoop pg maxWaitTime (S k) (elapsed + Z.of_N took + ms) (Some info) in
    let c := prepend (Checked true :: status lastWaitingInfo info ++ [Waited ms]) c' in
    (∃ m, seen pg maxWaitTime k c m) ∧
    (length (checks c) ≤ looks_allowed maxWaitTime elapsed)%nat ∧
    (length (sleeps c) ≤ length (checks c))%nat ∧
    (∀ w, w ∈ sleeps c → 1000 ≤ w ≤ 30000) ∧
    elapsed ≤ finishedAt c).
  { intros ms Hms c' c.
    destruct (IH (Z.to_nat (maxWaitTime - (elapsed + Z.of_N took + ms))) ltac:(lia)
                (S k) (elapsed + Z.of_N took + ms) (Some info) eq_refl)
      as ([m Hseen] & Hlooks & Hsl & Hbounds & Hfin).
    fold c' in Hseen, Hlooks, Hsl, Hbounds, Hfin.
    pose proof (looks_allowed_step maxWaitTime elapsed (elapsed + Z.of_N took + ms)
                  Hlt ltac:(lia)) as Hallowed.
    subst c. rewrite checks_prepend, sleeps_prepend, checks_of_turn, sleeps_of_turn.
    split_and!.
    - exists (S m). destruct Hseen as [Hq Hans]. unfold seen. cbn [answer prepend].
      rewrite checks_prepend, sleeps_prepend, checks_of_turn, sleeps_of_turn.
      split.
      + intros [|j] Hj; [rewrite Nat.add_0_r; eauto|].
        destruct (Hq j ltac:(lia)) as (t & i & Ht). exists t, i. rewrite <- Ht. f_equal. lia.
      + destruct (answer c') as [| |message].
        * destruct Hans as (Hc & Hs & t & Ht & Hlate). split_and!.
          -- simpl. by rewrite Hc.
          -- simpl. by rewrite Hs.
          -- exists t. split; [rewrite <- Ht; f_equal; lia|done].
        * destruct Hans as (Hc & Hs & Hlate). split_and!.
          -- simpl. by rewrite Hc.
          -- simpl. by rewrite Hs.
          -- done.
        * destruct Hans as (Hc & Hs & Hint). split_and!.
          -- simpl. by rewrite Hc.
          -- simpl. by rewrite Hs.
          -- rewrite <- Hint. f_equal. destruct m; [simpl in Hs; lia|]. lia.
    - simpl. lia.
    - simpl. lia.
    - intros w Hw. apply elem_of_cons in Hw as [->|Hw]; [done|by apply Hbounds].
    - cbn [finishedAt prepend]. lia. }
  destruct (sleep pg k) as [|[message|]] eqn:Hsleep.
  - by apply Hturn.
  - split_and!.
    + exists 1%nat. unfold seen; simpl. split_and!.
      * intros j Hj. assert (j = 0%nat) as -> by lia. rewrite Nat.add_0_r. eauto.
      * unfold checks, status; simpl. by case_decide.
      * unfold sleeps, status; simpl. by case_decide.
      * by rewrite Nat.add_0_r.
    + pose proof (looks_allowed_step maxWaitTime elapsed (elapsed + 1000) Hlt ltac:(lia)).
      unfold checks, status; simpl. case_decide; simpl; lia.
    + unfold checks, sleeps, status; simpl. case_decide; simpl; lia.
    + intros ms. unfold sleeps, status; simpl.
      case_decide; simpl; intros Hin; by apply elem_of_nil in Hin.
    + simpl. lia.
  - apply Hturn. lia.
Qed.

(** X10: [waitForCompletion] looks at the page at most once for each
    started second of its ceiling, and not at all when the ceiling is
    not positive; every pause it takes between two looks lasts between
    1 and 30 seconds. *)
Theorem waitForCompletion_polls_bounded (pg : browser_page) (maxWaitTime : Z) :
  let c := waitForCompletion pg maxWaitTime in
  (length (checks c) ≤ Z.to_nat ((maxWaitTime + 999) / 1000))%nat ∧
  (length (sleeps c) ≤ length (checks c))%nat ∧
  (∀ ms, ms ∈ sleeps c → 1000 ≤ ms ≤ 30000) ∧
  (maxWaitTime ≤ 0 → c = {| answer := TimedOut; finishedAt := 0; effects := [] |}).
Proof.
  intros c. subst c. unfold waitForCompletion.
  destruct (waitLoop_seen pg maxWaitTime _ 0%nat 0 None eq_refl)
    as (_ & Hlooks & Hsl & Hbounds & _).
  unfold looks_allowed in Hlooks. rewrite Z.sub_0_r in Hlooks.
  split_and!; try done.
  intros Hle. rewrite waitLoop_eq. by rewrite decide_False by lia.
Qed.

(** X11: the answer of [waitForCompletion] says what it saw.  It
    answers true only right after a look that found no waiting page, a
    look it began before the ceiling, all the looks before it having
    found the waiting page.  It answers false only with the ceiling
    reached, every look it made having found the waiting page.  It
    rejects only when a pause fails and the five-second pause of the
    [catch] fails as well. *)
Theorem waitForCompletion_verdict (pg : browser_page) (maxWaitTime : Z) :
  let c := waitForCompletion pg maxWaitTime in
  ∃ m : nat,
    (∀ j, (j < m)%nat → ∃ took info, look pg j = Queue took info) ∧
    match answer c with
    | Passed =>
      checks c = replicate m true ++ [false] ∧ length (sleeps c) = m ∧
      ∃ took, look pg m = Clear took ∧ finishedAt c - Z.of_N took < maxWaitTime
    | TimedOut =>
      checks c = replicate m true ∧ length (sleeps c) = m ∧ maxWaitTime ≤ finishedAt c
    | Crashed message =>
      checks c = replicate m true ∧ S (length (sleeps c)) = m ∧
      sleep pg (m - 1)%nat = Interrupted (Some message)
    end.
Proof.
  intros c. subst c. unfold waitForCompletion.
  destruct (waitLoop_seen pg maxWaitTime _ 0%nat 0 None eq_refl) as ([m Hseen] & _).
  exists m. exact Hseen.
Qed.

End WaitingPageMore.

Section FlowOutcomeFacts.
Import WaitingPage FlowManager FlowOutcome.
Local Open Scope nat_scope.
#[local] Opaque handleWaitingIfPresent.








End FlowOutcomeFacts.

Section FlowOutcomeClaims.
Import WaitingPage FlowManager FlowOutcome.
Local Open Scope nat_scope.





(** A check whose queue was passed fails all the same when the pause
    after it throws: the flow ends in its first step, with that error
    behind the step's prefix. *)
Example pause_failure_fails_the_flow :
  let f := executeFullFlow (calm (λ _, closing_page)) 0 (new_flow "test-1" None) in
  answer (waitForCompletion (later closing_page) defaultMaxWaitTime) = Passed ∧
  success f = false ∧
  errors f =
    [{| fe_step := "flow-execution";
        fe_message :=
          "Course selection failed: " +:+
          "page.waitForTimeout: Target page, context or browser has been closed" |}].
Proof. vm_compute. split_and!; reflexivity. Qed.



(** A page operation of step 2 throws an [Error] with an empty
    message: [recordError] counts the step and throws, the log has no
    ERROR line, and the result carries the [TypeError]. *)
Example empty_message_leaves_no_error_line :
  let m := ConcurrentMonitor.startSession "test-1" 1
             (ConcurrentMonitor.registerSession "test-1" (ConcurrentMonitor.with_index 1) 0
                ConcurrentMonitor.new_monitor) in
  let s := {| works := λ label, if String.eqb label "fill-basic-info"
                                then Some "" else None;
              waitingPages := λ _, queue_then_clear 0 |} in
  let f := executeFullFlow s 2 (new_flow "test-1" (Some m)) in
  errors f = [{| fe_step := "flow-execution";
                 fe_message := "errorMessage.toLowerCase is not a function" |}] ∧
  ∃ m', monitor f = Some m' ∧
        ConcurrentMonitor.logFile m' =
          [ConcurrentMonitor.SESSION_REGISTERED "test-1" 1;
           ConcurrentMonitor.SESSION_STARTED "test-1" 1;
           ConcurrentMonitor.STEP_UPDATE "test-1" "step1-course";
           ConcurrentMonitor.STEP_UPDATE "test-1" "step2-basic"] ∧
        ConcurrentMonitor.errorsByStep (ConcurrentMonitor.m_stats m') !! "step2-basic" =
          Some (ConcurrentMonitor.Count 1).
Proof.
  intros m s f. split; [vm_compute; reflexivity|].
  eexists. split; [vm_compute; reflexivity|]. split; vm_compute; reflexivity.
Qed.

End FlowOutcomeClaims.

Section WaveBrowsers.
Import TestExecutor TabMode.
Local Open Scope nat_scope.

(** Where the [w]-th wave lies. *)
Lemma wave_shape_lookup (n p : nat) (ws : list (list nat)) :
  ∀ from w wave, wave_shape n p from ws → ws !! w = Some wave →
    ∀ i, i ∈ wave → from + w * p ≤ i < from + w * p + p ∧ i < n.
Proof.
  induction ws as [|wv ws IH]; intros from w wave Hshape Hw i Hi; [done|].
  cbn [wave_shape] in Hshape. destruct Hshape as (Hlt & Hwv & Hshape).
  destruct w as [|w]; simpl in Hw.
  - injection Hw as <-. rewrite Hwv in Hi. apply elem_of_seq in Hi. lia.
  - assert (Hlen : length wv = p).
    { destruct ws as [|x ws]; [done|]. cbn [wave_shape] in Hshape.
      destruct Hshape as (Hlt' & _). rewrite Hwv, length_seq in *. lia. }
    specialize (IH (from + length wv) w wave Hshape Hw i Hi). rewrite Hlen in IH. lia.
Qed.

(** X14: run from the command line in tab mode, [executeMulti] gives
    every wave a browser of its own: all the sessions of the w-th wave
    (counting from 0) are assigned to browser-w, and browsers of
    different waves have different keys.  So a browser receives no new
    tab once its wave is over. *)
Theorem wave_has_own_browser (N P : nat) (evs : list event) (e : executor) :
  run evs (executeMulti N P) = Some e →
  let keys := (BrowserSessionManager.assign_all N (tab_mode P)).1 in
  (∀ w wave i, waves e !! w = Some wave → i ∈ wave →
               keys !! i = Some ("browser-" +:+ pretty w)) ∧
  (∀ w w' : nat, "browser-" +:+ pretty w = "browser-" +:+ pretty w' → w = w').
Proof.
  intros Hrun keys. subst keys.
  pose proof (exec_inv_run N P evs _ _ (exec_inv_init N P) Hrun)
    as (Hn & Hbs & Hle & Hlen & Hst & Hcat & Hshape & Hph & Hdom & Hres).
  split.
  - intros w wave i Hw Hi.
    destruct (wave_shape_lookup N P (waves e) 0 w wave Hshape Hw i Hi) as [Hrange HiN].
    assert (HP : 0 < P) by lia.
    rewrite assign_all_keys. cbn [tab_mode BrowserSessionManager.setTabsPerBrowser
      BrowserSessionManager.tabsPerBrowser BrowserSessionManager.sessionCounter
      BrowserSessionManager.enableSharedContextMode BrowserSessionManager.new_manager].
    rewrite list_lookup_fmap.
    rewrite (proj2 (lookup_seq 0 N i i)) by (split; lia). cbn [fmap option_fmap option_map].
    replace (Nat.max 1 P) with P by lia.
    rewrite floor_div_pos by done. rewrite browserKey_finite.
    do 3 f_equal. symmetry. apply (Nat.div_unique i P w (i - w * P)); lia.
  - intros w w' H. by apply browserKey_finite_inj.
Qed.

Lemma wave_has_own_browser_witness :
  ∃ e, run stopped_mid_wave (executeMulti 10 3) = Some e ∧
       waves e = [[0; 1; 2]; [3; 4; 5]] ∧
       let keys := (BrowserSessionManager.assign_all 10 (tab_mode 3)).1 in
       (∀ w wave i, waves e !! w = Some wave → i ∈ wave →
                    keys !! i = Some ("browser-" +:+ pretty w)) ∧
       (∀ w w' : nat, "browser-" +:+ pretty w = "browser-" +:+ pretty w' → w = w').
Proof.
  assert (Hrun : ∃ e, run stopped_mid_wave (executeMulti 10 3) = Some e ∧
                      waves e = [[0; 1; 2]; [3; 4; 5]]).
  { eexists. split; vm_compute; reflexivity. }
  destruct Hrun as (e & Hrun & Hw). exists e.
  split; [exact Hrun|]. split; [exact Hw|].
  exact (wave_has_own_browser 10 3 stopped_mid_wave e Hrun).
Defined.

End WaveBrowsers.

Section NumeralFacts.
Import Numerals.
Local Open Scope nat_scope.

Lemma pretty_N_go_digits (x : N) :
  ∀ s, digits s = true → digits (pretty_N_go x s) = true.
Proof.
  induction (N.lt_wf_0 x) as [x _ IH]; intros s Hs.
  destruct (decide (x = 0)%N) as [->|Hx]; [by rewrite pretty_N_go_0|].
  rewrite pretty_N_go_step by lia. apply IH; [apply N.div_lt; lia|].
  cbn [digits]. rewrite Hs, andb_true_r.
  unfold pretty_N_char. by repeat case_match.
Qed.

Lemma pretty_nat_digits (n : nat) : digits (pretty n) = true.
Proof.
  unfold pretty, pretty_nat, pretty, pretty_N.
  case_decide; [done|]. by apply pretty_N_go_digits.
Qed.

Lemma digits_dash_inj (a a' r r' : string) :
  digits a = true → digits a' = true →
  a +:+ String "-" r = a' +:+ String "-" r' → a = a' ∧ r = r'.
Proof.
  revert a'. induction a as [|c a IH]; intros [|c' a'] Ha Ha' H; simpl in *.
  - by simplify_eq.
  - injection H as <- _. done.
  - injection H as -> _. done.
  - injection H as -> H.
    apply andb_prop in Ha as [_ Ha]. apply andb_prop in Ha' as [_ Ha'].
    destruct (IH a' Ha Ha' H) as [-> ->]. done.
Qed.

End NumeralFacts.

Section LoadTestFacts.
Import Numerals LoadTest.
Local Open Scope nat_scope.

Lemma workerSessionId_inj (w k w' k' : nat) :
  workerSessionId w k = workerSessionId w' k' → w = w' ∧ k = k'.
Proof.
  unfold workerSessionId. intros H.
  apply (inj (String.app "worker-")) in H.
  change ("-test-" +:+ pretty k) with (String "-" ("test-" +:+ pretty k)) in H.
  change ("-test-" +:+ pretty k') with (String "-" ("test-" +:+ pretty k')) in H.
  apply digits_dash_inj in H as [Hw Hk]; [|apply pretty_nat_digits..].
  apply (inj pretty) in Hw. apply (inj (String.app "test-")) in Hk.
  apply (inj pretty) in Hk. done.
Qed.

Lemma sum_list_fmap_insert {A} (f : A → nat) (l : list A) (i : nat) (a b : A) :
  l !! i = Some a → sum_list_with f (<[i:=b]> l) + f a = sum_list_with f l + f b.
Proof.
  revert i. induction l as [|x l IH]; intros [|i] H; simplify_eq/=.
  - lia.
  - specialize (IH i H). lia.
Qed.

Lemma sum_list_fmap_le {A} (f g : A → nat) (l : list A) :
  (∀ x, f x ≤ g x) → sum_list_with f l ≤ sum_list_with g l.
Proof. intros H. induction l as [|x l IH]; csimpl; [lia|]. specialize (H x). lia. Qed.

Lemma sum_list_fmap_ext_in {A} (f g : A → nat) (l : list A) :
  (∀ x, x ∈ l → f x = g x) → sum_list_with f l = sum_list_with g l.
Proof.
  induction l as [|x l IH]; intros H; csimpl; [done|].
  rewrite (H x) by left. rewrite IH; [done|]. intros y Hy. apply H. by right.
Qed.

Lemma numbers_snoc (w : nat) (ls : list launch) (s : launch) :
  number <$> List.filter (λ s, Nat.eqb (by_worker s) w) (ls ++ [s]) =
  (number <$> List.filter (λ s, Nat.eqb (by_worker s) w) ls) ++
  (if Nat.eqb (by_worker s) w then [number s] else []).
Proof.
  rewrite List.filter_app, fmap_app. cbn [List.filter].
  by destruct (Nat.eqb (by_worker s) w).
Qed.

Lemma elem_of_numbers (w : nat) (ls : list launch) (s : launch) :
  s ∈ ls → by_worker s = w →
  number s ∈ number <$> List.filter (λ s, Nat.eqb (by_worker s) w) ls.
Proof.
  intros Hs Hw. apply list_elem_of_fmap. exists s. split; [done|].
  apply list_elem_of_In, List.filter_In. split; [by apply list_elem_of_In|].
  by apply Nat.eqb_eq.
Qed.

Lemma all_returned_spec (l : load) :
  all_returned l = true ↔ ∀ wk, wk ∈ workers l → doing wk = Returned.
Proof.
  unfold all_returned. rewrite forallb_forall. split.
  - intros H wk Hwk. apply list_elem_of_In, H in Hwk. by destruct (doing wk).
  - intros H wk Hwk. apply list_elem_of_In, H in Hwk. by rewrite Hwk.
Qed.

(** A worker goes on without creating a session. *)
Lemma load_inv_quiet (n : nat) (l : load) (w : nat) (wk wk' : worker)
    (rs : list TestExecutor.result) (ss : gset string) (res rej : nat) (running : bool) :
  load_inv n l → workers l !! w = Some wk → answer l = None →
  created wk' = created wk → doing wk' ≠ Running →
  ss = (match doing wk with
        | Running => sessions l ∖ {[workerSessionId w (testCount wk)]}
        | _ => sessions l
        end) →
  length rs = res →
  res + rej + testCount wk = resolved l + rejected l + testCount wk' →
  load_inv n {| endTime := endTime l; isRunning := running; results := rs;
                sessions := ss; workers := <[w := wk']> (workers l);
                launched := launched l; resolved := res; rejected := rej;
                answer := answer l |}.
Proof.
  intros (Hlen & Hnum & Hby & Hses & Hnd & Htime & Hres & Hcnt & Hsum & Hans)
    Hw Hnone Hcr Hnr -> Hrs Hcount.
  assert (Hwn : w < length (workers l)) by (by eapply lookup_lt_Some).
  unfold load_inv, numbers_of in *.
  cbn [workers launched sessions endTime results resolved rejected answer isRunning].
  split_and!.
  - by rewrite length_insert.
  - intros w0 wk0 H0. apply list_lookup_insert_Some in H0 as [(<- & <- & _)|[Hne H0]].
    + rewrite Hcr. by apply Hnum.
    + by apply Hnum.
  - done.
  - intros id. split.
    + intros Hid.
      assert (Hin : id ∈ sessions l ∧
                    (doing wk = Running → id ≠ workerSessionId w (testCount wk))).
      { destruct (doing wk); set_solver. }
      destruct Hin as [Hin Hnot]. apply Hses in Hin as (w0 & wk0 & H0 & Hd0 & ->).
      exists w0, wk0. split; [|done].
      apply list_lookup_insert_Some. right. split; [|done].
      intros <-. simplify_eq. by apply Hnot.
    + intros (w0 & wk0 & H0 & Hd0 & ->).
      apply list_lookup_insert_Some in H0 as [(<- & <- & _)|[Hne H0]]; [done|].
      assert (Hin : workerSessionId w0 (testCount wk0) ∈ sessions l).
      { apply Hses. by exists w0, wk0. }
      destruct (doing wk); [|done..].
      apply elem_of_difference. split; [done|].
      intros Heq%elem_of_singleton%workerSessionId_inj. by destruct Heq.
  - done.
  - done.
  - done.
  - rewrite Hcnt. pose proof (sum_list_fmap_insert created _ _ _ wk' Hw). lia.
  - pose proof (sum_list_fmap_insert testCount _ _ _ wk' Hw). lia.
  - intros r Hr. congruence.
Qed.

(** A worker creates its next session. *)
Lemma load_inv_launch (n : nat) (l : load) (w k : nat) (wk : worker) (now : Z) (rej : nat) :
  load_inv n l → workers l !! w = Some wk → answer l = None →
  doing wk ≠ Running → created wk = k → (now < endTime l)%Z →
  rej + testCount wk = rejected l + k →
  load_inv n {| endTime := endTime l; isRunning := isRunning l; results := results l;
                sessions := {[workerSessionId w k]} ∪ sessions l;
                workers := <[w := {| testCount := k; doing := Running |}]> (workers l);
                launched := launched l ++ [{| by_worker := w; number := k; at_time := now |}];
                resolved := resolved l; rejected := rej;
                answer := answer l |}.
Proof.
  intros (Hlen & Hnum & Hby & Hses & Hnd & Htime & Hres & Hcnt & Hsum & Hans)
    Hw Hnone Hnr Hk Hnow Hcount.
  assert (Hwn : w < length (workers l)) by (by eapply lookup_lt_Some).
  unfold load_inv, numbers_of in *.
  cbn [workers launched sessions endTime results resolved rejected answer isRunning].
  split_and!.
  - by rewrite length_insert.
  - intros w0 wk0 H0. rewrite numbers_snoc. cbn [by_worker number].
    apply list_lookup_insert_Some in H0 as [(<- & <- & _)|[Hne H0]].
    + rewrite Nat.eqb_refl. cbn [created doing testCount].
      rewrite seq_S. f_equal. rewrite <- Hk. by apply Hnum.
    + destruct (Nat.eqb_spec w w0) as [->|_]; [done|]. rewrite app_nil_r. by apply Hnum.
  - intros s [Hs|Hs%list_elem_of_singleton]%elem_of_app; [by apply Hby|].
    subst s. cbn [by_worker]. lia.
  - intros id. rewrite elem_of_union, elem_of_singleton. split.
    + intros [->|Hin].
      * exists w, {| testCount := k; doing := Running |}. split; [|done].
        apply list_lookup_insert_Some. left. done.
      * apply Hses in Hin as (w0 & wk0 & H0 & Hd0 & ->).
        exists w0, wk0. split; [|done].
        apply list_lookup_insert_Some. right. split; [|done].
        intros <-. simplify_eq.
    + intros (w0 & wk0 & H0 & Hd0 & ->).
      apply list_lookup_insert_Some in H0 as [(<- & <- & _)|[Hne H0]]; [by left|].
      right. apply Hses. by exists w0, wk0.
  - rewrite fmap_app. apply NoDup_app. split; [done|]. split; [|apply NoDup_singleton].
    intros id Hid Hnew%list_elem_of_singleton. subst id.
    apply list_elem_of_fmap in Hid as (s & Heq & Hs).
    unfold launch_id in Heq. cbn [by_worker number] in Heq.
    apply workerSessionId_inj in Heq as [Hsw Hsk].
    pose proof (elem_of_numbers w _ s Hs (eq_sym Hsw)) as Hin.
    specialize (Hnum w wk Hw). rewrite Hnum in Hin.
    apply elem_of_seq in Hin. lia.
  - intros s [Hs|Hs%list_elem_of_singleton]%elem_of_app; [by apply Htime|by subst s].
  - done.
  - rewrite length_app. cbn [length]. rewrite Hcnt.
    pose proof (sum_list_fmap_insert created _ _ _
                  {| testCount := k; doing := Running |} Hw) as Hs.
    cbn [created doing testCount] in Hs. lia.
  - pose proof (sum_list_fmap_insert testCount _ _ _
                  {| testCount := k; doing := Running |} Hw) as Hs.
    cbn [testCount] in Hs. lia.
  - intros r Hr. congruence.
Qed.

Lemma numbers_none (w n : nat) (ls : list launch) :
  (∀ s, s ∈ ls → by_worker s < n) → n ≤ w →
  number <$> List.filter (λ s, Nat.eqb (by_worker s) w) ls = [].
Proof.
  intros Hby Hw. induction ls as [|s ls IH]; [done|]. cbn [List.filter].
  assert (Hs : by_worker s < n) by (apply Hby; left).
  destruct (Nat.eqb_spec (by_worker s) w) as [Heq|_]; [lia|].
  apply IH. intros s' Hs'. apply Hby. by right.
Qed.

(** [workers.push(this._runLoadWorker(i, endTime))] *)
Lemma load_inv_spawn (n : nat) (l : load) (now : Z) :
  load_inv n l → answer l = None →
  (∀ wk, wk ∈ workers l → testCount wk = 0) → resolved l = 0 → rejected l = 0 →
  let l' := _runLoadWorker n now l in
  load_inv (S n) l' ∧ answer l' = None ∧ endTime l' = endTime l ∧
  isRunning l' = isRunning l ∧ results l' = results l ∧
  (∀ wk, wk ∈ workers l' → testCount wk = 0) ∧ resolved l' = 0 ∧ rejected l' = 0.
Proof.
  intros (Hlen & Hnum & Hby & Hses & Hnd & Htime & Hres & Hcnt & Hsum & Hans)
    Hnone Hzero Hr0 Hj0 l'. subst l'.
  unfold _runLoadWorker, loop_turn.
  destruct ((now <? endTime l)%Z && isRunning l) eqn:Hgo.
  - apply andb_prop in Hgo as [Hnow%Z.ltb_lt Hrun].
    unfold load_inv, numbers_of in *.
    cbn [workers launched sessions endTime results resolved rejected answer isRunning].
    split_and!; try done.
    + rewrite length_app. cbn [length]. lia.
    + intros w0 wk0 H0. rewrite numbers_snoc. cbn [by_worker number].
      apply lookup_app_Some in H0 as [H0|[Hge H0]].
      * assert (w0 < n) by (rewrite <- Hlen; by eapply lookup_lt_Some).
        destruct (Nat.eqb_spec n w0) as [?|_]; [lia|]. rewrite app_nil_r. by apply Hnum.
      * rewrite Hlen in Hge, H0.
        assert (w0 = n) as ->.
        { destruct (w0 - n) as [|d] eqn:Hd; [lia|]. by destruct d. }
        rewrite Nat.sub_diag in H0. injection H0 as <-.
        rewrite Nat.eqb_refl, (numbers_none n n) by done. done.
    + intros s [Hs|Hs%list_elem_of_singleton]%elem_of_app.
      * specialize (Hby s Hs). lia.
      * subst s. cbn [by_worker]. lia.
    + intros id. rewrite elem_of_union, elem_of_singleton. split.
      * intros [->|Hin].
        -- exists n, {| testCount := 0; doing := Running |}. split; [|done].
           apply lookup_app_Some. right. rewrite Hlen, Nat.sub_diag. done.
        -- apply Hses in Hin as (w0 & wk0 & H0 & Hd0 & ->).
           exists w0, wk0. split; [|done]. apply lookup_app_Some. by left.
      * intros (w0 & wk0 & H0 & Hd0 & ->).
        apply lookup_app_Some in H0 as [H0|[Hge H0]].
        -- right. apply Hses. by exists w0, wk0.
        -- rewrite Hlen in Hge, H0.
           assert (w0 = n) as ->.
           { destruct (w0 - n) as [|d] eqn:Hd; [lia|]. by destruct d. }
           rewrite Nat.sub_diag in H0. injection H0 as <-. by left.
    + rewrite fmap_app. apply NoDup_app. split; [done|]. split; [|apply NoDup_singleton].
      intros id Hid Hnew%list_elem_of_singleton. subst id.
      apply list_elem_of_fmap in Hid as (s & Heq & Hs).
      unfold launch_id in Heq. cbn [by_worker number] in Heq.
      apply workerSessionId_inj in Heq as [Hsw Hsk].
      specialize (Hby s Hs). lia.
    + intros s [Hs|Hs%list_elem_of_singleton]%elem_of_app; [by apply Htime|by subst s].
    + rewrite length_app, sum_list_with_app. cbn [length]. rewrite Hcnt.
      cbn. lia.
    + rewrite sum_list_with_app. cbn. lia.
    + intros r Hr. congruence.
    + intros wk [Hwk|Hwk%list_elem_of_singleton]%elem_of_app; [by apply Hzero|by subst wk].
  - unfold load_inv, numbers_of in *.
    cbn [workers launched sessions endTime results resolved rejected answer isRunning].
    split_and!; try done.
    + rewrite length_app. cbn [length]. lia.
    + intros w0 wk0 H0.
      apply lookup_app_Some in H0 as [H0|[Hge H0]]; [by apply Hnum|].
      rewrite Hlen in Hge, H0.
      assert (w0 = n) as ->.
      { destruct (w0 - n) as [|d] eqn:Hd; [lia|]. by destruct d. }
      rewrite Nat.sub_diag in H0. injection H0 as <-.
      rewrite (numbers_none n n) by done. done.
    + intros s Hs. specialize (Hby s Hs). lia.
    + intros id. split.
      * intros Hin. apply Hses in Hin as (w0 & wk0 & H0 & Hd0 & ->).
        exists w0, wk0. split; [|done]. apply lookup_app_Some. by left.
      * intros (w0 & wk0 & H0 & Hd0 & ->).
        apply lookup_app_Some in H0 as [H0|[Hge H0]].
        -- apply Hses. by exists w0, wk0.
        -- rewrite Hlen in Hge, H0.
           assert (w0 = n) as ->.
           { destruct (w0 - n) as [|d] eqn:Hd; [lia|]. by destruct d. }
           rewrite Nat.sub_diag in H0. by injection H0 as <-.
    + rewrite sum_list_with_app. rewrite Hcnt. cbn. lia.
    + rewrite sum_list_with_app. cbn. lia.
    + intros r Hr. congruence.
    + intros wk [Hwk|Hwk%list_elem_of_singleton]%elem_of_app; [by apply Hzero|by subst wk].
Qed.

Lemma load_inv_spawn_all (clock : nat → Z) (k : nat) :
  ∀ (n : nat) (l : load),
    load_inv n l → answer l = None →
    (∀ wk, wk ∈ workers l → testCount wk = 0) → resolved l = 0 → rejected l = 0 →
    let l' := fold_left (λ l i, _runLoadWorker i (clock (S i)) l) (seq n k) l in
    load_inv (n + k) l' ∧ answer l' = None ∧ endTime l' = endTime l ∧
    results l' = results l ∧ rejected l' = 0.
Proof.
  induction k as [|k IH]; intros n l Hinv Hnone Hzero Hr0 Hj0; cbn [seq fold_left].
  - rewrite Nat.add_0_r. done.
  - destruct (load_inv_spawn n l (clock (S n)) Hinv Hnone Hzero Hr0 Hj0)
      as (Hinv' & Hnone' & Hend & Hrun & Hres & Hzero' & Hr0' & Hj0').
    destruct (IH (S n) _ Hinv' Hnone' Hzero' Hr0' Hj0') as (H1 & H2 & H3 & H4 & H5).
    replace (n + S k) with (S n + k) by lia.
    split_and!; [done|done|congruence|congruence|done].
Qed.

Lemma load_inv_init (duration concurrency : Z) (clock : nat → Z) :
  let l := executeLoad duration concurrency clock in
  load_inv (Z.to_nat concurrency) l ∧ answer l = None ∧
  endTime l = (clock 0%nat + duration * 60 * 1000)%Z ∧ results l = [] ∧ rejected l = 0.
Proof.
  apply (load_inv_spawn_all clock (Z.to_nat concurrency) 0); try done.
  - unfold load_inv, numbers_of.
    cbn [workers launched sessions endTime results resolved rejected answer isRunning].
    split_and!; try done.
    + intros s Hs. by apply elem_of_nil in Hs.
    + intros id. split; [set_solver|]. intros (w & wk & H & _). done.
    + constructor.
    + intros s Hs. by apply elem_of_nil in Hs.
  - intros wk Hwk. by apply elem_of_nil in Hwk.
Qed.

Lemma load_inv_live (n : nat) (l : load) (w : nat) (wk : worker) :
  load_inv n l → workers l !! w = Some wk → doing wk ≠ Returned → answer l = None.
Proof.
  intros (_ & _ & _ & _ & _ & _ & _ & _ & _ & Hans) Hw Hd.
  destruct (answer l) as [r|] eqn:Hr; [|done].
  destruct (Hans r eq_refl) as (_ & _ & Hall).
  rewrite all_returned_spec in Hall.
  destruct Hd. apply Hall. by eapply list_elem_of_lookup_2.
Qed.

Lemma load_inv_step (n : nat) (l l' : load) (ev : event) :
  load_inv n l → step l ev = Some l' → load_inv n l'.
Proof.
  intros Hinv Hstep.
  assert (Hres : length (results l) = resolved l).
  { by destruct Hinv as (_ & _ & _ & _ & _ & _ & Hres & _). }
  destruct ev as [w|w value|w now|w now| |]; cbn [step] in Hstep.
  - destruct (workers l !! w) as [[k []]|] eqn:Hw; try done.
    injection Hstep as <-.
    apply (load_inv_quiet n l w {| testCount := k; doing := Running |});
      first [done | by eapply load_inv_live | cbn [testCount]; lia].
  - destruct (workers l !! w) as [[k []]|] eqn:Hw; try done.
    injection Hstep as <-.
    apply (load_inv_quiet n l w {| testCount := k; doing := Cleaning |});
      first [done | by eapply load_inv_live
            | rewrite length_app; cbn [length]; lia | cbn [testCount]; lia].
  - destruct (workers l !! w) as [[k []]|] eqn:Hw; try done.
    assert (Hnone : answer l = None) by (by eapply load_inv_live).
    unfold loop_turn in Hstep.
    destruct ((now <? endTime l)%Z && isRunning l) eqn:Hgo; injection Hstep as <-.
    + apply andb_prop in Hgo as [Hnow%Z.ltb_lt Hrun].
      cbn [endTime isRunning results sessions workers launched resolved rejected answer].
      apply (load_inv_launch n l w (S k) {| testCount := k; doing := Cleaning |});
        first [done | cbn [testCount]; lia].
    + apply (load_inv_quiet n l w {| testCount := k; doing := Cleaning |});
        first [done | cbn [testCount]; lia].
  - destruct (workers l !! w) as [[k []]|] eqn:Hw; try done.
    assert (Hnone : answer l = None) by (by eapply load_inv_live).
    unfold loop_turn in Hstep.
    destruct ((now <? endTime l)%Z && isRunning l) eqn:Hgo; injection Hstep as <-.
    + apply andb_prop in Hgo as [Hnow%Z.ltb_lt Hrun].
      unfold set_worker.
      cbn [endTime isRunning results sessions workers launched resolved rejected answer].
      apply (load_inv_launch n l w k {| testCount := k; doing := Pausing |});
        first [done | cbn [testCount]; lia].
    + unfold set_worker.
      apply (load_inv_quiet n l w {| testCount := k; doing := Pausing |});
        first [done | cbn [testCount]; lia].
  - injection Hstep as <-.
    destruct Hinv as (Hlen & Hnum & Hby & Hses & Hnd & Htime & _ & Hcnt & Hsum & Hans).
    unfold load_inv, numbers_of in *.
    cbn [workers launched sessions endTime results resolved rejected answer isRunning].
    split_and!; try done.
    intros r Hr. destruct (Hans r Hr) as (-> & _ & Hall). done.
  - destruct (answer l) as [r|] eqn:Hr; [done|].
    destruct (all_returned l) eqn:Hall; [|done]. injection Hstep as <-.
    destruct Hinv as (Hlen & Hnum & Hby & Hses & Hnd & Htime & _ & Hcnt & Hsum & Hans).
    unfold load_inv, numbers_of in *.
    cbn [workers launched sessions endTime results resolved rejected answer isRunning].
    split_and!; try done.
    + intros id. split; [set_solver|]. intros (w & wk & Hw & Hd & _).
      rewrite all_returned_spec in Hall.
      rewrite (Hall wk) in Hd by (by eapply list_elem_of_lookup_2). done.
    + intros r Hr'. by simplify_eq.
Qed.

Lemma load_inv_run (n : nat) (evs : list event) :
  ∀ l l', load_inv n l → run evs l = Some l' → load_inv n l'.
Proof.
  induction evs as [|ev evs IH]; intros l l' Hinv Hrun; cbn [run] in Hrun.
  - by simplify_eq.
  - destruct (step l ev) as [l1|] eqn:Hstep; [|done]. cbn in Hrun.
    eapply IH; [|done]. by eapply load_inv_step.
Qed.

End LoadTestFacts.

Section LoadTestClaims.
Import LoadTest.
Local Open Scope nat_scope.

Lemma sessions_bounded (n : nat) (l : load) :
  load_inv n l → size (sessions l) ≤ n.
Proof.
  intros (Hlen & _ & _ & Hses & _).
  set (ids := imap (λ w wk, workerSessionId w (testCount wk)) (workers l)).
  trans (size (list_to_set (C := gset string) ids)).
  - apply subseteq_size. intros id Hid.
    apply Hses in Hid as (w & wk & Hw & _ & ->).
    apply elem_of_list_to_set, elem_of_lookup_imap. by exists w, wk.
  - etrans; [apply size_list_to_set_le|]. unfold ids. by rewrite length_imap, Hlen.
Qed.

Lemma step_endTime (l l' : load) (ev : event) :
  step l ev = Some l' → endTime l' = endTime l.
Proof.
  destruct ev as [w|w value|w now|w now| |]; cbn [step]; intros H.
  - destruct (workers l !! w) as [[k []]|]; try done. by injection H as <-.
  - destruct (workers l !! w) as [[k []]|]; try done. by injection H as <-.
  - destruct (workers l !! w) as [[k []]|]; try done. unfold loop_turn in H.
    destruct ((now <? endTime l)%Z && isRunning l); by injection H as <-.
  - destruct (workers l !! w) as [[k []]|]; try done. unfold loop_turn in H.
    destruct ((now <? endTime l)%Z && isRunning l); by injection H as <-.
  - by injection H as <-.
  - destruct (answer l); [done|]. destruct (all_returned l); [|done]. by injection H as <-.
Qed.

Lemma run_endTime (evs : list event) :
  ∀ l l', run evs l = Some l' → endTime l' = endTime l.
Proof.
  induction evs as [|ev evs IH]; intros l l' H; cbn [run] in H; [by simplify_eq|].
  destruct (step l ev) as [l1|] eqn:Hstep; [|done]. cbn in H.
  rewrite (IH _ _ H). by eapply step_endTime.
Qed.

(** Once [isRunning] is false no session is created. *)
Lemma step_stopped_load (l l' : load) (ev : event) :
  isRunning l = false → step l ev = Some l' →
  isRunning l' = false ∧ launched l' = launched l.
Proof.
  intros Hoff. destruct ev as [w|w value|w now|w now| |]; cbn [step]; intros H.
  - destruct (workers l !! w) as [[k []]|]; try done. by injection H as <-.
  - destruct (workers l !! w) as [[k []]|]; try done. by injection H as <-.
  - destruct (workers l !! w) as [[k []]|]; try done. unfold loop_turn in H.
    rewrite Hoff, andb_false_r in H. by injection H as <-.
  - destruct (workers l !! w) as [[k []]|]; try done. unfold loop_turn in H.
    rewrite Hoff, andb_false_r in H. by injection H as <-.
  - by injection H as <-.
  - destruct (answer l); [done|]. destruct (all_returned l); [|done]. by injection H as <-.
Qed.

Lemma run_stopped_load (evs : list event) :
  ∀ l l', isRunning l = false → run evs l = Some l' →
          isRunning l' = false ∧ launched l' = launched l.
Proof.
  induction evs as [|ev evs IH]; intros l l' Hoff H; cbn [run] in H; [by simplify_eq|].
  destruct (step l ev) as [l1|] eqn:Hstep; [|done]. cbn in H.
  destruct (step_stopped_load _ _ _ Hoff Hstep) as [Hoff1 Hl1].
  destruct (IH _ _ Hoff1 H) as [? ?]. split; [done|congruence].
Qed.

Lemma step_results (l l' : load) (ev : event) :
  step l ev = Some l' →
  results l' = results l ++ resolutions [ev] ∧
  rejected l' = rejected l + rejections [ev].
Proof.
  destruct ev as [w|w value|w now|w now| |]; cbn [step]; intros H;
    unfold resolutions, rejections; cbn.
  - destruct (workers l !! w) as [[k []]|]; try done. injection H as <-.
    cbn. rewrite app_nil_r. split; [done|lia].
  - destruct (workers l !! w) as [[k []]|]; try done. injection H as <-.
    cbn. split; [done|lia].
  - destruct (workers l !! w) as [[k []]|]; try done. unfold loop_turn in H.
    destruct ((now <? endTime l)%Z && isRunning l); injection H as <-;
      cbn; rewrite app_nil_r; split; first [done|lia].
  - destruct (workers l !! w) as [[k []]|]; try done. unfold loop_turn in H.
    destruct ((now <? endTime l)%Z && isRunning l); injection H as <-;
      cbn; rewrite app_nil_r; split; first [done|lia].
  - injection H as <-. cbn. rewrite app_nil_r. split; [done|lia].
  - destruct (answer l); [done|]. destruct (all_returned l); [|done]. injection H as <-.
    cbn. rewrite app_nil_r. split; [done|lia].
Qed.

Lemma some_success (rs : list TestExecutor.result) :
  Nat.ltb 0 (length (List.filter TestExecutor.success rs)) = true ↔
  ∃ x, x ∈ rs ∧ TestExecutor.success x = true.
Proof.
  rewrite Nat.ltb_lt. split.
  - intros H. destruct (List.filter TestExecutor.success rs) as [|x xs] eqn:Hf;
      [cbn in H; lia|].
    assert (Hx : In x (List.filter TestExecutor.success rs)) by (rewrite Hf; by left).
    apply List.filter_In in Hx as [Hx Hs]. exists x. split; [by apply list_elem_of_In|done].
  - intros (x & Hx & Hs).
    assert (Hin : In x (List.filter TestExecutor.success rs)).
    { apply List.filter_In. split; [by apply list_elem_of_In|done]. }
    destruct (List.filter TestExecutor.success rs); [done|]. cbn. lia.
Qed.

Lemma run_results (evs : list event) :
  ∀ l l', run evs l = Some l' →
          results l' = results l ++ resolutions evs ∧
          rejected l' = rejected l + rejections evs.
Proof.
  induction evs as [|ev evs IH]; intros l l' H; cbn [run] in H.
  - simplify_eq. unfold resolutions, rejections. cbn. rewrite app_nil_r. split; [done|lia].
  - destruct (step l ev) as [l1|] eqn:Hstep; [|done]. cbn in H.
    destruct (step_results _ _ _ Hstep) as [Hr1 Hj1].
    destruct (IH _ _ H) as [Hr Hj].
    change (ev :: evs) with ([ev] ++ evs).
    unfold resolutions, rejections in *.
    rewrite omap_app, List.filter_app, length_app, Hr, Hr1, Hj, Hj1, <- app_assoc.
    split; [done|lia].
Qed.

(** X15: the workers of [executeLoad] run their sessions one at a
    time.  There are [concurrency] workers (none when it is not
    positive); [this.sessions] holds exactly the sessions whose [run]
    is pending, one for each worker that waits for one, so never more
    than [concurrency]; worker w names its sessions worker-w-test-0,
    worker-w-test-1, ... in this order, and no session id is used
    twice. *)
Theorem executeLoad_one_session_per_worker (duration concurrency : Z) (clock : nat → Z)
    (evs : list event) (l : load) :
  run evs (executeLoad duration concurrency clock) = Some l →
  length (workers l) = Z.to_nat concurrency ∧
  (∀ id, id ∈ sessions l ↔
         ∃ w wk, workers l !! w = Some wk ∧ doing wk = Running ∧
                 id = workerSessionId w (testCount wk)) ∧
  size (sessions l) ≤ Z.to_nat concurrency ∧
  (∀ w wk, workers l !! w = Some wk → numbers_of w l = seq 0 (created wk)) ∧
  NoDup (launch_id <$> launched l).
Proof.
  intros Hrun.
  destruct (load_inv_init duration concurrency clock) as (Hinit & _).
  pose proof (load_inv_run _ evs _ _ Hinit Hrun) as Hinv.
  pose proof (sessions_bounded _ _ Hinv) as Hsize.
  destruct Hinv as (Hlen & Hnum & _ & Hses & Hnd & _).
  done.
Qed.

Lemma executeLoad_one_session_per_worker_witness :
  ∃ l, run stopped_load (executeLoad 1 2 ticks) = Some l ∧
       launch_id <$> launched l =
         ["worker-0-test-0"; "worker-1-test-0"; "worker-1-test-1"] ∧
       size (sessions l) ≤ 2 ∧ NoDup (launch_id <$> launched l).
Proof.
  assert (Hrun : ∃ l, run stopped_load (executeLoad 1 2 ticks) = Some l ∧
                      launch_id <$> launched l =
                        ["worker-0-test-0"; "worker-1-test-0"; "worker-1-test-1"]).
  { eexists. split; vm_compute; reflexivity. }
  destruct Hrun as (l & Hrun & Hids). exists l.
  destruct (executeLoad_one_session_per_worker 1 2 ticks stopped_load l Hrun)
    as (_ & _ & Hsize & _ & Hnd).
  split; [exact Hrun|]. split; [exact Hids|]. split; [exact Hsize|exact Hnd].
Defined.

(** X16: [executeLoad] creates a session only after reading a time
    before [endTime], which is the time of the call plus [duration]
    minutes, and only while [isRunning] holds.  [stop()] changes the
    flag and nothing else: the sessions in flight stay, no session is
    created afterwards, and a worker returns at its next test of the
    loop. *)
Theorem executeLoad_deadline_and_stop (duration concurrency : Z) (clock : nat → Z)
    (evs : list event) (l : load) :
  run evs (executeLoad duration concurrency clock) = Some l →
  endTime l = (clock 0%nat + duration * 60 * 1000)%Z ∧
  (∀ s, s ∈ launched l → (at_time s < endTime l)%Z) ∧
  (∃ l', step l Stop = Some l' ∧ isRunning l' = false ∧ workers l' = workers l ∧
         sessions l' = sessions l ∧ results l' = results l) ∧
  (isRunning l = false →
   (∀ evs' l', run evs' l = Some l' → launched l' = launched l) ∧
   (∀ w k now, workers l !! w = Some {| testCount := k; doing := Pausing |} →
               ∃ l', step l (PauseElapsed w now) = Some l' ∧
                     workers l' !! w = Some {| testCount := k; doing := Returned |})).
Proof.
  intros Hrun.
  destruct (load_inv_init duration concurrency clock) as (Hinit & _ & Hend & _).
  pose proof (load_inv_run _ evs _ _ Hinit Hrun) as Hinv.
  split_and!.
  - by rewrite (run_endTime _ _ _ Hrun).
  - by destruct Hinv as (_ & _ & _ & _ & _ & Htime & _).
  - eexists. split; [reflexivity|]. done.
  - intros Hoff. split.
    + intros evs' l' Hrun'. by destruct (run_stopped_load _ _ _ Hoff Hrun').
    + intros w k now Hw. cbn [step]. rewrite Hw. unfold loop_turn.
      rewrite Hoff, andb_false_r. eexists. split; [reflexivity|].
      cbn [set_worker workers]. apply list_lookup_insert_eq. by eapply lookup_lt_Some.
Qed.

Lemma executeLoad_deadline_and_stop_witness :
  ∃ l, run stopped_load (executeLoad 1 2 ticks) = Some l ∧
       endTime l = 60000%Z ∧ at_time <$> launched l = [1; 2; 1000]%Z ∧
       (∀ s, s ∈ launched l → (at_time s < endTime l)%Z).
Proof.
  assert (Hrun : ∃ l, run stopped_load (executeLoad 1 2 ticks) = Some l ∧
                      at_time <$> launched l = [1; 2; 1000]%Z).
  { eexists. split; vm_compute; reflexivity. }
  destruct Hrun as (l & Hrun & Hat). exists l.
  destruct (executeLoad_deadline_and_stop 1 2 ticks stopped_load l Hrun)
    as (Hend & Htime & _).
  split; [exact Hrun|]. split; [exact Hend|]. split; [exact Hat|exact Htime].
Defined.

(** X17: [executeLoad] reports the sessions that resolved and only
    them.  [results] holds the values of the calls of [_runSession]
    that resolved, in the order in which they did; a call that rejected
    leaves no record, although its worker counts it.  The value
    returned has these results with their summary, and [success] says
    that one of them succeeded.  By then every session created has
    resolved or rejected and [this.sessions] is empty.  With a
    concurrency that is not positive there is no worker and the value
    is returned at once: no results and [success] false. *)
Theorem executeLoad_report (duration concurrency : Z) (clock : nat → Z)
    (evs : list event) (l : load) :
  run evs (executeLoad duration concurrency clock) = Some l →
  results l = resolutions evs ∧
  (∀ r, answer l = Some r →
        TestExecutor.rep_results r = resolutions evs ∧
        TestExecutor.rep_summary r = TestExecutor._createSummary (resolutions evs) ∧
        (TestExecutor.rep_success r = true ↔
         ∃ x, x ∈ resolutions evs ∧ TestExecutor.success x = true) ∧
        length (launched l) = length (resolutions evs) + rejections evs ∧
        sessions l = ∅ ∧ isRunning l = false) ∧
  ((concurrency ≤ 0)%Z →
   ∃ l0, run [WorkersDone] (executeLoad duration concurrency clock) = Some l0 ∧
         answer l0 =
           Some {| TestExecutor.rep_success := false; TestExecutor.rep_results := [];
                   TestExecutor.rep_summary :=
                     {| TestExecutor.total := 0; TestExecutor.successful := 0;
                        TestExecutor.failed := 0 |} |}).
Proof.
  intros Hrun.
  destruct (load_inv_init duration concurrency clock)
    as (Hinit & Hnone & Hend & Hres0 & Hrej0).
  pose proof (load_inv_run _ evs _ _ Hinit Hrun) as Hinv.
  destruct (run_results _ _ _ Hrun) as [Hres Hrej].
  rewrite Hres0 in Hres. cbn [app] in Hres. rewrite Hrej0 in Hrej. cbn [Nat.add] in Hrej.
  split_and!.
  - done.
  - intros r Hr.
    destruct Hinv as (Hlen & Hnum & Hby & Hses & Hnd & Htime & Hlenres & Hcnt & Hsum & Hans).
    destruct (Hans r Hr) as (-> & Hoff & Hall).
    unfold load_report. cbn [TestExecutor.rep_results TestExecutor.rep_summary
      TestExecutor.rep_success]. rewrite Hres.
    rewrite all_returned_spec in Hall.
    split_and!; try done.
    + apply some_success.
    + rewrite Hcnt, <- Hres, Hlenres, <- Hrej, Hsum.
      apply sum_list_fmap_ext_in. intros wk Hwk. unfold created. by rewrite (Hall wk Hwk).
    + apply elem_of_equiv_empty_L. intros id Hid.
      apply Hses in Hid as (w & wk & Hw & Hd & _).
      rewrite (Hall wk) in Hd by (by eapply list_elem_of_lookup_2). done.
  - intros Hc. unfold executeLoad. replace (Z.to_nat concurrency) with 0 by lia.
    eexists. split; reflexivity.
Qed.

Lemma executeLoad_report_witness :
  ∃ l r, run stopped_load (executeLoad 1 2 ticks) = Some l ∧ answer l = Some r ∧
         TestExecutor.rep_results r =
           [ok "worker-0-test-0" 900; ok "worker-1-test-1" 800] ∧
         length (launched l) = 3 ∧ rejections stopped_load = 1.
Proof.
  assert (Hrun : ∃ l r, run stopped_load (executeLoad 1 2 ticks) = Some l ∧
                        answer l = Some r).
  { do 2 eexists. split; vm_compute; reflexivity. }
  destruct Hrun as (l & r & Hrun & Hr). exists l, r.
  destruct (executeLoad_report 1 2 ticks stopped_load l Hrun) as (_ & Hrep & _).
  destruct (Hrep r Hr) as (Hres & _ & _ & Hlen & _).
  split; [exact Hrun|]. split; [exact Hr|]. split; [exact Hres|]. split; [exact Hlen|].
  reflexivity.
Defined.

End LoadTestClaims.

Section TestDataGeneratorFacts.
Import Numerals TestDataGenerator.
Local Open Scope nat_scope.

Lemma length_append (a b : string) :
  String.length (a +:+ b) = String.length a + String.length b.
Proof. induction a as [|c a IH]; simpl; [done|]. by rewrite IH. Qed.

Lemma append_inj_length (a a' b b' : string) :
  String.length a = String.length a' → a +:+ b = a' +:+ b' → a = a' ∧ b = b'.
Proof.
  revert a'. induction a as [|c a IH]; intros [|c' a'] Hlen H; simpl in *; try done.
  injection H as -> H. injection Hlen as Hlen. destruct (IH a' Hlen H) as [-> ->]. done.
Qed.

Lemma length_fill (n : nat) (c : ascii) (s : string) :
  String.length (fill n c s) = n + String.length s.
Proof. induction n as [|n IH]; simpl; [done|]. by rewrite IH. Qed.

Lemma length_padStart (k : nat) (c : ascii) (s : string) :
  String.length (padStart k c s) = Nat.max k (String.length s).
Proof. unfold padStart. rewrite length_fill. lia. Qed.

Lemma length_pretty_N_go (k : nat) :
  ∀ (x : N) (s : string), (x < 10 ^ N.of_nat k)%N →
    String.length (pretty_N_go x s) ≤ k + String.length s.
Proof.
  induction k as [|k IH]; intros x s Hx.
  - assert (x = 0%N) as -> by (cbn in Hx; lia). rewrite pretty_N_go_0. lia.
  - destruct (decide (x = 0)%N) as [->|Hpos]; [rewrite pretty_N_go_0; lia|].
    rewrite pretty_N_go_step by lia.
    etrans; [apply IH|simpl; lia].
    apply N.Div0.div_lt_upper_bound.
    replace (N.of_nat (S k)) with (N.succ (N.of_nat k)) in Hx by lia.
    rewrite N.pow_succ_r' in Hx. lia.
Qed.

Lemma length_pretty_N (k : nat) (x : N) :
  0 < k → (x < 10 ^ N.of_nat k)%N → String.length (pretty x) ≤ k.
Proof.
  intros Hk Hx. unfold pretty, pretty_N. case_decide; [simpl; lia|].
  etrans; [by apply (length_pretty_N_go k)|]. simpl. lia.
Qed.

Lemma length_counter (n : nat) : String.length (counter n) = 2.
Proof.
  unfold counter. rewrite length_padStart.
  assert (String.length (pretty (n mod 100)) ≤ 2); [|lia].
  apply (length_pretty_N 2); [lia|].
  pose proof (Nat.mod_upper_bound n 100). change (10 ^ N.of_nat 2)%N with 100%N. lia.
Qed.

Lemma length_timestamp (now : Z) : (0 ≤ now)%Z → String.length (timestamp now) = 6.
Proof.
  intros Hnow. unfold timestamp. rewrite length_padStart.
  assert (String.length (pretty (Z.rem now 1000000)) ≤ 6); [|lia].
  pose proof (Z.rem_bound_pos now 1000000 Hnow) as Hb.
  destruct (Z.rem now 1000000) as [|p|p] eqn:Hr; [simpl; lia| |lia].
  change (pretty (Z.pos p)) with (pretty (N.pos p)).
  apply (length_pretty_N 6); [lia|]. change (10 ^ N.of_nat 6)%N with 1000000%N. lia.
Qed.

Lemma counter_inj (a b : nat) : a < 100 → b < 100 → counter a = counter b → a = b.
Proof.
  intros Ha Hb Heq.
  assert (Hall : counters_differ = true) by (vm_compute; reflexivity).
  unfold counters_differ in Hall. rewrite forallb_forall in Hall.
  specialize (Hall a (proj2 (in_seq 100 0 a) ltac:(lia))).
  rewrite forallb_forall in Hall.
  specialize (Hall b (proj2 (in_seq 100 0 b) ltac:(lia))).
  apply (proj2 (String.eqb_eq _ _)) in Heq. rewrite Heq in Hall. cbn in Hall.
  by apply Nat.eqb_eq.
Qed.

(** Two names of one generator that agree were made with the same
    counter, modulo 100. *)
Lemma testName_counter (g : generator) (now now' : Z) (n n' : nat) :
  (0 ≤ now)%Z → (0 ≤ now')%Z → testName g now n = testName g now' n' →
  n mod 100 = n' mod 100.
Proof.
  intros Hnow Hnow' H. unfold testName in H.
  apply (inj (String.app "test")) in H. apply (inj (String.app (processId g))) in H.
  apply append_inj_length in H as [_ H];
    [|by rewrite !length_timestamp].
  unfold counter in H.
  apply (counter_inj (n mod 100) (n' mod 100)); [by apply Nat.mod_upper_bound..|].
  unfold counter. by rewrite !Nat.Div0.mod_mod.
Qed.

Lemma testName_processId (g g' : generator) (now : Z) (n : nat) :
  processId g' = processId g → testName g' now n = testName g now n.
Proof. unfold testName. by intros ->. Qed.

Lemma generate_in_step (nows : list Z) :
  ∀ (g : generator) (c : nat),
    in_step g c → c + length nows ≤ 100 → (∀ t, t ∈ nows → (0 ≤ t)%Z) →
    (generate nows g).1 = imap (λ i t, testName g t (c + i)) nows ∧
    in_step (generate nows g).2 (c + length nows) ∧
    processId (generate nows g).2 = processId g.
Proof.
  induction nows as [|now nows IH]; intros g c [Hc Hused] Hle Hpos.
  - cbn. rewrite Nat.add_0_r. done.
  - cbn [generate generateUniqueTestName length] in *.
    assert (Hnow : (0 ≤ now)%Z) by (apply Hpos; left).
    destruct (decide (testName g now (globalCounter g) ∈ usedNames g)) as [Hin|Hnew].
    { apply Hused in Hin as (t & n & Ht & Hn & Heq).
      apply testName_counter in Heq; [|done..].
      rewrite !Nat.mod_small in Heq by lia. lia. }
    set (g1 := {| processId := processId g; globalCounter := S (globalCounter g);
                  usedNames := {[testName g now (globalCounter g)]} ∪ usedNames g |}).
    assert (Hstep : in_step g1 (S c)).
    { split; [cbn; lia|]. intros name [Hname%elem_of_singleton|Hname]%elem_of_union.
      - exists now, c. split; [done|]. split; [lia|]. by rewrite Hname, Hc.
      - destruct (Hused name Hname) as (t & n & Ht & Hn & ->).
        exists t, n. split; [done|]. split; [lia|done]. }
    destruct (IH g1 (S c) Hstep) as (Hnames & Hstep' & Hpid).
    { lia. }
    { intros t Ht. apply Hpos. by right. }
    destruct (generate nows g1) as [names g2]. cbn [fst snd] in *.
    split_and!.
    + rewrite Hnames. cbn [imap]. f_equal.
      * by rewrite Hc, Nat.add_0_r.
      * apply imap_ext. intros i t _. cbn [compose].
        replace (S c + i) with (c + S i) by lia. by apply testName_processId.
    + by replace (c + S (length nows)) with (S c + length nows) by lia.
    + done.
Qed.

Lemma generate_names_at (now : Z) (k : nat) :
  ∀ g, length (generate (replicate k now) g).1 = k ∧
       ∀ name, name ∈ (generate (replicate k now) g).1 → name ∈ names_at g now.
Proof.
  assert (Hat : ∀ g n, testName g now n ∈ names_at g now).
  { intros g n. apply list_elem_of_fmap. exists (n mod 100). split.
    - unfold testName, counter. by rewrite Nat.Div0.mod_mod.
    - apply elem_of_seq. pose proof (Nat.mod_upper_bound n 100). lia. }
  induction k as [|k IH]; intros g; cbn [replicate generate].
  - split; [done|]. intros name H. by apply elem_of_nil in H.
  - destruct (generateUniqueTestName None now g) as [name g1] eqn:Hg.
    assert (Hg1 : name ∈ names_at g now ∧ processId g1 = processId g).
    { cbn [generateUniqueTestName] in Hg.
      destruct (decide (testName g now (globalCounter g) ∈ usedNames g));
        injection Hg as <- <-; split; first [apply Hat|done]. }
    destruct Hg1 as [Hname Hpid].
    destruct (IH g1) as [Hlen Hin].
    destruct (generate (replicate k now) g1) as [names g2]. cbn [fst snd length] in *.
    split; [by rewrite Hlen|].
    intros x [->|Hx]%elem_of_cons; [done|].
    apply Hin in Hx. unfold names_at in *.
    apply list_elem_of_fmap in Hx as (n & -> & Hn).
    apply list_elem_of_fmap. exists n. split; [by apply testName_processId|done].
Qed.

(** X18: a generator that has just been constructed or reset gives
    distinct names to its first 100 callers, whatever the clock reads
    (readings are not negative).  A name is test, the process id, six
    digits of the clock and two digits of the counter: 14 characters
    for a constructed generator. *)
Theorem first_hundred_names_differ (g : generator) (nows : list Z) :
  length nows ≤ 100 → (∀ t, t ∈ nows → (0 ≤ t)%Z) →
  let names := (generate nows (reset g)).1 in
  NoDup names ∧ length names = length nows ∧
  (∀ name, name ∈ names → String.length name = 12 + String.length (processId g)) ∧
  (∀ pid, String.length (processId (new_generator pid)) = 2 ∧
          new_generator pid = reset (new_generator pid)).
Proof.
  intros Hle Hpos names.
  assert (Hfresh : in_step (reset g) 0).
  { split; [done|]. intros name H. cbn in H. set_solver. }
  destruct (generate_in_step nows (reset g) 0 Hfresh) as (Hnames & _ & _); [lia|done|].
  subst names. rewrite Hnames. split_and!.
  - apply NoDup_alt. intros i j name Hi Hj.
    apply list_lookup_imap_Some in Hi as (t & Hti & ->).
    apply list_lookup_imap_Some in Hj as (t' & Htj & Heq).
    apply testName_counter in Heq.
    + pose proof (lookup_lt_Some _ _ _ Hti). pose proof (lookup_lt_Some _ _ _ Htj).
      rewrite !Nat.mod_small in Heq by lia. lia.
    + apply Hpos. by eapply list_elem_of_lookup_2.
    + apply Hpos. by eapply list_elem_of_lookup_2.
  - by rewrite length_imap.
  - intros name Hname. apply elem_of_lookup_imap in Hname as (i & t & -> & Ht).
    unfold testName. rewrite !length_append, length_counter, length_timestamp.
    + cbn. lia.
    + apply Hpos. by eapply list_elem_of_lookup_2.
  - intros pid. split; [|done]. unfold new_generator. cbn [processId].
    apply (length_counter pid).
Qed.

Lemma first_hundred_names_differ_witness :
  NoDup (generate [1730000000000; 1730000000000; 1730001000000]%Z
           (reset (new_generator 4711))).1.
Proof.
  apply (first_hundred_names_differ (new_generator 4711)
           [1730000000000; 1730000000000; 1730001000000]%Z).
  - cbn. lia.
  - intros t Ht. repeat (apply elem_of_cons in Ht as [->|Ht]; [lia|]).
    by apply elem_of_nil in Ht.
Defined.

(** X19: at one reading of the clock the generator has 100 names to
    give, one for each value of the two-digit counter.  So among more
    than 100 names made at the same reading two are equal, whatever the
    state of the generator: the check against [usedNames] retries once
    and does not check the name it then returns. *)
Theorem names_repeat_within_one_reading (g : generator) (now : Z) (k : nat) :
  100 < k → ¬ NoDup (generate (replicate k now) g).1.
Proof.
  intros Hk Hnd. destruct (generate_names_at now k g) as [Hlen Hin].
  pose proof (submseteq_length _ _ (NoDup_submseteq _ _ Hnd Hin)) as Hle.
  rewrite Hlen in Hle. unfold names_at in Hle. rewrite length_fmap, length_seq in Hle. lia.
Qed.

Lemma names_repeat_within_one_reading_witness :
  ¬ NoDup (generate (replicate 101 1730000000000%Z) (new_generator 4711)).1.
Proof.
  apply (names_repeat_within_one_reading (new_generator 4711) 1730000000000%Z 101). lia.
Defined.

End TestDataGeneratorFacts.

Section CliFacts.
Import Cli.
Local Open Scope Z_scope.

Variable parseInt : option string → option Z.

Lemma is_one_of_spec (names : list string) (arg : string) :
  is_one_of names arg = true ↔ arg ∈ names.
Proof.
  unfold is_one_of. rewrite existsb_exists. split.
  - intros (x & Hx & Heq%String.eqb_eq). subst x. by apply list_elem_of_In.
  - intros H. exists arg. split; [by apply list_elem_of_In|apply String.eqb_refl].
Qed.

Lemma named_cons (names : list string) (arg : string) (rest : list string) :
  named names rest → named names (arg :: rest).
Proof. intros (x & Hx & Hin). exists x. split; [done|by right]. Qed.

Lemma named_head (names : list string) (arg : string) (rest : list string) :
  is_one_of names arg = true → named names (arg :: rest).
Proof. intros H%is_one_of_spec. exists arg. split; [done|left]. Qed.

Lemma kept_refl (args : list string) (o : flags) : kept args o o.
Proof. unfold kept. split_and!; done. Qed.

(** The arguments [arg :: skipped ++ rest] of which [arg] has set at
    most the field of its flags [names], when [rest] is read next. *)
Lemma kept_cons (arg : string) (skipped rest : list string) (o o1 o' : flags) :
  kept rest o1 o' →
  f_mode o1 = f_mode o →
  (f_count o1 ≠ f_count o → is_one_of ["-c"; "--count"] arg = true) →
  (f_concurrency o1 ≠ f_concurrency o →
   is_one_of ["-p"; "--parallel"; "--concurrency"] arg = true) →
  (f_duration o1 ≠ f_duration o → is_one_of ["-d"; "--duration"] arg = true) →
  (f_useTabMode o1 ≠ f_useTabMode o → arg = "--no-tab-mode") →
  kept (arg :: skipped ++ rest) o o'.
Proof.
  intros (Hm & Hc & Hp & Hd & Ht) Hm1 Hc1 Hp1 Hd1 Ht1.
  assert (Hlater : ∀ names, named names rest → named names (arg :: skipped ++ rest)).
  { intros names (x & Hx & Hin). exists x. split; [done|].
    right. apply elem_of_app. by right. }
  unfold kept. split_and!.
  - congruence.
  - intros Hne. destruct (decide (f_count o1 = f_count o)) as [Heq|Hne1].
    + apply Hlater, Hc. congruence.
    + by apply named_head, Hc1.
  - intros Hne. destruct (decide (f_concurrency o1 = f_concurrency o)) as [Heq|Hne1].
    + apply Hlater, Hp. congruence.
    + by apply named_head, Hp1.
  - intros Hne. destruct (decide (f_duration o1 = f_duration o)) as [Heq|Hne1].
    + apply Hlater, Hd. congruence.
    + by apply named_head, Hd1.
  - intros Hne. destruct (decide (f_useTabMode o1 = f_useTabMode o)) as [Heq|Hne1].
    + right. apply elem_of_app. right. apply Ht. congruence.
    + rewrite (Ht1 Hne1). left.
Qed.

Lemma read_flags_keeps (n : nat) :
  ∀ (args : list string) (o : flags),
    (length args ≤ n)%nat → kept args o (read_flags parseInt args o).
Proof.
  induction n as [|n IH]; intros args o Hlen.
  { destruct args; [apply kept_refl|cbn in Hlen; lia]. }
  destruct args as [|arg rest]; [apply kept_refl|].
  cbn [read_flags length] in *.
  assert (Hvalue : ∀ o1 : flags,
            f_mode o1 = f_mode o →
            (f_count o1 ≠ f_count o → is_one_of ["-c"; "--count"] arg = true) →
            (f_concurrency o1 ≠ f_concurrency o →
             is_one_of ["-p"; "--parallel"; "--concurrency"] arg = true) →
            (f_duration o1 ≠ f_duration o → is_one_of ["-d"; "--duration"] arg = true) →
            f_useTabMode o1 = f_useTabMode o →
            kept (arg :: rest) o
              match rest with
              | _ :: rest' => read_flags parseInt rest' o1
              | [] => o1
              end).
  { intros o1 Hm1 Hc1 Hp1 Hd1 Ht1. destruct rest as [|value rest'].
    - apply (kept_cons arg [] [] o o1 o1); [apply kept_refl|done..|congruence].
    - cbn [length] in Hlen.
      apply (kept_cons arg [value] rest' o o1); [apply IH; lia|done..|congruence]. }
  destruct (is_one_of ["-c"; "--count"] arg) eqn:Ec.
  { destruct rest as [|value rest'];
      apply (Hvalue {| f_mode := f_mode o; f_count := number_or parseInt 3 _;
                       f_concurrency := f_concurrency o; f_duration := f_duration o;
                       f_useTabMode := f_useTabMode o |}); done. }
  destruct (is_one_of ["-p"; "--parallel"; "--concurrency"] arg) eqn:Ep.
  { destruct rest as [|value rest'];
      apply (Hvalue {| f_mode := f_mode o; f_count := f_count o;
                       f_concurrency := number_or parseInt 2 _;
                       f_duration := f_duration o;
                       f_useTabMode := f_useTabMode o |}); done. }
  destruct (is_one_of ["-d"; "--duration"] arg) eqn:Ed.
  { destruct rest as [|value rest'];
      apply (Hvalue {| f_mode := f_mode o; f_count := f_count o;
                       f_concurrency := f_concurrency o;
                       f_duration := number_or parseInt 5 _;
                       f_useTabMode := f_useTabMode o |}); done. }
  destruct (String.eqb_spec arg "--no-tab-mode") as [->|Hne].
  { apply (kept_cons "--no-tab-mode" [] rest o
             {| f_mode := f_mode o; f_count := f_count o;
                f_concurrency := f_concurrency o; f_duration := f_duration o;
                f_useTabMode := false |}); [apply IH; lia|done..]. }
  apply (kept_cons arg [] rest o o); [apply IH; lia|done..].
Qed.

(** X20: what [parseArgs] returns unless help is asked for.  The mode
    is single, multi or load, and it is not single only when the first
    argument names it, in any case; elsewhere the word is ignored.  An
    option keeps its default unless one of its flags is among the
    arguments: the count is 3 unless -c or --count is there, the
    concurrency 2 unless -p, --parallel or --concurrency is, the
    duration 5 unless -d or --duration is, tab mode is on unless
    --no-tab-mode is, and [tabsPerBrowser] is 2 unless a flag of the
    concurrency or --no-tab-mode is there. *)
Theorem parseArgs_options (args : list string) :
  match parseArgs parseInt args with
  | None => "--help" ∈ args ∨ "-h" ∈ args
  | Some o =>
    ("--help" ∉ args) ∧ ("-h" ∉ args) ∧
    mode o ∈ modes ∧
    (mode o ≠ "single" →
     ∃ first rest, args = first :: rest ∧ JsString.toLowerCase first = mode o) ∧
    (count o ≠ 3 → "-c" ∈ args ∨ "--count" ∈ args) ∧
    (concurrency o ≠ 2 →
     "-p" ∈ args ∨ "--parallel" ∈ args ∨ "--concurrency" ∈ args) ∧
    (duration o ≠ 5 → "-d" ∈ args ∨ "--duration" ∈ args) ∧
    (useTabMode o = false → "--no-tab-mode" ∈ args) ∧
    (tabsPerBrowser o ≠ 2 →
     "-p" ∈ args ∨ "--parallel" ∈ args ∨ "--concurrency" ∈ args ∨
     "--no-tab-mode" ∈ args)
  end.
Proof.
  unfold parseArgs.
  destruct (is_one_of args "--help") eqn:Hhelp.
  { cbn. left. unfold is_one_of in Hhelp. apply existsb_exists in Hhelp as (x & Hx & Heq).
    apply String.eqb_eq in Heq. subst x. by apply list_elem_of_In. }
  destruct (is_one_of args "-h") eqn:Hh.
  { cbn. right. unfold is_one_of in Hh. apply existsb_exists in Hh as (x & Hx & Heq).
    apply String.eqb_eq in Heq. subst x. by apply list_elem_of_In. }
  cbn [orb].
  assert (Hno : ∀ word, is_one_of args word = false → word ∉ args).
  { intros word Hw Hin. apply list_elem_of_In in Hin.
    assert (is_one_of args word = true); [|congruence].
    unfold is_one_of. apply existsb_exists. exists word. split; [done|].
    apply String.eqb_refl. }
  assert (Hmode : ∀ o args', read_mode args = (o, args') →
            f_count o = 3 ∧ f_concurrency o = 2 ∧ f_duration o = 5 ∧
            f_useTabMode o = true ∧ f_mode o ∈ modes ∧
            (f_mode o ≠ "single" →
             ∃ first rest, args = first :: rest ∧ JsString.toLowerCase first = f_mode o) ∧
            (∀ word, word ∈ args' → word ∈ args)).
  { intros o args' H. unfold read_mode in H.
    assert (Hdef : f_count defaults = 3 ∧ f_concurrency defaults = 2 ∧
                   f_duration defaults = 5 ∧ f_useTabMode defaults = true ∧
                   f_mode defaults ∈ modes ∧
                   (f_mode defaults ≠ "single" →
                    ∃ first rest, args = first :: rest ∧
                                  JsString.toLowerCase first = f_mode defaults) ∧
                   (∀ word, word ∈ args → word ∈ args)).
    { split_and!; try done. left. }
    destruct args as [|first rest]; [by injection H as <- <-|].
    destruct (negb (JsString.startsWith "-" first)); [|by injection H as <- <-].
    destruct (is_one_of modes (JsString.toLowerCase first)) eqn:Hm;
      [|by injection H as <- <-].
    injection H as <- <-. cbn [f_mode f_count f_concurrency f_duration f_useTabMode defaults].
    split_and!; try done.
    - by apply is_one_of_spec.
    - intros _. by exists first, rest.
    - intros word Hin. by right. }
  destruct (read_mode args) as [o args'] eqn:Hread.
  destruct (Hmode o args' eq_refl) as (Hc & Hp & Hd & Ht & Hm & Hfirst & Hsub).
  destruct (read_flags_keeps (length args') args' o) as (Hm' & Hc' & Hp' & Hd' & Ht');
    [lia|].
  rewrite Hc in Hc'. rewrite Hp in Hp'. rewrite Hd in Hd'. rewrite Ht in Ht'.
  assert (Hpar : f_concurrency (read_flags parseInt args' o) ≠ 2 →
                 "-p" ∈ args ∨ "--parallel" ∈ args ∨ "--concurrency" ∈ args).
  { intros Hne. destruct (Hp' Hne) as (x & Hx & Hin%Hsub).
    set_unfold in Hx. destruct Hx as [->|[->|[->|[]]]]; auto. }
  cbn [mode count concurrency duration useTabMode tabsPerBrowser].
  split_and!.
  - by apply Hno.
  - by apply Hno.
  - by rewrite Hm'.
  - rewrite Hm'. done.
  - intros Hne. destruct (Hc' Hne) as (x & Hx & Hin%Hsub).
    set_unfold in Hx. destruct Hx as [->|[->|[]]]; auto.
  - exact Hpar.
  - intros Hne. destruct (Hd' Hne) as (x & Hx & Hin%Hsub).
    set_unfold in Hx. destruct Hx as [->|[->|[]]]; auto.
  - intros Hoff. apply Hsub, Ht'. rewrite Hoff. done.
  - destruct (f_useTabMode (read_flags parseInt args' o)) eqn:Htab.
    + intros Hne. destruct Hpar as [H|[H|H]]; auto. lia.
    + intros _. do 3 right. apply Hsub, Ht'. done.
Qed.

End CliFacts.

Section ExitCode.
Import TestExecutor Cli.

Lemma successful_positive (rs : list result) :
  Nat.ltb 0 (successful (_createSummary rs)) = true ↔ ∃ x, x ∈ rs ∧ success x = true.
Proof.
  unfold _createSummary. cbn [successful]. rewrite Nat.ltb_lt. split.
  - intros H. destruct (filter (λ r, success r = true) rs) as [|x xs] eqn:Hf;
      [cbn in H; lia|].
    assert (Hx : x ∈ filter (λ r, success r = true) rs) by (rewrite Hf; left).
    apply list_elem_of_filter in Hx as [Hs Hx]. by exists x.
  - intros (x & Hx & Hs).
    assert (Hin : x ∈ filter (λ r, success r = true) rs).
    { by apply list_elem_of_filter. }
    destruct (filter (λ r, success r = true) rs); [by apply elem_of_nil in Hin|].
    cbn. lia.
Qed.

(** X21: the exit code of the command line.  After [executeMulti]
    the process exits with 0 when there is no result at all or when one
    session succeeded, however many failed, and with 1 only when there
    are results and every one is a failure.  After [executeLoad] it
    exits with 0 exactly when one session succeeded. *)
Theorem exit_code (e : executor) (r : report) :
  returned e = Some r →
  (exitCode r = 0%Z ↔ results e = [] ∨ ∃ x, x ∈ results e ∧ success x = true) ∧
  (exitCode r = 1%Z ↔ results e ≠ [] ∧ ∀ x, x ∈ results e → success x = false) ∧
  (∀ l : LoadTest.load,
     exitCode (LoadTest.load_report l) = 0%Z ↔
     ∃ x, x ∈ LoadTest.results l ∧ success x = true).
Proof.
  intros Hr. unfold returned in Hr. destruct (at_phase e); try done.
  injection Hr as <-. unfold exitCode. cbn [rep_success rep_summary].
  pose proof (successful_positive (results e)) as Hpos.
  assert (Hmulti : (forallb success (results e) ||
                    Nat.ltb 0 (successful (_createSummary (results e))))%bool = true ↔
                   results e = [] ∨ ∃ x, x ∈ results e ∧ success x = true).
  { rewrite orb_true_iff, Hpos. split.
    - intros [Hall|Hex]; [|by right].
      destruct (results e) as [|x xs] eqn:Hrs; [by left|]. right.
      cbn in Hall. apply andb_prop in Hall as [Hx _]. exists x. split; [left|done].
    - intros [->|Hex]; [by left|by right]. }
  remember (forallb success (results e) ||
            Nat.ltb 0 (successful (_createSummary (results e))))%bool as b eqn:Hb.
  clear Hb Hpos.
  split_and!.
  - destruct b.
    + split; [intros _; by apply Hmulti|done].
    + split; [done|]. intros H. by apply Hmulti in H.
  - destruct b.
    + split; [done|]. intros [Hne Hall].
      destruct (proj1 Hmulti eq_refl) as [?|(x & Hx & Hs)]; [done|].
      rewrite (Hall x Hx) in Hs. done.
    + split; [|done]. intros _. split.
      * intros Hnil. assert (false = true); [|done]. apply Hmulti. by left.
      * intros x Hx. destruct (success x) eqn:Hs; [|done].
        assert (false = true); [|done]. apply Hmulti. right. by exists x.
  - intros l. unfold LoadTest.load_report. cbn [rep_success rep_summary].
    pose proof (successful_positive (LoadTest.results l)) as Hl.
    pose proof (some_success (LoadTest.results l)) as Hsome.
    destruct (Nat.ltb 0 (length (List.filter success (LoadTest.results l)))).
    + cbn [orb]. split; [intros _; by apply Hsome|done].
    + cbn [orb]. destruct (Nat.ltb 0 (successful (_createSummary (LoadTest.results l)))).
      * split; [intros _; by apply Hl|done].
      * split; [done|]. intros H. by apply Hl in H.
Qed.

Lemma exit_code_witness :
  ∃ e r, run stopped_mid_wave (executeMulti 10 3) = Some e ∧ returned e = Some r ∧
         (exitCode r = 0%Z ↔ results e = [] ∨ ∃ x, x ∈ results e ∧ success x = true).
Proof.
  assert (Hrun : ∃ e r, run stopped_mid_wave (executeMulti 10 3) = Some e ∧
                        returned e = Some r).
  { do 2 eexists. split; vm_compute; reflexivity. }
  destruct Hrun as (e & r & Hrun & Hr). exists e, r.
  split; [exact Hrun|]. split; [exact Hr|].
  exact (proj1 (exit_code e r Hr)).
Defined.

End ExitCode.

Section LoggerFacts.
Import Logger.

Variable inherited : string → bool.

(** X22: [debug] never prints, whatever the configured level: the
    level debug is 0 in the table and [levels[level] || 1] turns it
    into 1, so a logger configured with debug behaves as one configured
    with info.  With warn and error the methods below the level are
    silent, any name outside the table counts as info, and with a name
    inherited from [Object.prototype] no method prints, not even
    [error]. *)
Theorem debug_never_prints (level : string) (m : method) :
  prints inherited level debug = false ∧
  prints inherited "debug" m = prints inherited "info" m ∧
  (prints inherited "info" m = true ↔ m ≠ debug) ∧
  (prints inherited "warn" m = true ↔ m = warn ∨ m = error) ∧
  (prints inherited "error" m = true ↔ m = error) ∧
  (level ∉ ["debug"; "info"; "warn"; "error"] →
   prints inherited level m =
     if inherited level then false else prints inherited "info" m).
Proof.
  split_and!.
  - unfold prints, getLogLevel, levels.
    repeat (destruct (String.eqb level _); [done|]). by destruct (inherited level).
  - done.
  - destruct m; cbn; split; first [done | by intros [] | intros H; by destruct H].
  - destruct m; cbn; split; first [done | by intros [|] | by left | by right].
  - destruct m; cbn; split; done.
  - intros Hnot. unfold prints, getLogLevel, levels.
    destruct (String.eqb_spec level "debug") as [->|_]; [destruct Hnot; set_solver|].
    destruct (String.eqb_spec level "info") as [->|_]; [destruct Hnot; set_solver|].
    destruct (String.eqb_spec level "warn") as [->|_]; [destruct Hnot; set_solver|].
    destruct (String.eqb_spec level "error") as [->|_]; [destruct Hnot; set_solver|].
    by destruct (inherited level).
Qed.

End LoggerFacts.

Section TestManagerFacts.
Import TestManagerService.
Local Open Scope nat_scope.

Lemma push_log_last (message : string) (logs : list string) :
  length logs ≤ 100 →
  push_log message logs =
    drop (length (logs ++ [message]) - 100) (logs ++ [message]) ∧
  length (push_log message logs) ≤ 100.
Proof.
  intros Hlen. unfold push_log. rewrite length_app. cbn [length].
  destruct (Nat.ltb_spec 100 (length logs + 1)) as [Hlt|Hge].
  - replace (length logs + 1 - 100) with 1 by lia.
    destruct logs as [|x logs]; [cbn in Hlt; lia|]. cbn.
    split; [done|]. rewrite length_app. cbn in *. lia.
  - replace (length logs + 1 - 100) with 0 by lia. cbn [drop].
    split; [done|]. rewrite length_app. cbn. lia.
Qed.

Lemma addLog_all (messages : list string) :
  ∀ s, length (logs s) ≤ 100 →
    let s' := foldl (λ s m, _addLog m s) s messages in
    logs s' = drop (length (logs s ++ messages) - 100) (logs s ++ messages) ∧
    length (logs s') ≤ 100.
Proof.
  induction messages as [|m messages IH]; intros s Hlen; cbn [foldl].
  - rewrite app_nil_r. replace (length (logs s) - 100) with 0 by lia. done.
  - destruct (push_log_last m (logs s) Hlen) as [Hpush Hlen1].
    destruct (IH (_addLog m s)) as [Hlogs Hlen2]; [done|].
    split; [|done]. rewrite Hlogs. cbn [_addLog logs]. rewrite Hpush.
    replace (logs s ++ m :: messages) with ((logs s ++ [m]) ++ messages)
      by (by rewrite <- app_assoc).
    set (l := logs s ++ [m]).
    assert (Hl : length l = length (logs s) + 1) by (unfold l; rewrite length_app; done).
    destruct (decide (length l ≤ 100)) as [Hsmall|Hbig].
    + replace (length l - 100) with 0 by lia. done.
    + replace (length l - 100) with 1 by lia.
      rewrite !length_app, length_drop.
      replace (length l - 1 + length messages - 100) with (length messages) by lia.
      replace (length l + length messages - 100) with (1 + length messages) by lia.
      rewrite <- drop_drop. f_equal. rewrite drop_app_le by lia. done.
Qed.

Lemma step_tidy (s s' : service) (ev : event) (r : outcome) :
  tidy s → step s ev = Some (r, s') → tidy s'.
Proof.
  intros Htidy Hstep. pose proof Htidy as (Hcur & Halive & Hlogs).
  assert (Hadd : ∀ m s0, tidy s0 → tidy (_addLog m s0)).
  { intros m s0 (H1 & H2 & H3). split_and!; [done..|].
    by apply push_log_last. }
  destruct ev as [o| |p data|p data|p code|p message]; cbn [step] in Hstep.
  - injection Hstep as Hrun. unfold runTest in Hrun.
    destruct (isRunning s); [injection Hrun as <- <-; done|].
    destruct (_buildCommand _) as [message|command]; injection Hrun as <- <-.
    + split_and!; cbn; [done|done|lia].
    + split_and!; cbn [currentProcess alive children logs _addLog].
      * intros p [= <-]. rewrite length_app. cbn. lia.
      * intros p [->%elem_of_singleton|Hp]%elem_of_union; rewrite length_app; cbn; [lia|].
        specialize (Halive p Hp). lia.
      * apply push_log_last. cbn. lia.
  - injection Hstep as Hstop. unfold stopTest in Hstop.
    destruct (currentProcess s) as [p|] eqn:Hp; injection Hstop as <- <-; [|done].
    apply Hadd. split_and!; cbn; [|done..].
    intros q Hq. apply Hcur. congruence.
  - destruct (decide (p ∈ alive s)); [|done]. injection Hstep as <- <-. by apply Hadd.
  - destruct (decide (p ∈ alive s)); [|done]. injection Hstep as <- <-. by apply Hadd.
  - destruct (decide (p ∈ alive s)); [|done]. injection Hstep as <- <-.
    apply Hadd. split_and!; cbn; [done| |done].
    intros q Hq. apply Halive. set_solver.
  - destruct (decide (p ∈ alive s)); [|done]. injection Hstep as <- <-.
    apply Hadd. split_and!; cbn; done.
Qed.

Lemma run_tidy (evs : list event) :
  ∀ s rs s', tidy s → run evs s = Some (rs, s') → tidy s'.
Proof.
  induction evs as [|ev evs IH]; intros s rs s' Htidy Hrun; cbn [run] in Hrun.
  - by simplify_eq.
  - destruct (step s ev) as [[r s1]|] eqn:Hstep; cbn [mbind option_bind] in Hrun; [|done].
    destruct (run evs s1) as [[rs1 s2]|] eqn:Hrun1; cbn [mbind option_bind] in Hrun;
      [|done].
    injection Hrun as <- <-. eapply IH; [|done]. by eapply step_tidy.
Qed.

Lemma buildCommand_invalid (t : test) :
  existsb (String.eqb (mode t)) ["single"; "debug"; "multi"; "load"] = false →
  _buildCommand t = inl ("Invalid test mode: " +:+ mode t).
Proof.
  cbn [existsb]. intros H. unfold _buildCommand.
  destruct (String.eqb (mode t) "single"); [done|].
  destruct (String.eqb (mode t) "debug"); [done|].
  destruct (String.eqb (mode t) "multi"); [done|].
  destruct (String.eqb (mode t) "load"); done.
Qed.

Lemma buildCommand_valid (t : test) :
  existsb (String.eqb (mode t)) ["single"; "debug"; "multi"; "load"] = true →
  ∃ command, _buildCommand t = inr command.
Proof.
  cbn [existsb]. intros H. unfold _buildCommand.
  destruct (String.eqb (mode t) "single"); [by eexists|].
  destruct (String.eqb (mode t) "debug"); [by eexists|].
  destruct (String.eqb (mode t) "multi"); [by eexists|].
  destruct (String.eqb (mode t) "load"); [by eexists|done].
Qed.

(** X23: the service keeps the last 100 lines of its log.  In every
    state it can reach the log has at most 100 lines, and after any
    further lines it holds the last 100 of the old and the new lines
    together, in order. *)
Theorem logs_keep_last_hundred (evs : list event) (rs : list outcome) (s : service)
    (messages : list string) :
  run evs new_service = Some (rs, s) →
  length (logs s) ≤ 100 ∧
  logs (foldl (λ s m, _addLog m s) s messages) =
    drop (length (logs s ++ messages) - 100) (logs s ++ messages).
Proof.
  intros Hrun.
  assert (Hnew : tidy new_service).
  { split_and!; cbn; [done| |lia]. intros p Hp. set_solver. }
  destruct (run_tidy _ _ _ _ Hnew Hrun) as (_ & _ & Hlen).
  split; [done|]. by apply addLog_all.
Qed.

Lemma logs_keep_last_hundred_witness :
  ∃ s, run [RunTest multi; Stdout 0 "Test 1/40 completed"] new_service
         = Some ([Done; Done], s) ∧
       logs (foldl (λ s m, _addLog m s) s (replicate 120 "line")) =
         replicate 100 "line".
Proof.
  assert (Hrun : ∃ s, run [RunTest multi; Stdout 0 "Test 1/40 completed"] new_service
                        = Some ([Done; Done], s) ∧ length (logs s) = 2).
  { eexists. split; vm_compute; reflexivity. }
  destruct Hrun as (s & Hrun & Hlen). exists s. split; [exact Hrun|].
  destruct (logs_keep_last_hundred _ _ s (replicate 120 "line") Hrun) as [_ ->].
  rewrite length_app, length_replicate, Hlen. cbn [Nat.add Nat.sub].
  rewrite drop_app_ge by lia. rewrite Hlen. reflexivity.
Defined.

(** X24: a request with an unknown mode leaves a new service
    blocked.  [runTest] sets [isRunning] before it builds the command,
    and the error [_buildCommand] throws leaves the flag set with no
    child started: from then on every [runTest] is refused as already
    running and every [stopTest] as not running, and the state never
    changes. *)
Theorem invalid_mode_blocks_service (o : options) :
  valid_mode o = false →
  let s := (runTest o new_service).2 in
  (runTest o new_service).1 = Throws ("Invalid test mode: " +:+ o_mode o) ∧
  isRunning s = true ∧ children s = [] ∧
  (∀ evs rs s', run evs s = Some (rs, s') →
                s' = s ∧ ∀ r, r ∈ rs → r ≠ Done) ∧
  (∀ evs, forallb is_request evs = true → is_Some (run evs s)).
Proof.
  intros Hbad s. subst s. unfold runTest, new_service.
  cbn [isRunning currentProcess children alive].
  rewrite buildCommand_invalid by exact Hbad. cbn [fst snd].
  remember {| currentProcess := None; isRunning := true;
              currentTest := Some {| mode := o_mode o; count := default "4" (o_count o);
                                     parallel := default "2" (o_parallel o);
                                     duration := default "5" (o_duration o) |};
              logs := []; children := []; alive := ∅ |} as s eqn:Hs0.
  assert (Hstep : ∀ ev r s', step s ev = Some (r, s') → s' = s ∧ r ≠ Done).
  { intros ev r s' H. subst s.
    destruct ev as [o'| |p data|p data|p code|p message];
      cbn in H; try done; by injection H as <- <-. }
  split; [done|]. split; [by subst s|]. split; [by subst s|]. clear Hs0. split.
  - intros evs. induction evs as [|ev evs IH]; intros rs s' Hrun; cbn [run] in Hrun.
    + injection Hrun as <- <-. split; [done|]. intros r Hr. by apply elem_of_nil in Hr.
    + destruct (step s ev) as [[r s1]|] eqn:Hs; cbn [mbind option_bind] in Hrun; [|done].
      destruct (Hstep _ _ _ Hs) as [-> Hr].
      destruct (run evs s) as [[rs1 s2]|] eqn:Hrun1; cbn [mbind option_bind] in Hrun;
        [|done].
      injection Hrun as <- <-. destruct (IH _ _ eq_refl) as [-> Hrs].
      split; [done|]. intros r' [->|Hr']%elem_of_cons; [done|by apply Hrs].
  - intros evs. induction evs as [|ev evs IH]; intros Hreq; cbn [run forallb] in *.
    + by eexists.
    + apply andb_prop in Hreq as [Hev Hreq].
      destruct (IH Hreq) as [[rs s'] Hrun].
      destruct ev as [o'| | | | |]; try done.
      * destruct (step s (RunTest o')) as [[r s1]|] eqn:Hs; [|done].
        destruct (Hstep _ _ _ Hs) as [-> _]. cbn [mbind option_bind].
        rewrite Hrun. by eexists.
      * destruct (step s StopTest) as [[r s1]|] eqn:Hs; [|done].
        destruct (Hstep _ _ _ Hs) as [-> _]. cbn [mbind option_bind].
        rewrite Hrun. by eexists.
Qed.

Lemma invalid_mode_blocks_service_witness :
  ∃ s, run [RunTest multi; StopTest; RunTest multi]
         (runTest {| o_mode := "stress"; o_count := None; o_parallel := None;
                     o_duration := None |} new_service).2
       = Some ([Throws "Test is already running"; Throws "No test is running";
                Throws "Test is already running"], s) ∧ isRunning s = true.
Proof.
  pose proof (invalid_mode_blocks_service
                {| o_mode := "stress"; o_count := None; o_parallel := None;
                   o_duration := None |} eq_refl) as (_ & Hrun & _).
  eexists. split; [vm_compute; reflexivity|exact Hrun].
Defined.

(** X25: [stopTest] clears [isRunning] when it sends the signal, not
    when the child closes, and [currentProcess] is the only child the
    service knows.  So while the child of a test is alive, a stop
    followed by a valid [runTest] starts a second child beside it; when
    the first child then closes, its listener clears [isRunning]
    although the second child is running, and the next [runTest] is
    accepted as well. *)
Theorem stop_then_run_overlaps (s : service) (p : nat) (o o' : options) (code : string) :
  tidy s → currentProcess s = Some p → p ∈ alive s →
  valid_mode o = true → valid_mode o' = true →
  ∃ s1 s2 s3,
    run [StopTest; RunTest o] s = Some ([Done; Done], s1) ∧
    p ∈ alive s1 ∧ length (children s) ∈ alive s1 ∧ p ≠ length (children s) ∧
    step s1 (Close p code) = Some (Done, s2) ∧
    isRunning s2 = false ∧ currentProcess s2 = Some (length (children s)) ∧
    length (children s) ∈ alive s2 ∧
    runTest o' s2 = (Done, s3) ∧ length (children s3) = S (S (length (children s))).
Proof.
  intros (Hcur & Halive & Hlogs) Hp Hin Hvalid Hvalid'.
  assert (Hlt : p < length (children s)) by (by apply Hcur).
  cbn [run step]. unfold stopTest. rewrite Hp. cbn [mbind option_bind].
  unfold runTest at 1. cbn [isRunning _addLog].
  destruct (buildCommand_valid {| mode := o_mode o; count := default "4" (o_count o);
                                  parallel := default "2" (o_parallel o);
                                  duration := default "5" (o_duration o) |} Hvalid)
    as [command Hcommand].
  rewrite Hcommand. cbn [mbind option_bind _addLog children alive isRunning logs
    currentProcess currentTest].
  destruct (buildCommand_valid {| mode := o_mode o'; count := default "4" (o_count o');
                                  parallel := default "2" (o_parallel o');
                                  duration := default "5" (o_duration o') |} Hvalid')
    as [command' Hcommand'].
  do 3 eexists. split; [reflexivity|].
  cbn [alive children]. split; [set_solver|]. split; [set_solver|]. split; [lia|].
  rewrite decide_True by set_solver. split; [reflexivity|].
  cbn [on_close _addLog isRunning currentProcess alive children].
  split; [done|]. split; [done|].
  split; [apply elem_of_difference; split; [set_solver|]; apply not_elem_of_singleton; lia|].
  unfold runTest. cbn [isRunning].
  rewrite Hcommand'. split; [reflexivity|].
  cbn [children _addLog on_close]. rewrite !length_app. cbn [length]. lia.
Qed.

Lemma stop_then_run_overlaps_witness :
  ∃ s0 s1, run [RunTest multi] new_service = Some ([Done], s0) ∧
           run [StopTest; RunTest multi] s0 = Some ([Done; Done], s1) ∧
           alive s1 = {[0; 1]}.
Proof.
  assert (Hrun : ∃ s0, run [RunTest multi] new_service = Some ([Done], s0) ∧
                       currentProcess s0 = Some 0 ∧ alive s0 = {[0]} ∪ ∅ ∧
                       children s0 = ["node cli.js multi -c 40 -p 20"] ∧
                       length (logs s0) = 1).
  { eexists. split_and!; reflexivity. }
  destruct Hrun as (s0 & Hrun & Hcur & Hal & Hch & Hlogs).
  assert (Htidy : tidy s0).
  { split_and!.
    - intros p Hp. rewrite Hcur in Hp. injection Hp as <-. rewrite Hch. cbn. lia.
    - intros p Hp. rewrite Hal in Hp. rewrite Hch. cbn.
      apply elem_of_union in Hp as [->%elem_of_singleton|Hp]; [lia|set_solver].
    - lia. }
  assert (Hin : 0 ∈ alive s0) by (rewrite Hal; set_solver).
  destruct (stop_then_run_overlaps s0 0 multi multi "0" Htidy Hcur Hin eq_refl eq_refl)
    as (s1 & s2 & s3 & Hrun1 & H0 & H1 & _).
  exists s0, s1. split; [exact Hrun|]. split; [exact Hrun1|].
  cbn [run step] in Hrun1. unfold stopTest in Hrun1. rewrite Hcur in Hrun1.
  cbn in Hrun1. injection Hrun1 as <-. cbn [alive]. rewrite Hal, Hch. cbn [length].
  apply set_eq. intros x. set_solver.
Defined.

End TestManagerFacts.

Section ReportFacts.
Import KoreanReportGenerator.
Local Open Scope Z_scope.

Lemma weigh_cons (f : timeline_event → Z) (x : timeline_event) (l : list timeline_event) :
  weigh f (x :: l) = f x + weigh f l.
Proof. done. Qed.

Lemma weigh_app (f : timeline_event → Z) (l k : list timeline_event) :
  weigh f (l ++ k) = weigh f l + weigh f k.
Proof.
  induction l as [|x l IH]; [done|].
  rewrite <- app_comm_cons, !weigh_cons, IH. lia.
Qed.

Lemma weigh_le (f g : timeline_event → Z) (l : list timeline_event) :
  (∀ e, e ∈ l → f e ≤ g e) → weigh f l ≤ weigh g l.
Proof.
  induction l as [|x l IH]; intros H; [done|]. rewrite !weigh_cons.
  assert (f x ≤ g x) by (apply H; left).
  assert (weigh f l ≤ weigh g l) by (apply IH; intros e He; apply H; by right).
  lia.
Qed.

Lemma weigh_nonneg (f : timeline_event → Z) (l : list timeline_event) :
  (∀ e, e ∈ l → 0 ≤ f e) → 0 ≤ weigh f l.
Proof.
  induction l as [|x l IH]; intros H; [done|]. rewrite weigh_cons.
  assert (0 ≤ f x) by (apply H; left).
  assert (0 ≤ weigh f l) by (apply IH; intros e He; apply H; by right).
  lia.
Qed.

Lemma weigh_insert (f : timeline_event → Z) (e : timeline_event) (l : list timeline_event) :
  weigh f (insert_by_time e l) = f e + weigh f l.
Proof.
  induction l as [|x l IH]; [cbn; lia|]. cbn [insert_by_time].
  destruct (time e <=? time x); [done|]. rewrite !weigh_cons, IH. lia.
Qed.

Lemma weigh_sort (f : timeline_event → Z) (l : list timeline_event) :
  weigh f (sort_by_time l) = weigh f l.
Proof.
  induction l as [|x l IH]; [done|].
  change (sort_by_time (x :: l)) with (insert_by_time x (sort_by_time l)).
  by rewrite weigh_insert, weigh_cons, IH.
Qed.

Lemma elem_of_insert_by_time (e y : timeline_event) (l : list timeline_event) :
  y ∈ insert_by_time e l ↔ y = e ∨ y ∈ l.
Proof.
  induction l as [|x l IH]; cbn.
  - rewrite list_elem_of_singleton. split; [by left|]. intros [?|H]; [done|].
    by apply elem_of_nil in H.
  - destruct (time e <=? time x).
    + by rewrite elem_of_cons.
    + rewrite !elem_of_cons, IH. tauto.
Qed.

Lemma insert_in_order (e : timeline_event) (l : list timeline_event) :
  in_order l → in_order (insert_by_time e l).
Proof.
  induction l as [|x l IH]; intros Hl; cbn.
  - split; [|done]. intros y Hy. by apply elem_of_nil in Hy.
  - destruct Hl as [Hx Hl]. destruct (Z.leb_spec (time e) (time x)) as [Hle|Hgt].
    + split; [|by split]. intros y [->|Hy]%elem_of_cons; [done|].
      specialize (Hx y Hy). lia.
    + split; [|by apply IH]. intros y [->|Hy]%elem_of_insert_by_time; [lia|by apply Hx].
Qed.

Lemma sort_in_order (l : list timeline_event) : in_order (sort_by_time l).
Proof. induction l as [|x l IH]; cbn; [done|]. by apply insert_in_order. Qed.

(** The events before a time are a prefix of a list in order. *)
Lemma in_order_split (t : Z) (l : list timeline_event) :
  in_order l →
  ∃ p q, l = p ++ q ∧ (∀ e, e ∈ p → time e < t) ∧ (∀ e, e ∈ q → t ≤ time e).
Proof.
  induction l as [|x l IH]; intros Hl.
  - exists [], []. split_and!; [done|intros e He; by apply elem_of_nil in He..].
  - destruct Hl as [Hx Hl]. destruct (Z.lt_ge_cases (time x) t) as [Hlt|Hge].
    + destruct (IH Hl) as (p & q & -> & Hp & Hq). exists (x :: p), q.
      split_and!; [done| |done]. intros e [->|He]%elem_of_cons; [done|by apply Hp].
    + exists [], (x :: l). split_and!; [done|intros e He; by apply elem_of_nil in He|].
      intros e [->|He]%elem_of_cons; [done|]. specialize (Hx e He). lia.
Qed.

(** What the loop computes: the largest sum of a prefix. *)
Lemma advance_all (l : list timeline_event) :
  ∀ current max,
    let r := fold_left advance l (current, max) in
    r.1 = current + weigh delta l ∧ max ≤ r.2 ∧
    (∀ p q, l = p ++ q → p ≠ [] → current + weigh delta p ≤ r.2) ∧
    (r.2 = max ∨ ∃ p e q, l = p ++ e :: q ∧ r.2 = current + weigh delta (p ++ [e])).
Proof.
  induction l as [|x l IH]; intros current max; cbn [fold_left].
  - cbn. split_and!; [lia|lia| |by left].
    intros p q Hpq Hp. by destruct p.
  - specialize (IH (current + delta x)
                   (if max <? current + delta x then current + delta x else max)).
    unfold advance at 2. cbn [fst snd].
    destruct IH as (Hcur & Hmax & Hpre & Hwit).
    set (r := fold_left advance l _) in *.
    assert (Hm : max ≤ (if max <? current + delta x then current + delta x else max) ∧
                 current + delta x ≤
                   (if max <? current + delta x then current + delta x else max)).
    { destruct (Z.ltb_spec max (current + delta x)); lia. }
    split_and!.
    + rewrite Hcur, weigh_cons. lia.
    + lia.
    + intros p q Hpq Hp. destruct p as [|y p]; [done|]. injection Hpq as <- ->.
      rewrite weigh_cons. destruct p as [|z p].
      * change (weigh delta []) with 0. lia.
      * specialize (Hpre (z :: p) q eq_refl ltac:(done)). lia.
    + destruct Hwit as [Hr|(p & e & q & -> & Hr)].
      * destruct (Z.ltb_spec max (current + delta x)); [|by left].
        right. exists [], x, l. split; [done|]. rewrite Hr. cbn. lia.
      * right. exists (x :: p), e, q. split; [done|].
        rewrite Hr, <- app_comm_cons, weigh_cons. lia.
Qed.

Lemma weigh_timeline (f : timeline_event → Z) (sessions : list ConcurrentMonitor.session) :
  weigh f (timeline sessions) =
  foldr (λ s acc, match interval s with
                  | Some (a, b) => f {| time := a; delta := 1 |} +
                                   f {| time := b; delta := -1 |}
                  | None => 0
                  end + acc) 0 sessions.
Proof.
  induction sessions as [|s sessions IH]; [done|].
  unfold timeline in *. rewrite fmap_cons. cbn [concat foldr]. rewrite weigh_app, IH.
  f_equal. unfold events_of. destruct (interval s) as [[a b]|]; cbn; lia.
Qed.

Lemma count_timeline (p : Z → Z → bool) (f : timeline_event → Z)
    (sessions : list ConcurrentMonitor.session) :
  (∀ s a b, s ∈ sessions → interval s = Some (a, b) →
            f {| time := a; delta := 1 |} + f {| time := b; delta := -1 |} =
            if p a b then 1 else 0) →
  weigh f (timeline sessions) = Z.of_nat (count_where p sessions).
Proof.
  intros H. rewrite weigh_timeline. unfold count_where.
  induction sessions as [|s sessions IH]; [done|]. cbn [foldr List.filter].
  rewrite IH by (intros s' a b Hs'; apply H; by right).
  destruct (interval s) as [[a b]|] eqn:Hs; [|done].
  rewrite (H s a b ltac:(left) Hs). destruct (p a b); cbn [length]; lia.
Qed.

Lemma weigh_ext_in (f g : timeline_event → Z) (l : list timeline_event) :
  (∀ e, e ∈ l → f e = g e) → weigh f l = weigh g l.
Proof.
  intros H. apply Z.le_antisymm; apply weigh_le; intros e He; rewrite (H e He); lia.
Qed.

Lemma in_order_middle (p q : list timeline_event) (e : timeline_event) :
  in_order (p ++ e :: q) →
  (∀ x, x ∈ p → time x ≤ time e) ∧ (∀ y, y ∈ q → time e ≤ time y).
Proof.
  induction p as [|z p IH]; cbn [app in_order].
  - intros [He _]. split; [|done]. intros x Hx. by apply elem_of_nil in Hx.
  - intros [Hz Hrest]. destruct (IH Hrest) as [Hp Hq]. split; [|done].
    intros x [->|Hx]%elem_of_cons; [|by apply Hp].
    apply Hz. apply elem_of_app. right. left.
Qed.

(** X26: the largest number of sessions at once that the report
    prints.  For sessions that did not end before they started,
    [getMaxConcurrent] is at least the number of sessions running at
    any instant, counting a session from just after its start to its
    end, and unless it is 0 it is at most the number running at some
    instant, counting a session from its start to its end; it never
    exceeds the number of sessions that have both times.  A session
    without a start or an end time (or with a time of 0) is not
    counted. *)
Theorem getMaxConcurrent_bounds (sessions : list ConcurrentMonitor.session) :
  (∀ s a b, s ∈ sessions → interval s = Some (a, b) → a ≤ b) →
  let m := getMaxConcurrent sessions in
  0 ≤ m ≤ Z.of_nat (count_where (λ _ _, true) sessions) ∧
  (∀ t, Z.of_nat (count_where (λ a b, (a <? t) && (t <=? b))%bool sessions) ≤ m) ∧
  (m = 0 ∨
   ∃ t, m ≤ Z.of_nat (count_where (λ a b, (a <=? t) && (t <=? b))%bool sessions)).
Proof.
  intros Hab m. subst m. unfold getMaxConcurrent.
  set (L := sort_by_time (timeline sessions)).
  destruct (advance_all L 0 0) as (_ & Hmax & Hpre & Hwit).
  pose proof (sort_in_order (timeline sessions)) as Hord. fold L in Hord.
  set (m := (fold_left advance L (0, 0)).2) in *.
  set (pos := λ e : timeline_event, Z.max 0 (delta e)).
  assert (Hupper : ∀ p e q, L = p ++ e :: q → m = 0 + weigh delta (p ++ [e]) →
            m ≤ Z.of_nat (count_where (λ _ _, true) sessions) ∧
            m ≤ Z.of_nat (count_where (λ a b, (a <=? time e) && (time e <=? b))%bool
                            sessions)).
  { intros p e q HL Hm. rewrite HL in Hord.
    destruct (in_order_middle p q e Hord) as [Hp Hq].
    assert (HL' : L = (p ++ [e]) ++ q) by (by rewrite <- app_assoc).
    split.
    - rewrite <- (count_timeline _ pos).
      + rewrite <- (weigh_sort pos). fold L. rewrite HL', weigh_app, Hm.
        assert (weigh delta (p ++ [e]) ≤ weigh pos (p ++ [e])).
        { apply weigh_le. intros x _. unfold pos. lia. }
        assert (0 ≤ weigh pos q).
        { apply weigh_nonneg. intros x _. unfold pos. lia. }
        lia.
      + intros s a b _ _. done.
    - set (g := λ x : timeline_event,
                  if time x <? time e then delta x
                  else if time x =? time e then pos x else 0).
      rewrite <- (count_timeline _ g).
      + rewrite <- (weigh_sort g). fold L. rewrite HL', weigh_app, Hm.
        assert (weigh delta (p ++ [e]) ≤ weigh g (p ++ [e])).
        { apply weigh_le. intros x Hx. unfold g, pos.
          assert (time x ≤ time e).
          { apply elem_of_app in Hx as [Hx|Hx%list_elem_of_singleton];
              [by apply Hp|subst x; lia]. }
          destruct (Z.ltb_spec (time x) (time e)); [lia|].
          destruct (Z.eqb_spec (time x) (time e)); lia. }
        assert (0 ≤ weigh g q).
        { apply weigh_nonneg. intros x Hx. unfold g, pos. specialize (Hq x Hx).
          destruct (Z.ltb_spec (time x) (time e)); [lia|].
          destruct (Z.eqb_spec (time x) (time e)); lia. }
        lia.
      + intros s a b Hs Hi. specialize (Hab s a b Hs Hi). unfold g, pos. cbn [time delta].
        destruct (Z.ltb_spec a (time e)), (Z.eqb_spec a (time e)),
          (Z.ltb_spec b (time e)), (Z.eqb_spec b (time e)),
          (Z.leb_spec a (time e)), (Z.leb_spec (time e) b); cbn; lia. }
  split_and!.
  - done.
  - destruct Hwit as [->|(p & e & q & HL & Hm)]; [lia|].
    by destruct (Hupper p e q HL Hm).
  - intros t.
    destruct (in_order_split t L Hord) as (p & q & HL & Hp & Hq).
    set (f := λ x : timeline_event, if time x <? t then delta x else 0).
    rewrite <- (count_timeline _ f).
    + rewrite <- (weigh_sort f). fold L. rewrite HL, weigh_app.
      rewrite (weigh_ext_in f delta p).
      2: { intros x Hx. unfold f. specialize (Hp x Hx).
           destruct (Z.ltb_spec (time x) t); [done|lia]. }
      rewrite (weigh_ext_in f (λ _, 0) q).
      2: { intros x Hx. unfold f. specialize (Hq x Hx).
           destruct (Z.ltb_spec (time x) t); [lia|done]. }
      assert (weigh (λ _, 0) q = 0) as ->.
      { clear. induction q as [|x q IH]; [done|]. by rewrite weigh_cons, IH. }
      destruct p as [|x p]; [cbn; lia|].
      specialize (Hpre (x :: p) q HL ltac:(done)). lia.
    + intros s a b Hs Hi. specialize (Hab s a b Hs Hi). unfold f. cbn [time delta].
      destruct (Z.ltb_spec a t), (Z.ltb_spec b t), (Z.leb_spec t b); cbn; lia.
  - destruct Hwit as [H|(p & e & q & HL & Hm)]; [by left|].
    right. exists (time e). by destruct (Hupper p e q HL Hm).
Qed.

Lemma getMaxConcurrent_bounds_witness :
  getMaxConcurrent [ran 100 200; ran 150 300; ran 300 400] = 2 ∧
  Z.of_nat (count_where (λ a b, (a <? 160) && (160 <=? b))%bool
              [ran 100 200; ran 150 300; ran 300 400]) ≤
    getMaxConcurrent [ran 100 200; ran 150 300; ran 300 400].
Proof.
  split; [reflexivity|].
  apply (getMaxConcurrent_bounds [ran 100 200; ran 150 300; ran 300 400]).
  intros s a b Hs Hi.
  repeat (apply elem_of_cons in Hs as [->|Hs]; [cbn in Hi; injection Hi as <- <-; lia|]).
  by apply elem_of_nil in Hs.
Defined.

End ReportFacts.

Section AverageFacts.
Import KoreanReportGenerator.
Local Open Scope Z_scope.

Lemma round_ten (num : Z) (den : positive) :
  num = 10 * Z.pos den → round (Qmake num den) = 10.
Proof.
  intros ->. unfold round. cbn [Qnum Qden].
  symmetry. apply (Z.div_unique_pos _ _ 10 (Z.pos den)); lia.
Qed.

(** X27: the average number of concurrent sessions that the report
    prints says nothing about the run.  [getAvgConcurrent] divides the
    total duration by the average duration and then by the number of
    sessions, which gives 1 whatever the sessions are: the result is 0
    when no session has both its times or the durations add up to 0,
    and 1 in every other case. *)
Theorem getAvgConcurrent_is_one (sessions : list ConcurrentMonitor.session) :
  let total := fold_left Z.add (durations sessions) 0 in
  (durations sessions = [] ∨ total = 0 → getAvgConcurrent sessions = Qmake 0 1) ∧
  (durations sessions ≠ [] ∧ total ≠ 0 → getAvgConcurrent sessions = Qmake 10 10) ∧
  Qeq (Qmake 10 10) (Qmake 1 1).
Proof.
  intros total. unfold getAvgConcurrent. fold total.
  destruct (durations sessions) as [|d ds] eqn:Hds.
  { split_and!; [done|by intros [? _]|done]. }
  set (n := Z.of_nat (length (d :: ds))).
  assert (Hn : ∃ p, n = Z.pos p).
  { exists (Pos.of_succ_nat (length ds)). unfold n. cbn [length]. lia. }
  destruct Hn as [p Hp]. rewrite Hp.
  destruct total as [|t|t] eqn:Ht.
  - split_and!; [done|by intros [_ ?]|done].
  - split_and!; [by intros [?|?]| |done]. intros _.
    cbv [Qdiv Qmult Qinv inject_Z Qnum Qden]. rewrite !Z.mul_1_r.
    cbn -[round Z.mul Pos.mul]. rewrite round_ten; [done|lia].
  - split_and!; [by intros [?|?]| |done]. intros _.
    cbv [Qdiv Qmult Qinv inject_Z Qnum Qden]. rewrite !Z.mul_1_r.
    cbn -[round Z.mul Pos.mul]. rewrite round_ten; [done|lia].
Qed.

End AverageFacts.

Section PerformanceFacts.
Import PerformanceMonitor.
Local Open Scope Z_scope.

Lemma apply_call_sound (last : Z) (m : monitor) (c : call) :
  sound last m → clock_advances last [c] → 0 < last →
  ∃ last', last ≤ last' ∧ sound last' (apply_call m c) ∧
           ∀ rest, clock_advances last (c :: rest) → clock_advances last' rest.
Proof.
  intros (Hcnt & Htimes & Htimers & Herr & Htot & Hown) Hclock Hlast.
  destruct c as [operation now|operation now|step message| | |]; cbn [apply_call].
  - destruct Hclock as [Hnow _]. exists now. split; [done|]. split.
    + split_and!; cbn; [done|done| |done|done|done].
      intros op t Ht. destruct (decide (op = operation)) as [->|Hne].
      * rewrite lookup_insert_eq in Ht. injection Ht as <-. lia.
      * rewrite lookup_insert_ne in Ht by done. specialize (Htimers op t Ht). lia.
    + intros rest [_ Hrest]. done.
  - destruct Hclock as [Hnow _]. exists now. split; [done|]. split.
    + unfold endTimer. destruct (timers m !! operation) as [startTime|] eqn:Hstart.
      2: { split_and!; cbn; [done|done| |done|done|done].
           intros op t Ht. specialize (Htimers op t Ht). lia. }
      destruct (Z.eqb_spec startTime 0) as [->|Hnz].
      { split_and!; cbn; [done|done| |done|done|done].
        intros op t Ht. specialize (Htimers op t Ht). lia. }
      specialize (Htimers operation startTime Hstart) as Hst.
      assert (Hdel : ∀ op t, delete operation (timers m) !! op = Some t → 0 < t ≤ now).
      { intros op t Ht. destruct (decide (op = operation)) as [->|Hne].
        - by rewrite lookup_delete_eq in Ht.
        - rewrite lookup_delete_ne in Ht by done. specialize (Htimers op t Ht). lia. }
      assert (Hrecord : ∀ times count,
                count = Z.of_nat (length times) → (∀ d, d ∈ times → 0 ≤ d) →
                JsString.inherited operation = false ∨ is_Some (stepTimes m !! operation) →
                sound now
                  {| timers := delete operation (timers m);
                     stepTimes := <[operation := times ++ [now - startTime]]> (stepTimes m);
                     stepCounts := <[operation := count + 1]> (stepCounts m);
                     totalRequests := totalRequests m; failedRequests := failedRequests m;
                     errors := errors m |}).
      { intros times count -> Hpos Hname.
        split_and!; cbn [stepCounts stepTimes timers errors failedRequests totalRequests];
          [| |exact Hdel|done|done|].
        - intros op. destruct (decide (op = operation)) as [->|Hne].
          + rewrite !lookup_insert_eq. cbn. f_equal. rewrite length_app. cbn [length]. lia.
          + rewrite !lookup_insert_ne by done. apply Hcnt.
        - intros op ts Hts. destruct (decide (op = operation)) as [->|Hne].
          + rewrite lookup_insert_eq in Hts. injection Hts as <-.
            split; [by destruct times|].
            intros d [Hd|Hd%list_elem_of_singleton]%elem_of_app; [by apply Hpos|lia].
          + rewrite lookup_insert_ne in Hts by done. by apply (Htimes op).
        - intros op Hop. destruct (decide (op = operation)) as [->|Hne].
          + destruct Hname as [Hname|[ts Hts]]; [congruence|].
            rewrite (Hown operation Hop) in Hts. discriminate Hts.
          + rewrite lookup_insert_ne by done. by apply Hown. }
      destruct (stepTimes m !! operation) as [times|] eqn:Htimes_op.
      * cbn [snd]. apply Hrecord.
        -- specialize (Hcnt operation). rewrite Htimes_op in Hcnt. cbn in Hcnt.
           by rewrite Hcnt.
        -- intros d Hd. by apply (Htimes operation times Htimes_op).
        -- right. eauto.
      * destruct (JsString.inherited operation) eqn:Hname; cbn [snd].
        -- split_and!; cbn [stepCounts stepTimes timers errors failedRequests totalRequests];
             [done|done|exact Hdel|done|done|done].
        -- apply Hrecord; [done| |by left]. intros d Hd. by apply elem_of_nil in Hd.
    + intros rest [_ Hrest]. done.
  - exists last. split; [lia|]. split; [|by intros rest Hrest].
    split_and!; cbn; [done..| |done|done]. rewrite length_app. cbn [length]. lia.
  - exists last. split; [lia|]. split; [|by intros rest Hrest].
    split_and!; cbn; [done..|lia|done].
  - exists last. split; [lia|]. split; [|by intros rest Hrest].
    split_and!; cbn; [done..|lia|done|done].
  - exists last. split; [lia|]. split; [|by intros rest Hrest].
    split_and!; cbn; [done| | |lia|lia|done].
    + intros op ts H. by rewrite lookup_empty in H.
    + intros op t H. by rewrite lookup_empty in H.
Qed.

Lemma run_sound (calls : list call) :
  ∀ last m, sound last m → clock_advances last calls → 0 < last →
            ∃ last', sound last' (run calls m).
Proof.
  induction calls as [|c calls IH]; intros last m Hm Hclock Hlast; cbn [run fold_left].
  - by exists last.
  - assert (Hc : clock_advances last [c]).
    { destruct c; cbn in *; tauto. }
    destruct (apply_call_sound last m c Hm Hc Hlast) as (last' & Hle & Hm' & Hrest).
    apply (IH last'); [done|by apply Hrest|lia].
Qed.

Lemma run_requests (calls : list call) :
  ∀ m, IncrementRequests ∉ calls → totalRequests m = 0 →
       totalRequests (run calls m) = 0.
Proof.
  induction calls as [|c calls IH]; intros m Hno Hm; cbn [run fold_left]; [done|].
  apply IH; [intros H; apply Hno; by right|].
  destruct c; cbn; try done.
  - unfold endTimer. destruct (timers m !! operation) as [t|]; [|done].
    destruct (t =? 0); [done|].
    destruct (stepTimes m !! operation); [done|].
    by destruct (JsString.inherited operation).
  - destruct Hno. left.
Qed.

(** X28: the bookkeeping of the performance monitor.  After any
    calls whose clock readings are positive and do not go back, every
    operation that has samples has as many as its count says, no
    sample is negative, and [failedRequests] is at least the number of
    errors recorded.  [endTimer] for an operation whose timer is not
    running returns 0 and records nothing.  For an operation whose
    timer is running it deletes the timer; it then returns the time
    since the start and adds it to the samples of the operation,
    unless the operation is named like a member of [Object.prototype]:
    then it throws a [TypeError] and records nothing, so that such an
    operation never has samples.  Only [incrementRequests] raises
    [totalRequests]: without a call of it the error rate is 0 whatever
    errors were recorded. *)
Theorem performance_bookkeeping (calls : list call) :
  clock_advances 1 calls →
  let m := run calls new_monitor in
  (∀ operation,
     stepCounts m !! operation = (λ ts, Z.of_nat (length ts)) <$> stepTimes m !! operation) ∧
  (∀ operation ts d, stepTimes m !! operation = Some ts → d ∈ ts → 0 ≤ d) ∧
  Z.of_nat (length (errors m)) ≤ failedRequests m ∧
  (∀ operation now,
     timers m !! operation = None → endTimer operation now m = (inr 0, m)) ∧
  (∀ operation now start,
     timers m !! operation = Some start →
     let r := endTimer operation now m in
     timers r.2 = delete operation (timers m) ∧
     if JsString.inherited operation then
       r.1 = inl push_TypeError ∧
       stepTimes r.2 = stepTimes m ∧ stepCounts r.2 = stepCounts m
     else
       r.1 = inr (now - start) ∧
       stepTimes r.2 !! operation =
         Some (default [] (stepTimes m !! operation) ++ [now - start])) ∧
  (∀ operation, JsString.inherited operation = true → stepTimes m !! operation = None) ∧
  (IncrementRequests ∉ calls → errorRate m = Qmake 0 1).
Proof.
  intros Hclock m.
  assert (Hnew : sound 1 new_monitor).
  { split_and!; cbn; [|intros op ts H; by rewrite lookup_empty in H
                      |intros op t H; by rewrite lookup_empty in H|lia|lia|done].
    intros op. by rewrite !lookup_empty. }
  destruct (run_sound calls 1 new_monitor Hnew Hclock ltac:(lia))
    as (last & Hcnt & Htimes & Htimers & Herr & _ & Hown).
  fold m in Hcnt, Htimes, Htimers, Herr, Hown.
  split_and!; [done| |done| | |done|].
  - intros op ts d Hts Hd. by apply (Htimes op ts Hts).
  - intros op now Hnone. unfold endTimer. by rewrite Hnone.
  - intros op now start Hstart. unfold endTimer. rewrite Hstart.
    destruct (Z.eqb_spec start 0) as [->|_]; [specialize (Htimers op 0 Hstart); lia|].
    destruct (JsString.inherited op) eqn:Hname.
    + rewrite (Hown op Hname). cbn. done.
    + destruct (stepTimes m !! op) as [times|]; cbn;
        by rewrite lookup_insert_eq.
  - intros Hno. unfold errorRate. subst m. by rewrite run_requests.
Qed.

Lemma performance_bookkeeping_witness :
  let m := run [StartTimer "total" 1000; StartTimer "payment" 1200;
                StartTimer "constructor" 1300;
                RecordError "payment" "Network error after 3 retries: reset";
                EndTimer "payment" 5200; EndTimer "constructor" 5250;
                EndTimer "payment" 5300] new_monitor in
  stepTimes m !! "payment" = Some [4000] ∧ stepCounts m !! "payment" = Some 1 ∧
  stepTimes m !! "constructor" = None ∧ timers m !! "constructor" = None ∧
  (endTimer "total" 6000 m).1 = inr 5000 ∧
  failedRequests m = 1 ∧ errorRate m = Qmake 0 1.
Proof.
  intros m.
  assert (Hclock : clock_advances 1
            [StartTimer "total" 1000; StartTimer "payment" 1200;
             StartTimer "constructor" 1300;
             RecordError "payment" "Network error after 3 retries: reset";
             EndTimer "payment" 5200; EndTimer "constructor" 5250;
             EndTimer "payment" 5300]).
  { cbn. lia. }
  destruct (performance_bookkeeping _ Hclock) as (_ & _ & _ & _ & Hend & Hown & Hrate).
  split; [vm_compute; reflexivity|]. split; [vm_compute; reflexivity|].
  split; [apply Hown; reflexivity|]. split; [vm_compute; reflexivity|].
  split; [exact (proj1 (proj2 (Hend "total" 6000 1000 eq_refl)))|].
  split; [reflexivity|]. apply Hrate.
  intros H. repeat (apply elem_of_cons in H as [H|H]; [discriminate H|]).
  by apply elem_of_nil in H.
Defined.

End PerformanceFacts.
